(** * newpkg dependency resolver ([newpkg/lib/deps.py])

    A shallow embedding of the resolver core: descriptor normalisation,
    the dependency graph (a [networkx.DiGraph]), the graph cache, the
    resolver, orphan detection and rebuild-impact analysis; and of what
    is built on it: the queries for missing dependencies and for the
    order of installation, the rescan of the ports tree, the export of
    the graph and the dispatch of the command line.  The file system,
    the database CLI and the terminal are collaborators: what they
    answer is a parameter of the function that asks.

    Data model.  Package names are Python [str] values, embedded as
    [string] (a sequence of code points below 256).  Decoded YAML / JSON
    documents are embedded as [json]: [None], strings, lists,
    string-keyed dicts and sets.  A set is the value of a YAML document
    that is neither hashable nor written by [json.dump]; numbers,
    booleans and dates are left out, the descriptor fields of the data
    model (name, version, origin, provides, dependency lists) being
    strings and lists of strings.  Everything that is not a string in a
    position where the code needs a node name then ends in a Python
    exception, which the embedding keeps ([Raise]).

    Choices that the code leaves to its libraries are parameters: the
    order in which a Python set and a filtered graph view iterate
    ([set_iter], [view_iter]), and the order and the starting nodes of
    the cycles that [nx.simple_cycles] yields ([cycle_rank],
    [cycle_start]). *)

From Stdlib Require Import String Ascii DecimalString List Bool Arith Lia Permutation Sorted.
Import ListNotations.
Local Open Scope string_scope.
Local Open Scope list_scope.
Local Open Scope nat_scope.
Set Warnings "-register-all".

(* ================================================================== *)
(** ** Python values and builtins *)

Module Py.

(** A decoded YAML or JSON value.  [JSet] is a Python [set], which
    [yaml.safe_load] gives for a [!!set] node and [json.load] never
    gives; its items are listed in the order in which it iterates. *)
Inductive json : Type :=
| JNull
| JStr (s : string)
| JList (items : list json)
| JObj (fields : list (string * json))
| JSet (items : list json).

(** Python exceptions that the modelled code can meet.  [OSError]
    stands for the subclasses of it that no handler of the module
    names, such as [PermissionError].  [OutOfFuel] is not a Python
    exception: it marks a loop of the embedding that was given too
    little fuel, and is shown never to be produced. *)
Inductive exn : Type :=
| IndexError | TypeError | ValueError | AttributeError | KeyError
| EOFError | NetworkXError | NetworkXUnfeasible | NetworkXNoPath
| NodeNotFound | RuntimeError | OSError | OutOfFuel.

Inductive result (A : Type) : Type :=
| Ok (a : A)
| Raise (e : exn).
Arguments Ok {A} a.
Arguments Raise {A} e.

Definition bind {A B} (r : result A) (k : A -> result B) : result B :=
  match r with
  | Ok a => k a
  | Raise e => Raise e
  end.

(** [bool(v)] *)
Definition truthy (v : json) : bool :=
  match v with
  | JNull => false
  | JStr s => negb (String.eqb s "")
  | JList l => match l with [] => false | _ => true end
  | JObj d => match d with [] => false | _ => true end
  | JSet l => match l with [] => false | _ => true end
  end.

(** [a or b] *)
Definition por (a b : json) : json := if truthy a then a else b.

(** dict lookup; a dict is its list of items in insertion order *)
Fixpoint lookup {A : Type} (k : string) (d : list (string * A)) : option A :=
  match d with
  | [] => None
  | (k', v) :: rest => if String.eqb k' k then Some v else lookup k rest
  end.

(** [d.get(k, default)] and [d.get(k)] *)
Definition get_or (k : string) (d : list (string * json)) (default : json) : json :=
  match lookup k d with Some v => v | None => default end.
Definition get (k : string) (d : list (string * json)) : json := get_or k d JNull.

(** [d[k] = v]: an existing key keeps its place *)
Fixpoint dict_set {A : Type} (k : string) (v : A) (d : list (string * A))
  : list (string * A) :=
  match d with
  | [] => [(k, v)]
  | (k', v') :: rest =>
      if String.eqb k' k then (k, v) :: rest else (k', v') :: dict_set k v rest
  end.

(** [d.update(other)] *)
Definition dict_update {A : Type} (d other : list (string * A)) : list (string * A) :=
  fold_left (fun acc kv => dict_set (fst kv) (snd kv) acc) other d.

(** membership in a list or set of strings *)
Definition mem (x : string) (l : list string) : bool :=
  existsb (String.eqb x) l.

(** [s.add(x)] on a set kept as a duplicate-free list *)
Definition set_add (x : string) (s : list string) : list string :=
  if mem x s then s else s ++ [x].

(** [for it in v] on a truthy value: the items of a list or set, the
    characters of a string, the keys of a dict *)
Definition chars (s : string) : list json :=
  map (fun c => JStr (String c EmptyString)) (list_ascii_of_string s).

Definition iter (v : json) : result (list json) :=
  match v with
  | JNull => Raise TypeError
  | JStr s => Ok (chars s)
  | JList l => Ok l
  | JObj d => Ok (map (fun kv => JStr (fst kv)) d)
  | JSet l => Ok l
  end.

(** [json.dump] can write [v]: it raises [TypeError] on a set *)
Fixpoint dumpable (v : json) : bool :=
  match v with
  | JNull | JStr _ => true
  | JList l => forallb dumpable l
  | JObj d => forallb (fun kv => dumpable (snd kv)) d
  | JSet _ => false
  end.

(** *** [str] methods *)

(** [c.isspace()] for a code point below 256 *)
Definition is_space (c : ascii) : bool :=
  let n := nat_of_ascii c in
  ((9 <=? n) && (n <=? 13)) || ((28 <=? n) && (n <=? 32))
  || (n =? 133) || (n =? 160).

(** [s.split()]: the maximal runs of non-whitespace characters.
    [cur] is the run being read, reversed. *)
Definition flush (cur : list ascii) (acc : list string) : list string :=
  match cur with
  | [] => acc
  | _ => string_of_list_ascii (rev cur) :: acc
  end.

Fixpoint split_ws_aux (s : string) (cur : list ascii) : list string :=
  match s with
  | EmptyString => flush cur []
  | String c rest =>
      if is_space c then flush cur (split_ws_aux rest [])
      else split_ws_aux rest (c :: cur)
  end.

Definition split_ws (s : string) : list string := split_ws_aux s [].

(** [s.split(sep)[0]] for a non-empty separator: the text before the
    first occurrence of [sep] *)
Fixpoint before (sep s : string) : string :=
  if prefix sep s then EmptyString
  else match s with
       | EmptyString => EmptyString
       | String c rest => String c (before sep rest)
       end.

(** [s.strip()] *)
Fixpoint lstrip (s : string) : string :=
  match s with
  | EmptyString => EmptyString
  | String c rest => if is_space c then lstrip rest else s
  end.

Definition rev_string (s : string) : string :=
  string_of_list_ascii (rev (list_ascii_of_string s)).

Definition strip (s : string) : string :=
  rev_string (lstrip (rev_string (lstrip s))).

(** [s.lower()] on code points below 256 *)
Definition lower_char (c : ascii) : ascii :=
  let n := nat_of_ascii c in
  if ((65 <=? n) && (n <=? 90))
     || ((192 <=? n) && (n <=? 222) && negb (n =? 215))
  then ascii_of_nat (n + 32) else c.

Fixpoint lower (s : string) : string :=
  match s with
  | EmptyString => EmptyString
  | String c rest => String (lower_char c) (lower rest)
  end.

(** [sep.join(l)] *)
Fixpoint join (sep : string) (l : list string) : string :=
  match l with
  | [] => EmptyString
  | [x] => x
  | x :: rest => (x ++ sep ++ join sep rest)%string
  end.

(** [sorted(l, key=key, reverse=True)]: a stable sort, largest key
    first; equal keys keep the order they have in [l] *)
Fixpoint insert_desc (key : string -> nat) (x : string) (l : list string)
  : list string :=
  match l with
  | [] => [x]
  | y :: rest =>
      if key y <=? key x then x :: l else y :: insert_desc key x rest
  end.

Definition sorted_desc (key : string -> nat) (l : list string) : list string :=
  fold_right (insert_desc key) [] l.

End Py.
Import Py.

(* ================================================================== *)
(** ** The [networkx] directed graph *)

Module NX.

Definition attr_dict : Type := list (string * json).

Record node_data : Type := mk_node { attrs : attr_dict; succ : list string }.

(** A [DiGraph] keeps [_node] (name to attribute dict) and [_succ] (name
    to successor dict); both receive a name at the same moment, so they
    share their key order and are kept as one association list.  An
    edge carries no attribute here.  [_pred] is the converse of [_succ]
    and is computed when needed. *)
Definition DiGraph : Type := list (string * node_data).

Definition empty : DiGraph := [].

(** [G.nodes] *)
Definition nodes (G : DiGraph) : list string := map fst G.

(** [n in G.nodes] *)
Definition has_node (G : DiGraph) (n : string) : bool := mem n (nodes G).

(** the successor list of a node that is known to be present *)
Definition succ_of (G : DiGraph) (n : string) : list string :=
  match lookup n G with
  | Some d => succ d
  | None => []
  end.

(** [G.successors(n)] *)
Definition successors (G : DiGraph) (n : string) : result (list string) :=
  match lookup n G with
  | Some d => Ok (succ d)
  | None => Raise NetworkXError
  end.

(** [G.nodes[n]] *)
Definition node_attrs (G : DiGraph) (n : string) : result attr_dict :=
  match lookup n G with
  | Some d => Ok (attrs d)
  | None => Raise KeyError
  end.

(** [G.has_edge(u, v)] *)
Definition has_edge (G : DiGraph) (u v : string) : bool := mem v (succ_of G u).

(** [G.edges] *)
Definition edges (G : DiGraph) : list (string * string) :=
  flat_map (fun e => map (fun v => (fst e, v)) (succ (snd e))) G.

(** [G.add_node(n, **attr)] *)
Definition add_node (n : string) (attr : attr_dict) (G : DiGraph) : DiGraph :=
  match lookup n G with
  | Some d => dict_set n (mk_node (dict_update (attrs d) attr) (succ d)) G
  | None => G ++ [(n, mk_node (dict_update [] attr) [])]
  end.

(** [G.add_edge(u, v)] *)
Definition add_edge (u v : string) (G : DiGraph) : DiGraph :=
  let G1 := if has_node G u then G else G ++ [(u, mk_node [] [])] in
  let G2 := if has_node G1 v then G1 else G1 ++ [(v, mk_node [] [])] in
  match lookup u G2 with
  | Some d => dict_set u (mk_node (attrs d) (set_add v (succ d))) G2
  | None => G2
  end.

(** [G.nodes[n][k] = v] *)
Definition set_node_attr (n k : string) (v : json) (G : DiGraph) : result DiGraph :=
  match lookup n G with
  | Some d => Ok (dict_set n (mk_node (dict_set k v (attrs d)) (succ d)) G)
  | None => Raise KeyError
  end.

(** [G.in_degree(v)]: the number of predecessors of [v] *)
Definition in_degree (G : DiGraph) (v : string) : nat :=
  length (filter (fun e => mem v (succ (snd e))) G).

(** [G.subgraph(keep).copy()]: the subgraph induced by the nodes of
    [keep] that are in [G].  The copy receives its nodes, and every node
    its successors, in the iteration order of the filtered view, which
    is the order of [G] or the order of a Python set; [view_iter] gives
    that order. *)
Definition subgraph (view_iter : list string -> list string)
  (G : DiGraph) (keep : list string) : DiGraph :=
  map (fun n =>
         match lookup n G with
         | Some d =>
             (n, mk_node (attrs d)
                         (view_iter (filter (fun v => mem v keep) (succ d))))
         | None => (n, mk_node [] [])
         end)
      (view_iter (filter (fun n => mem n keep) (nodes G))).

(** *** [topological_sort]: Kahn's algorithm by generations *)

Fixpoint dict_del {A : Type} (k : string) (d : list (string * A))
  : list (string * A) :=
  match d with
  | [] => []
  | (k', v) :: rest => if String.eqb k' k then rest else (k', v) :: dict_del k rest
  end.

(** [for child in G.neighbors(node)]: one in-degree less for every child;
    a child that reaches zero joins the next generation *)
Fixpoint relax (children : list string) (indegree_map : list (string * nat))
  (zero_indegree : list string) : result (list (string * nat) * list string) :=
  match children with
  | [] => Ok (indegree_map, zero_indegree)
  | child :: rest =>
      match lookup child indegree_map with
      | None => Raise RuntimeError
      | Some d =>
          if d - 1 =? 0
          then relax rest (dict_del child indegree_map) (zero_indegree ++ [child])
          else relax rest (dict_set child (d - 1) indegree_map) zero_indegree
      end
  end.

(** [for node in this_generation] *)
Fixpoint generation (G : DiGraph) (this_generation : list string)
  (indegree_map : list (string * nat)) (zero_indegree : list string)
  : result (list (string * nat) * list string) :=
  match this_generation with
  | [] => Ok (indegree_map, zero_indegree)
  | node :: rest =>
      if negb (has_node G node) then Raise RuntimeError
      else bind (relax (succ_of G node) indegree_map zero_indegree)
                (fun r => generation G rest (fst r) (snd r))
  end.

(** [while zero_indegree] *)
Fixpoint generations (fuel : nat) (G : DiGraph) (zero_indegree : list string)
  (indegree_map : list (string * nat)) : result (list (list string)) :=
  match zero_indegree with
  | [] =>
      match indegree_map with
      | [] => Ok []
      | _ => Raise NetworkXUnfeasible
      end
  | _ =>
      match fuel with
      | 0 => Raise OutOfFuel
      | S fuel' =>
          bind (generation G zero_indegree indegree_map [])
               (fun r =>
                  bind (generations fuel' G (snd r) (fst r))
                       (fun later => Ok (zero_indegree :: later)))
      end
  end.

Definition topological_generations (G : DiGraph) : result (list (list string)) :=
  let indegree_map :=
    filter (fun vd => 0 <? snd vd) (map (fun v => (v, in_degree G v)) (nodes G)) in
  let zero_indegree := filter (fun v => in_degree G v =? 0) (nodes G) in
  generations (S (length indegree_map)) G zero_indegree indegree_map.

Definition topological_sort (G : DiGraph) : result (list string) :=
  bind (topological_generations G) (fun gens => Ok (concat gens)).

(** *** [simple_cycles]

    The library yields every simple cycle (elementary circuit) of the
    graph once, as the list of its nodes along the edges.  From which
    of its nodes a cycle is listed, and in which order the cycles come,
    depends on the version of the library and on the order in which it
    iterates over its sets.  [circuits] enumerates the cycles in one
    way: by their first node in node order, each cycle from the
    earliest of its nodes as a path through later nodes only.
    [simple_cycles] is that list in the order and from the nodes that
    the library chooses. *)
Fixpoint cycles_from (fuel : nat) (G : DiGraph) (start : string)
  (avail : list string) (cur : string) (path : list string)
  : list (list string) :=
  match fuel with
  | 0 => []
  | S fuel' =>
      flat_map
        (fun w =>
           if String.eqb w start then [rev path]
           else if mem w avail
                then cycles_from fuel' G start
                       (filter (fun x => negb (String.eqb x w)) avail) w (w :: path)
                else [])
        (succ_of G cur)
  end.

Fixpoint cycles_rooted (G : DiGraph) (ns : list string) : list (list string) :=
  match ns with
  | [] => []
  | s :: later =>
      cycles_from (S (length later)) G s later s [s] ++ cycles_rooted G later
  end.

Definition circuits (G : DiGraph) : list (list string) :=
  cycles_rooted G (nodes G).

(** [c] read from its [n]-th node on *)
Definition rotate (n : nat) (c : list string) : list string :=
  skipn (n mod length c) c ++ firstn (n mod length c) c.

(** sorted by rank, smallest first *)
Fixpoint insert_by (rank : list string -> nat) (c : list string)
  (l : list (list string)) : list (list string) :=
  match l with
  | [] => [c]
  | c' :: rest =>
      if rank c <=? rank c' then c :: l else c' :: insert_by rank c rest
  end.

Definition sort_by (rank : list string -> nat) (l : list (list string))
  : list (list string) :=
  fold_right (insert_by rank) [] l.

(** [list(nx.simple_cycles(G))]: [cycle_rank G c] is the place at which
    the library yields the cycle [c] of [G], and [cycle_start G c] the
    node from which it lists it, counted from the earliest node of [c] *)
Definition simple_cycles (cycle_rank cycle_start : DiGraph -> list string -> nat)
  (G : DiGraph) : list (list string) :=
  map (fun c => rotate (cycle_start G c) c) (sort_by (cycle_rank G) (circuits G)).

(** *** [shortest_path_length] and [has_path]: breadth-first search *)

(** the nodes one edge away from [frontier] that are not in [seen] *)
Fixpoint expand (G : DiGraph) (frontier seen : list string) : list string :=
  match frontier with
  | [] => []
  | u :: rest =>
      let fresh := filter (fun v => negb (mem v seen)) (succ_of G u) in
      fresh ++ expand G rest (seen ++ fresh)
  end.

Fixpoint bfs (fuel : nat) (G : DiGraph) (frontier seen : list string)
  (target : string) (dist : nat) : result nat :=
  if mem target frontier then Ok dist
  else match fuel with
       | 0 => Raise OutOfFuel
       | S fuel' =>
           match expand G frontier seen with
           | [] => Raise NetworkXNoPath
           | next => bfs fuel' G next (seen ++ next) target (S dist)
           end
       end.

(** [nx.shortest_path_length(G, source, target)] *)
Definition shortest_path_length (G : DiGraph) (source target : string)
  : result nat :=
  if negb (has_node G source) || negb (has_node G target)
  then Raise NodeNotFound
  else bfs (length G) G [source] [source] target 0.

(** [nx.has_path(G, source, target)]: only [NetworkXNoPath] is caught *)
Definition has_path (G : DiGraph) (source target : string) : result bool :=
  match shortest_path_length G source target with
  | Ok _ => Ok true
  | Raise NetworkXNoPath => Ok false
  | Raise e => Raise e
  end.

End NX.
Import NX.

(* ================================================================== *)
(** ** The resolver and its collaborators *)

Inductive level : Type := INFO | WARNING | ERROR.

(** The cache file as [_try_load_cache] meets it: absent, present but
    not readable, readable but not JSON, or decoded by [json.load]. *)
Inductive cache_file : Type :=
| NoFile
| Unreadable
| Undecodable
| Content (data : json).

(** One answer of the terminal to [input(prompt)]; an exhausted input
    makes [input] raise [EOFError]. *)
Inductive input_event : Type :=
| Line (s : string)
| KeyboardInterrupt.

(** What [db.sh list --json] gives to [detect_orphans]: a failed or
    silent run, an exception (no CLI, output that is not JSON), or the
    decoded output. *)
Inductive db_list_reply : Type :=
| ListFailed
| ListRaised
| ListJson (installed : json).

(** A [DepResolver] with the part of the outside world it acts on: its
    graph and flag, the records of the logger (level INFO and above),
    the cache file and the pending terminal input. *)
Record world : Type := mk_world {
  graph : DiGraph;
  loaded_from_cache : bool;
  log : list (level * string);
  cache : cache_file;
  stdin : list input_event
}.

Definition set_graph (G : DiGraph) (w : world) : world :=
  mk_world G (loaded_from_cache w) (log w) (cache w) (stdin w).
Definition set_loaded (b : bool) (w : world) : world :=
  mk_world (graph w) b (log w) (cache w) (stdin w).
Definition set_cache (c : cache_file) (w : world) : world :=
  mk_world (graph w) (loaded_from_cache w) (log w) c (stdin w).
Definition set_stdin (i : list input_event) (w : world) : world :=
  mk_world (graph w) (loaded_from_cache w) (log w) (cache w) i.

(** [logger.info], [logger.warning], [logger.error]: a record keeps the
    fixed text of its message; the logger's level is INFO, so
    [logger.debug] leaves no record *)
Definition logger (l : level) (msg : string) (w : world) : world :=
  mk_world (graph w) (loaded_from_cache w) (log w ++ [(l, msg)]) (cache w) (stdin w).

(** [DepResolver.__init__] before the cache is tried *)
Definition init (c : cache_file) (i : list input_event) : world :=
  mk_world NX.empty false [] c i.

(** *** Normalisation of dependency lists ([norm_list]) *)

(** [it.split()[0].split(">=")[0].split("<=")[0].split("==")[0].split(">")[0].split("<")[0]] *)
Definition norm_token (it : string) : result string :=
  match split_ws it with
  | [] => Raise IndexError
  | w0 :: _ =>
      Ok (before "<" (before ">" (before "==" (before "<=" (before ">=" w0)))))
  end.

Fixpoint norm_items (lst : list json) : result (list json) :=
  match lst with
  | [] => Ok []
  | it :: rest =>
      match it with
      | JStr s =>
          bind (norm_token s)
               (fun t => bind (norm_items rest) (fun out => Ok (JStr t :: out)))
      | JObj d =>
          match lookup "name" d with
          | Some v => bind (norm_items rest) (fun out => Ok (v :: out))
          | None => norm_items rest
          end
      | _ => norm_items rest
      end
  end.

Definition norm_list (lst : json) : result (list json) :=
  if negb (truthy lst) then Ok []
  else bind (iter lst) norm_items.

(** *** Cache ([_try_load_cache], [persist_cache]) *)

(** [self.graph.add_node(node, **meta.get("attrs", {}))] for every item *)
Fixpoint load_nodes (items : list (string * json)) (G : DiGraph)
  : DiGraph * result unit :=
  match items with
  | [] => (G, Ok tt)
  | (node, meta) :: rest =>
      match meta with
      | JObj m =>
          match get_or "attrs" m (JObj []) with
          | JObj a =>
              if mem "self" (map fst a) || mem "node_for_adding" (map fst a)
              then (G, Raise TypeError)
              else load_nodes rest (add_node node a G)
          | _ => (G, Raise TypeError)
          end
      | _ => (G, Raise AttributeError)
      end
  end.

(** [for dep in meta.get("deps", []): self.graph.add_edge(node, dep)] *)
Fixpoint load_deps (node : string) (deps : list json) (G : DiGraph)
  : DiGraph * result unit :=
  match deps with
  | [] => (G, Ok tt)
  | dep :: rest =>
      match dep with
      | JStr d => load_deps node rest (add_edge node d G)
      | JNull => (G, Raise ValueError)
      | _ => (G, Raise TypeError)
      end
  end.

Fixpoint load_edges (items : list (string * json)) (G : DiGraph)
  : DiGraph * result unit :=
  match items with
  | [] => (G, Ok tt)
  | (node, meta) :: rest =>
      match meta with
      | JObj m =>
          match iter (get_or "deps" m (JList [])) with
          | Ok deps =>
              match load_deps node deps G with
              | (G', Ok _) => load_edges rest G'
              | (G', Raise e) => (G', Raise e)
              end
          | Raise e => (G, Raise e)
          end
      | _ => (G, Raise AttributeError)
      end
  end.

(** the body of the [try] from [self.graph.clear()] on *)
Definition rebuild_graph (data : json) : DiGraph * result unit :=
  match data with
  | JObj items =>
      match load_nodes items NX.empty with
      | (G, Ok _) => load_edges items G
      | (G, Raise e) => (G, Raise e)
      end
  | _ => (NX.empty, Raise AttributeError)
  end.

Definition _try_load_cache (w : world) : world :=
  match cache w with
  | NoFile => w
  | Unreadable | Undecodable =>
      set_loaded false (logger WARNING "Failed to load depgraph cache" w)
  | Content data =>
      match rebuild_graph data with
      | (G, Ok _) =>
          set_loaded true
            (logger INFO "Loaded dependency graph cache" (set_graph G w))
      | (G, Raise _) =>
          set_loaded false
            (logger WARNING "Failed to load depgraph cache" (set_graph G w))
      end
  end.

(** [out] of [persist_cache]: node name to [{"attrs": ..., "deps": ...}] *)
Definition cache_entry (e : string * node_data) : string * json :=
  (fst e, JObj [("attrs", JObj (attrs (snd e)));
                ("deps", JList (map JStr (succ (snd e))))]).

Definition serialize (G : DiGraph) : json := JObj (map cache_entry G).

(** [writable] tells whether the temporary file can be written and moved
    over the cache file.  When [json.dump] raises, the temporary file is
    left behind and the cache file is as it was. *)
Definition persist_cache (writable : bool) (w : world) : world :=
  if writable && dumpable (serialize (graph w))
  then
    logger INFO "Persisted dependency graph"
      (set_cache (Content (serialize (graph w))) w)
  else logger ERROR "Failed to persist cache" w.

Section Resolver.

(** [parse_metafile]: the Descriptor Source, a parsed dict or [None] *)
Variable parse_metafile : string -> option (list (string * json)).

(** [db_revdeps]: the lines of [db.sh revdeps <pkg>], none when the
    CLI fails or is not found; or the exception of [subprocess.run]
    that [db_revdeps] does not catch, any but [FileNotFoundError]
    ([PermissionError] for a [db.sh] that is there but cannot be
    executed) *)
Variable db_revdeps : string -> result (list string).

(** iteration order of a Python set whose distinct elements were
    inserted in the order given *)
Variable set_iter : list json -> list json.

(** iteration order of a filtered graph view *)
Variable view_iter : list string -> list string.

(** order and starting nodes of the cycles that [nx.simple_cycles]
    yields *)
Variable cycle_rank : DiGraph -> list string -> nat.
Variable cycle_start : DiGraph -> list string -> nat.

(** *** [add_package_from_metafile] *)

(** equality of hashable values: strings and [None] *)
Definition key_eqb (a b : json) : bool :=
  match a, b with
  | JStr s, JStr t => String.eqb s t
  | JNull, JNull => true
  | _, _ => false
  end.

Definition hashable (v : json) : bool :=
  match v with
  | JStr _ | JNull => true
  | _ => false
  end.

(** the distinct elements of a list, in order of first occurrence *)
Fixpoint distinct (l : list json) (seen : list json) : list json :=
  match l with
  | [] => []
  | x :: rest =>
      if existsb (key_eqb x) seen then distinct rest seen
      else x :: distinct rest (seen ++ [x])
  end.

(** [for d in set(build_deps + run_deps)] once the set is built *)
Fixpoint add_deps (name : string) (ds : list json) (G : DiGraph)
  : DiGraph * result unit :=
  match ds with
  | [] => (G, Ok tt)
  | d :: rest =>
      match d with
      | JStr d =>
          if String.eqb d name then add_deps name rest G
          else add_deps name rest (add_edge name d (add_node d [] G))
      | JNull => (G, Raise ValueError)
      | _ => (G, Raise TypeError)
      end
  end.

(** the fields of a metafile that [add_package_from_metafile] reads *)
Definition name_of (meta : list (string * json)) : json :=
  por (por (get "name" meta) (get "package" meta)) (get "pkgname" meta).

Definition build_of (meta : list (string * json)) : json :=
  por (get_or "build" meta (JObj [])) (JObj []).

Definition build_deps_of (meta : list (string * json)) : json :=
  match build_of meta with
  | JObj b => por (por (get "depends" b) (get "depends_on" b)) (JList [])
  | _ => JList []
  end.

Definition optional_of (meta : list (string * json)) : json :=
  match build_of meta with
  | JObj b => por (get "optional" b) (JList [])
  | _ => JList []
  end.

Definition run_deps_of (meta : list (string * json)) : json :=
  match por (get_or "runtime" meta (JObj [])) (JObj []) with
  | JObj r => por (get "depends" r) (JList [])
  | _ => JList []
  end.

Definition add_package (meta : list (string * json)) (w : world)
  : world * result (option string) :=
  let name := name_of meta in
  if negb (truthy name) then (logger WARNING "No name field in metafile" w, Ok None)
  else
    let provides := por (get "provides" meta) (JList []) in
    match norm_list (build_deps_of meta) with
    | Raise e => (w, Raise e)
    | Ok build_deps =>
    match norm_list (run_deps_of meta) with
    | Raise e => (w, Raise e)
    | Ok run_deps =>
    match norm_list (optional_of meta) with
    | Raise e => (w, Raise e)
    | Ok optional =>
    match name with
    | JStr name =>
        let G1 :=
          add_node name
            [("version", get "version" meta);
             ("origin", get_or "origin" meta (JStr ""));
             ("provides", provides);
             ("optional", JList optional)]
            (graph w) in
        if negb (forallb hashable (build_deps ++ run_deps))
        then (set_graph G1 w, Raise TypeError)
        else
          match add_deps name (set_iter (distinct (build_deps ++ run_deps) [])) G1 with
          | (G2, Raise e) => (set_graph G2 w, Raise e)
          | (G2, Ok _) =>
              if truthy (JList optional)
              then match set_node_attr name "optional" (JList optional) G2 with
                   | Ok G3 => (set_graph G3 w, Ok (Some name))
                   | Raise e => (set_graph G2 w, Raise e)
                   end
              else (set_graph G2 w, Ok (Some name))
          end
    | _ => (w, Raise TypeError)
    end end end end.

Definition add_package_from_metafile (path_or_name : string) (w : world)
  : world * result (option string) :=
  match parse_metafile path_or_name with
  | None => (w, Ok None)
  | Some [] => (w, Ok None)
  | Some meta => add_package meta w
  end.

(** *** [resolve] *)

(** the [while stack] loop that collects the dependencies of the root;
    the top of the stack is the head of the list *)
Fixpoint collect (fuel : nat) (G : DiGraph) (stack visited deps_set : list string)
  (optional_to_ask : list (string * json))
  : result (list string * list (string * json)) :=
  match stack with
  | [] => Ok (deps_set, optional_to_ask)
  | cur :: stack' =>
      match fuel with
      | 0 => Raise OutOfFuel
      | S fuel' =>
          if mem cur visited
          then collect fuel' G stack' visited deps_set optional_to_ask
          else
            match lookup cur G with
            | None => Raise NetworkXError
            | Some d =>
                let deps := filter (fun dep => negb (String.eqb dep cur)) (succ d) in
                let opt := por (get "optional" (attrs d)) (JList []) in
                collect fuel' G (rev deps ++ stack') (visited ++ [cur])
                  (fold_left (fun acc dep => set_add dep acc) deps deps_set)
                  (if truthy opt then dict_set cur opt optional_to_ask
                   else optional_to_ask)
            end
      end
  end.

(** enough fuel for any walk over [G] that enters a node once *)
Definition walk_fuel (G : DiGraph) : nat := S (length G + length (edges G)).

(** [for dep in self.graph.successors(c)] of the walk below *)
Fixpoint push_new (deps stack deps_set : list string) : list string * list string :=
  match deps with
  | [] => (stack, deps_set)
  | dep :: rest =>
      if mem dep deps_set then push_new rest stack deps_set
      else push_new rest (dep :: stack) (deps_set ++ [dep])
  end.

(** the [while stack] loop that merges the dependencies of an accepted
    optional candidate *)
Fixpoint merge_optional (fuel : nat) (G : DiGraph) (stack deps_set : list string)
  : result (list string) :=
  match stack with
  | [] => Ok deps_set
  | c :: stack' =>
      match fuel with
      | 0 => Raise OutOfFuel
      | S fuel' =>
          match successors G c with
          | Raise e => Raise e
          | Ok deps =>
              let st := push_new deps stack' deps_set in
              merge_optional fuel' G (fst st) (snd st)
          end
      end
  end.

(** [ans in ("y", "yes")] for [ans = input(prompt).strip().lower()],
    with ["n"] on [KeyboardInterrupt] *)
Definition says_yes (ev : input_event) : bool :=
  match ev with
  | Line s =>
      let ans := lower (strip s) in
      String.eqb ans "y" || String.eqb ans "yes"
  | KeyboardInterrupt => false
  end.

(** one optional candidate [o] of one parent: prompt, then on a yes make
    sure [o] is in the graph and merge what it depends on *)
Definition ask (o : json) (deps_set : list string) (w : world)
  : world * result (list string) :=
  match stdin w with
  | [] => (w, Raise EOFError)
  | ev :: later =>
      let w1 := set_stdin later w in
      if says_yes ev then
        match o with
        | JStr o =>
            let '(w2, r) :=
              if has_node (graph w1) o then (w1, Ok None)
              else add_package_from_metafile o w1 in
            match r with
            | Raise e => (w2, Raise e)
            | Ok _ =>
                (w2, merge_optional (walk_fuel (graph w2)) (graph w2) [o] deps_set)
            end
        | _ => (w1, Raise TypeError)
        end
      else (w1, Ok deps_set)
  end.

(** [for o in opts] *)
Fixpoint ask_each (opts : list json) (deps_set : list string) (w : world)
  : world * result (list string) :=
  match opts with
  | [] => (w, Ok deps_set)
  | o :: rest =>
      match ask o deps_set w with
      | (w', Ok deps_set') => ask_each rest deps_set' w'
      | (w', Raise e) => (w', Raise e)
      end
  end.

(** [for parent, opts in optional_to_ask.items()] *)
Fixpoint ask_all (optional_to_ask : list (string * json)) (deps_set : list string)
  (w : world) : world * result (list string) :=
  match optional_to_ask with
  | [] => (w, Ok deps_set)
  | (parent, opts) :: rest =>
      match iter opts with
      | Raise e => (w, Raise e)
      | Ok os =>
          match ask_each os deps_set w with
          | (w', Ok deps_set') => ask_all rest deps_set' w'
          | (w', Raise e) => (w', Raise e)
          end
      end
  end.

(** [resolve] up to the first [return]: is the root in the graph, or
    can the Descriptor Source add it? *)
Definition ensure_root (root_pkg : string) (w : world) : world * result bool :=
  if has_node (graph w) root_pkg then (w, Ok true)
  else
    match add_package_from_metafile root_pkg w with
    | (w', Raise e) => (w', Raise e)
    | (w', Ok None) =>
        (logger WARNING
           ("Package '" ++ root_pkg ++ "' not found in graph or ports tree.")%string
           w',
         Ok false)
    | (w', Ok (Some _)) => (w', Ok true)
    end.

(** the dependency set: the walk from the root, then the prompts.
    [resolve_optional] is [self.config.get("resolve_optional", False)]. *)
Definition gather (resolve_optional : bool) (root_pkg : string)
  (include_optional_prompt : bool) (w : world) : world * result (list string) :=
  match collect (walk_fuel (graph w)) (graph w) [root_pkg] [] [] [] with
  | Raise e => (w, Raise e)
  | Ok (deps_set, optional_to_ask) =>
      if match optional_to_ask with [] => false | _ => true end
         && include_optional_prompt && resolve_optional
      then ask_all optional_to_ask deps_set w
      else (w, Ok deps_set)
  end.

(** [subg]: the subgraph over the root and the dependency set *)
Definition resolved_subgraph (root_pkg : string) (deps_set : list string)
  (w : world) : DiGraph :=
  subgraph view_iter (graph w) (set_add root_pkg deps_set).

(** cycle detection and build order on [subg] *)
Definition order_or_cycles (subg : DiGraph) (w : world)
  : world * result (list string * list string) :=
  match simple_cycles cycle_rank cycle_start subg with
  | [] =>
      match topological_sort subg with
      | Ok topo => (w, Ok (rev topo, []))
      | Raise OutOfFuel => (w, Raise OutOfFuel)
      | Raise _ => (logger ERROR "Topological sort failed" w, Ok ([], []))
      end
  | cycles =>
      (logger ERROR "Dependency cycles detected" w,
       Ok ([], map (join ",") cycles))
  end.

Definition resolve (resolve_optional : bool) (root_pkg : string)
  (include_optional_prompt : bool) (w : world)
  : world * result (list string * list string) :=
  match ensure_root root_pkg w with
  | (w1, Raise e) => (w1, Raise e)
  | (w1, Ok false) => (w1, Ok ([], []))
  | (w1, Ok true) =>
      match gather resolve_optional root_pkg include_optional_prompt w1 with
      | (w2, Raise e) => (w2, Raise e)
      | (w2, Ok deps_set) =>
          order_or_cycles (resolved_subgraph root_pkg deps_set w2) w2
      end
  end.

(** *** [detect_orphans] *)

(** [[it.get("name") for it in installed if isinstance(it, dict) and it.get("name")]] *)
Fixpoint named_items (items : list json) : list json :=
  match items with
  | [] => []
  | JObj d :: rest =>
      if truthy (get "name" d) then get "name" d :: named_items rest
      else named_items rest
  | _ :: rest => named_items rest
  end.

(** [None] stands for the early [return []] *)
Definition installed_names (reply : db_list_reply) : option (list json) :=
  match reply with
  | ListFailed => None
  | ListRaised => Some []
  | ListJson installed =>
      match iter installed with
      | Ok items => Some (named_items items)
      | Raise _ => Some []
      end
  end.

(** [revdeps_map.setdefault(dst, set()).add(src)] *)
Definition add_revdep (m : list (string * list string)) (edge : string * string)
  : list (string * list string) :=
  match lookup (snd edge) m with
  | Some srcs => dict_set (snd edge) (set_add (fst edge) srcs) m
  | None => dict_set (snd edge) [fst edge] m
  end.

Definition revdeps_map (G : DiGraph) : list (string * list string) :=
  fold_left add_revdep (edges G) (map (fun n => (n, [])) (nodes G)).

(** [for name in installed_names] *)
Fixpoint orphans_of (m : list (string * list string)) (names : list json)
  : result (list string) :=
  match names with
  | [] => Ok []
  | JStr name :: rest =>
      let deps_of_me := match lookup name m with Some s => s | None => [] end in
      bind (orphans_of m rest)
           (fun out => Ok (match deps_of_me with [] => name :: out | _ => out end))
  | JNull :: rest => bind (orphans_of m rest) (fun out => Ok out)
  | _ :: _ => Raise TypeError
  end.

Definition detect_orphans (reply : db_list_reply) (w : world)
  : world * result (list string) :=
  match installed_names reply with
  | None =>
      (logger WARNING "db.sh list returned no data or failed; cannot detect orphans." w,
       Ok [])
  | Some names =>
      let w' :=
        match reply with
        | ListRaised => logger WARNING "Failed to query db for installed packages." w
        | ListJson JNull => logger WARNING "Failed to query db for installed packages." w
        | _ => w
        end in
      (w', orphans_of (revdeps_map (graph w)) names)
  end.

(** *** [mark_for_rebuild] *)

Definition str_items (l : list json) : list string :=
  flat_map (fun v => match v with JStr s => [s] | _ => [] end) l.

(** [for n in self.graph.nodes: if nx.has_path(self.graph, n, pkg)] *)
Fixpoint with_path (G : DiGraph) (ns : list string) (pkg : string)
  : result (list string) :=
  match ns with
  | [] => Ok []
  | n :: rest =>
      bind (has_path G n pkg)
           (fun b => bind (with_path G rest pkg)
                          (fun out => Ok (if b then n :: out else out)))
  end.

(** [distances[d]]: the [except Exception] gives 0 *)
Definition distance (G : DiGraph) (pkg d : string) : nat :=
  match shortest_path_length G d pkg with
  | Ok n => n
  | Raise _ => 0
  end.

Definition mark_for_rebuild (pkg : string) (w : world) : result (list string) :=
  bind (db_revdeps pkg)
       (fun revdeps_from_db =>
  let parsed := map (before "-") revdeps_from_db in
  bind (if has_node (graph w) pkg then with_path (graph w) (nodes (graph w)) pkg
        else Ok [])
       (fun from_graph =>
          let dependents :=
            str_items (set_iter (distinct (map JStr (from_graph ++ parsed)) [])) in
          Ok (sorted_desc (distance (graph w) pkg) dependents))).

End Resolver.

(* ================================================================== *)
(** ** Notions used to state the properties *)

(** [u -> v] is an edge of [G] *)
Definition edge (G : DiGraph) (u v : string) : Prop :=
  exists d, lookup u G = Some d /\ In v (succ d).

(** a walk [u -> x1 -> ... -> v] with at least one edge *)
Inductive path (G : DiGraph) : string -> string -> Prop :=
| path_edge u v : edge G u v -> path G u v
| path_step u v t : edge G u v -> path G v t -> path G u t.

Definition reachable (G : DiGraph) (u v : string) : Prop := u = v \/ path G u v.

(** a walk of [G] with at least one edge that stays among the nodes [S] *)
Inductive path_within (G : DiGraph) (S : list string) : string -> string -> Prop :=
| within_edge u v : In u S -> In v S -> edge G u v -> path_within G S u v
| within_step u v t :
    In u S -> edge G u v -> path_within G S v t -> path_within G S u t.

Definition acyclic (G : DiGraph) : Prop := forall v, ~ path G v v.

(** consecutive elements of [c] are joined by edges *)
Fixpoint chain (G : DiGraph) (c : list string) : Prop :=
  match c with
  | u :: ((v :: _) as rest) => edge G u v /\ chain G rest
  | _ => True
  end.

(** [c] lists the nodes of a simple cycle, in order *)
Definition simple_cycle (G : DiGraph) (c : list string) : Prop :=
  match c with
  | [] => False
  | s :: _ => NoDup c /\ chain G c /\ edge G (last c s) s
  end.

(** [c'] is [c] read from another of its nodes *)
Definition rotation (c c' : list string) : Prop :=
  exists l1 l2, c = l1 ++ l2 /\ c' = l2 ++ l1.

(** position of the first occurrence of [x] in [l] *)
Fixpoint index (x : string) (l : list string) : nat :=
  match l with
  | [] => 0
  | y :: rest => if String.eqb y x then 0 else S (index x rest)
  end.

(** the representation invariant of a [DiGraph]: names are keys of a
    dict, successors are keys of a dict, and every successor is a node *)
Definition wf (G : DiGraph) : Prop :=
  NoDup (nodes G) /\
  forall n d, In (n, d) G -> NoDup (succ d) /\ forall v, In v (succ d) -> In v (nodes G).

(** no edge of [G] ends in [n]: the reverse-dependency set of [n] is empty *)
Definition no_dependent (G : DiGraph) (n : string) : bool :=
  negb (existsb (fun e => String.eqb (snd e) n) (edges G)).

(** a set of names kept by the code is non-empty *)
Definition nonempty {A : Type} (o : option (list A)) : bool :=
  match o with
  | Some (_ :: _) => true
  | _ => false
  end.

(** attribute dicts that [json.dump] / [add_node(node, **attrs)] carry
    through unchanged: a dict has each key once, and no key collides
    with a parameter of [add_node] *)
Definition plain (a : attr_dict) : Prop :=
  NoDup (map fst a) /\ ~ In "self" (map fst a) /\ ~ In "node_for_adding" (map fst a).

Definition plain_attrs (G : DiGraph) : Prop :=
  forall n d, In (n, d) G -> plain (attrs d).

(** the graphs that a sequence of [add_package_from_metafile] calls
    builds from the empty graph, whatever the Descriptor Source answers
    and in whatever order the sets are read *)
Inductive built : DiGraph -> Prop :=
| built_empty : built NX.empty
| built_add (w : world) (parse_metafile : string -> option (list (string * json)))
    (set_iter : list json -> list json) (path_or_name : string) :
    built (graph w) ->
    built (graph (fst (add_package_from_metafile parse_metafile set_iter
                         path_or_name w))).

(** what the graph of a resolver keeps true under [add_package] *)
Definition cacheable (G : DiGraph) : Prop := wf G /\ plain_attrs G.



(** *** The normalisation rule in the words of the specification *)

(** "the substring before the first whitespace" *)
Fixpoint before_space (s : string) : string :=
  match s with
  | EmptyString => EmptyString
  | String c rest => if is_space c then EmptyString else String c (before_space rest)
  end.

(** "strip any trailing comparison operator ([>=], [<=], [==], [>],
    [<]) and everything after it" *)
Definition operators : list string := [">="; "<="; "=="; ">"; "<"].

Fixpoint strip_operator (s : string) : string :=
  if existsb (fun op => prefix op s) operators then EmptyString
  else match s with
       | EmptyString => EmptyString
       | String c rest => String c (strip_operator rest)
       end.

Definition spec_normalize (token : string) : string :=
  strip_operator (before_space token).

(** the text of [s] before the first position at which [stop] holds *)
Fixpoint cut (stop : string -> bool) (s : string) : string :=
  if stop s then EmptyString
  else match s with
       | EmptyString => EmptyString
       | String c rest => String c (cut stop rest)
       end.

Definition starts_with (a : ascii) (s : string) : bool :=
  match s with
  | String c _ => Ascii.eqb c a
  | EmptyString => false
  end.

(** [c] lists the nodes of a closed walk: a cycle that may pass through
    a node more than once *)
Definition closed_walk (G : DiGraph) (c : list string) : Prop :=
  match c with
  | [] => False
  | s :: _ => chain G c /\ edge G (last c s) s
  end.

(** the number of predecessors of [v] outside [P]: the in-degree that
    Kahn's algorithm still counts for [v] once the nodes of [P] are out *)
Definition pending_preds (G : DiGraph) (P : list string) (v : string) : nat :=
  length (filter (fun e => mem v (succ (snd e)) && negb (mem (fst e) P)) G).

(** the state of [topological_generations] between two nodes: [P] is
    the output so far, [pending] the rest of the current generation,
    [zero] the next generation so far, [imap] the in-degree map *)
Definition kahn_inv (G : DiGraph) (P pending zero : list string)
  (imap : list (string * nat)) : Prop :=
  Permutation (P ++ pending ++ zero ++ map fst imap) (nodes G)
  /\ (forall v k, lookup v imap = Some k -> k = pending_preds G P v /\ 0 < k)
  /\ (forall v, In v (P ++ pending ++ zero) -> pending_preds G P v = 0)
  /\ (forall a b, edge G a b -> In b P -> In a P /\ index a P < index b P).

(** what one pass over the children of a node does to the in-degree
    map and to the next generation *)
Definition relaxed (cs : list string) (imap : list (string * nat)) (v : string)
  : option nat :=
  if mem v cs
  then match lookup v imap with
       | Some k => if k =? 1 then None else Some (k - 1)
       | None => None
       end
  else lookup v imap.

Definition freed (imap : list (string * nat)) (c : string) : bool :=
  match lookup c imap with
  | Some 1 => true
  | _ => false
  end.

(** what a walk that enters every node once can still push: one for
    each node not yet entered and one for each of its edges *)
Definition potential (G : DiGraph) (visited : list string) : nat :=
  list_sum (map (fun e => if mem (fst e) visited then 0
                          else S (length (succ (snd e)))) G).

(** [G'] has the nodes and the edges of [G], and maybe more *)
Definition extends (G G' : DiGraph) : Prop :=
  incl (nodes G) (nodes G') /\ forall u v, edge G u v -> edge G' u v.

(** the nodes of [G] that are not yet in the dependency set *)
Definition unseen (G : DiGraph) (deps_set : list string) : nat :=
  length (filter (fun n => negb (mem n deps_set)) (nodes G)).

(** the optional candidates in the order in which [resolve] asks about
    them, and those of them that the terminal answers with a yes *)
Definition candidates (optional_to_ask : list (string * json)) : list json :=
  flat_map (fun po => match iter (snd po) with Ok os => os | Raise _ => [] end)
           optional_to_ask.

Fixpoint accepted (os : list json) (answers : list input_event) : list string :=
  match os, answers with
  | o :: os', ev :: later =>
      (if says_yes ev then match o with JStr s => [s] | _ => [] end else [])
      ++ accepted os' later
  | _, _ => []
  end.

(** what one prompt, or a run of prompts, does: the graph stays
    well-formed and only grows, the loops end, and what joins the
    dependency set is reached, through at least one edge, from a
    candidate that was accepted *)
Definition prompted (os : list json) (deps : list string) (w : world)
  (out : world * result (list string)) : Prop :=
  wf (graph (fst out))
  /\ extends (graph w) (graph (fst out))
  /\ snd out <> Raise OutOfFuel
  /\ forall deps', snd out = Ok deps' ->
       incl deps deps'
       /\ length os <= length (stdin w)
       /\ stdin (fst out) = skipn (length os) (stdin w)
       /\ forall v, In v deps' ->
                    In v deps
                    \/ exists s, In s (accepted os (stdin w))
                                 /\ path (graph (fst out)) s v.

(** the optional candidates that a call of [resolve] accepts, once the
    root is in the graph of [w] *)
Definition accepted_optional (resolve_optional : bool) (root_pkg : string)
  (include_optional_prompt : bool) (w : world) : list string :=
  match collect (walk_fuel (graph w)) (graph w) [root_pkg] [] [] [] with
  | Ok (_, optional_to_ask) =>
      if match optional_to_ask with [] => false | _ => true end
         && include_optional_prompt && resolve_optional
      then accepted (candidates optional_to_ask) (stdin w)
      else []
  | Raise _ => []
  end.

(* ================================================================== *)
(** ** The callers of [resolve] and the full rescan *)

(** What [db.sh query <pkg> --json] gives to [call_db_query]: no CLI
    ([FileNotFoundError]), another exception of [subprocess.run]
    ([PermissionError] for a [db.sh] that is there but cannot be
    executed), a failed or silent run, output that is not JSON, or the
    decoded output. *)
Inductive db_query_reply : Type :=
| QueryNoCli
| QueryRaises (e : exn)
| QueryFailed
| QueryUndecodable
| QueryJson (parsed : json).

(** [if installed] / [if call_db_query(pkg)] *)
Definition is_installed (record : option json) : bool :=
  match record with
  | Some v => truthy v
  | None => false
  end.

(** [str(n)] *)
Definition str_of_nat (n : nat) : string :=
  NilZero.string_of_uint (Nat.to_uint n).

(** [DepResolver.__init__]: [cache_graph] is
    [bool(config.get("cache_graph", True))] *)
Definition new_resolver (cache_graph aggressive_cache : bool) (c : cache_file)
  (i : list input_event) : world :=
  if aggressive_cache && cache_graph then _try_load_cache (init c i)
  else init c i.

Section Callers.

Variable parse_metafile : string -> option (list (string * json)).
Variable set_iter : list json -> list json.
Variable view_iter : list string -> list string.
Variable cycle_rank : DiGraph -> list string -> nat.
Variable cycle_start : DiGraph -> list string -> nat.

(** the Package Database Client behind [call_db_query] *)
Variable db_query : string -> db_query_reply.

(** [self.config.get("resolve_optional", False)] *)
Variable resolve_optional : bool.

(** [call_db_query]: only [FileNotFoundError] is caught around
    [subprocess.run] *)
Definition call_db_query (pkgname : string) (w : world)
  : world * result (option json) :=
  match db_query pkgname with
  | QueryNoCli =>
      (logger WARNING
         "db CLI not found at /usr/lib/newpkg/db.sh; cannot check installed packages automatically."
         w,
       Ok None)
  | QueryRaises e => (w, Raise e)
  | QueryFailed => (w, Ok None)
  | QueryUndecodable => (w, Ok None)
  | QueryJson parsed =>
      match parsed with
      | JList (first :: _) => (w, Ok (Some first))
      | JObj _ => (w, Ok (Some parsed))
      | _ => (w, Ok None)
      end
  end.

(** [for pkg in order] of [missing_deps] *)
Fixpoint missing_of (root_pkg : string) (order : list string) (w : world)
  : world * result (list string) :=
  match order with
  | [] => (w, Ok [])
  | pkg :: rest =>
      if String.eqb pkg root_pkg then missing_of root_pkg rest w
      else
        match call_db_query pkg w with
        | (w1, Raise e) => (w1, Raise e)
        | (w1, Ok installed) =>
            match missing_of root_pkg rest w1 with
            | (w2, Raise e) => (w2, Raise e)
            | (w2, Ok missing) =>
                (w2, Ok (if is_installed installed then missing else pkg :: missing))
            end
        end
  end.

Definition missing_deps (root_pkg : string) (w : world)
  : world * result (list string) :=
  match resolve parse_metafile set_iter view_iter cycle_rank cycle_start
      resolve_optional root_pkg false w with
  | (w1, Raise e) => (w1, Raise e)
  | (w1, Ok (order, cycles)) =>
      match cycles with
      | [] => missing_of root_pkg order w1
      | _ => (logger ERROR "Cannot compute missing deps due to cycles." w1, Ok [])
      end
  end.

(** [for pkg in order] of [install_order] *)
Fixpoint install_of (root_pkg : string) (skip_installed : bool)
  (order : list string) (w : world) : world * result (list string) :=
  match order with
  | [] => (w, Ok [])
  | pkg :: rest =>
      if String.eqb pkg root_pkg then install_of root_pkg skip_installed rest w
      else if skip_installed then
        match call_db_query pkg w with
        | (w1, Raise e) => (w1, Raise e)
        | (w1, Ok installed) =>
            match install_of root_pkg skip_installed rest w1 with
            | (w2, Raise e) => (w2, Raise e)
            | (w2, Ok final) =>
                (w2, Ok (if is_installed installed then final else pkg :: final))
            end
        end
      else
        match install_of root_pkg skip_installed rest w with
        | (w2, Raise e) => (w2, Raise e)
        | (w2, Ok final) => (w2, Ok (pkg :: final))
        end
  end.

Definition install_order (root_pkg : string) (skip_installed : bool) (w : world)
  : world * result (list string) :=
  match resolve parse_metafile set_iter view_iter cycle_rank cycle_start
      resolve_optional root_pkg false w with
  | (w1, Raise e) => (w1, Raise e)
  | (w1, Ok (order, cycles)) =>
      match cycles with
      | [] =>
          match install_of root_pkg skip_installed order w1 with
          | (w2, Raise e) => (w2, Raise e)
          | (w2, Ok final) =>
              if skip_installed then
                match call_db_query root_pkg w2 with
                | (w3, Raise e) => (w3, Raise e)
                | (w3, Ok installed) =>
                    (w3, Ok (if is_installed installed then final
                             else final ++ [root_pkg]))
                end
              else (w2, Ok (final ++ [root_pkg]))
          end
      | _ => (w1, Raise RuntimeError)
      end
  end.

(** the loop of [build_graph_from_ports] over the [.yaml] / [.yml]
    files that [os.walk] finds, in the order in which it finds them.
    Both reads of a file, the one of the loop and the one of
    [add_package_from_metafile], go through [parse_metafile]; whatever
    [add_package_from_metafile] raises is swallowed. *)
Fixpoint scan_ports (files : list string) (count : nat) (w : world) : world * nat :=
  match files with
  | [] => (w, count)
  | full :: rest =>
      match parse_metafile full with
      | Some doc =>
          if truthy (name_of doc) then
            match add_package_from_metafile parse_metafile set_iter full w with
            | (w', Ok _) => scan_ports rest (S count) w'
            | (w', Raise _) => scan_ports rest count w'
            end
          else scan_ports rest count w
      | None => scan_ports rest count w
      end
  end.

(** [build_graph_from_ports]; no hook is installed, so both calls of
    [run_hooks] return at once *)
Definition build_graph_from_ports (cache_graph writable : bool)
  (files : list string) (w : world) : world :=
  let w0 := logger INFO "Scanning ports tree to build dependency graph..." w in
  let '(w1, count) := scan_ports files 0 w0 in
  let w2 :=
    logger INFO
      ("Scanned ports tree, added " ++ str_of_nat count ++ " packages to graph")%string
      w1 in
  if cache_graph then persist_cache writable w2 else w2.

(** [sync_from_ports] *)
Definition sync_from_ports (cache_graph writable : bool) (files : list string)
  (w : world) : world :=
  let w1 := build_graph_from_ports cache_graph writable files (set_graph NX.empty w) in
  if cache_graph then persist_cache writable w1 else w1.

End Callers.

(* ================================================================== *)
(** ** Export and the command line *)

(** What [from networkx.drawing.nx_pydot import write_dot] and
    [write_dot(self.graph, out_path)] do: the import fails, the writer
    raises, or the file is written. *)
Inductive dot_writer : Type :=
| DotMissing
| DotFails
| DotWrites.

(** How [export_graph] ends: with the document that [json.dump] has
    written, with the file that [write_dot] has written, or with an
    exception: that of [open], that of [json.dump], that of the
    import, that of [write_dot], or the [ValueError] of an unsupported
    format. *)
Inductive exported : Type :=
| JsonDocument (out : json)
| DotDocument
| ExportOSError
| ExportTypeError
| ExportImportError
| ExportWriterError
| ExportValueError.

(** [export_graph]; [out_writable] tells whether [open(out_path, "w")]
    succeeds *)
Definition export_graph (out_writable : bool) (dot : dot_writer) (fmt : string)
  (w : world) : world * exported :=
  if String.eqb fmt "json" then
    if out_writable
    then
      if dumpable (serialize (graph w))
      then (logger INFO "Graph exported (json)" w, JsonDocument (serialize (graph w)))
      else (w, ExportTypeError)
    else (w, ExportOSError)
  else if String.eqb fmt "dot" then
    match dot with
    | DotMissing =>
        (logger ERROR "dot export requires pydot or pygraphviz; ensure they are installed." w,
         ExportImportError)
    | DotFails => (w, ExportWriterError)
    | DotWrites => (logger INFO "Graph exported (dot)" w, DotDocument)
    end
  else (logger ERROR ("Unsupported format: " ++ fmt)%string w, ExportValueError).

(** [args] after [parser.parse_args()]; [CmdNone] is a command line
    without a subcommand *)
Inductive command : Type :=
| CmdResolve (package : string) (no_prompt : bool)
| CmdOrder (package : string) (skip_installed : bool)
| CmdMissing (package : string)
| CmdGraph (format out : string)
| CmdCheck (package : string)
| CmdClean
| CmdRebuild (package : string)
| CmdSync
| CmdNone.

(** one call of [print]; [PrintCycles] is [print("Cycles:", cycles)] *)
Inductive printed : Type :=
| Print (text : string)
| PrintCycles (cycles : list string)
| PrintHelp.

(** a run of [main_cli]: the resolver and its world at the end, what
    was printed, and the exit status of the process (1 for an exception
    that nothing catches) *)
Record outcome : Type := mk_outcome {
  after : world;
  stdout : list printed;
  exit_status : nat
}.

Definition newline : string := String (ascii_of_nat 10) EmptyString.

Section Cli.

Variable parse_metafile : string -> option (list (string * json)).
Variable db_revdeps : string -> result (list string).
Variable set_iter : list json -> list json.
Variable view_iter : list string -> list string.
Variable cycle_rank : DiGraph -> list string -> nat.
Variable cycle_start : DiGraph -> list string -> nat.
Variable db_query : string -> db_query_reply.

(** what [db.sh list --json] gives *)
Variable db_list : db_list_reply.

(** the [.yaml] and [.yml] files of the ports tree, in the order of
    [os.walk] *)
Variable ports_files : list string.

(** the cache file can be written; the file named by [--out] can be
    written; what the dot writer does *)
Variable cache_writable : bool.
Variable out_writable : bool.
Variable dot : dot_writer.

(** the configuration that [load_yaml_config] returns *)
Variable resolve_optional : bool.
Variable cache_graph : bool.
Variable prefer_cached_graph : bool.

(** [main_cli] once the arguments are parsed.  The configuration file
    is there and parses, so [load_yaml_config] logs nothing, and no
    hook is installed, so [run_hooks] returns at once.  [argparse]
    lets only [json] and [dot] through as the format of [graph]. *)
Definition main_cli (args : command) (c : cache_file) (i : list input_event)
  : outcome :=
  let resolver := new_resolver cache_graph prefer_cached_graph c i in
  match args with
  | CmdResolve package no_prompt =>
      match resolve parse_metafile set_iter view_iter cycle_rank cycle_start
          resolve_optional package
              (negb no_prompt) resolver with
      | (w, Raise _) => mk_outcome w [] 1
      | (w, Ok (order, cycles)) =>
          match cycles with
          | [] =>
              mk_outcome w (Print "Resolved order (dependencies first):" :: map Print order) 0
          | _ => mk_outcome w [PrintCycles cycles] 2
          end
      end
  | CmdOrder package skip_installed =>
      match install_order parse_metafile set_iter view_iter cycle_rank cycle_start
          db_query resolve_optional
              package skip_installed resolver with
      | (w, Raise _) =>
          (* logger.error(str(e)): the record has no text of its own *)
          mk_outcome (logger ERROR "" w) [] 1
      | (w, Ok order) => mk_outcome w [Print (join newline order)] 0
      end
  | CmdMissing package =>
      match missing_deps parse_metafile set_iter view_iter cycle_rank cycle_start
          db_query resolve_optional
              package resolver with
      | (w, Raise _) => mk_outcome w [] 1
      | (w, Ok miss) =>
          match miss with
          | [] => mk_outcome w [Print "No missing dependencies (or failed to resolve)."] 0
          | _ => mk_outcome w [Print (join newline miss)] 0
          end
      end
  | CmdGraph format out =>
      match export_graph out_writable dot format resolver with
      | (w, JsonDocument _) => mk_outcome w [] 0
      | (w, DotDocument) => mk_outcome w [] 0
      | (w, _) => mk_outcome (logger ERROR "Failed to export graph" w) [] 1
      end
  | CmdCheck package =>
      match missing_deps parse_metafile set_iter view_iter cycle_rank cycle_start
          db_query resolve_optional
              package resolver with
      | (w, Raise _) => mk_outcome w [] 1
      | (w, Ok miss) =>
          match miss with
          | [] => mk_outcome w [Print "All dependencies present."] 0
          | _ =>
              mk_outcome w
                (Print "Missing dependencies:"
                 :: map (fun m => Print (" - " ++ m)%string) miss)
                1
          end
      end
  | CmdClean =>
      match detect_orphans db_list resolver with
      | (w, Raise _) => mk_outcome w [] 1
      | (w, Ok orphans) =>
          match orphans with
          | [] => mk_outcome w [Print "No orphans detected."] 0
          | _ =>
              mk_outcome w
                (Print "Orphan packages (installed but no reverse-deps):"
                 :: map (fun o => Print (" - " ++ o)%string) orphans)
                0
          end
      end
  | CmdRebuild package =>
      match mark_for_rebuild db_revdeps set_iter package resolver with
      | Raise _ => mk_outcome resolver [] 1
      | Ok plist =>
          match plist with
          | [] => mk_outcome resolver [Print "No dependents detected."] 0
          | _ =>
              mk_outcome resolver
                (Print ("Packages to rebuild (dependents of " ++ package ++ "):")%string
                 :: map (fun p => Print (" - " ++ p)%string) plist)
                0
          end
      end
  | CmdSync =>
      mk_outcome
        (sync_from_ports parse_metafile set_iter cache_graph cache_writable
           ports_files resolver)
        [Print "Graph rebuilt and cached."] 0
  | CmdNone => mk_outcome resolver [PrintHelp] 1
  end.

End Cli.

(* ================================================================== *)
(** ** Notions used to state the properties of the callers *)

(** the Package Database Client counts [pkg] as installed: the query
    returns, and its record is a true value *)
Definition counts_installed (db_query : string -> db_query_reply) (pkg : string)
  : bool :=
  match snd (call_db_query db_query pkg (init NoFile [])) with
  | Ok record => is_installed record
  | Raise _ => false
  end.

(** the query for [pkg] returns: [subprocess.run] raises nothing that
    [call_db_query] lets through *)
Definition query_returns (db_query : string -> db_query_reply) (pkg : string)
  : Prop :=
  forall e, db_query pkg <> QueryRaises e.

(* ================================================================== *)
(** ** Notions used to state the properties of [add_package_from_metafile] *)

(** what [G] keeps for [n]; for a name that is not a node, what a node
    added without attributes starts with *)
Definition data_of (G : DiGraph) (n : string) : node_data :=
  match lookup n G with
  | Some d => d
  | None => mk_node [] []
  end.

(** the dependency entries of a descriptor after normalisation, build
    dependencies first *)
Definition normalized_deps (meta : list (string * json)) : list json :=
  match norm_list (build_deps_of meta), norm_list (run_deps_of meta) with
  | Ok build_deps, Ok run_deps => build_deps ++ run_deps
  | _, _ => []
  end.

(** the optional entries of a descriptor after normalisation *)
Definition normalized_optional (meta : list (string * json)) : list json :=
  match norm_list (optional_of meta) with
  | Ok optional => optional
  | Raise _ => []
  end.

(** the attributes that a descriptor gives to the node of its package *)
Definition declared_attrs (meta : list (string * json)) : attr_dict :=
  [("version", get "version" meta);
   ("origin", get_or "origin" meta (JStr ""));
   ("provides", por (get "provides" meta) (JList []));
   ("optional", JList (normalized_optional meta))].

(** the names that the loop over the set of dependencies handles before
    it meets an entry that is not a string *)
Fixpoint processed (ds : list json) : list string :=
  match ds with
  | JStr s :: rest => s :: processed rest
  | _ => []
  end.

(** a walk of [n] edges from [u] to [v] *)
Inductive walk (G : DiGraph) : nat -> string -> string -> Prop :=
| walk_here u : walk G 0 u u
| walk_step n u v t : edge G u v -> walk G n v t -> walk G (S n) u t.

(** [n] is the number of edges of a shortest walk from [u] to [v] *)
Definition shortest (G : DiGraph) (n : nat) (u v : string) : Prop :=
  walk G n u v /\ forall m, m < n -> ~ walk G m u v.

(** what [_try_load_cache] reads from one entry of the cache file: the
    attributes and the dependencies of a node *)
Definition entry_attrs (meta : json) : attr_dict :=
  match meta with
  | JObj m => match get_or "attrs" m (JObj []) with
              | JObj a => a
              | _ => []
              end
  | _ => []
  end.

Definition entry_deps (meta : json) : list json :=
  match meta with
  | JObj m => match iter (get_or "deps" m (JList [])) with
              | Ok deps => deps
              | Raise _ => []
              end
  | _ => []
  end.

(* ================================================================== *)
(** ** Scenarios *)

(** a world whose resolver holds [G] *)
Definition world_of (G : DiGraph) : world := set_graph G (init NoFile []).

(** the orphan scenario: [X] and [Y] installed, one edge [Z -> X] *)
Definition orphan_graph : DiGraph :=
  add_edge "Z" "X" NX.empty.

Definition orphan_reply : db_list_reply :=
  ListJson (JList [JObj [("name", JStr "X")]; JObj [("name", JStr "Y")]]).

(** the chain [A -> B -> C] *)
Definition chain_graph : DiGraph :=
  add_edge "B" "C" (add_edge "A" "B" NX.empty).

(** a library that yields the cycles by their earliest node, each from
    that node; and one that lists each cycle from its second node *)
Definition by_first_node (G : DiGraph) (c : list string) : nat := 0.
Definition from_second (G : DiGraph) (c : list string) : nat := 1.


(** a database that knows no reverse dependency *)
Definition no_revdeps (pkg : string) : result (list string) := Ok [].

(** a small ports tree: [A] needs [B] at run time and [C] to build and
    offers [D] as an option; [B] needs [C] *)
Definition sample_ports (name : string) : option (list (string * json)) :=
  if String.eqb name "A" then
    Some [("name", JStr "A"); ("version", JStr "1.0");
          ("runtime", JObj [("depends", JList [JStr "B>=2"])]);
          ("build", JObj [("depends", JList [JObj [("name", JStr "C")]]);
                          ("optional", JList [JStr "D"])])]
  else if String.eqb name "B" then
    Some [("name", JStr "B"); ("runtime", JObj [("depends", JList [JStr "C"])])]
  else None.

Definition sample_world : world :=
  fst (add_package_from_metafile sample_ports (fun l => l) "B"
         (fst (add_package_from_metafile sample_ports (fun l => l) "A"
                 (init NoFile [])))).


(** a Descriptor Source that knows no package *)
Definition no_ports (name : string) : option (list (string * json)) := None.

(** [R] offers [c2] and [c] as options, and [c2] depends on [c]; the
    terminal answers yes twice *)
Definition optional_graph : DiGraph :=
  add_node "R" [("optional", JList [JStr "c2"; JStr "c"])]
    (add_edge "c2" "c" NX.empty).

Definition optional_world : world :=
  mk_world optional_graph false [] NoFile [Line "y"; Line " Yes "].

(** the cycle [A -> B -> C -> A] *)
Definition cycle_graph : DiGraph :=
  add_edge "C" "A" (add_edge "B" "C" (add_edge "A" "B" NX.empty)).

(** a database in which only [B] is installed *)
Definition sample_db (pkg : string) : db_query_reply :=
  if String.eqb pkg "B" then QueryJson (JList [JObj [("name", JStr "B")]])
  else QueryFailed.


(** a ports tree whose descriptor of [tool] gives [provides] as a YAML
    set, and the resolver that has added it *)
Definition set_ports (name : string) : option (list (string * json)) :=
  if String.eqb name "tool"
  then Some [("name", JStr "tool"); ("provides", JSet [JStr "tool-bin"])]
  else None.

Definition set_world : world :=
  fst (add_package_from_metafile set_ports (fun l => l) "tool" (init NoFile [])).

(** a ports tree whose file for [foo] describes a package named [bar] *)
Definition renamed_ports (name : string) : option (list (string * json)) :=
  if String.eqb name "foo" then Some [("name", JStr "bar")] else None.

(** the terminal declines both candidates of [optional_graph] *)
Definition declining_world : world :=
  mk_world optional_graph false [] NoFile [Line "n"; Line ""].

(** [R] offers [ghost], which is neither in the graph nor in the ports
    tree; the terminal answers yes *)
Definition ghost_world : world :=
  mk_world (add_node "R" [("optional", JList [JStr "ghost"])] NX.empty)
    false [] NoFile [Line "yes"].

(** a cache file written by hand: [a] depends on [b], which has no
    entry of its own *)
Definition hand_cache : list (string * json) :=
  [("a", JObj [("attrs", JObj [("version", JStr "1")]); ("deps", JList [JStr "b"])])].

(** the cache file that a resolver holding [cycle_graph] persists *)
Definition cycle_cache : cache_file := Content (serialize cycle_graph).

(** the cache file that [sample_world] persists *)
Definition sample_cache : cache_file := Content (serialize (graph sample_world)).

(* ===== Theorems ===== *)

(* ================================================================== *)
(** ** Dicts and sets kept as lists *)

Lemma mem_In (x : string) (l : list string) : mem x l = true <-> In x l.
Proof.
  unfold mem. rewrite existsb_exists. split.
  - intros [y [Hy He]]. apply String.eqb_eq in He. now subst.
  - intros H. exists x. split; [exact H | apply String.eqb_refl].
Qed.

Lemma mem_false (x : string) (l : list string) : mem x l = false <-> ~ In x l.
Proof.
  rewrite <- mem_In. destruct (mem x l); split; congruence.
Qed.

Lemma mem_app (x : string) (l1 l2 : list string) :
  mem x (l1 ++ l2) = mem x l1 || mem x l2.
Proof. unfold mem. apply existsb_app. Qed.

Lemma lookup_dict_set_eq {A : Type} (k : string) (v : A) (d : list (string * A)) :
  lookup k (dict_set k v d) = Some v.
Proof.
  induction d as [|[k' v'] d IH]; simpl.
  - now rewrite String.eqb_refl.
  - destruct (String.eqb k' k) eqn:E; simpl.
    + now rewrite String.eqb_refl.
    + now rewrite E.
Qed.

Lemma lookup_dict_set_neq {A : Type} (k k0 : string) (v : A) (d : list (string * A)) :
  k <> k0 -> lookup k0 (dict_set k v d) = lookup k0 d.
Proof.
  intros Hn. induction d as [|[k' v'] d IH]; simpl.
  - apply String.eqb_neq in Hn. now rewrite Hn.
  - destruct (String.eqb k' k) eqn:E; simpl.
    + apply String.eqb_eq in E. subst k'.
      apply String.eqb_neq in Hn. now rewrite Hn.
    + now rewrite IH.
Qed.

Lemma lookup_In {A : Type} (k : string) (v : A) (d : list (string * A)) :
  lookup k d = Some v -> In (k, v) d.
Proof.
  induction d as [|[k' v'] d IH]; simpl; [discriminate|].
  destruct (String.eqb k' k) eqn:E.
  - apply String.eqb_eq in E. subst. intros [= ->]. now left.
  - intros H. right. now apply IH.
Qed.

Lemma lookup_None {A : Type} (k : string) (d : list (string * A)) :
  lookup k d = None <-> ~ In k (map fst d).
Proof.
  induction d as [|[k' v'] d IH]; simpl.
  - tauto.
  - destruct (String.eqb k' k) eqn:E.
    + apply String.eqb_eq in E. subst. split; [discriminate | tauto].
    + apply String.eqb_neq in E. rewrite IH. tauto.
Qed.

Lemma lookup_Some_key {A : Type} (k : string) (v : A) (d : list (string * A)) :
  lookup k d = Some v -> In k (map fst d).
Proof.
  intros H. apply lookup_In in H. apply in_map_iff. now exists (k, v).
Qed.

Lemma In_lookup {A : Type} (k : string) (v : A) (d : list (string * A)) :
  NoDup (map fst d) -> In (k, v) d -> lookup k d = Some v.
Proof.
  induction d as [|[k' v'] d IH]; simpl; [tauto|].
  intros Hnd [H|H].
  - inversion H; subst. now rewrite String.eqb_refl.
  - inversion Hnd as [|? ? Hk Hnd']; subst.
    destruct (String.eqb k' k) eqn:E.
    + apply String.eqb_eq in E. subst.
      exfalso. apply Hk. apply in_map_iff. now exists (k, v).
    + now apply IH.
Qed.

Lemma keys_dict_set {A : Type} (k : string) (v : A) (d : list (string * A)) :
  map fst (dict_set k v d)
  = if mem k (map fst d) then map fst d else map fst d ++ [k].
Proof.
  induction d as [|[k' v'] d IH]; simpl; [reflexivity|].
  rewrite (String.eqb_sym k k').
  destruct (String.eqb k' k) eqn:E; simpl.
  - apply String.eqb_eq in E. now subst.
  - rewrite IH. fold (mem k (map fst d)). now destruct (mem k (map fst d)).
Qed.

Lemma set_add_In (x y : string) (s : list string) :
  In y (set_add x s) <-> y = x \/ In y s.
Proof.
  unfold set_add. destruct (mem x s) eqn:E.
  - apply mem_In in E. split; [tauto|]. intros [->|H]; assumption.
  - rewrite in_app_iff. simpl. split; [intros [H|[H|[]]]|intros [H|H]]; auto.
Qed.

Lemma set_add_NoDup (x : string) (s : list string) : NoDup s -> NoDup (set_add x s).
Proof.
  intros H. unfold set_add. destruct (mem x s) eqn:E; [exact H|].
  apply mem_false in E. apply NoDup_app; auto.
  - constructor; [tauto | constructor].
  - intros y Hy [<-|[]]. contradiction.
Qed.

(* ================================================================== *)
(** ** Strings *)

Lemma string_of_list_ascii_app (l1 l2 : list ascii) :
  string_of_list_ascii (l1 ++ l2)
  = (string_of_list_ascii l1 ++ string_of_list_ascii l2)%string.
Proof.
  induction l1 as [|c l1 IH]; simpl; [reflexivity | now rewrite IH].
Qed.

Lemma append_empty_r (s : string) : (s ++ "")%string = s.
Proof. induction s as [|c s IH]; simpl; [reflexivity | now rewrite IH]. Qed.

Lemma append_assoc (a b c : string) : ((a ++ b) ++ c)%string = (a ++ (b ++ c))%string.
Proof. induction a as [|x a IH]; simpl; [reflexivity | now rewrite IH]. Qed.

Lemma split_ws_aux_head (s : string) :
  forall cur, cur <> [] ->
  exists tl, split_ws_aux s cur
             = (string_of_list_ascii (rev cur) ++ before_space s)%string :: tl.
Proof.
  induction s as [|c s IH]; intros cur Hcur; simpl.
  - destruct cur as [|x cur]; [congruence|]. simpl.
    exists []. now rewrite append_empty_r.
  - destruct (is_space c).
    + destruct cur as [|x cur]; [congruence|]. simpl.
      eexists. now rewrite append_empty_r.
    + destruct (IH (c :: cur)) as [tl Htl]; [discriminate|].
      exists tl. rewrite Htl. simpl rev.
      rewrite string_of_list_ascii_app, append_assoc. reflexivity.
Qed.

Lemma split_ws_blank (s : string) : lstrip s = "" -> split_ws s = [].
Proof.
  unfold split_ws. induction s as [|c s IH]; simpl; intros H; [reflexivity|].
  destruct (is_space c); [now apply IH | discriminate].
Qed.

Lemma split_ws_head (s : string) :
  lstrip s <> "" -> exists tl, split_ws s = before_space (lstrip s) :: tl.
Proof.
  unfold split_ws. induction s as [|c s IH]; simpl; intros H; [congruence|].
  destruct (is_space c) eqn:Hc.
  - simpl. now apply IH.
  - destruct (split_ws_aux_head s [c]) as [tl Htl]; [discriminate|].
    exists tl. rewrite Htl. simpl. now rewrite Hc.
Qed.

Lemma before_cut (sep s : string) : before sep s = cut (prefix sep) s.
Proof.
  induction s as [|c s IH]; simpl; [reflexivity|].
  now rewrite IH.
Qed.

Lemma cut_ext (P Q : string -> bool) :
  (forall s, P s = Q s) -> forall s, cut P s = cut Q s.
Proof.
  intros H s. induction s as [|c s IH]; simpl; rewrite H; [reflexivity|].
  now rewrite IH.
Qed.

Lemma cut_cut (P Q : string -> bool) :
  (forall c s, P (String c s) = false ->
               Q (String c (cut P s)) = Q (String c s)) ->
  forall s, cut Q (cut P s) = cut (fun s => P s || Q s) s.
Proof.
  intros H s. induction s as [|c s IH].
  - simpl. destruct (P ""); simpl; destruct (Q ""); reflexivity.
  - simpl cut at 2 3.
    destruct (P (String c s)) eqn:HP.
    + simpl. destruct (Q ""); reflexivity.
    + simpl orb. simpl cut at 1. rewrite (H c s HP).
      destruct (Q (String c s)); [reflexivity|]. now rewrite IH.
Qed.

Lemma prefix_cons (a b : ascii) (s t : string) :
  prefix (String a s) (String b t) = Ascii.eqb a b && prefix s t.
Proof.
  cbn [prefix]. destruct (ascii_dec a b) as [->|Hn].
  - now rewrite Ascii.eqb_refl.
  - apply Ascii.eqb_neq in Hn. now rewrite Hn.
Qed.

Lemma prefix_nil_r (a : ascii) (s : string) : prefix (String a s) "" = false.
Proof. reflexivity. Qed.

Lemma prefix_nil_l (s : string) : prefix "" s = true.
Proof. now destruct s. Qed.

Lemma prefix_eq_cut (P : string -> bool) :
  (forall s, P s = true -> prefix "=" s = false) ->
  forall s, prefix "=" (cut P s) = prefix "=" s.
Proof.
  intros H s. destruct s as [|c s].
  - cbn [cut]. destruct (P ""); reflexivity.
  - cbn [cut]. destruct (P (String c s)) eqn:HP.
    + now rewrite (H _ HP).
    + now rewrite !prefix_cons, !prefix_nil_l.
Qed.

Lemma stable_one (a : ascii) (P : string -> bool) (c : ascii) (s : string) :
  prefix (String a "") (String c (cut P s)) = prefix (String a "") (String c s).
Proof. now rewrite !prefix_cons, !prefix_nil_l. Qed.

Lemma stable_two (a : ascii) (P : string -> bool) :
  (forall s, P s = true -> prefix "=" s = false) ->
  forall c s,
    prefix (String a "=") (String c (cut P s)) = prefix (String a "=") (String c s).
Proof.
  intros H c s. rewrite !prefix_cons. now rewrite (prefix_eq_cut P H).
Qed.

Lemma ge_not_eq (s : string) : prefix ">=" s = true -> prefix "=" s = false.
Proof.
  destruct s as [|c s]; [discriminate|].
  rewrite !prefix_cons, prefix_nil_l. intros H.
  apply andb_true_iff in H as [H _]. apply Ascii.eqb_eq in H. now subst c.
Qed.

Lemma le_not_eq (s : string) : prefix "<=" s = true -> prefix "=" s = false.
Proof.
  destruct s as [|c s]; [discriminate|].
  rewrite !prefix_cons, prefix_nil_l. intros H.
  apply andb_true_iff in H as [H _]. apply Ascii.eqb_eq in H. now subst c.
Qed.

(** the five chained [split(op)[0]] cut at the first operator *)
Lemma chained_splits (s : string) :
  before "<" (before ">" (before "==" (before "<=" (before ">=" s))))
  = strip_operator s.
Proof.
  rewrite !before_cut.
  rewrite (cut_cut (prefix ">=") (prefix "<=")).
  2:{ intros c t _. apply stable_two. apply ge_not_eq. }
  rewrite (cut_cut _ (prefix "==")).
  2:{ intros c t _. apply stable_two. intros u Hu.
      apply orb_true_iff in Hu as [Hu|Hu]; [now apply ge_not_eq | now apply le_not_eq]. }
  rewrite (cut_cut _ (prefix ">")).
  2:{ intros c t _. apply stable_one. }
  rewrite (cut_cut _ (prefix "<")).
  2:{ intros c t _. apply stable_one. }
  transitivity (cut (fun s => existsb (fun op => prefix op s) operators) s).
  - apply cut_ext. intros t. unfold operators. simpl existsb.
    destruct (prefix ">=" t), (prefix "<=" t), (prefix "==" t), (prefix ">" t),
      (prefix "<" t); reflexivity.
  - clear. induction s as [|c s IH]; [reflexivity|].
    cbn [cut strip_operator]. now rewrite IH.
Qed.

(* ================================================================== *)
(** ** Normalisation of dependency tokens *)

Lemma norm_token_word (s : string) :
  lstrip s <> "" ->
  norm_token s = Ok (strip_operator (before_space (lstrip s))).
Proof.
  intros H. unfold norm_token.
  destruct (split_ws_head s H) as [tl ->]. now rewrite chained_splits.
Qed.

Lemma norm_token_blank (s : string) : lstrip s = "" -> norm_token s = Raise IndexError.
Proof. intros H. unfold norm_token. now rewrite (split_ws_blank s H). Qed.

Lemma norm_token_raise (s : string) (e : exn) :
  norm_token s = Raise e -> e = IndexError.
Proof. unfold norm_token. destruct (split_ws s); congruence. Qed.

Lemma norm_items_raise (l : list json) (e : exn) :
  norm_items l = Raise e -> e = IndexError.
Proof.
  induction l as [|it l IH]; simpl; [discriminate|].
  destruct it as [|s|items|d|js]; auto.
  - destruct (norm_token s) eqn:Ht; simpl.
    + destruct (norm_items l); simpl; [discriminate|]. intros [= <-]. now apply IH.
    + intros [= <-]. now apply norm_token_raise in Ht.
  - destruct (lookup "name" d); auto.
    destruct (norm_items l); simpl; [discriminate|]. intros [= <-]. now apply IH.
Qed.

Lemma norm_list_raise (v : json) (e : exn) : norm_list v = Raise e -> e = IndexError.
Proof.
  unfold norm_list. destruct (truthy v) eqn:Ht; simpl; [|discriminate].
  destruct v; simpl in *; try discriminate; apply norm_items_raise.
Qed.

Lemma norm_items_blank (l : list json) (s : string) :
  In (JStr s) l -> lstrip s = "" -> norm_items l = Raise IndexError.
Proof.
  intros Hin Hs. induction l as [|it l IH]; [contradiction|].
  destruct Hin as [->|Hin].
  - simpl. now rewrite (norm_token_blank s Hs).
  - specialize (IH Hin). simpl. destruct it as [|t|items|d|js]; auto.
    + destruct (norm_token t) eqn:Ht; simpl.
      * now rewrite IH.
      * f_equal. now apply norm_token_raise in Ht.
    + destruct (lookup "name" d); auto. now rewrite IH.
Qed.

Lemma norm_list_blank (l : list json) (s : string) :
  In (JStr s) l -> lstrip s = "" -> norm_list (JList l) = Raise IndexError.
Proof.
  intros Hin Hs. unfold norm_list.
  destruct l as [|x l]; [contradiction|]. simpl truthy. cbn [negb iter bind].
  now apply norm_items_blank with s.
Qed.

(** C6, as amended: the normalisation of a string token that has a
    character other than whitespace is its first whitespace-delimited
    word, leading whitespace skipped, cut at the first comparison
    operator; for a token that does not begin with whitespace this is
    the rule in the words of the specification.  A structured entry
    that has a [name] field gives that field as it is.  In particular
    ["libfoo>=1.2"] gives ["libfoo"] and [{name: "libbar"}] gives
    ["libbar"]. *)
Theorem norm_list_normalizes (s : string) (d : list (string * json)) (v : json)
  (rest out : list json) :
  lstrip s <> "" ->
  lookup "name" d = Some v ->
  norm_list (JList rest) = Ok out ->
  norm_list (JList (JStr s :: rest))
    = Ok (JStr (strip_operator (before_space (lstrip s))) :: out)
  /\ (lstrip s = s ->
      norm_list (JList (JStr s :: rest)) = Ok (JStr (spec_normalize s) :: out))
  /\ norm_list (JList (JObj d :: rest)) = Ok (v :: out)
  /\ norm_list (JList [JStr "libfoo>=1.2"]) = Ok [JStr "libfoo"]
  /\ norm_list (JList [JObj [("name", JStr "libbar")]]) = Ok [JStr "libbar"].
Proof.
  intros Hs Hd Hrest.
  assert (Hr : norm_items rest = Ok out).
  { destruct rest; [now inversion Hrest | exact Hrest]. }
  assert (H1 : norm_list (JList (JStr s :: rest))
               = Ok (JStr (strip_operator (before_space (lstrip s))) :: out)).
  { unfold norm_list. cbn [truthy negb iter bind norm_items].
    now rewrite (norm_token_word s Hs), Hr. }
  split; [exact H1|]. split.
  - intros Heq. rewrite H1. unfold spec_normalize. now rewrite Heq.
  - split; [|split; reflexivity].
    unfold norm_list. cbn [truthy negb iter bind norm_items]. now rewrite Hd, Hr.
Qed.

(** C6 as stated fails: a token that begins with whitespace is not cut
    at that whitespace, and a blank token has no normal form at all. *)
Lemma norm_token_leading_space :
  norm_token " libfoo>=1.2" = Ok "libfoo"
  /\ spec_normalize " libfoo>=1.2" = ""
  /\ norm_token " libfoo>=1.2" <> Ok (spec_normalize " libfoo>=1.2")
  /\ norm_list (JList [JStr ""]) = Raise IndexError.
Proof. repeat split; try reflexivity. discriminate. Qed.

(* ================================================================== *)
(** ** Blank dependency entries *)

Lemma name_of_empty : truthy (name_of []) = false.
Proof. reflexivity. Qed.

(** C10: a descriptor that has a name and whose build or runtime
    dependency list holds a string that is empty or all whitespace makes
    [add_package_from_metafile] raise [IndexError]; nothing is added to
    the graph, and [resolve] passes the exception on when it asks for
    that descriptor. *)
Theorem add_package_blank_dependency
  (parse_metafile : string -> option (list (string * json)))
  (set_iter : list json -> list json)
  (path_or_name : string) (meta : list (string * json))
  (l : list json) (s : string) (w : world) :
  parse_metafile path_or_name = Some meta ->
  truthy (name_of meta) = true ->
  build_deps_of meta = JList l \/ run_deps_of meta = JList l ->
  In (JStr s) l ->
  lstrip s = "" ->
  add_package_from_metafile parse_metafile set_iter path_or_name w
  = (w, Raise IndexError)
  /\ forall view_iter cycle_rank cycle_start resolve_optional prompt,
       has_node (graph w) path_or_name = false ->
       resolve parse_metafile set_iter view_iter cycle_rank cycle_start
         resolve_optional path_or_name prompt w
       = (w, Raise IndexError).
Proof.
  intros Hp Hname Hdeps Hin Hs.
  assert (Hadd : add_package_from_metafile parse_metafile set_iter path_or_name w
                 = (w, Raise IndexError)).
  { unfold add_package_from_metafile. rewrite Hp.
    destruct meta as [|kv meta]; [now rewrite name_of_empty in Hname|].
    unfold add_package. rewrite Hname. cbn [negb].
    destruct Hdeps as [Hb|Hr].
    - now rewrite Hb, (norm_list_blank l s Hin Hs).
    - destruct (norm_list (build_deps_of (kv :: meta))) eqn:Hb.
      + now rewrite Hr, (norm_list_blank l s Hin Hs).
      + now rewrite (norm_list_raise _ _ Hb). }
  split; [exact Hadd|].
  intros view_iter cycle_rank cycle_start resolve_optional prompt Habs.
  unfold resolve, ensure_root. now rewrite Habs, Hadd.
Qed.

Lemma add_package_blank_dependency_witness :
  let meta := [("name", JStr "app");
               ("runtime", JObj [("depends", JList [JStr "libfoo"; JStr "  "])])] in
  truthy (name_of meta) = true
  /\ run_deps_of meta = JList [JStr "libfoo"; JStr "  "]
  /\ lstrip "  " = ""
  /\ add_package_from_metafile (fun _ => Some meta) (fun l => l) "app" (init NoFile [])
     = (init NoFile [], Raise IndexError).
Proof.
  intros meta. split; [reflexivity|]. split; [reflexivity|]. split; [reflexivity|].
  refine (proj1 (add_package_blank_dependency (fun _ => Some meta) (fun l => l) "app"
                   meta [JStr "libfoo"; JStr "  "] "  " (init NoFile []) _ _ _ _ _)).
  - reflexivity.
  - reflexivity.
  - right. reflexivity.
  - simpl. auto.
  - reflexivity.
Defined.

Lemma norm_list_normalizes_witness :
  lstrip "zlib <2" <> ""
  /\ lookup "name" [("name", JStr "x")] = Some (JStr "x")
  /\ norm_list (JList [JStr "openssl"]) = Ok [JStr "openssl"]
  /\ norm_list (JList [JStr "zlib <2"; JStr "openssl"])
     = Ok [JStr "zlib"; JStr "openssl"].
Proof.
  split; [discriminate|]. split; [reflexivity|]. split; [reflexivity|].
  refine (proj1 (norm_list_normalizes "zlib <2" [("name", JStr "x")] (JStr "x")
                   [JStr "openssl"] [JStr "openssl"] _ _ _)).
  - discriminate.
  - reflexivity.
  - reflexivity.
Defined.

(* ================================================================== *)
(** ** Orphans *)

Lemma edges_In (G : DiGraph) (u v : string) :
  In (u, v) (edges G) <-> exists d, In (u, d) G /\ In v (succ d).
Proof.
  unfold edges. rewrite in_flat_map. split.
  - intros [[n d] [Hin Hm]]. simpl in Hm. apply in_map_iff in Hm as [x [Hx Hv]].
    inversion Hx; subst. now exists d.
  - intros [d [Hin Hv]]. exists (u, d). split; [exact Hin|].
    simpl. apply in_map_iff. now exists v.
Qed.

Lemma nonempty_add_revdep (m : list (string * list string)) (e : string * string)
  (n : string) :
  nonempty (lookup n (add_revdep m e))
  = nonempty (lookup n m) || String.eqb (snd e) n.
Proof.
  unfold add_revdep. destruct (String.eqb (snd e) n) eqn:E.
  - apply String.eqb_eq in E. subst n. rewrite orb_true_r.
    destruct (lookup (snd e) m) as [srcs|]; rewrite lookup_dict_set_eq; [|reflexivity].
    unfold set_add. destruct (mem (fst e) srcs) eqn:Hm.
    + apply mem_In in Hm. now destruct srcs.
    + now destruct srcs.
  - apply String.eqb_neq in E. rewrite orb_false_r.
    destruct (lookup (snd e) m); now rewrite lookup_dict_set_neq.
Qed.

Lemma nonempty_fold_revdep (es : list (string * string)) :
  forall (m : list (string * list string)) (n : string),
    nonempty (lookup n (fold_left add_revdep es m))
    = nonempty (lookup n m) || existsb (fun e => String.eqb (snd e) n) es.
Proof.
  induction es as [|e es IH]; intros m n; simpl.
  - now rewrite orb_false_r.
  - now rewrite IH, nonempty_add_revdep, orb_assoc.
Qed.

Lemma nonempty_fresh_map (ns : list string) (n : string) :
  nonempty (lookup n (map (fun x => (x, @nil string)) ns)) = false.
Proof.
  induction ns as [|x ns IH]; simpl; [reflexivity|].
  now destruct (String.eqb x n).
Qed.

Lemma revdeps_map_empty (G : DiGraph) (n : string) :
  negb (nonempty (lookup n (revdeps_map G))) = no_dependent G n.
Proof.
  unfold revdeps_map, no_dependent.
  now rewrite nonempty_fold_revdep, nonempty_fresh_map.
Qed.

Lemma orphans_of_names (m : list (string * list string)) (names : list string) :
  orphans_of m (map JStr names)
  = Ok (filter (fun n => negb (nonempty (lookup n m))) names).
Proof.
  induction names as [|n names IH]; simpl; [reflexivity|].
  rewrite IH. simpl. destruct (lookup n m) as [[|x srcs]|]; reflexivity.
Qed.

(** C7: [detect_orphans] returns the installed names that no edge of
    the loaded graph points to, in the order in which the database
    lists them; a name with an incoming edge is never reported, and an
    installed name that is not in the graph always is. *)
Theorem detect_orphans_exact (reply : db_list_reply) (w : world)
  (names : list string) :
  installed_names reply = Some (map JStr names) ->
  snd (detect_orphans reply w) = Ok (filter (no_dependent (graph w)) names)
  /\ graph (fst (detect_orphans reply w)) = graph w
  /\ (forall src n, In (src, n) (edges (graph w)) ->
                    ~ In n (filter (no_dependent (graph w)) names))
  /\ (forall n, wf (graph w) -> In n names -> ~ In n (nodes (graph w)) ->
                In n (filter (no_dependent (graph w)) names)).
Proof.
  intros Hn. unfold detect_orphans. rewrite Hn. cbn [fst snd].
  split; [|split; [|split]].
  - rewrite orphans_of_names. f_equal. apply filter_ext. intros n.
    apply revdeps_map_empty.
  - destruct reply as [| |[]]; reflexivity.
  - intros src n He Hin. apply filter_In in Hin as [_ Hnd].
    unfold no_dependent in Hnd. apply negb_true_iff in Hnd.
    assert (Ht : existsb (fun e => String.eqb (snd e) n) (edges (graph w)) = true).
    { apply existsb_exists. exists (src, n). split; [exact He | apply String.eqb_refl]. }
    congruence.
  - intros n [_ Hwf] Hin Hab. apply filter_In. split; [exact Hin|].
    unfold no_dependent. apply negb_true_iff.
    destruct (existsb _ _) eqn:Hex; [|reflexivity].
    apply existsb_exists in Hex as [[src v] [He Hv]]. simpl in Hv.
    apply String.eqb_eq in Hv. subst v.
    apply edges_In in He as [d [Hd Hs]].
    exfalso. apply Hab. now apply (Hwf src d Hd).
Qed.

Lemma detect_orphans_exact_witness :
  installed_names orphan_reply = Some (map JStr ["X"; "Y"])
  /\ snd (detect_orphans orphan_reply (world_of orphan_graph))
     = Ok ["Y"].
Proof.
  split; [reflexivity|].
  exact (proj1 (detect_orphans_exact orphan_reply
                  (world_of orphan_graph) ["X"; "Y"] eq_refl)).
Defined.

(* ================================================================== *)
(** ** Rebuild impact *)

(** C4 fails on the chain [A -> B -> C]: [has_path(n, pkg)] holds for
    [n = pkg] (the empty path), so the changed package is listed among
    its own dependents, at distance 0, after [A] (distance 2) and [B]
    (distance 1). *)
Lemma mark_for_rebuild_chain :
  mark_for_rebuild no_revdeps (fun l => l) "C" (world_of chain_graph)
  = Ok ["A"; "B"; "C"]
  /\ has_path chain_graph "C" "C" = Ok true
  /\ map (distance chain_graph "C") ["A"; "B"; "C"] = [2; 1; 0]
  /\ mark_for_rebuild no_revdeps (fun l => l) "C" (world_of chain_graph)
     <> Ok ["A"; "B"].
Proof.
  split; [reflexivity|]. split; [reflexivity|]. split; [reflexivity|].
  discriminate.
Qed.

Lemma has_path_self (G : DiGraph) (n : string) :
  has_node G n = true -> has_path G n n = Ok true.
Proof.
  intros H. unfold has_path, shortest_path_length. rewrite H. cbn [negb orb].
  destruct (length G); simpl; now rewrite String.eqb_refl.
Qed.

Lemma with_path_self (G : DiGraph) (pkg : string) (ns out : list string) :
  has_node G pkg = true -> In pkg ns ->
  with_path G ns pkg = Ok out -> In pkg out.
Proof.
  intros Hn. revert out. induction ns as [|n ns IH]; intros out Hin; [contradiction|].
  simpl. destruct (has_path G n pkg) as [b|e] eqn:Hp; simpl; [|discriminate].
  destruct (with_path G ns pkg) as [out'|e] eqn:Hw; simpl; [|discriminate].
  intros [= <-]. destruct Hin as [->|Hin].
  - rewrite (has_path_self G pkg Hn) in Hp. inversion Hp; subst. now left.
  - specialize (IH out' Hin eq_refl). destruct b; [now right | exact IH].
Qed.

Lemma distinct_In (l : list json) :
  forall seen x, In x l -> existsb (key_eqb x) seen = false ->
                 hashable x = true -> In x (distinct l seen).
Proof.
  induction l as [|y l IH]; intros seen x Hin Hs Hh; [contradiction|].
  simpl. destruct Hin as [->|Hin].
  - rewrite Hs. now left.
  - destruct (existsb (key_eqb y) seen) eqn:Hy.
    + now apply IH.
    + destruct (key_eqb x y) eqn:Hxy.
      * left. destruct x, y; simpl in *; try discriminate; [reflexivity|].
        apply String.eqb_eq in Hxy. now subst.
      * right. apply IH; auto. rewrite existsb_app. simpl.
        now rewrite Hs, Hxy.
Qed.

Lemma insert_desc_In (key : string -> nat) (x y : string) (l : list string) :
  In y (insert_desc key x l) <-> y = x \/ In y l.
Proof.
  induction l as [|z l IH]; simpl.
  - intuition.
  - destruct (key z <=? key x); simpl; [intuition|]. rewrite IH. intuition.
Qed.

Lemma sorted_desc_In (key : string -> nat) (y : string) (l : list string) :
  In y (sorted_desc key l) <-> In y l.
Proof.
  induction l as [|x l IH]; simpl; [tauto|].
  rewrite insert_desc_In, IH. intuition.
Qed.

(** whatever the iteration order of the set of dependents, a package
    that is in the graph is returned among its own dependents *)
Lemma mark_for_rebuild_lists_target
  (db_revdeps : string -> result (list string)) (set_iter : list json -> list json)
  (pkg : string) (w : world) (out : list string) :
  (forall l, Permutation (set_iter l) l) ->
  has_node (graph w) pkg = true ->
  mark_for_rebuild db_revdeps set_iter pkg w = Ok out ->
  In pkg out.
Proof.
  intros Hperm Hn. unfold mark_for_rebuild.
  destruct (db_revdeps pkg) as [lines|e0]; cbn [bind]; [|discriminate]. rewrite Hn.
  destruct (with_path (graph w) (nodes (graph w)) pkg) as [fg|e] eqn:Hw; simpl;
    [|discriminate].
  intros [= <-]. apply sorted_desc_In.
  unfold str_items. apply in_flat_map. exists (JStr pkg). split; [|now left].
  apply (Permutation_in _ (Permutation_sym (Hperm _))).
  apply distinct_In; auto. apply in_map. apply in_or_app. left.
  apply (with_path_self (graph w) pkg (nodes (graph w)) fg Hn); auto.
  now apply mem_In.
Qed.

(* ================================================================== *)
(** ** The representation invariant of the graph *)

Lemma In_dict_set {A : Type} (k k' : string) (v v' : A) (d : list (string * A)) :
  In (k', v') (dict_set k v d) -> (k' = k /\ v' = v) \/ In (k', v') d.
Proof.
  induction d as [|[k0 v0] d IH]; simpl.
  - intros [H|[]]. inversion H. auto.
  - destruct (String.eqb k0 k); simpl.
    + intros [H|H]; [inversion H; auto | auto].
    + intros [H|H]; [auto | destruct (IH H); auto].
Qed.

Lemma keys_dict_set_present {A : Type} (k : string) (v : A) (d : list (string * A)) :
  In k (map fst d) -> map fst (dict_set k v d) = map fst d.
Proof.
  intros H. rewrite keys_dict_set. apply mem_In in H. now rewrite H.
Qed.



Lemma lookup_app_None {A : Type} (k : string) (d1 d2 : list (string * A)) :
  lookup k d1 = None -> lookup k (d1 ++ d2) = lookup k d2.
Proof.
  induction d1 as [|[k0 v0] d1 IH]; simpl; [reflexivity|].
  destruct (String.eqb k0 k); [discriminate | exact IH].
Qed.

Lemma lookup_app_Some {A : Type} (k : string) (v : A) (d1 d2 : list (string * A)) :
  lookup k d1 = Some v -> lookup k (d1 ++ d2) = Some v.
Proof.
  induction d1 as [|[k0 v0] d1 IH]; simpl; [discriminate|].
  destruct (String.eqb k0 k); [auto | exact IH].
Qed.

Lemma has_node_In (G : DiGraph) (n : string) : has_node G n = true <-> In n (nodes G).
Proof. apply mem_In. Qed.

Lemma has_node_lookup (G : DiGraph) (n : string) :
  has_node G n = true <-> exists d, lookup n G = Some d.
Proof.
  rewrite has_node_In. split.
  - intros H. destruct (lookup n G) eqn:E; [eauto|].
    apply lookup_None in E. contradiction.
  - intros [d H]. now apply lookup_Some_key in H.
Qed.

Lemma wf_empty : wf NX.empty.
Proof. split; [constructor | intros n d []]. Qed.

Lemma wf_new_node (G : DiGraph) (n : string) (a : attr_dict) :
  wf G -> ~ In n (nodes G) -> wf (G ++ [(n, mk_node a [])]).
Proof.
  intros [Hnd Hs] Hn. split.
  - unfold nodes. rewrite map_app. apply NoDup_app; auto.
    + simpl. constructor; [tauto | constructor].
    + intros x Hx [<-|[]]. contradiction.
  - intros m d Hin. apply in_app_iff in Hin as [Hin|[Hin|[]]].
    + destruct (Hs m d Hin) as [H1 H2]. split; [exact H1|].
      intros v Hv. unfold nodes. rewrite map_app. apply in_or_app. left. now apply H2.
    + inversion Hin; subst. simpl. split; [constructor | tauto].
Qed.

Lemma wf_update_node (G : DiGraph) (n : string) (d : node_data) :
  wf G -> In n (nodes G) -> NoDup (succ d) ->
  (forall v, In v (succ d) -> In v (nodes G)) ->
  wf (dict_set n d G).
Proof.
  intros [Hnd Hs] Hn Hd1 Hd2. unfold wf, nodes in *.
  rewrite (keys_dict_set_present n d G Hn). split; [exact Hnd|].
  intros m d' Hin. apply In_dict_set in Hin as [[-> ->]|Hin]; [auto|].
  apply (Hs m d' Hin).
Qed.

Lemma wf_lookup (G : DiGraph) (n : string) (d : node_data) :
  wf G -> lookup n G = Some d ->
  NoDup (succ d) /\ forall v, In v (succ d) -> In v (nodes G).
Proof. intros [_ Hs] H. apply (Hs n d). now apply lookup_In. Qed.

Lemma wf_add_node (n : string) (a : attr_dict) (G : DiGraph) :
  wf G -> wf (add_node n a G).
Proof.
  intros Hwf. unfold add_node. destruct (lookup n G) as [d|] eqn:E.
  - destruct (wf_lookup G n d Hwf E) as [H1 H2].
    apply wf_update_node; auto. now apply lookup_Some_key in E.
  - apply wf_new_node; auto. now apply lookup_None.
Qed.

Lemma wf_ensure (G : DiGraph) (n : string) :
  wf G -> wf (if has_node G n then G else G ++ [(n, mk_node [] [])]).
Proof.
  intros Hwf. destruct (has_node G n) eqn:E; [exact Hwf|].
  apply wf_new_node; auto. now apply mem_false in E.
Qed.

Lemma nodes_ensure (G : DiGraph) (n : string) :
  In n (nodes (if has_node G n then G else G ++ [(n, mk_node [] [])])).
Proof.
  destruct (has_node G n) eqn:E; [now apply has_node_In|].
  unfold nodes. rewrite map_app. apply in_or_app. right. now left.
Qed.

Lemma nodes_ensure_incl (G : DiGraph) (n x : string) :
  In x (nodes G) ->
  In x (nodes (if has_node G n then G else G ++ [(n, mk_node [] [])])).
Proof.
  intros H. destruct (has_node G n); [exact H|].
  unfold nodes. rewrite map_app. apply in_or_app. now left.
Qed.

Lemma wf_add_edge (u v : string) (G : DiGraph) : wf G -> wf (add_edge u v G).
Proof.
  intros Hwf. unfold add_edge.
  set (G1 := if has_node G u then G else G ++ [(u, mk_node [] [])]).
  set (G2 := if has_node G1 v then G1 else G1 ++ [(v, mk_node [] [])]).
  assert (H1 : wf G1) by now apply wf_ensure.
  assert (H2 : wf G2) by now apply wf_ensure.
  assert (Hv : In v (nodes G2)) by apply nodes_ensure.
  destruct (lookup u G2) as [d|] eqn:E; [|exact H2].
  destruct (wf_lookup G2 u d H2 E) as [Hd1 Hd2].
  apply wf_update_node; auto.
  - now apply lookup_Some_key in E.
  - simpl. now apply set_add_NoDup.
  - simpl. intros x Hx. apply set_add_In in Hx as [->|Hx]; auto.
Qed.

Lemma wf_set_node_attr (n k : string) (v : json) (G G' : DiGraph) :
  wf G -> set_node_attr n k v G = Ok G' -> wf G'.
Proof.
  intros Hwf. unfold set_node_attr. destruct (lookup n G) as [d|] eqn:E; [|discriminate].
  intros [= <-]. destruct (wf_lookup G n d Hwf E) as [H1 H2].
  apply wf_update_node; auto. now apply lookup_Some_key in E.
Qed.

Lemma wf_add_deps (set_order : list json) (name : string) :
  forall G, wf G -> wf (fst (add_deps name set_order G)).
Proof.
  induction set_order as [|d ds IH]; intros G Hwf; simpl; [exact Hwf|].
  destruct d as [|s|l|o|js]; simpl; auto.
  destruct (String.eqb s name); apply IH; auto.
  now apply wf_add_edge, wf_add_node.
Qed.

(* ================================================================== *)
(** ** Attribute dicts *)

Lemma plain_nil : plain [].
Proof. repeat split; simpl; try tauto. constructor. Qed.

Lemma plain_dict_set (k : string) (v : json) (a : attr_dict) :
  plain a -> k <> "self" -> k <> "node_for_adding" -> plain (dict_set k v a).
Proof.
  intros [H1 [H2 H3]] Hk1 Hk2. unfold plain. rewrite keys_dict_set.
  destruct (mem k (map fst a)) eqn:E; [tauto|].
  apply mem_false in E. split; [|split].
  - apply NoDup_app; auto.
    + constructor; [tauto | constructor].
    + intros x Hx [<-|[]]. contradiction.
  - rewrite in_app_iff. simpl. intuition congruence.
  - rewrite in_app_iff. simpl. intuition congruence.
Qed.

Lemma plain_dict_update (attr a : attr_dict) :
  plain a ->
  (forall k, In k (map fst attr) -> k <> "self" /\ k <> "node_for_adding") ->
  plain (dict_update a attr).
Proof.
  unfold dict_update. revert a. induction attr as [|[k v] attr IH]; intros a Ha Hk; simpl.
  - exact Ha.
  - apply IH.
    + destruct (Hk k) as [H1 H2]; [now left|]. now apply plain_dict_set.
    + intros k' Hk'. apply Hk. now right.
Qed.



Lemma plain_attrs_empty : plain_attrs NX.empty.
Proof. intros n d []. Qed.

Lemma plain_attrs_new_node (G : DiGraph) (n : string) (a : attr_dict)
  (l : list string) :
  plain_attrs G -> plain a -> plain_attrs (G ++ [(n, mk_node a l)]).
Proof.
  intros HG Ha m d Hin. apply in_app_iff in Hin as [Hin|[Hin|[]]].
  - now apply (HG m d).
  - inversion Hin; subst. exact Ha.
Qed.

Lemma plain_attrs_update (G : DiGraph) (n : string) (d : node_data) :
  plain_attrs G -> plain (attrs d) -> plain_attrs (dict_set n d G).
Proof.
  intros HG Hd m d' Hin. apply In_dict_set in Hin as [[-> ->]|Hin]; [exact Hd|].
  now apply (HG m d').
Qed.

Lemma plain_attrs_add_node (n : string) (attr : attr_dict) (G : DiGraph) :
  plain_attrs G ->
  (forall k, In k (map fst attr) -> k <> "self" /\ k <> "node_for_adding") ->
  plain_attrs (add_node n attr G).
Proof.
  intros HG Hk. unfold add_node. destruct (lookup n G) as [d|] eqn:E.
  - apply plain_attrs_update; auto. simpl. apply plain_dict_update; auto.
    apply (HG n d). now apply lookup_In.
  - apply plain_attrs_new_node; auto. apply plain_dict_update; auto. apply plain_nil.
Qed.

Lemma plain_attrs_ensure (G : DiGraph) (n : string) :
  plain_attrs G -> plain_attrs (if has_node G n then G else G ++ [(n, mk_node [] [])]).
Proof.
  intros HG. destruct (has_node G n); [exact HG|].
  apply plain_attrs_new_node; auto. apply plain_nil.
Qed.

Lemma plain_attrs_add_edge (u v : string) (G : DiGraph) :
  plain_attrs G -> plain_attrs (add_edge u v G).
Proof.
  intros HG. unfold add_edge.
  set (G1 := if has_node G u then G else G ++ [(u, mk_node [] [])]).
  set (G2 := if has_node G1 v then G1 else G1 ++ [(v, mk_node [] [])]).
  assert (H2 : plain_attrs G2) by now apply plain_attrs_ensure, plain_attrs_ensure.
  destruct (lookup u G2) as [d|] eqn:E; [|exact H2].
  apply plain_attrs_update; auto. simpl. apply (H2 u d). now apply lookup_In.
Qed.

Lemma plain_attrs_set_node_attr (n k : string) (v : json) (G G' : DiGraph) :
  plain_attrs G -> k <> "self" -> k <> "node_for_adding" ->
  set_node_attr n k v G = Ok G' -> plain_attrs G'.
Proof.
  intros HG Hk1 Hk2. unfold set_node_attr.
  destruct (lookup n G) as [d|] eqn:E; [|discriminate].
  intros [= <-]. apply plain_attrs_update; auto. simpl.
  apply plain_dict_set; auto. apply (HG n d). now apply lookup_In.
Qed.

Lemma plain_attrs_add_deps (set_order : list json) (name : string) :
  forall G, plain_attrs G -> plain_attrs (fst (add_deps name set_order G)).
Proof.
  induction set_order as [|d ds IH]; intros G HG; simpl; [exact HG|].
  destruct d as [|s|l|o|js]; simpl; auto.
  destruct (String.eqb s name); apply IH; auto.
  apply plain_attrs_add_edge, plain_attrs_add_node; auto.
Qed.

Lemma add_package_cacheable (set_iter : list json -> list json)
  (meta : list (string * json)) (w : world) :
  cacheable (graph w) -> cacheable (graph (fst (add_package set_iter meta w))).
Proof.
  intros [Hwf Hpl]. unfold add_package.
  destruct (truthy (name_of meta)); cbn [negb]; [|now split].
  destruct (norm_list (build_deps_of meta)) as [bd|]; [|now split].
  destruct (norm_list (run_deps_of meta)) as [rd|]; [|now split].
  destruct (norm_list (optional_of meta)) as [op|]; [|now split].
  destruct (name_of meta) as [|name|l|o|js]; try now split.
  set (G1 := add_node name _ (graph w)).
  assert (H1 : cacheable G1).
  { split; [now apply wf_add_node|]. apply plain_attrs_add_node; auto.
    simpl. intros k [<-|[<-|[<-|[<-|[]]]]]; split; discriminate. }
  destruct (forallb hashable (bd ++ rd)); cbn [negb]; [|exact H1].
  destruct H1 as [H1w H1p].
  pose proof (wf_add_deps (set_iter (distinct (bd ++ rd) [])) name G1 H1w) as H2w.
  pose proof (plain_attrs_add_deps (set_iter (distinct (bd ++ rd) [])) name G1 H1p) as H2p.
  destruct (add_deps name (set_iter (distinct (bd ++ rd) [])) G1) as [G2 [u|e]];
    simpl in H2w, H2p; [|now split].
  destruct (truthy (JList op)); [|now split].
  destruct (set_node_attr name "optional" (JList op) G2) as [G3|e] eqn:E; [|now split].
  split.
  - now apply (wf_set_node_attr name "optional" (JList op) G2 G3).
  - apply (plain_attrs_set_node_attr name "optional" (JList op) G2 G3); auto; discriminate.
Qed.

Lemma add_package_from_metafile_cacheable
  (parse_metafile : string -> option (list (string * json)))
  (set_iter : list json -> list json) (path_or_name : string) (w : world) :
  cacheable (graph w) ->
  cacheable (graph (fst (add_package_from_metafile parse_metafile set_iter
                           path_or_name w))).
Proof.
  intros H. unfold add_package_from_metafile.
  destruct (parse_metafile path_or_name) as [[|kv meta]|]; auto.
  now apply add_package_cacheable.
Qed.

Lemma built_cacheable (G : DiGraph) : built G -> cacheable G.
Proof.
  induction 1 as [|w pm si p Hb IH].
  - split; [apply wf_empty | apply plain_attrs_empty].
  - now apply add_package_from_metafile_cacheable.
Qed.

(* ================================================================== *)
(** ** The cache round trip *)

Lemma nodes_app (G1 G2 : DiGraph) : nodes (G1 ++ G2) = nodes G1 ++ nodes G2.
Proof. apply map_app. Qed.












(** C3 as it stands fails for a descriptor whose [provides] field is a
    YAML set: the graph is built by [add_package_from_metafile] alone,
    [json.dump] raises on the set, [persist_cache] logs the failure and
    writes no cache file, and a resolver that starts from the cache
    file starts with an empty graph. *)
Lemma persist_cache_set_attribute :
  built (graph set_world)
  /\ node_attrs (graph set_world) "tool"
     = Ok [("version", JNull); ("origin", JStr EmptyString);
           ("provides", JSet [JStr "tool-bin"]); ("optional", JList [])]
  /\ persist_cache true set_world = logger ERROR "Failed to persist cache" set_world
  /\ cache (persist_cache true set_world) = NoFile
  /\ graph (_try_load_cache (init (cache (persist_cache true set_world)) [])) = []
  /\ graph (_try_load_cache (init (cache (persist_cache true set_world)) []))
     <> graph set_world.
Proof.
  split; [unfold set_world; apply built_add; exact built_empty|].
  split; [reflexivity|]. split; [reflexivity|]. split; [reflexivity|].
  split; [reflexivity | discriminate].
Qed.

(* ================================================================== *)
(** ** Loading a damaged cache *)




(* ================================================================== *)
(** ** Walks and cycles *)

Lemma succ_of_edge (G : DiGraph) (u v : string) : In v (succ_of G u) <-> edge G u v.
Proof.
  unfold succ_of, edge. destruct (lookup u G) as [d|]; split.
  - intros H. now exists d.
  - intros [d' [E H]]. now inversion E; subst.
  - intros [].
  - intros [d' [E _]]. discriminate.
Qed.

Lemma edge_node (G : DiGraph) (u v : string) : edge G u v -> In u (nodes G).
Proof. intros [d [H _]]. now apply lookup_Some_key in H. Qed.

Lemma edge_target (G : DiGraph) (u v : string) : wf G -> edge G u v -> In v (nodes G).
Proof. intros Hwf [d [H Hv]]. now apply (wf_lookup G u d Hwf H). Qed.

Lemma path_trans (G : DiGraph) (u v t : string) : path G u v -> path G v t -> path G u t.
Proof.
  induction 1 as [u v He|u v x He Hp IH]; intros Ht.
  - now apply path_step with v.
  - apply path_step with v; auto.
Qed.

Lemma path_snoc (G : DiGraph) (u v t : string) : path G u v -> edge G v t -> path G u t.
Proof. intros Hp He. apply path_trans with v; [exact Hp | now apply path_edge]. Qed.

Lemma path_source (G : DiGraph) (u v : string) : path G u v -> In u (nodes G).
Proof. destruct 1 as [u v He|u v t He _]; now apply edge_node in He. Qed.

Lemma path_target (G : DiGraph) (u v : string) : wf G -> path G u v -> In v (nodes G).
Proof.
  intros Hwf. induction 1 as [u v He|u v t He _ IH]; [|exact IH].
  now apply edge_target in He.
Qed.

Lemma chain_cons (G : DiGraph) (u v : string) (l : list string) :
  chain G (u :: v :: l) <-> edge G u v /\ chain G (v :: l).
Proof. reflexivity. Qed.

Lemma last_default (l : list string) :
  forall x d d', last (x :: l) d = last (x :: l) d'.
Proof.
  induction l as [|y l IH]; intros x d d'; [reflexivity|].
  change (last (x :: y :: l) d) with (last (y :: l) d).
  change (last (x :: y :: l) d') with (last (y :: l) d').
  apply IH.
Qed.

Lemma last_cons2 (a x d : string) (l : list string) :
  last (a :: x :: l) d = last (x :: l) x.
Proof. change (last (a :: x :: l) d) with (last (x :: l) d). apply last_default. Qed.

Lemma last_In (l : list string) : forall x d, In (last (x :: l) d) (x :: l).
Proof.
  induction l as [|y l IH]; intros x d; [now left|].
  change (last (x :: y :: l) d) with (last (y :: l) d). right. apply IH.
Qed.

Lemma last_snoc (l : list string) (a x d : string) : last (x :: l ++ [a]) d = a.
Proof. change (x :: l ++ [a]) with ((x :: l) ++ [a]). apply last_last. Qed.

Lemma chain_app (G : DiGraph) (l1 : list string) :
  forall (a b : string) (l2 : list string),
    chain G ((a :: l1) ++ b :: l2)
    <-> chain G (a :: l1) /\ edge G (last (a :: l1) a) b /\ chain G (b :: l2).
Proof.
  induction l1 as [|x l1 IH]; intros a b l2.
  - simpl. tauto.
  - change ((a :: x :: l1) ++ b :: l2) with (a :: ((x :: l1) ++ b :: l2)).
    change (chain G (a :: (x :: l1) ++ b :: l2))
      with (edge G a x /\ chain G ((x :: l1) ++ b :: l2)).
    rewrite IH. change (chain G (a :: x :: l1)) with (edge G a x /\ chain G (x :: l1)).
    rewrite (last_cons2 a x a l1). tauto.
Qed.

Lemma chain_tail (G : DiGraph) (a : string) (l : list string) :
  chain G (a :: l) -> chain G l.
Proof. destruct l as [|b l]; simpl; tauto. Qed.

Lemma chain_app_l (G : DiGraph) (l1 l2 : list string) : chain G (l1 ++ l2) -> chain G l1.
Proof.
  destruct l1 as [|a l1]; [simpl; auto|]. destruct l2 as [|b l2].
  - now rewrite app_nil_r.
  - intros H. now apply chain_app in H.
Qed.

Lemma chain_app_r (G : DiGraph) (l1 l2 : list string) : chain G (l1 ++ l2) -> chain G l2.
Proof.
  induction l1 as [|a l1 IH]; [auto|]. intros H. apply IH.
  now apply chain_tail in H.
Qed.

(** a chain is a walk from its first to its last node *)
Lemma chain_path (G : DiGraph) (l : list string) :
  forall a b, chain G (a :: l ++ [b]) -> path G a b.
Proof.
  induction l as [|x l IH]; intros a b H.
  - simpl in H. now apply path_edge.
  - change (a :: (x :: l) ++ [b]) with (a :: x :: l ++ [b]) in H.
    apply chain_cons in H as [He Hc]. apply path_step with x; auto.
Qed.

Lemma path_chain (G : DiGraph) (a b : string) :
  path G a b -> exists l, chain G (a :: l ++ [b]).
Proof.
  induction 1 as [u v He|u v t He Hp [l Hl]].
  - exists []. simpl. tauto.
  - exists (v :: l). change (u :: (v :: l) ++ [t]) with (u :: v :: l ++ [t]).
    apply chain_cons. tauto.
Qed.

Lemma closed_walk_path (G : DiGraph) (c : list string) :
  closed_walk G c -> exists v, In v c /\ path G v v.
Proof.
  destruct c as [|s l]; [intros []|]. intros [Hc He].
  exists s. split; [now left|].
  destruct l as [|x l]; [now apply path_edge|].
  destruct (exists_last (l := x :: l)) as [l' [z Hz]]; [discriminate|].
  rewrite Hz in Hc, He. rewrite (last_snoc l' z s s) in He.
  apply path_snoc with z; [|exact He]. now apply chain_path with l'.
Qed.

Lemma path_closed_walk (G : DiGraph) (v : string) :
  path G v v -> exists c, closed_walk G c /\ In v c.
Proof.
  intros Hp. apply path_chain in Hp as [l Hl].
  exists (v :: l). split; [|now left].
  change (v :: l ++ [v]) with ((v :: l) ++ [v]) in Hl.
  apply chain_app in Hl as [H1 [H2 _]]. now split.
Qed.

Lemma simple_closed (G : DiGraph) (c : list string) :
  simple_cycle G c -> closed_walk G c.
Proof. destruct c as [|s l]; [auto|]. intros [_ H]. exact H. Qed.

Lemma dup_or_NoDup (l : list string) :
  NoDup l \/ exists x l1 l2 l3, l = l1 ++ x :: l2 ++ x :: l3.
Proof.
  induction l as [|a l [IH|[x [l1 [l2 [l3 IH]]]]]].
  - left. constructor.
  - destruct (in_dec string_dec a l) as [Hin|Hn].
    + right. apply in_split in Hin as [l2 [l3 ->]]. now exists a, [], l2, l3.
    + left. now constructor.
  - right. exists x, (a :: l1), l2, l3. now rewrite IH.
Qed.

(** a closed walk contains a simple cycle *)
Lemma closed_walk_simple (G : DiGraph) (n : nat) :
  forall c, length c <= n -> closed_walk G c ->
            exists c', simple_cycle G c' /\ incl c' c.
Proof.
  induction n as [|n IH]; intros c Hlen Hc.
  - destruct c; [destruct Hc | simpl in Hlen; lia].
  - destruct (dup_or_NoDup c) as [Hnd|[x [l1 [l2 [l3 Hsplit]]]]].
    + exists c. split; [|apply incl_refl].
      destruct c as [|s l]; [destruct Hc|]. now split.
    + destruct (IH (x :: l2)) as [c' [Hs Hi]].
      * subst c. rewrite !length_app in Hlen. simpl in Hlen.
        rewrite length_app in Hlen. simpl in *. lia.
      * destruct c as [|s l]; [destruct Hc|]. destruct Hc as [Hc _].
        rewrite Hsplit in Hc. apply chain_app_r in Hc.
        change (x :: l2 ++ x :: l3) with ((x :: l2) ++ x :: l3) in Hc.
        apply chain_app in Hc as [H1 [H2 _]]. split; [exact H1|].
        exact H2.
      * exists c'. split; [exact Hs|]. intros y Hy. apply Hi in Hy. subst c.
        apply in_or_app. right. destruct Hy as [<-|Hy]; [now left|].
        right. apply in_or_app. now left.
Qed.

(* ================================================================== *)
(** ** [circuits] reports the simple cycles *)

Lemma cycles_from_sound (G : DiGraph) (s : string) (fuel : nat) :
  forall (avail : list string) (cur : string) (p t : list string) (c : list string),
    In c (cycles_from fuel G s avail cur (cur :: p)) ->
    rev (cur :: p) = s :: t ->
    chain G (s :: t) ->
    NoDup (cur :: p) ->
    (forall x, In x avail -> ~ In x (cur :: p)) ->
    simple_cycle G c.
Proof.
  induction fuel as [|fuel IH]; intros avail cur p t c Hin Hrev Hch Hnd Hav;
    [destruct Hin|].
  cbn [cycles_from] in Hin. apply in_flat_map in Hin as [w [Hw Hin]].
  apply succ_of_edge in Hw.
  assert (Hlast : last (s :: t) s = cur).
  { rewrite <- Hrev. cbn [rev]. apply last_last. }
  destruct (String.eqb w s) eqn:Ews.
  - apply String.eqb_eq in Ews. subst w. destruct Hin as [<-|[]].
    rewrite Hrev. split; [|split]; auto.
    + rewrite <- Hrev. now apply NoDup_rev.
    + now rewrite Hlast.
  - destruct (mem w avail) eqn:Em; [|destruct Hin].
    apply mem_In in Em.
    apply (IH _ w (cur :: p) (t ++ [w]) c Hin).
    + cbn [rev] in *. now rewrite Hrev.
    + change (s :: t ++ [w]) with ((s :: t) ++ [w]).
      apply chain_app. rewrite Hlast. simpl. tauto.
    + constructor; [now apply Hav | exact Hnd].
    + intros x Hx. apply filter_In in Hx as [Hx Hne].
      apply negb_true_iff, String.eqb_neq in Hne.
      intros [Heq|Hx']; [congruence | now apply (Hav x)].
Qed.

Lemma cycles_rooted_sound (G : DiGraph) (ns : list string) (c : list string) :
  NoDup ns -> In c (cycles_rooted G ns) -> simple_cycle G c.
Proof.
  induction ns as [|s later IH]; intros Hnd Hin; [destruct Hin|].
  cbn [cycles_rooted] in Hin. apply in_app_iff in Hin as [Hin|Hin].
  - apply (cycles_from_sound G s _ later s [] [] c Hin); auto.
    + simpl. auto.
    + constructor; [tauto | constructor].
    + intros x Hx [<-|[]]. now inversion Hnd.
  - apply IH; auto. now inversion Hnd.
Qed.

Lemma circuits_sound (G : DiGraph) (c : list string) :
  wf G -> In c (circuits G) -> simple_cycle G c.
Proof. intros [Hnd _]. now apply cycles_rooted_sound. Qed.

Lemma cycles_from_complete (G : DiGraph) (s : string) (p : list string) :
  forall (fuel : nat) (avail : list string) (cur : string) (path : list string),
    length p < fuel ->
    chain G (cur :: p) ->
    edge G (last (cur :: p) cur) s ->
    NoDup p ->
    (forall x, In x p -> In x avail /\ x <> s) ->
    In (rev path ++ p) (cycles_from fuel G s avail cur path).
Proof.
  induction p as [|x p IH]; intros fuel avail cur path Hf Hch He Hnd Hp.
  - destruct fuel as [|fuel]; [simpl in Hf; lia|].
    cbn [cycles_from]. apply in_flat_map. exists s. split.
    + now apply succ_of_edge.
    + rewrite String.eqb_refl, app_nil_r. now left.
  - destruct fuel as [|fuel]; [simpl in Hf; lia|].
    cbn [cycles_from]. apply in_flat_map. exists x.
    apply chain_cons in Hch as [Hcx Hch]. split; [now apply succ_of_edge|].
    destruct (Hp x (or_introl eq_refl)) as [Hxa Hxs].
    apply String.eqb_neq in Hxs. rewrite Hxs.
    apply mem_In in Hxa. rewrite Hxa.
    replace (rev path ++ x :: p) with (rev (x :: path) ++ p)
      by (cbn [rev]; now rewrite <- app_assoc).
    apply IH.
    + simpl in Hf. lia.
    + exact Hch.
    + now rewrite (last_cons2 cur x cur p) in He.
    + now inversion Hnd.
    + intros y Hy. destruct (Hp y (or_intror Hy)) as [Hya Hys]. split; [|exact Hys].
      apply filter_In. split; [exact Hya|].
      apply negb_true_iff, String.eqb_neq. intros ->. now inversion Hnd.
Qed.

Lemma last_app_cons (l1 l2 : list string) (x d : string) :
  last (l1 ++ x :: l2) d = last (x :: l2) x.
Proof.
  induction l1 as [|a l1 IH]; [apply last_default|].
  destruct l1 as [|b l1]; [apply (last_cons2 a x d l2)|].
  change (last ((a :: b :: l1) ++ x :: l2) d) with (last ((b :: l1) ++ x :: l2) d).
  exact IH.
Qed.

Lemma rotation_simple (G : DiGraph) (l1 l2 : list string) (s : string) :
  simple_cycle G (l1 ++ s :: l2) -> simple_cycle G (s :: l2 ++ l1).
Proof.
  destruct l1 as [|h l1]; [now rewrite app_nil_r|].
  intros [Hnd [Hch He]].
  change ((h :: l1) ++ s :: l2) with (h :: l1 ++ s :: l2) in *.
  change (h :: l1 ++ s :: l2) with ((h :: l1) ++ s :: l2) in Hch.
  apply chain_app in Hch as [Hc1 [Hes Hc2]].
  assert (Hl : last (h :: l1 ++ s :: l2) h = last (s :: l2) s).
  { change (h :: l1 ++ s :: l2) with ((h :: l1) ++ s :: l2).
    apply last_app_cons. }
  rewrite Hl in He.
  split; [|split].
  - apply (Permutation_NoDup (l := (h :: l1) ++ s :: l2)); [|exact Hnd].
    change (s :: l2 ++ h :: l1) with ((s :: l2) ++ h :: l1).
    apply Permutation_app_comm.
  - change (s :: l2 ++ h :: l1) with ((s :: l2) ++ h :: l1).
    apply chain_app. tauto.
  - assert (Hl' : last (s :: l2 ++ h :: l1) s = last (h :: l1) h).
    { change (s :: l2 ++ h :: l1) with ((s :: l2) ++ h :: l1).
      apply last_app_cons. }
    now rewrite Hl'.
Qed.

Lemma cycles_rooted_complete (G : DiGraph) (c : list string) (ns : list string) :
  simple_cycle G c -> incl c ns ->
  exists c', rotation c c' /\ In c' (cycles_rooted G ns).
Proof.
  intros Hs. induction ns as [|s later IH]; intros Hi.
  - destruct c as [|x c]; [destruct Hs|]. destruct (Hi x (or_introl eq_refl)).
  - destruct (in_dec string_dec s c) as [Hin|Hn].
    + apply in_split in Hin as [l1 [l2 Hc]]. subst c.
      exists (s :: l2 ++ l1). split; [now exists l1, (s :: l2)|].
      cbn [cycles_rooted]. apply in_or_app. left.
      pose proof (rotation_simple G l1 l2 s Hs) as [Hnd [Hch He]].
      apply NoDup_cons_iff in Hnd as [Hsn Hnd].
      assert (Hlater : forall x, In x (l2 ++ l1) -> In x later /\ x <> s).
      { intros x Hx. assert (Hxs : x <> s) by (intros ->; contradiction).
        split; [|exact Hxs]. assert (Hxc : In x (l1 ++ s :: l2)).
        { apply in_app_iff in Hx. apply in_or_app. simpl. tauto. }
        apply Hi in Hxc. destruct Hxc; congruence. }
      apply (cycles_from_complete G s (l2 ++ l1) (S (length later)) later s [s]);
        auto.
      assert (length (l2 ++ l1) <= length later); [|lia].
      apply NoDup_incl_length; [exact Hnd|].
      intros x Hx. now apply Hlater.
    + destruct IH as [c' [Hr Hc']].
      * intros x Hx. destruct (Hi x Hx) as [<-|H]; [contradiction | exact H].
      * exists c'. split; [exact Hr|]. cbn [cycles_rooted]. apply in_or_app. now right.
Qed.

Lemma simple_cycle_nodes (G : DiGraph) (c : list string) :
  simple_cycle G c -> incl c (nodes G).
Proof.
  destruct c as [|s l]; [intros []|]. intros [_ [Hch He]] x Hx.
  destruct (in_split x (s :: l) Hx) as [l1 [l2 Hsplit]].
  destruct l2 as [|y l2].
  - assert (Hl : last (s :: l) s = x).
    { rewrite Hsplit. apply last_last. }
    rewrite Hl in He. now apply edge_node in He.
  - rewrite Hsplit in Hch. apply chain_app_r in Hch.
    apply chain_cons in Hch as [Hxy _]. now apply edge_node in Hxy.
Qed.

Lemma circuits_complete (G : DiGraph) (c : list string) :
  simple_cycle G c -> exists c', rotation c c' /\ In c' (circuits G).
Proof.
  intros Hs. apply cycles_rooted_complete; [exact Hs|].
  now apply simple_cycle_nodes.
Qed.

(** every cycle is listed once *)
Lemma cycles_from_prefix (G : DiGraph) (s : string) (fuel : nat) :
  forall avail cur path c,
    In c (cycles_from fuel G s avail cur path) ->
    exists t, c = rev path ++ t /\ incl t avail.
Proof.
  induction fuel as [|fuel IH]; intros avail cur path c Hin; [destruct Hin|].
  cbn [cycles_from] in Hin. apply in_flat_map in Hin as [w [_ Hin]].
  destruct (String.eqb w s).
  - destruct Hin as [<-|[]]. exists []. split; [now rewrite app_nil_r | intros x []].
  - destruct (mem w avail) eqn:Em; [|destruct Hin]. apply mem_In in Em.
    destruct (IH _ _ _ _ Hin) as [t [Hc Ht]]. exists (w :: t). split.
    + rewrite Hc. cbn [rev]. now rewrite <- app_assoc.
    + intros x [<-|Hx]; [exact Em|]. apply Ht in Hx. now apply filter_In in Hx.
Qed.

Lemma NoDup_flat_map {A B : Type} (f : A -> list B) (l : list A) :
  NoDup l ->
  (forall x, In x l -> NoDup (f x)) ->
  (forall x y c, In x l -> In y l -> In c (f x) -> In c (f y) -> x = y) ->
  NoDup (flat_map f l).
Proof.
  induction l as [|a l IH]; intros Hnd Hf Hdis; simpl; [constructor|].
  inversion Hnd as [|? ? Ha Hl]; subst. apply NoDup_app.
  - apply Hf. now left.
  - apply IH; auto.
    + intros x Hx. apply Hf. now right.
    + intros x y c Hx Hy. apply Hdis; now right.
  - intros c Hc Hc'. apply in_flat_map in Hc' as [y [Hy Hcy]].
    assert (a = y) by (apply (Hdis a y c); auto; [now left | now right]).
    subst y. contradiction.
Qed.

Lemma cycles_from_NoDup (G : DiGraph) (s : string) (fuel : nat) :
  wf G -> forall avail cur path, NoDup (cycles_from fuel G s avail cur path).
Proof.
  intros Hwf. induction fuel as [|fuel IH]; intros avail cur path; [constructor|].
  cbn [cycles_from].
  assert (Hshape : forall w c,
             In c (if String.eqb w s then [rev path]
                   else if mem w avail
                        then cycles_from fuel G s
                               (filter (fun x => negb (String.eqb x w)) avail)
                               w (w :: path)
                        else []) ->
             (w = s /\ c = rev path) \/ (w <> s /\ exists t, c = rev path ++ w :: t)).
  { intros w c Hc. destruct (String.eqb w s) eqn:E.
    - apply String.eqb_eq in E. destruct Hc as [<-|[]]. now left.
    - apply String.eqb_neq in E. destruct (mem w avail); [|destruct Hc].
      apply cycles_from_prefix in Hc as [t [Hc _]]. right. split; [exact E|].
      exists t. rewrite Hc. cbn [rev]. now rewrite <- app_assoc. }
  apply NoDup_flat_map.
  - unfold succ_of. destruct (lookup cur G) as [d|] eqn:E; [|constructor].
    now apply (wf_lookup G cur d Hwf E).
  - intros w _. destruct (String.eqb w s); [repeat constructor; intros []|].
    destruct (mem w avail); [apply IH | constructor].
  - intros x y c _ _ Hx Hy.
    destruct (Hshape x c Hx) as [[-> Hcx]|[Hxs [tx Hcx]]];
      destruct (Hshape y c Hy) as [[-> Hcy]|[Hys [ty Hcy]]]; auto.
    + rewrite Hcx in Hcy. rewrite <- (app_nil_r (rev path)) in Hcy at 1.
      apply app_inv_head in Hcy. discriminate.
    + rewrite Hcy in Hcx. rewrite <- (app_nil_r (rev path)) in Hcx at 1.
      apply app_inv_head in Hcx. discriminate.
    + rewrite Hcx in Hcy. apply app_inv_head in Hcy. now inversion Hcy.
Qed.

Lemma cycles_rooted_incl (G : DiGraph) (ns : list string) (c : list string) :
  In c (cycles_rooted G ns) -> incl c ns.
Proof.
  induction ns as [|s later IH]; intros Hin; [destruct Hin|].
  cbn [cycles_rooted] in Hin. apply in_app_iff in Hin as [Hin|Hin].
  - apply cycles_from_prefix in Hin as [t [-> Ht]]. simpl.
    intros x [<-|Hx]; [now left | right; now apply Ht].
  - intros x Hx. right. now apply IH.
Qed.

Lemma cycles_rooted_head (G : DiGraph) (s : string) (later c : list string) :
  In c (cycles_from (S (length later)) G s later s [s]) -> exists t, c = s :: t.
Proof.
  intros Hin. apply cycles_from_prefix in Hin as [t [-> _]]. now exists t.
Qed.

Lemma cycles_rooted_NoDup (G : DiGraph) (ns : list string) :
  wf G -> NoDup ns -> NoDup (cycles_rooted G ns).
Proof.
  intros Hwf. induction ns as [|s later IH]; intros Hnd; [constructor|].
  inversion Hnd as [|? ? Hs Hl]; subst. cbn [cycles_rooted]. apply NoDup_app.
  - now apply cycles_from_NoDup.
  - now apply IH.
  - intros c Hc Hc'. apply cycles_rooted_head in Hc as [t ->].
    apply cycles_rooted_incl in Hc'. apply Hs, Hc'. now left.
Qed.

Lemma rotation_same_head (c1 c2 : list string) (s : string) (t1 t2 : list string) :
  rotation c1 c2 -> NoDup c1 -> c1 = s :: t1 -> c2 = s :: t2 -> c1 = c2.
Proof.
  intros [l1 [l2 [H1 H2]]] Hnd E1 E2.
  destruct l1 as [|a l1]; [subst; now rewrite app_nil_r|].
  destruct l2 as [|b l2]; [subst; now rewrite app_nil_r|].
  exfalso. rewrite H1 in E1. rewrite H2 in E2. inversion E1; inversion E2; subst.
  apply NoDup_cons_iff in Hnd as [Hnd _]. apply Hnd.
  apply in_or_app. right. now left.
Qed.

Lemma cycles_rooted_rotation (G : DiGraph) (ns : list string) (c1 c2 : list string) :
  NoDup ns ->
  In c1 (cycles_rooted G ns) -> In c2 (cycles_rooted G ns) ->
  rotation c1 c2 -> c1 = c2.
Proof.
  induction ns as [|s later IH]; intros Hnd H1 H2 Hrot; [destruct H1|].
  inversion Hnd as [|? ? Hs Hl]; subst.
  assert (Hsame : forall x, In x c1 <-> In x c2).
  { destruct Hrot as [l1 [l2 [-> ->]]]. intros x. rewrite !in_app_iff. tauto. }
  pose proof (cycles_rooted_sound G (s :: later) c1 Hnd H1) as Hs1.
  cbn [cycles_rooted] in H1, H2.
  apply in_app_iff in H1 as [H1|H1]; apply in_app_iff in H2 as [H2|H2].
  - apply cycles_rooted_head in H1 as [t1 E1]. apply cycles_rooted_head in H2 as [t2 E2].
    apply (rotation_same_head c1 c2 s t1 t2); auto.
    subst c1. now destruct Hs1.
  - exfalso. apply cycles_rooted_head in H1 as [t1 ->].
    apply cycles_rooted_incl in H2. apply Hs, H2, Hsame. now left.
  - exfalso. apply cycles_rooted_head in H2 as [t2 ->].
    apply cycles_rooted_incl in H1. apply Hs, H1, Hsame. now left.
  - now apply IH.
Qed.

Lemma circuits_once (G : DiGraph) :
  wf G ->
  NoDup (circuits G)
  /\ forall c1 c2, In c1 (circuits G) -> In c2 (circuits G) ->
                   rotation c1 c2 -> c1 = c2.
Proof.
  intros Hwf. split.
  - apply cycles_rooted_NoDup; [exact Hwf | apply Hwf].
  - intros c1 c2. apply cycles_rooted_rotation. apply Hwf.
Qed.

(** cycle detection decides acyclicity *)
Lemma circuits_nil_acyclic (G : DiGraph) : circuits G = [] -> acyclic G.
Proof.
  intros Hnil v Hp. apply path_closed_walk in Hp as [c [Hc _]].
  destruct (closed_walk_simple G (length c) c (le_n _) Hc) as [c' [Hs _]].
  destruct (circuits_complete G c' Hs) as [c'' [_ Hin]].
  rewrite Hnil in Hin. destruct Hin.
Qed.

Lemma acyclic_circuits_nil (G : DiGraph) :
  wf G -> acyclic G -> circuits G = [].
Proof.
  intros Hwf Ha. destruct (circuits G) as [|c l] eqn:E; [reflexivity|].
  assert (Hs : simple_cycle G c).
  { apply circuits_sound; auto. rewrite E. now left. }
  apply simple_closed, closed_walk_path in Hs as [v [_ Hp]].
  destruct (Ha v Hp).
Qed.

(* ================================================================== *)
(** ** [simple_cycles]: the cycles in the order of the library *)

Lemma insert_by_perm (rank : list string -> nat) (c : list string)
  (l : list (list string)) : Permutation (insert_by rank c l) (c :: l).
Proof.
  induction l as [|c' l IH]; [apply Permutation_refl|].
  cbn [insert_by]. destruct (rank c <=? rank c'); [apply Permutation_refl|].
  apply Permutation_trans with (c' :: c :: l); [now apply perm_skip | apply perm_swap].
Qed.

Lemma sort_by_perm (rank : list string -> nat) (l : list (list string)) :
  Permutation (sort_by rank l) l.
Proof.
  induction l as [|c l IH]; [apply Permutation_refl|].
  cbn [sort_by fold_right].
  apply Permutation_trans with (c :: sort_by rank l);
    [apply insert_by_perm | now apply perm_skip].
Qed.

Lemma rotation_refl (c : list string) : rotation c c.
Proof. exists [], c. now rewrite app_nil_r. Qed.

Lemma rotation_sym (c c' : list string) : rotation c c' -> rotation c' c.
Proof. intros [l1 [l2 [H1 H2]]]. now exists l2, l1. Qed.

Lemma rotation_trans (c1 c2 c3 : list string) :
  rotation c1 c2 -> rotation c2 c3 -> rotation c1 c3.
Proof.
  intros [l1 [l2 [H1 H2]]] [m1 [m2 [H3 H4]]]. subst c1 c3. rewrite H2 in H3.
  apply app_eq_app in H3 as [l [[Ha Hb]|[Ha Hb]]]; subst.
  - exists (l1 ++ m1), l. now rewrite <- !app_assoc.
  - exists l, (m2 ++ l2). now rewrite <- !app_assoc.
Qed.

Lemma rotation_rotate (n : nat) (c : list string) : rotation c (rotate n c).
Proof.
  exists (firstn (n mod length c) c), (skipn (n mod length c) c).
  split; [now rewrite firstn_skipn | reflexivity].
Qed.

Lemma rotation_simple_cycle (G : DiGraph) (c c' : list string) :
  simple_cycle G c -> rotation c c' -> simple_cycle G c'.
Proof.
  intros Hs [l1 [l2 [-> ->]]]. destruct l2 as [|s l2].
  - now rewrite app_nil_r in Hs.
  - now apply rotation_simple.
Qed.

Section Yielded.

Variable cycle_rank : DiGraph -> list string -> nat.
Variable cycle_start : DiGraph -> list string -> nat.
Variable G : DiGraph.

Lemma In_simple_cycles (c : list string) :
  In c (simple_cycles cycle_rank cycle_start G)
  <-> exists c0, In c0 (circuits G) /\ c = rotate (cycle_start G c0) c0.
Proof.
  unfold simple_cycles. rewrite in_map_iff. split.
  - intros [c0 [<- Hin]]. exists c0. split; [|reflexivity].
    now apply (Permutation_in _ (sort_by_perm (cycle_rank G) (circuits G))).
  - intros [c0 [Hin ->]]. exists c0. split; [reflexivity|].
    now apply (Permutation_in _ (Permutation_sym (sort_by_perm (cycle_rank G) (circuits G)))).
Qed.

(** the library finds a cycle exactly when there is one *)
Lemma simple_cycles_nil :
  simple_cycles cycle_rank cycle_start G = [] <-> circuits G = [].
Proof.
  unfold simple_cycles. split; intros H.
  - apply map_eq_nil in H. apply Permutation_nil.
    rewrite <- H. apply sort_by_perm.
  - rewrite H. reflexivity.
Qed.

Lemma simple_cycles_sound (c : list string) :
  wf G -> In c (simple_cycles cycle_rank cycle_start G) -> simple_cycle G c.
Proof.
  intros Hwf Hin. apply In_simple_cycles in Hin as [c0 [Hin ->]].
  apply rotation_simple_cycle with c0; [now apply circuits_sound | apply rotation_rotate].
Qed.

Lemma simple_cycles_complete (c : list string) :
  simple_cycle G c ->
  exists c', rotation c c' /\ In c' (simple_cycles cycle_rank cycle_start G).
Proof.
  intros Hs. destruct (circuits_complete G c Hs) as [c0 [Hr Hin]].
  exists (rotate (cycle_start G c0) c0). split.
  - apply rotation_trans with c0; [exact Hr | apply rotation_rotate].
  - apply In_simple_cycles. now exists c0.
Qed.

Lemma simple_cycles_rotation (c1 c2 : list string) :
  wf G ->
  In c1 (simple_cycles cycle_rank cycle_start G) ->
  In c2 (simple_cycles cycle_rank cycle_start G) ->
  rotation c1 c2 -> c1 = c2.
Proof.
  intros Hwf H1 H2 Hr.
  apply In_simple_cycles in H1 as [a [Ha ->]].
  apply In_simple_cycles in H2 as [b [Hb ->]].
  assert (Hab : a = b).
  { apply (proj2 (circuits_once G Hwf) a b Ha Hb).
    apply rotation_trans with (rotate (cycle_start G a) a); [apply rotation_rotate|].
    apply rotation_trans with (rotate (cycle_start G b) b); [exact Hr|].
    apply rotation_sym, rotation_rotate. }
  now subst b.
Qed.

Lemma NoDup_map_on {A B : Type} (f : A -> B) (l : list A) :
  (forall x y, In x l -> In y l -> f x = f y -> x = y) ->
  NoDup l -> NoDup (map f l).
Proof.
  induction l as [|x l IH]; intros Hinj Hnd; [constructor|].
  inversion Hnd as [|? ? Hx Hl]; subst. cbn [map]. constructor.
  - intros Hin. apply in_map_iff in Hin as [y [Hy Hin]].
    apply Hx. rewrite (Hinj x y); auto; [now left | now right].
  - apply IH; auto. intros a b Ha Hb. apply Hinj; now right.
Qed.

Lemma simple_cycles_once :
  wf G ->
  NoDup (simple_cycles cycle_rank cycle_start G)
  /\ forall c1 c2, In c1 (simple_cycles cycle_rank cycle_start G) ->
                   In c2 (simple_cycles cycle_rank cycle_start G) ->
                   rotation c1 c2 -> c1 = c2.
Proof.
  intros Hwf. split; [|intros c1 c2; now apply simple_cycles_rotation].
  unfold simple_cycles. apply NoDup_map_on.
  - intros a b Ha Hb Heq.
    apply (Permutation_in _ (sort_by_perm (cycle_rank G) (circuits G))) in Ha, Hb.
    apply (proj2 (circuits_once G Hwf) a b Ha Hb).
    apply rotation_trans with (rotate (cycle_start G a) a); [apply rotation_rotate|].
    rewrite Heq. apply rotation_sym, rotation_rotate.
  - apply (Permutation_NoDup (Permutation_sym (sort_by_perm (cycle_rank G) (circuits G)))).
    now apply circuits_once.
Qed.

(** cycle detection decides acyclicity *)
Lemma simple_cycles_nil_acyclic :
  simple_cycles cycle_rank cycle_start G = [] -> acyclic G.
Proof. intros H. now apply circuits_nil_acyclic, simple_cycles_nil. Qed.

Lemma acyclic_simple_cycles_nil :
  wf G -> acyclic G -> simple_cycles cycle_rank cycle_start G = [].
Proof. intros Hwf Ha. now apply simple_cycles_nil, acyclic_circuits_nil. Qed.

End Yielded.

(* ================================================================== *)
(** ** Kahn's algorithm *)

Lemma lookup_dict_del_neq {A : Type} (k k0 : string) (d : list (string * A)) :
  k <> k0 -> lookup k0 (dict_del k d) = lookup k0 d.
Proof.
  intros Hn. induction d as [|[k' v'] d IH]; simpl; [reflexivity|].
  destruct (String.eqb k' k) eqn:E; simpl.
  - apply String.eqb_eq in E. subst k'.
    apply String.eqb_neq in Hn. now rewrite Hn.
  - now rewrite IH.
Qed.

Lemma keys_dict_del {A : Type} (k : string) (v : A) (d : list (string * A)) :
  lookup k d = Some v -> Permutation (map fst d) (k :: map fst (dict_del k d)).
Proof.
  induction d as [|[k' v'] d IH]; simpl; [discriminate|].
  destruct (String.eqb k' k) eqn:E.
  - apply String.eqb_eq in E. subst k'. intros _. apply Permutation_refl.
  - intros H. simpl. apply Permutation_trans with (k' :: k :: map fst (dict_del k d)).
    + constructor. now apply IH.
    + apply perm_swap.
Qed.

Lemma lookup_dict_del_eq {A : Type} (k : string) (d : list (string * A)) :
  NoDup (map fst d) -> lookup k (dict_del k d) = None.
Proof.
  intros Hnd. destruct (lookup k d) as [v|] eqn:E.
  - apply lookup_None. pose proof (keys_dict_del k v d E) as Hp.
    apply (Permutation_NoDup Hp) in Hnd. now inversion Hnd.
  - apply lookup_None. apply lookup_None in E. intros Hin. apply E.
    clear E Hnd. induction d as [|[k' v'] d IH]; simpl in *; [auto|].
    destruct (String.eqb k' k); simpl in *; tauto.
Qed.

Lemma NoDup_dict_del {A : Type} (k : string) (d : list (string * A)) :
  NoDup (map fst d) -> NoDup (map fst (dict_del k d)).
Proof.
  intros Hnd. induction d as [|[k' v'] d IH]; simpl; [constructor|].
  simpl in Hnd. inversion Hnd as [|? ? Hk Hd]; subst.
  destruct (String.eqb k' k); simpl; [exact Hd|].
  constructor; [|now apply IH].
  intros Hin. apply Hk. clear IH Hnd Hk Hd.
  induction d as [|[k2 v2] d IH]; simpl in *; [auto|].
  destruct (String.eqb k2 k); simpl in *; tauto.
Qed.

Lemma NoDup_dict_set {A : Type} (k : string) (v : A) (d : list (string * A)) :
  NoDup (map fst d) -> NoDup (map fst (dict_set k v d)).
Proof.
  intros Hnd. rewrite keys_dict_set. destruct (mem k (map fst d)) eqn:E; [exact Hnd|].
  apply mem_false in E. apply NoDup_app; auto.
  - constructor; [tauto | constructor].
  - intros x Hx [<-|[]]. contradiction.
Qed.

Lemma relax_spec (cs : list string) :
  forall (imap : list (string * nat)) (zero : list string),
    NoDup cs -> NoDup (map fst imap) ->
    (forall c, In c cs -> exists k, lookup c imap = Some k /\ 0 < k) ->
    exists imap',
      relax cs imap zero = Ok (imap', zero ++ filter (freed imap) cs)
      /\ NoDup (map fst imap')
      /\ (forall v, lookup v imap' = relaxed cs imap v)
      /\ Permutation (filter (freed imap) cs ++ map fst imap') (map fst imap).
Proof.
  induction cs as [|c cs IH]; intros imap zero Hcs Hnd Hk.
  - exists imap. simpl. rewrite app_nil_r. repeat split; auto.
  - inversion Hcs as [|? ? Hc Hcs']; subst.
    destruct (Hk c (or_introl eq_refl)) as [k [Hck Hpos]].
    assert (Hsame : forall m, (forall x, x <> c -> lookup x m = lookup x imap) ->
                              forall c', In c' cs ->
                                         exists k', lookup c' m = Some k' /\ 0 < k').
    { intros m Hm c' Hc'. rewrite Hm; [apply Hk; now right|].
      intros ->. contradiction. }
    assert (Hfilter : forall m, (forall x, x <> c -> lookup x m = lookup x imap) ->
                                filter (freed m) cs = filter (freed imap) cs).
    { intros m Hm. apply filter_ext_in. intros x Hx. unfold freed.
      rewrite Hm; [reflexivity|]. intros ->. contradiction. }
    cbn [relax]. rewrite Hck.
    destruct (k - 1 =? 0) eqn:Ez.
    + apply Nat.eqb_eq in Ez. assert (k = 1) by lia. subst k.
      pose proof (fun x (H : x <> c) => lookup_dict_del_neq c x imap (not_eq_sym H)) as Hm.
      destruct (IH (dict_del c imap) (zero ++ [c]) Hcs' (NoDup_dict_del c imap Hnd)
                  (Hsame _ Hm)) as [imap' [Hr [Hnd' [Hl Hp]]]].
      assert (Hf : freed imap c = true) by (unfold freed; now rewrite Hck).
      exists imap'. rewrite Hr, (Hfilter _ Hm). cbn [filter].
      rewrite Hf, <- app_assoc. split; [reflexivity|]. split; [exact Hnd'|]. split.
      * intros v. rewrite Hl. unfold relaxed. cbn [mem existsb].
        fold (mem v cs). destruct (String.eqb v c) eqn:Evc.
        -- apply String.eqb_eq in Evc. subst v. cbn [orb].
           apply mem_false in Hc. rewrite Hc, Hck.
           now rewrite lookup_dict_del_eq.
        -- apply String.eqb_neq in Evc. cbn [orb]. now rewrite (Hm v Evc).
      * rewrite (Hfilter _ Hm) in Hp. cbn [app].
        apply Permutation_trans with (c :: map fst (dict_del c imap)).
        -- now constructor.
        -- apply Permutation_sym. now apply keys_dict_del with 1.
    + apply Nat.eqb_neq in Ez.
      pose proof (fun x (H : x <> c) =>
                    lookup_dict_set_neq c x (k - 1) imap (not_eq_sym H)) as Hm.
      destruct (IH (dict_set c (k - 1) imap) zero Hcs' (NoDup_dict_set c _ imap Hnd)
                  (Hsame _ Hm)) as [imap' [Hr [Hnd' [Hl Hp]]]].
      assert (Hf : freed imap c = false).
      { unfold freed. rewrite Hck. destruct k as [|[|k]]; [lia | lia | reflexivity]. }
      assert (Hk1 : (k =? 1) = false) by (apply Nat.eqb_neq; lia).
      exists imap'. rewrite Hr, (Hfilter _ Hm). cbn [filter]. rewrite Hf.
      split; [reflexivity|]. split; [exact Hnd'|]. split.
      * intros v. rewrite Hl. unfold relaxed. cbn [mem existsb].
        fold (mem v cs). destruct (String.eqb v c) eqn:Evc.
        -- apply String.eqb_eq in Evc. subst v. cbn [orb].
           apply mem_false in Hc. rewrite Hc, Hck, Hk1.
           now rewrite lookup_dict_set_eq.
        -- apply String.eqb_neq in Evc. cbn [orb]. now rewrite (Hm v Evc).
      * rewrite (Hfilter _ Hm) in Hp.
        rewrite keys_dict_set_present in Hp; [exact Hp|].
        now apply lookup_Some_key in Hck.
Qed.

Lemma index_app_l (x : string) (l l' : list string) :
  In x l -> index x (l ++ l') = index x l.
Proof.
  induction l as [|y l IH]; simpl; [tauto|].
  destruct (String.eqb y x) eqn:E; [reflexivity|].
  intros [H|H]; [apply String.eqb_neq in E; congruence | now rewrite IH].
Qed.

Lemma index_lt (x : string) (l : list string) : In x l -> index x l < length l.
Proof.
  induction l as [|y l IH]; simpl; [tauto|].
  destruct (String.eqb y x) eqn:E; [lia|].
  intros [H|H]; [apply String.eqb_neq in E; congruence | specialize (IH H); lia].
Qed.

Lemma index_app_fresh (x : string) (l l' : list string) :
  ~ In x l -> index x (l ++ x :: l') = length l.
Proof.
  induction l as [|y l IH]; simpl; intros H.
  - now rewrite String.eqb_refl.
  - destruct (String.eqb y x) eqn:E.
    + apply String.eqb_eq in E. tauto.
    + rewrite IH; tauto.
Qed.

Lemma pending_preds_pos (G : DiGraph) (P : list string) (v : string) :
  0 < pending_preds G P v ->
  exists a d, In (a, d) G /\ In v (succ d) /\ ~ In a P.
Proof.
  unfold pending_preds. intros H.
  destruct (filter _ G) as [|[a d] l] eqn:E; [simpl in H; lia|].
  assert (Hin : In (a, d) (filter (fun e => mem v (succ (snd e)) && negb (mem (fst e) P)) G)).
  { rewrite E. now left. }
  apply filter_In in Hin as [Hin Hf]. simpl in Hf.
  apply andb_true_iff in Hf as [H1 H2].
  exists a, d. split; [exact Hin|]. split; [now apply mem_In|].
  now apply negb_true_iff, mem_false in H2.
Qed.

Lemma pending_preds_edge (G : DiGraph) (P : list string) (a v : string) :
  edge G a v -> ~ In a P -> 0 < pending_preds G P v.
Proof.
  intros [d [Hl Hv]] Ha. unfold pending_preds.
  assert (Hin : In (a, d) (filter (fun e => mem v (succ (snd e)) && negb (mem (fst e) P)) G)).
  { apply filter_In. split; [now apply lookup_In|]. simpl.
    apply mem_In in Hv. apply mem_false in Ha. now rewrite Hv, Ha. }
  destruct (filter _ G); [destruct Hin | simpl; lia].
Qed.

Lemma pending_preds_zero (G : DiGraph) (P : list string) (a v : string) :
  pending_preds G P v = 0 -> edge G a v -> In a P.
Proof.
  intros Hz He. destruct (in_dec string_dec a P) as [H|H]; [exact H|].
  pose proof (pending_preds_edge G P a v He H). lia.
Qed.

Lemma pending_preds_skip (G : DiGraph) (P : list string) (u v : string) :
  ~ In u (nodes G) -> pending_preds G (P ++ [u]) v = pending_preds G P v.
Proof.
  intros Hu. unfold pending_preds. f_equal. apply filter_ext_in.
  intros [a d] Hin. simpl. f_equal. f_equal. rewrite mem_app. simpl.
  assert (Hne : String.eqb a u = false).
  { apply String.eqb_neq. intros ->. apply Hu. apply in_map_iff. now exists (u, d). }
  now rewrite Hne, orb_false_r.
Qed.

Lemma pending_preds_out (G : DiGraph) (P : list string) (u v : string) (d : node_data) :
  NoDup (nodes G) -> lookup u G = Some d -> ~ In u P ->
  pending_preds G P v
  = pending_preds G (P ++ [u]) v + (if mem v (succ d) then 1 else 0).
Proof.
  induction G as [|[k dk] G IH]; intros Hnd Hl Hu; [discriminate|].
  simpl in Hnd. inversion Hnd as [|? ? Hk Hnd']; subst.
  simpl in Hl. destruct (String.eqb k u) eqn:E.
  - apply String.eqb_eq in E. subst k. inversion Hl; subst dk.
    change (pending_preds ((u, d) :: G) P v)
      with (length (filter (fun e => mem v (succ (snd e)) && negb (mem (fst e) P))
                      ((u, d) :: G))).
    change (pending_preds ((u, d) :: G) (P ++ [u]) v)
      with (length (filter (fun e => mem v (succ (snd e))
                                     && negb (mem (fst e) (P ++ [u])))
                      ((u, d) :: G))).
    cbn [filter fst snd]. rewrite mem_app. cbn [mem existsb].
    rewrite String.eqb_refl, orb_true_r. cbn [negb]. rewrite andb_false_r.
    apply mem_false in Hu. rewrite Hu. cbn [negb]. rewrite andb_true_r.
    fold (pending_preds G P v). fold (pending_preds G (P ++ [u]) v).
    rewrite (pending_preds_skip G P u v Hk). unfold pending_preds.
    destruct (mem v (succ d)); simpl; lia.
  - specialize (IH Hnd' Hl Hu).
    change (pending_preds ((k, dk) :: G) P v)
      with (length (filter (fun e => mem v (succ (snd e)) && negb (mem (fst e) P))
                      ((k, dk) :: G))).
    change (pending_preds ((k, dk) :: G) (P ++ [u]) v)
      with (length (filter (fun e => mem v (succ (snd e))
                                     && negb (mem (fst e) (P ++ [u])))
                      ((k, dk) :: G))).
    cbn [filter fst snd]. rewrite mem_app. cbn [mem existsb].
    rewrite E, !orb_false_r. unfold pending_preds in IH.
    destruct (mem v (succ dk) && negb (mem k P)); simpl; lia.
Qed.

Lemma kahn_step (G : DiGraph) (P pending zero : list string) (u : string)
  (imap : list (string * nat)) :
  wf G -> kahn_inv G P (u :: pending) zero imap ->
  exists imap' zero',
    relax (succ_of G u) imap zero = Ok (imap', zero')
    /\ kahn_inv G (P ++ [u]) pending zero' imap'.
Proof.
  intros Hwf [Hperm [Hmap [Hzero Hord]]].
  assert (HndL : NoDup (P ++ (u :: pending) ++ zero ++ map fst imap)).
  { apply (Permutation_NoDup (Permutation_sym Hperm)). apply Hwf. }
  assert (HuP : ~ In u P).
  { cbn [app] in HndL. apply NoDup_remove_2 in HndL. rewrite in_app_iff in HndL. tauto. }
  assert (Hun : In u (nodes G)).
  { apply (Permutation_in _ Hperm). apply in_or_app. right. now left. }
  destruct (proj1 (has_node_lookup G u) (proj2 (has_node_In G u) Hun)) as [d Hd].
  destruct (wf_lookup G u d Hwf Hd) as [Hd1 Hd2].
  assert (Hsucc : succ_of G u = succ d) by (unfold succ_of; now rewrite Hd).
  assert (Hkeys : NoDup (map fst imap)).
  { apply NoDup_app_remove_l in HndL. change ((u :: pending) ++ zero ++ map fst imap)
      with (u :: pending ++ zero ++ map fst imap) in HndL.
    apply NoDup_cons_iff in HndL as [_ HndL].
    now apply NoDup_app_remove_l, NoDup_app_remove_l in HndL. }
  assert (Hout : forall v, pending_preds G P v
                           = pending_preds G (P ++ [u]) v
                             + (if mem v (succ d) then 1 else 0)).
  { intros v. apply pending_preds_out; auto. apply Hwf. }
  assert (Hchild : forall c, In c (succ d) ->
                             exists k, lookup c imap = Some k /\ 0 < k).
  { intros c Hc. assert (He : edge G u c) by (now exists d).
    pose proof (pending_preds_edge G P u c He HuP) as Hpos.
    destruct (lookup c imap) as [k|] eqn:Ec.
    - exists k. split; [reflexivity|]. now apply (Hmap c k Ec).
    - exfalso. apply lookup_None in Ec.
      assert (HcL : In c (P ++ (u :: pending) ++ zero ++ map fst imap)).
      { apply (Permutation_in _ (Permutation_sym Hperm)). now apply Hd2. }
      assert (HcZ : In c (P ++ (u :: pending) ++ zero)).
      { rewrite !in_app_iff in *. tauto. }
      apply Hzero in HcZ. lia. }
  destruct (relax_spec (succ d) imap zero Hd1 Hkeys Hchild)
    as [imap' [Hr [Hnd' [Hl Hp]]]].
  exists imap', (zero ++ filter (freed imap) (succ d)).
  rewrite Hsucc. split; [exact Hr|]. split; [|split; [|split]].
  - apply Permutation_trans with (P ++ (u :: pending) ++ zero ++ map fst imap);
      [|exact Hperm].
    rewrite <- !app_assoc. apply Permutation_app_head. cbn [app].
    apply perm_skip, Permutation_app_head, Permutation_app_head. exact Hp.
  - intros v k' Hv. rewrite Hl in Hv. unfold relaxed in Hv.
    specialize (Hout v). destruct (mem v (succ d)).
    + destruct (lookup v imap) as [k|] eqn:Ek; [|discriminate].
      destruct (Hmap v k Ek) as [Hk Hpos].
      destruct (k =? 1) eqn:E1; [discriminate|]. inversion Hv; subst k'.
      apply Nat.eqb_neq in E1. lia.
    + destruct (Hmap v k' Hv) as [Hk Hpos]. lia.
  - intros v Hv. specialize (Hout v).
    assert (Hcases : In v (P ++ (u :: pending) ++ zero)
                     \/ In v (filter (freed imap) (succ d))).
    { rewrite !in_app_iff in *. simpl in *. tauto. }
    destruct Hcases as [Hold|Hnew].
    + apply Hzero in Hold. lia.
    + apply filter_In in Hnew as [Hvs Hf]. unfold freed in Hf.
      destruct (lookup v imap) as [[|[|k]]|] eqn:Ek; try discriminate.
      destruct (Hmap v 1 Ek) as [Hk _]. apply mem_In in Hvs. rewrite Hvs in Hout. lia.
  - intros a b He Hb. apply in_app_iff in Hb as [Hb|[<-|[]]].
    + destruct (Hord a b He Hb) as [Ha Hlt]. split; [apply in_or_app; now left|].
      now rewrite !index_app_l.
    + assert (Ha : In a P).
      { apply (pending_preds_zero G P a u); [|exact He].
        apply Hzero. apply in_or_app. right. now left. }
      split; [apply in_or_app; now left|].
      rewrite index_app_l by exact Ha. rewrite index_app_fresh by exact HuP.
      now apply index_lt.
Qed.

Lemma kahn_generation (G : DiGraph) (gen : list string) :
  forall (P zero : list string) (imap : list (string * nat)),
    wf G -> kahn_inv G P gen zero imap ->
    exists imap' zero',
      generation G gen imap zero = Ok (imap', zero')
      /\ kahn_inv G (P ++ gen) [] zero' imap'.
Proof.
  induction gen as [|u gen IH]; intros P zero imap Hwf Hinv.
  - exists imap, zero. rewrite app_nil_r. now split.
  - assert (Hun : has_node G u = true).
    { destruct Hinv as [Hperm _]. apply has_node_In.
      apply (Permutation_in _ Hperm). apply in_or_app. right. now left. }
    destruct (kahn_step G P gen zero u imap Hwf Hinv) as [imap1 [zero1 [Hr Hinv1]]].
    destruct (IH (P ++ [u]) zero1 imap1 Hwf Hinv1) as [imap' [zero' [Hg Hinv']]].
    exists imap', zero'. cbn [generation]. rewrite Hun. cbn [negb].
    rewrite Hr. cbn [bind fst snd]. rewrite Hg. split; [reflexivity|].
    now rewrite <- app_assoc in Hinv'.
Qed.

Lemma kahn_inv_swap (G : DiGraph) (P zero : list string) (imap : list (string * nat)) :
  kahn_inv G P [] zero imap -> kahn_inv G P zero [] imap.
Proof.
  intros [H1 [H2 [H3 H4]]]. split; [|split; [|split]].
  - cbn [app] in *. exact H1.
  - exact H2.
  - intros v Hv. apply H3. cbn [app] in *. now rewrite app_nil_r in Hv.
  - exact H4.
Qed.

(** a non-empty set of nodes each of which has a predecessor in the set
    holds a cycle *)
Lemma backward_chain (G : DiGraph) (K : list string) (n : nat) :
  (forall v, In v K -> exists a, In a K /\ edge G a v) ->
  forall v, In v K ->
            exists c, length c = S n /\ incl c K /\ chain G c.
Proof.
  intros Hpred. induction n as [|n IH]; intros v Hv.
  - exists [v]. repeat split; simpl; auto. intros x [<-|[]]. exact Hv.
  - destruct (IH v Hv) as [c [Hlen [Hinc Hch]]].
    destruct c as [|h t]; [discriminate|].
    destruct (Hpred h (Hinc h (or_introl eq_refl))) as [a [Ha He]].
    exists (a :: h :: t). split; [simpl in *; lia|]. split.
    + intros x [<-|Hx]; [exact Ha | now apply Hinc].
    + apply chain_cons. now split.
Qed.

Lemma closed_set_cycle (G : DiGraph) (K : list string) :
  K <> [] ->
  (forall v, In v K -> exists a, In a K /\ edge G a v) ->
  exists v, path G v v.
Proof.
  intros Hne Hpred. destruct K as [|v0 K0] eqn:EK; [congruence|]. rewrite <- EK in *.
  assert (Hv0 : In v0 K) by (rewrite EK; now left).
  destruct (backward_chain G K (length K) Hpred v0 Hv0) as [c [Hlen [Hinc Hch]]].
  destruct (dup_or_NoDup c) as [Hnd|[x [l1 [l2 [l3 Hc]]]]].
  - pose proof (NoDup_incl_length Hnd Hinc). lia.
  - exists x. subst c. apply chain_app_r in Hch.
    replace (x :: l2 ++ x :: l3) with ((x :: l2 ++ [x]) ++ l3) in Hch
      by (cbn [app]; now rewrite <- app_assoc).
    apply chain_app_l in Hch. now apply chain_path with l2.
Qed.

Lemma kahn_loop (G : DiGraph) (fuel : nat) :
  forall (P zero : list string) (imap : list (string * nat)),
    wf G -> kahn_inv G P [] zero imap ->
    (zero = [] \/ length imap < fuel) ->
    match generations fuel G zero imap with
    | Ok gens => kahn_inv G (P ++ concat gens) [] [] []
    | Raise e => e = NetworkXUnfeasible /\ exists v, path G v v
    end.
Proof.
  induction fuel as [|fuel IH]; intros P zero imap Hwf Hinv Hfuel.
  - destruct zero as [|z zero].
    + simpl. destruct imap as [|kv imap].
      * now rewrite app_nil_r.
      * split; [reflexivity|]. destruct Hinv as [Hperm [Hmap _]].
        apply (closed_set_cycle G (map fst (kv :: imap))); [discriminate|].
        intros v Hv. destruct (lookup v (kv :: imap)) as [k|] eqn:Ek.
        2:{ apply lookup_None in Ek. contradiction. }
        destruct (Hmap v k Ek) as [Hk Hpos]. subst k.
        apply pending_preds_pos in Hpos as [a [d [Hin [Hvd Ha]]]].
        exists a. split.
        -- assert (HaL : In a (P ++ [] ++ [] ++ map fst (kv :: imap))).
           { apply (Permutation_in _ (Permutation_sym Hperm)).
             apply in_map_iff. now exists (a, d). }
           cbn [app] in HaL. apply in_app_iff in HaL. tauto.
        -- exists d. split; [|exact Hvd]. apply In_lookup; [apply Hwf | exact Hin].
    + destruct Hfuel as [H|H]; [discriminate | simpl in H; lia].
  - destruct zero as [|z zero].
    + simpl. destruct imap as [|kv imap].
      * now rewrite app_nil_r.
      * split; [reflexivity|]. destruct Hinv as [Hperm [Hmap _]].
        apply (closed_set_cycle G (map fst (kv :: imap))); [discriminate|].
        intros v Hv. destruct (lookup v (kv :: imap)) as [k|] eqn:Ek.
        2:{ apply lookup_None in Ek. contradiction. }
        destruct (Hmap v k Ek) as [Hk Hpos]. subst k.
        apply pending_preds_pos in Hpos as [a [d [Hin [Hvd Ha]]]].
        exists a. split.
        -- assert (HaL : In a (P ++ [] ++ [] ++ map fst (kv :: imap))).
           { apply (Permutation_in _ (Permutation_sym Hperm)).
             apply in_map_iff. now exists (a, d). }
           cbn [app] in HaL. apply in_app_iff in HaL. tauto.
        -- exists d. split; [|exact Hvd]. apply In_lookup; [apply Hwf | exact Hin].
    + destruct (kahn_generation G (z :: zero) P [] imap Hwf (kahn_inv_swap _ _ _ _ Hinv))
        as [imap' [zero' [Hg Hinv']]].
      cbn [generations]. rewrite Hg. cbn [bind fst snd].
      assert (Hf' : zero' = [] \/ length imap' < fuel).
      { destruct zero' as [|z' zero']; [now left|]. right.
        destruct Hinv as [Hp1 _]. destruct Hinv' as [Hp2 _].
        apply Permutation_length in Hp1, Hp2.
        rewrite !length_app, !length_map in *. simpl in *.
        destruct Hfuel as [H|H]; [discriminate|]. lia. }
      specialize (IH (P ++ z :: zero) zero' imap' Hwf Hinv' Hf').
      destruct (generations fuel G zero' imap') as [later|e].
      * cbn [bind concat]. now rewrite <- app_assoc in IH.
      * exact IH.
Qed.

Lemma filter_split_perm {A : Type} (f g : A -> bool) (l : list A) :
  (forall x, g x = negb (f x)) -> Permutation (filter f l ++ filter g l) l.
Proof.
  intros Hfg. induction l as [|x l IH]; simpl; [constructor|].
  rewrite Hfg. destruct (f x); simpl.
  - now constructor.
  - apply Permutation_sym, Permutation_cons_app, Permutation_sym, IH.
Qed.

Lemma keys_positive (g : string -> nat) (l : list string) :
  map fst (filter (fun vd : string * nat => 0 <? snd vd) (map (fun v => (v, g v)) l))
  = filter (fun v => 0 <? g v) l.
Proof.
  induction l as [|x l IH]; simpl; [reflexivity|].
  destruct (0 <? g x); simpl; now rewrite IH.
Qed.

Lemma in_degree_pending (G : DiGraph) (v : string) :
  in_degree G v = pending_preds G [] v.
Proof.
  unfold in_degree, pending_preds. f_equal. apply filter_ext.
  intros e. simpl. now rewrite andb_true_r.
Qed.

Lemma kahn_init (G : DiGraph) :
  kahn_inv G [] []
    (filter (fun v => in_degree G v =? 0) (nodes G))
    (filter (fun vd => 0 <? snd vd) (map (fun v => (v, in_degree G v)) (nodes G))).
Proof.
  split; [|split; [|split]].
  - cbn [app]. rewrite keys_positive. apply filter_split_perm.
    intros x. destruct (in_degree G x); reflexivity.
  - intros v k Hv. apply lookup_In, filter_In in Hv as [Hin Hpos].
    apply in_map_iff in Hin as [x [Hx _]]. inversion Hx; subst.
    simpl in Hpos. apply Nat.ltb_lt in Hpos. rewrite <- in_degree_pending. now split.
  - cbn [app]. intros v Hv. apply filter_In in Hv as [_ Hz].
    apply Nat.eqb_eq in Hz. now rewrite <- in_degree_pending.
  - intros a b _ [].
Qed.

(** [topological_sort] on a well-formed graph: either every node once,
    each before the nodes it points to, or [NetworkXUnfeasible] on a
    graph that has a cycle *)
Lemma topological_sort_correct (G : DiGraph) :
  wf G ->
  match topological_sort G with
  | Ok topo =>
      Permutation topo (nodes G)
      /\ forall a b, edge G a b -> index a topo < index b topo
  | Raise e => e = NetworkXUnfeasible /\ exists v, path G v v
  end.
Proof.
  intros Hwf. unfold topological_sort, topological_generations.
  pose proof (kahn_loop G _ [] _ _ Hwf (kahn_init G) (or_intror (Nat.lt_succ_diag_r _)))
    as H.
  destruct (generations _ G _ _) as [gens|e]; cbn [bind]; [|exact H].
  destruct H as [Hperm [_ [_ Hord]]]. cbn [app] in *. rewrite !app_nil_r in Hperm.
  split; [exact Hperm|]. intros a b He. apply (Hord a b He).
  apply (Permutation_in _ (Permutation_sym Hperm)). now apply (edge_target G a b).
Qed.

Lemma topological_sort_acyclic (G : DiGraph) :
  wf G -> acyclic G ->
  exists topo,
    topological_sort G = Ok topo
    /\ Permutation topo (nodes G)
    /\ forall a b, edge G a b -> index a topo < index b topo.
Proof.
  intros Hwf Ha. pose proof (topological_sort_correct G Hwf) as H.
  destruct (topological_sort G) as [topo|e].
  - now exists topo.
  - destruct H as [_ [v Hv]]. destruct (Ha v Hv).
Qed.

(* ================================================================== *)
(** ** Induced subgraphs *)

Lemma path_within_source (G : DiGraph) (S : list string) (u v : string) :
  path_within G S u v -> In u S.
Proof. now destruct 1. Qed.

Lemma path_within_incl (G : DiGraph) (S S' : list string) (u v : string) :
  incl S S' -> path_within G S u v -> path_within G S' u v.
Proof.
  intros Hi. induction 1 as [a b Ha Hb He|a b t Ha He _ IH].
  - apply within_edge; auto.
  - apply within_step with b; auto.
Qed.

Lemma path_within_path (G : DiGraph) (S : list string) (u v : string) :
  path_within G S u v -> path G u v.
Proof.
  induction 1 as [a b Ha Hb He|a b t Ha He _ IH].
  - now apply path_edge.
  - now apply path_step with b.
Qed.

Section Subgraph.

Variable view_iter : list string -> list string.
Hypothesis view_iter_perm : forall l, Permutation (view_iter l) l.
Variable G : DiGraph.
Variable keep : list string.
Hypothesis G_wf : wf G.

Lemma nodes_subgraph :
  nodes (subgraph view_iter G keep)
  = view_iter (filter (fun n => mem n keep) (nodes G)).
Proof.
  unfold subgraph, nodes. rewrite map_map.
  rewrite <- (map_id (view_iter (filter _ (map fst G)))) at 2.
  apply map_ext. intros n. now destruct (lookup n G).
Qed.

Lemma In_nodes_subgraph (n : string) :
  In n (nodes (subgraph view_iter G keep)) <-> In n (nodes G) /\ In n keep.
Proof.
  rewrite nodes_subgraph. split.
  - intros H. apply (Permutation_in _ (view_iter_perm _)) in H.
    apply filter_In in H as [H1 H2]. split; [exact H1 | now apply mem_In].
  - intros [H1 H2]. apply (Permutation_in _ (Permutation_sym (view_iter_perm _))).
    apply filter_In. split; [exact H1 | now apply mem_In].
Qed.

Lemma NoDup_nodes_subgraph : NoDup (nodes (subgraph view_iter G keep)).
Proof.
  rewrite nodes_subgraph.
  apply (Permutation_NoDup (Permutation_sym (view_iter_perm _))).
  apply NoDup_filter. apply G_wf.
Qed.

Lemma lookup_subgraph (n : string) (d : node_data) :
  lookup n G = Some d -> In n keep ->
  lookup n (subgraph view_iter G keep)
  = Some (mk_node (attrs d) (view_iter (filter (fun v => mem v keep) (succ d)))).
Proof.
  intros Hd Hk. apply In_lookup; [apply NoDup_nodes_subgraph|].
  unfold subgraph. apply in_map_iff. exists n. rewrite Hd. split; [reflexivity|].
  apply (Permutation_in _ (Permutation_sym (view_iter_perm _))).
  apply filter_In. split; [now apply lookup_Some_key in Hd | now apply mem_In].
Qed.

Lemma edge_subgraph (u v : string) :
  edge (subgraph view_iter G keep) u v <-> edge G u v /\ In u keep /\ In v keep.
Proof.
  split.
  - intros [d' [Hl Hv]].
    assert (Hu : In u (nodes G) /\ In u keep).
    { apply In_nodes_subgraph. now apply lookup_Some_key in Hl. }
    destruct Hu as [Hun Huk].
    destruct (proj1 (has_node_lookup G u) (proj2 (has_node_In G u) Hun)) as [d Hd].
    rewrite (lookup_subgraph u d Hd Huk) in Hl. inversion Hl; subst d'. simpl in Hv.
    apply (Permutation_in _ (view_iter_perm _)) in Hv.
    apply filter_In in Hv as [Hv1 Hv2]. split; [now exists d|].
    split; [exact Huk | now apply mem_In].
  - intros [[d [Hd Hv]] [Hu Hvk]].
    exists (mk_node (attrs d) (view_iter (filter (fun x => mem x keep) (succ d)))).
    split; [now apply lookup_subgraph|]. simpl.
    apply (Permutation_in _ (Permutation_sym (view_iter_perm _))).
    apply filter_In. split; [exact Hv | now apply mem_In].
Qed.

Lemma wf_subgraph : wf (subgraph view_iter G keep).
Proof.
  split; [apply NoDup_nodes_subgraph|].
  intros n d' Hin.
  assert (Hl : lookup n (subgraph view_iter G keep) = Some d').
  { apply In_lookup; [apply NoDup_nodes_subgraph | exact Hin]. }
  assert (Hn : In n (nodes G) /\ In n keep).
  { apply In_nodes_subgraph. now apply lookup_Some_key in Hl. }
  destruct Hn as [Hn Hk].
  destruct (proj1 (has_node_lookup G n) (proj2 (has_node_In G n) Hn)) as [d Hd].
  rewrite (lookup_subgraph n d Hd Hk) in Hl. inversion Hl; subst d'. simpl.
  destruct (wf_lookup G n d G_wf Hd) as [Hd1 Hd2]. split.
  - apply (Permutation_NoDup (Permutation_sym (view_iter_perm _))).
    now apply NoDup_filter.
  - intros v Hv. apply (Permutation_in _ (view_iter_perm _)) in Hv.
    apply filter_In in Hv as [Hv1 Hv2]. apply In_nodes_subgraph.
    split; [now apply Hd2 | now apply mem_In].
Qed.

Lemma path_subgraph (u v : string) :
  path (subgraph view_iter G keep) u v -> path G u v.
Proof.
  induction 1 as [a b He|a b t He _ IH].
  - apply path_edge. now apply edge_subgraph in He.
  - apply path_step with b; [|exact IH]. now apply edge_subgraph in He.
Qed.

(** the walks of the subgraph are the walks of the graph that stay
    among the nodes kept *)
Lemma path_subgraph_within (u v : string) :
  path (subgraph view_iter G keep) u v <-> path_within G keep u v.
Proof.
  split.
  - induction 1 as [a b He|a b t He _ IH].
    + apply edge_subgraph in He as [He [Ha Hb]]. now apply within_edge.
    + apply edge_subgraph in He as [He [Ha Hb]]. now apply within_step with b.
  - induction 1 as [a b Ha Hb He|a b t Ha He Hp IH].
    + apply path_edge. apply edge_subgraph. tauto.
    + apply path_step with b; [|exact IH]. apply edge_subgraph.
      split; [exact He|]. split; [exact Ha|]. now apply path_within_source in Hp.
Qed.

Lemma chain_subgraph (c : list string) :
  incl c keep -> chain G c -> chain (subgraph view_iter G keep) c.
Proof.
  induction c as [|u c IH]; intros Hi Hc; [exact I|].
  destruct c as [|v l]; [exact I|].
  apply chain_cons in Hc as [He Hc]. apply chain_cons. split.
  - apply edge_subgraph. split; [exact He|].
    split; apply Hi; [now left | right; now left].
  - apply IH; [|exact Hc]. intros x Hx. apply Hi. now right.
Qed.

Lemma subgraph_chain (c : list string) :
  chain (subgraph view_iter G keep) c -> chain G c /\ incl (tl c) keep.
Proof.
  induction c as [|u c IH]; intros Hc; [split; [exact I | intros x []]|].
  destruct c as [|v l]; [split; [exact I | intros x []]|].
  apply chain_cons in Hc as [He Hc]. apply edge_subgraph in He as [He [Hu Hv]].
  destruct (IH Hc) as [Hc' Hi]. split; [now apply chain_cons|].
  intros x [<-|Hx]; [exact Hv | now apply Hi].
Qed.

(** the simple cycles of the subgraph are the simple cycles of the
    graph among the nodes kept *)
Lemma simple_cycle_subgraph (c : list string) :
  simple_cycle (subgraph view_iter G keep) c <-> simple_cycle G c /\ incl c keep.
Proof.
  destruct c as [|s l]; [simpl; tauto|]. unfold simple_cycle. split.
  - intros [Hnd [Hc He]]. apply edge_subgraph in He as [He [Hl Hs]].
    destruct (subgraph_chain _ Hc) as [Hc' Hi]. split; [now repeat split|].
    intros x [<-|Hx]; [exact Hs | now apply Hi].
  - intros [[Hnd [Hc He]] Hi]. split; [exact Hnd|].
    split; [now apply chain_subgraph|].
    apply edge_subgraph. split; [exact He|].
    split; [apply Hi, last_In | apply Hi; now left].
Qed.

End Subgraph.

Lemma index_rev (x : string) (l : list string) :
  NoDup l -> In x l -> index x (rev l) + index x l + 1 = length l.
Proof.
  induction l as [|y l IH]; intros Hnd Hin; [destruct Hin|].
  inversion Hnd as [|? ? Hy Hl]; subst. cbn [rev length index].
  destruct (String.eqb y x) eqn:E.
  - apply String.eqb_eq in E. subst y.
    rewrite index_app_fresh; [rewrite length_rev; lia|].
    now rewrite <- in_rev.
  - apply String.eqb_neq in E. destruct Hin as [H|H]; [congruence|].
    rewrite index_app_l by (now rewrite <- in_rev).
    specialize (IH Hl H). lia.
Qed.

(* ================================================================== *)
(** ** Collecting the dependencies of the root *)

Lemma potential_nil (G : DiGraph) : potential G [] = length G + length (edges G).
Proof.
  unfold potential, edges. induction G as [|[n d] G IH]; simpl in *; [reflexivity|].
  rewrite length_app, length_map. lia.
Qed.

Lemma list_sum_cons (a : nat) (l : list nat) : list_sum (a :: l) = a + list_sum l.
Proof. reflexivity. Qed.

Lemma potential_mono (G : DiGraph) (visited : list string) (x : string) :
  potential G (visited ++ [x]) <= potential G visited.
Proof.
  unfold potential. induction G as [|[n d] G IH]; [simpl; lia|].
  cbn [map fst snd]. rewrite !list_sum_cons, mem_app.
  destruct (mem n visited); cbn [orb]; [lia|].
  destruct (mem n [x]); lia.
Qed.

Lemma potential_visit (G : DiGraph) (visited : list string) (cur : string)
  (d : node_data) :
  lookup cur G = Some d -> mem cur visited = false ->
  potential G (visited ++ [cur]) + S (length (succ d)) <= potential G visited.
Proof.
  intros Hl Hv. unfold potential. induction G as [|[n dn] G IH]; [discriminate|].
  cbn [map fst snd]. rewrite !list_sum_cons.
  simpl in Hl. destruct (String.eqb n cur) eqn:E.
  - apply String.eqb_eq in E. subst n. inversion Hl; subst dn.
    rewrite mem_app, Hv. cbn [mem existsb orb]. rewrite String.eqb_refl. cbn [orb].
    pose proof (potential_mono G visited cur) as Hm. unfold potential in Hm. lia.
  - specialize (IH Hl). rewrite mem_app. cbn [mem existsb].
    rewrite E, !orb_false_r. fold (mem n visited). destruct (mem n visited); lia.
Qed.

Lemma fold_set_add_In (l acc : list string) (v : string) :
  In v (fold_left (fun a dep => set_add dep a) l acc) <-> In v l \/ In v acc.
Proof.
  revert acc. induction l as [|x l IH]; intros acc; simpl; [tauto|].
  rewrite IH, set_add_In. intuition.
Qed.

Lemma filter_length_le {A : Type} (f : A -> bool) (l : list A) :
  length (filter f l) <= length l.
Proof. induction l as [|x l IH]; simpl; [lia|]. destruct (f x); simpl; lia. Qed.

Lemma collect_total (G : DiGraph) (fuel : nat) :
  forall stack visited deps opt,
    wf G -> incl stack (nodes G) ->
    length stack + potential G visited <= fuel ->
    exists r, collect fuel G stack visited deps opt = Ok r.
Proof.
  induction fuel as [|fuel IH]; intros stack visited deps opt Hwf Hs Hf.
  - destruct stack; [eexists; reflexivity | simpl in Hf; lia].
  - destruct stack as [|cur stack]; [eexists; reflexivity|].
    cbn [collect]. destruct (mem cur visited) eqn:Ev.
    + apply IH; auto.
      * intros x Hx. apply Hs. now right.
      * simpl in Hf. lia.
    + assert (Hc : In cur (nodes G)) by (apply Hs; now left).
      destruct (proj1 (has_node_lookup G cur) (proj2 (has_node_In G cur) Hc)) as [d Hd].
      rewrite Hd. apply IH; auto.
      * intros x Hx. apply in_app_iff in Hx as [Hx|Hx].
        -- apply in_rev, filter_In in Hx as [Hx _].
           now apply (wf_lookup G cur d Hwf Hd).
        -- apply Hs. now right.
      * pose proof (potential_visit G visited cur d Hd Ev).
        pose proof (filter_length_le (fun dep => negb (String.eqb dep cur)) (succ d)).
        rewrite length_app, length_rev. simpl in Hf. lia.
Qed.

Lemma collect_sound (G : DiGraph) (root : string) (fuel : nat) :
  forall stack visited deps opt deps' opt',
    collect fuel G stack visited deps opt = Ok (deps', opt') ->
    (forall x, In x stack -> reachable G root x) ->
    (forall v, In v deps -> path G root v) ->
    forall v, In v deps' -> path G root v.
Proof.
  induction fuel as [|fuel IH]; intros stack visited deps opt deps' opt' Hc Hs Hd.
  - destruct stack; [|discriminate]. simpl in Hc. inversion Hc; subst. exact Hd.
  - destruct stack as [|cur stack]; [simpl in Hc; inversion Hc; subst; exact Hd|].
    cbn [collect] in Hc. destruct (mem cur visited).
    + apply (IH _ _ _ _ _ _ Hc); auto. intros x Hx. apply Hs. now right.
    + destruct (lookup cur G) as [d|] eqn:El; [|discriminate].
      assert (Hstep : forall x, In x (filter (fun dep => negb (String.eqb dep cur)) (succ d))
                                -> path G root x).
      { intros x Hx. apply filter_In in Hx as [Hx _].
        assert (He : edge G cur x) by (now exists d).
        destruct (Hs cur (or_introl eq_refl)) as [<-|Hp].
        - now apply path_edge.
        - now apply path_snoc with cur. }
      apply (IH _ _ _ _ _ _ Hc).
      * intros x Hx. apply in_app_iff in Hx as [Hx|Hx].
        -- right. apply Hstep. now apply in_rev.
        -- apply Hs. now right.
      * intros v Hv. apply fold_set_add_In in Hv as [Hv|Hv]; auto.
Qed.

Lemma collect_closed (G : DiGraph) (fuel : nat) :
  forall stack visited deps opt deps' opt',
    collect fuel G stack visited deps opt = Ok (deps', opt') ->
    (forall u v, In u visited -> edge G u v -> v <> u ->
                 In v deps /\ (In v visited \/ In v stack)) ->
    exists visited',
      incl visited visited' /\ incl stack visited' /\ incl deps deps'
      /\ forall u v, In u visited' -> edge G u v -> v <> u ->
                     In v deps' /\ In v visited'.
Proof.
  assert (Hend : forall visited deps,
             (forall u v, In u visited -> edge G u v -> v <> u ->
                          In v deps /\ (In v visited \/ In v [])) ->
             exists visited',
               incl visited visited' /\ incl [] visited' /\ incl deps deps
               /\ forall u v, In u visited' -> edge G u v -> v <> u ->
                              In v deps /\ In v visited').
  { intros visited deps Hinv. exists visited.
    split; [apply incl_refl|]. split; [intros x []|]. split; [apply incl_refl|].
    intros u v Hu He Hne. destruct (Hinv u v Hu He Hne) as [Hd [Hv|[]]]. now split. }
  induction fuel as [|fuel IH]; intros stack visited deps opt deps' opt' Hc Hinv.
  - destruct stack; [|discriminate]. simpl in Hc. inversion Hc; subst.
    now apply Hend.
  - destruct stack as [|cur stack].
    + simpl in Hc. inversion Hc; subst. now apply Hend.
    + cbn [collect] in Hc. destruct (mem cur visited) eqn:Ev.
      * apply mem_In in Ev.
        destruct (IH _ _ _ _ _ _ Hc) as [visited' [H1 [H2 [H3 H4]]]].
        -- intros u v Hu He Hne.
           destruct (Hinv u v Hu He Hne) as [Hd [Hv|[<-|Hv]]]; auto.
        -- exists visited'. split; [exact H1|]. split; [|split; [exact H3 | exact H4]].
           intros x [<-|Hx]; [now apply H1 | now apply H2].
      * destruct (lookup cur G) as [d|] eqn:El; [|discriminate].
        destruct (IH _ _ _ _ _ _ Hc) as [visited' [H1 [H2 [H3 H4]]]].
        -- intros u v Hu He Hne. apply in_app_iff in Hu as [Hu|[<-|[]]].
           ++ destruct (Hinv u v Hu He Hne) as [Hd Hv]. split.
              ** apply fold_set_add_In. now right.
              ** rewrite !in_app_iff. simpl in *. tauto.
           ++ destruct He as [d' [Hd' Hv]]. rewrite El in Hd'. inversion Hd'; subst d'.
              assert (Hf : In v (filter (fun dep => negb (String.eqb dep cur)) (succ d))).
              { apply filter_In. split; [exact Hv|].
                now apply negb_true_iff, String.eqb_neq. }
              split.
              ** apply fold_set_add_In. now left.
              ** right. apply in_or_app. left. now apply in_rev in Hf.
        -- exists visited'. split; [|split; [|split; [|exact H4]]].
           ++ intros x Hx. apply H1. apply in_or_app. now left.
           ++ intros x [<-|Hx].
              ** apply H1. apply in_or_app. right. now left.
              ** apply H2. apply in_or_app. now right.
           ++ intros x Hx. apply H3. apply fold_set_add_In. now right.
Qed.

Lemma closed_reach (G : DiGraph) (visited deps : list string) :
  (forall u v, In u visited -> edge G u v -> v <> u -> In v deps /\ In v visited) ->
  forall u v, path G u v -> In u visited -> In v visited /\ (In v deps \/ v = u).
Proof.
  intros Hcl u v Hp. induction Hp as [u v He|u x v He Hp IH]; intros Hu.
  - destruct (string_dec v u) as [->|Hne]; [auto|].
    destruct (Hcl u v Hu He Hne). auto.
  - destruct (string_dec x u) as [->|Hne]; [now apply IH|].
    destruct (Hcl u x Hu He Hne) as [Hxd Hxv].
    destruct (IH Hxv) as [Hv [Hd|Heq]]; [auto|]. subst v. auto.
Qed.

(** the walk from the root ends, and collects what the root reaches *)
Lemma collect_root (G : DiGraph) (root : string) :
  wf G -> In root (nodes G) ->
  exists deps opt,
    collect (walk_fuel G) G [root] [] [] [] = Ok (deps, opt)
    /\ (forall v, In v deps -> path G root v)
    /\ (forall v, reachable G root v -> In v (set_add root deps)).
Proof.
  intros Hwf Hr.
  destruct (collect_total G (walk_fuel G) [root] [] [] [] Hwf) as [[deps opt] Hc].
  - intros x [<-|[]]. exact Hr.
  - rewrite potential_nil. unfold walk_fuel. simpl. lia.
  - exists deps, opt. split; [exact Hc|]. split.
    + apply (collect_sound G root _ _ _ _ _ _ _ Hc).
      * intros x [<-|[]]. now left.
      * intros v [].
    + destruct (collect_closed G _ _ _ _ _ _ _ Hc) as [visited' [_ [H2 [_ H4]]]].
      * intros u v [].
      * intros v [<-|Hp]; apply set_add_In; [now left|].
        destruct (closed_reach G visited' deps H4 root v Hp) as [_ [H|H]]; auto.
        apply H2. now left.
Qed.

(* ================================================================== *)
(** ** The graph only grows *)

Lemma extends_refl (G : DiGraph) : extends G G.
Proof. split; [apply incl_refl | auto]. Qed.

Lemma extends_trans (G1 G2 G3 : DiGraph) :
  extends G1 G2 -> extends G2 G3 -> extends G1 G3.
Proof.
  intros [H1 H2] [H3 H4]. split; [now apply incl_tran with (nodes G2) | auto].
Qed.

Lemma extends_path (G G' : DiGraph) (u v : string) :
  extends G G' -> path G u v -> path G' u v.
Proof.
  intros [_ He]. induction 1 as [a b H|a b t H _ IH].
  - apply path_edge. auto.
  - apply path_step with b; auto.
Qed.

Lemma extends_reachable (G G' : DiGraph) (u v : string) :
  extends G G' -> reachable G u v -> reachable G' u v.
Proof. intros He [H|H]; [now left | right; now apply extends_path with G]. Qed.

Lemma extends_new_node (G : DiGraph) (n : string) (d : node_data) :
  extends G (G ++ [(n, d)]).
Proof.
  split.
  - intros x Hx. rewrite nodes_app. apply in_or_app. now left.
  - intros u v [du [Hl Hv]]. exists du. split; [now apply lookup_app_Some | exact Hv].
Qed.

Lemma extends_update (G : DiGraph) (n : string) (d d' : node_data) :
  lookup n G = Some d -> incl (succ d) (succ d') -> extends G (dict_set n d' G).
Proof.
  intros Hl Hs. split.
  - unfold nodes. rewrite keys_dict_set_present; [apply incl_refl|].
    now apply lookup_Some_key in Hl.
  - intros u v [du [Hu Hv]]. destruct (string_dec n u) as [->|Hne].
    + exists d'. rewrite lookup_dict_set_eq. split; [reflexivity|].
      rewrite Hl in Hu. inversion Hu; subst. now apply Hs.
    + exists du. split; [|exact Hv]. now rewrite lookup_dict_set_neq.
Qed.

Lemma extends_ensure (G : DiGraph) (n : string) :
  extends G (if has_node G n then G else G ++ [(n, mk_node [] [])]).
Proof. destruct (has_node G n); [apply extends_refl | apply extends_new_node]. Qed.

Lemma extends_add_node (n : string) (a : attr_dict) (G : DiGraph) :
  extends G (add_node n a G).
Proof.
  unfold add_node. destruct (lookup n G) as [d|] eqn:E.
  - apply (extends_update G n d); [exact E | apply incl_refl].
  - apply extends_new_node.
Qed.

Lemma extends_add_edge (u v : string) (G : DiGraph) : extends G (add_edge u v G).
Proof.
  unfold add_edge.
  set (G1 := if has_node G u then G else G ++ [(u, mk_node [] [])]).
  set (G2 := if has_node G1 v then G1 else G1 ++ [(v, mk_node [] [])]).
  assert (H2 : extends G G2).
  { apply extends_trans with G1; apply extends_ensure. }
  destruct (lookup u G2) as [d|] eqn:E; [|exact H2].
  apply extends_trans with G2; [exact H2|].
  apply (extends_update G2 u d); [exact E|].
  intros x Hx. simpl. apply set_add_In. now right.
Qed.

Lemma extends_set_node_attr (n k : string) (v : json) (G G' : DiGraph) :
  set_node_attr n k v G = Ok G' -> extends G G'.
Proof.
  unfold set_node_attr. destruct (lookup n G) as [d|] eqn:E; [|discriminate].
  intros [= <-]. apply (extends_update G n d); [exact E | apply incl_refl].
Qed.

Lemma extends_add_deps (set_order : list json) (name : string) :
  forall G, extends G (fst (add_deps name set_order G)).
Proof.
  induction set_order as [|d ds IH]; intros G; simpl; [apply extends_refl|].
  destruct d as [|s|l|o|js]; simpl; try apply extends_refl.
  destruct (String.eqb s name); [apply IH|].
  apply extends_trans with (add_edge name s (add_node s [] G)); [|apply IH].
  apply extends_trans with (add_node s [] G);
    [apply extends_add_node | apply extends_add_edge].
Qed.

Lemma add_package_grows (set_iter : list json -> list json)
  (meta : list (string * json)) (w : world) :
  wf (graph w) ->
  wf (graph (fst (add_package set_iter meta w)))
  /\ extends (graph w) (graph (fst (add_package set_iter meta w)))
  /\ stdin (fst (add_package set_iter meta w)) = stdin w.
Proof.
  intros Hwf. unfold add_package.
  destruct (truthy (name_of meta)); cbn [negb];
    [|split; [exact Hwf | split; [apply extends_refl | reflexivity]]].
  destruct (norm_list (build_deps_of meta)) as [bd|];
    [|split; [exact Hwf | split; [apply extends_refl | reflexivity]]].
  destruct (norm_list (run_deps_of meta)) as [rd|];
    [|split; [exact Hwf | split; [apply extends_refl | reflexivity]]].
  destruct (norm_list (optional_of meta)) as [op|];
    [|split; [exact Hwf | split; [apply extends_refl | reflexivity]]].
  destruct (name_of meta) as [|name|l|o|js];
    try (split; [exact Hwf | split; [apply extends_refl | reflexivity]]).
  set (G1 := add_node name _ (graph w)).
  assert (H1 : wf G1) by now apply wf_add_node.
  assert (E1 : extends (graph w) G1) by apply extends_add_node.
  destruct (forallb hashable (bd ++ rd)); cbn [negb];
    [|split; [exact H1 | split; [exact E1 | reflexivity]]].
  pose proof (wf_add_deps (set_iter (distinct (bd ++ rd) [])) name G1 H1) as H2.
  pose proof (extends_add_deps (set_iter (distinct (bd ++ rd) [])) name G1) as E2.
  destruct (add_deps name (set_iter (distinct (bd ++ rd) [])) G1) as [G2 r].
  simpl in H2, E2.
  assert (E12 : extends (graph w) G2) by now apply extends_trans with G1.
  destruct r as [u|e]; [|split; [exact H2 | split; [exact E12 | reflexivity]]].
  destruct (truthy (JList op));
    [|split; [exact H2 | split; [exact E12 | reflexivity]]].
  destruct (set_node_attr name "optional" (JList op) G2) as [G3|e] eqn:E;
    [|split; [exact H2 | split; [exact E12 | reflexivity]]].
  split; [now apply (wf_set_node_attr name "optional" (JList op) G2 G3)|].
  split; [|reflexivity].
  apply extends_trans with G2; [exact E12|].
  now apply (extends_set_node_attr name "optional" (JList op)).
Qed.

Lemma add_package_from_metafile_grows
  (parse_metafile : string -> option (list (string * json)))
  (set_iter : list json -> list json) (path_or_name : string) (w : world) :
  wf (graph w) ->
  wf (graph (fst (add_package_from_metafile parse_metafile set_iter path_or_name w)))
  /\ extends (graph w)
       (graph (fst (add_package_from_metafile parse_metafile set_iter path_or_name w)))
  /\ stdin (fst (add_package_from_metafile parse_metafile set_iter path_or_name w))
     = stdin w.
Proof.
  intros Hwf. unfold add_package_from_metafile.
  destruct (parse_metafile path_or_name) as [[|kv meta]|];
    try (split; [exact Hwf | split; [apply extends_refl | reflexivity]]).
  now apply add_package_grows.
Qed.

(* ================================================================== *)
(** ** Merging the dependencies of an accepted candidate *)

Lemma push_new_spec (deps : list string) :
  forall stack ds,
    incl ds (snd (push_new deps stack ds))
    /\ (forall v, In v (snd (push_new deps stack ds)) -> In v ds \/ In v deps)
    /\ (forall x, In x (fst (push_new deps stack ds)) -> In x stack \/ In x deps).
Proof.
  induction deps as [|dep deps IH]; intros stack ds; simpl.
  - split; [apply incl_refl|]. split; auto.
  - destruct (mem dep ds).
    + destruct (IH stack ds) as [H1 [H2 H3]]. split; [exact H1|]. split.
      * intros v Hv. destruct (H2 v Hv); auto.
      * intros x Hx. destruct (H3 x Hx); auto.
    + destruct (IH (dep :: stack) (ds ++ [dep])) as [H1 [H2 H3]]. split; [|split].
      * intros x Hx. apply H1. apply in_or_app. now left.
      * intros v Hv. destruct (H2 v Hv) as [H|H]; [|auto].
        apply in_app_iff in H as [H|[<-|[]]]; auto.
      * intros x Hx. destruct (H3 x Hx) as [[<-|H]|H]; auto.
Qed.

Lemma unseen_add_list (l ds : list string) (dep : string) :
  NoDup l -> In dep l -> mem dep ds = false ->
  length (filter (fun n => negb (mem n (ds ++ [dep]))) l) + 1
  = length (filter (fun n => negb (mem n ds)) l).
Proof.
  intros Hnd Hin Hm. induction l as [|x l IH]; [destruct Hin|].
  inversion Hnd as [|? ? Hx Hl]; subst. cbn [filter]. rewrite mem_app.
  cbn [mem existsb]. destruct (String.eqb x dep) eqn:E.
  - apply String.eqb_eq in E. subst x. rewrite Hm. cbn [orb negb length].
    assert (Heq : filter (fun n => negb (mem n (ds ++ [dep]))) l
                  = filter (fun n => negb (mem n ds)) l).
    { apply filter_ext_in. intros n Hn. rewrite mem_app. cbn [mem existsb].
      assert (Hne : String.eqb n dep = false).
      { apply String.eqb_neq. intros ->. contradiction. }
      now rewrite Hne, !orb_false_r. }
    rewrite Heq. lia.
  - apply String.eqb_neq in E. destruct Hin as [H|H]; [congruence|].
    specialize (IH Hl H). rewrite !orb_false_r. fold (mem x ds).
    destruct (mem x ds); cbn [negb length]; lia.
Qed.

Lemma push_new_potential (G : DiGraph) (deps : list string) :
  NoDup (nodes G) -> incl deps (nodes G) ->
  forall stack ds,
    length (fst (push_new deps stack ds)) + unseen G (snd (push_new deps stack ds))
    = length stack + unseen G ds.
Proof.
  intros Hnd. induction deps as [|dep deps IH]; intros Hi stack ds; simpl; [reflexivity|].
  assert (Hi' : incl deps (nodes G)) by (intros x Hx; apply Hi; now right).
  destruct (mem dep ds) eqn:E; [now apply IH|].
  rewrite (IH Hi' (dep :: stack) (ds ++ [dep])). unfold unseen.
  pose proof (unseen_add_list (nodes G) ds dep Hnd (Hi dep (or_introl eq_refl)) E).
  simpl. lia.
Qed.

Lemma merge_sound (G : DiGraph) (o : string) (fuel : nat) :
  forall stack ds ds',
    merge_optional fuel G stack ds = Ok ds' ->
    (forall x, In x stack -> reachable G o x) ->
    incl ds ds' /\ forall v, In v ds' -> In v ds \/ path G o v.
Proof.
  induction fuel as [|fuel IH]; intros stack ds ds' Hm Hs.
  - destruct stack; [|discriminate]. simpl in Hm. inversion Hm; subst.
    split; [apply incl_refl | auto].
  - destruct stack as [|c stack].
    + simpl in Hm. inversion Hm; subst. split; [apply incl_refl | auto].
    + cbn [merge_optional] in Hm. unfold successors in Hm.
      destruct (lookup c G) as [d|] eqn:El; [|discriminate].
      destruct (push_new_spec (succ d) stack ds) as [H1 [H2 H3]].
      assert (Hstep : forall x, In x (succ d) -> path G o x).
      { intros x Hx. assert (He : edge G c x) by (now exists d).
        destruct (Hs c (or_introl eq_refl)) as [<-|Hp];
          [now apply path_edge | now apply path_snoc with c]. }
      destruct (IH _ _ _ Hm) as [H4 H5].
      * intros x Hx. destruct (H3 x Hx) as [H|H]; [apply Hs; now right|].
        right. now apply Hstep.
      * split; [now apply incl_tran with (snd (push_new (succ d) stack ds))|].
        intros v Hv. destruct (H5 v Hv) as [H|H]; [|auto].
        destruct (H2 v H) as [H'|H']; auto.
Qed.

Lemma merge_fuel (G : DiGraph) (fuel : nat) :
  wf G ->
  forall stack ds,
    length stack + unseen G ds <= fuel ->
    merge_optional fuel G stack ds <> Raise OutOfFuel.
Proof.
  intros Hwf. induction fuel as [|fuel IH]; intros stack ds Hf.
  - destruct stack; [discriminate | simpl in Hf; lia].
  - destruct stack as [|c stack]; [discriminate|].
    cbn [merge_optional]. unfold successors.
    destruct (lookup c G) as [d|] eqn:El; [|discriminate].
    apply IH.
    rewrite (push_new_potential G (succ d)); [simpl in Hf; lia | apply Hwf |].
    intros x Hx. now apply (wf_lookup G c d Hwf El).
Qed.

Lemma unseen_le (G : DiGraph) (ds : list string) : unseen G ds <= length G.
Proof.
  unfold unseen. etransitivity; [apply filter_length_le|].
  unfold nodes. now rewrite length_map.
Qed.

Lemma merge_walk_fuel (G : DiGraph) (o : string) (ds : list string) :
  wf G -> merge_optional (walk_fuel G) G [o] ds <> Raise OutOfFuel.
Proof.
  intros Hwf. apply merge_fuel; [exact Hwf|].
  pose proof (unseen_le G ds). unfold walk_fuel. simpl. lia.
Qed.

(* ================================================================== *)
(** ** The prompts *)

Lemma add_deps_no_fuel (set_order : list json) (name : string) :
  forall G, snd (add_deps name set_order G) <> Raise OutOfFuel.
Proof.
  induction set_order as [|d ds IH]; intros G; simpl; [discriminate|].
  destruct d as [|s|l|o|js]; simpl; try discriminate.
  destruct (String.eqb s name); apply IH.
Qed.

Lemma add_package_no_fuel (set_iter : list json -> list json)
  (meta : list (string * json)) (w : world) :
  snd (add_package set_iter meta w) <> Raise OutOfFuel.
Proof.
  unfold add_package.
  destruct (truthy (name_of meta)); cbn [negb]; [|discriminate].
  destruct (norm_list (build_deps_of meta)) as [bd|e] eqn:E1.
  2:{ apply norm_list_raise in E1. subst e. discriminate. }
  destruct (norm_list (run_deps_of meta)) as [rd|e] eqn:E2.
  2:{ apply norm_list_raise in E2. subst e. discriminate. }
  destruct (norm_list (optional_of meta)) as [op|e] eqn:E3.
  2:{ apply norm_list_raise in E3. subst e. discriminate. }
  destruct (name_of meta) as [|name|l|o|js]; try discriminate.
  destruct (forallb hashable (bd ++ rd)); cbn [negb]; [|discriminate].
  pose proof (add_deps_no_fuel (set_iter (distinct (bd ++ rd) [])) name
                (add_node name
                   [("version", get "version" meta);
                    ("origin", get_or "origin" meta (JStr ""));
                    ("provides", por (get "provides" meta) (JList []));
                    ("optional", JList op)] (graph w))) as Hd.
  destruct (add_deps name _ _) as [G2 [u|e]]; simpl in Hd;
    [|intros H; inversion H; subst; now apply Hd].
  destruct (truthy (JList op)); [|discriminate].
  unfold set_node_attr. destruct (lookup name G2); discriminate.
Qed.

Lemma add_package_from_metafile_no_fuel
  (parse_metafile : string -> option (list (string * json)))
  (set_iter : list json -> list json) (path_or_name : string) (w : world) :
  snd (add_package_from_metafile parse_metafile set_iter path_or_name w)
  <> Raise OutOfFuel.
Proof.
  unfold add_package_from_metafile.
  destruct (parse_metafile path_or_name) as [[|kv meta]|]; try discriminate.
  apply add_package_no_fuel.
Qed.

Lemma accepted_cons (o : json) (os : list json) (evs : list input_event) :
  evs <> [] -> accepted (o :: os) evs = accepted [o] evs ++ accepted os (tl evs).
Proof.
  destruct evs as [|ev later]; [congruence|]. intros _. simpl.
  now rewrite app_nil_r.
Qed.

Lemma accepted_app (os cs : list json) :
  forall evs, length os <= length evs ->
              accepted (os ++ cs) evs
              = accepted os evs ++ accepted cs (skipn (length os) evs).
Proof.
  induction os as [|o os IH]; intros evs Hl; [reflexivity|].
  destruct evs as [|ev later]; [simpl in Hl; lia|].
  simpl in Hl. cbn [app accepted length skipn].
  rewrite IH by lia. now rewrite app_assoc.
Qed.

Section Prompts.

Variable parse_metafile : string -> option (list (string * json)).
Variable set_iter : list json -> list json.

Lemma ask_spec (o : json) (deps : list string) (w : world) :
  wf (graph w) ->
  prompted [o] deps w (ask parse_metafile set_iter o deps w).
Proof.
  intros Hwf. unfold ask, prompted.
  destruct (stdin w) as [|ev later] eqn:Ein.
  - cbn [fst snd]. split; [exact Hwf|]. split; [apply extends_refl|].
    split; discriminate.
  - destruct (says_yes ev) eqn:Ey.
    2:{ cbn [fst snd set_stdin graph stdin]. split; [exact Hwf|].
        split; [apply extends_refl|]. split; [discriminate|].
        intros deps' [= <-]. split; [apply incl_refl|]. split; [simpl; lia|].
        split; [reflexivity | auto]. }
    destruct o as [|s|l|d|js];
      try (cbn [fst snd set_stdin graph]; split; [exact Hwf|];
           split; [apply extends_refl|]; split; discriminate).
    assert (Hpre : exists w2 r,
               (if has_node (graph (set_stdin later w)) s
                then (set_stdin later w, Ok None)
                else add_package_from_metafile parse_metafile set_iter s
                       (set_stdin later w)) = (w2, r)
               /\ wf (graph w2) /\ extends (graph w) (graph w2)
               /\ stdin w2 = later /\ r <> Raise OutOfFuel).
    { destruct (has_node (graph (set_stdin later w)) s).
      - exists (set_stdin later w), (Ok None). split; [reflexivity|].
        split; [exact Hwf|]. split; [apply extends_refl|]. split; [reflexivity|].
        discriminate.
      - pose proof (add_package_from_metafile_grows parse_metafile set_iter s
                      (set_stdin later w) Hwf) as [H1 [H2 H3]].
        pose proof (add_package_from_metafile_no_fuel parse_metafile set_iter s
                      (set_stdin later w)) as H4.
        destruct (add_package_from_metafile parse_metafile set_iter s
                    (set_stdin later w)) as [w2 r].
        exists w2, r. split; [reflexivity|]. simpl in *. auto. }
    destruct Hpre as [w2 [r [-> [Hw2 [He2 [Hs2 Hr]]]]]].
    destruct r as [x|e]; cbn [fst snd].
    + split; [exact Hw2|]. split; [exact He2|].
      split; [now apply merge_walk_fuel|].
      intros deps' Hm.
      destruct (merge_sound (graph w2) s _ _ _ _ Hm) as [H1 H2].
      { intros y [<-|[]]. now left. }
      split; [exact H1|]. split; [simpl; lia|]. split; [exact Hs2|].
      intros v Hv. destruct (H2 v Hv) as [H|H]; [now left|].
      right. exists s. split; [|exact H]. simpl. rewrite Ey. now left.
    + split; [exact Hw2|]. split; [exact He2|].
      split; [intros H; inversion H; subst; now apply Hr | discriminate].
Qed.

Lemma ask_each_spec (os : list json) :
  forall deps w, wf (graph w) ->
                 prompted os deps w (ask_each parse_metafile set_iter os deps w).
Proof.
  induction os as [|o os IH]; intros deps w Hwf.
  - unfold prompted. cbn [ask_each fst snd]. split; [exact Hwf|].
    split; [apply extends_refl|]. split; [discriminate|].
    intros deps' [= <-]. split; [apply incl_refl|]. split; [simpl; lia|].
    split; [reflexivity | auto].
  - cbn [ask_each].
    pose proof (ask_spec o deps w Hwf) as [H1 [H2 [H3 H4]]].
    destruct (ask parse_metafile set_iter o deps w) as [w1 [d1|e]]; cbn [fst snd] in *.
    2:{ split; [exact H1|]. split; [exact H2|]. split; [exact H3 | discriminate]. }
    destruct (H4 d1 eq_refl) as [Hi [Hlen [Hin Hacc]]].
    pose proof (IH d1 w1 H1) as [K1 [K2 [K3 K4]]].
    split; [exact K1|]. split; [now apply extends_trans with (graph w1)|].
    split; [exact K3|]. intros deps' Hr.
    destruct (K4 deps' Hr) as [Ki [Klen [Kin Kacc]]].
    assert (Hne : stdin w <> []).
    { destruct (stdin w); [simpl in Hlen; lia | discriminate]. }
    destruct (stdin w) as [|ev later] eqn:Es; [congruence|].
    simpl in Hin. rewrite Hin in *.
    split; [now apply incl_tran with d1|]. split; [simpl; lia|].
    split; [exact Kin|]. intros v Hv.
    rewrite accepted_cons by discriminate. cbn [tl].
    destruct (Kacc v Hv) as [H|[s [Hs Hp]]].
    + destruct (Hacc v H) as [H'|[s [Hs Hp]]]; [now left|].
      right. exists s. split; [apply in_or_app; now left|].
      now apply extends_path with (graph w1).
    + right. exists s. split; [apply in_or_app; now right | exact Hp].
Qed.

Lemma ask_all_spec (optional_to_ask : list (string * json)) :
  forall deps w, wf (graph w) ->
                 prompted (candidates optional_to_ask) deps w
                   (ask_all parse_metafile set_iter optional_to_ask deps w).
Proof.
  induction optional_to_ask as [|[parent opts] rest IH]; intros deps w Hwf.
  - unfold prompted. cbn [ask_all candidates flat_map fst snd]. split; [exact Hwf|].
    split; [apply extends_refl|]. split; [discriminate|].
    intros deps' [= <-]. split; [apply incl_refl|]. split; [simpl; lia|].
    split; [reflexivity | auto].
  - cbn [ask_all candidates flat_map snd].
    destruct (iter opts) as [os|e] eqn:Ei.
    2:{ destruct opts; simpl in Ei; try discriminate. inversion Ei; subst e.
        unfold prompted. cbn [fst snd]. split; [exact Hwf|].
        split; [apply extends_refl|]. split; discriminate. }
    pose proof (ask_each_spec os deps w Hwf) as [H1 [H2 [H3 H4]]].
    destruct (ask_each parse_metafile set_iter os deps w) as [w1 [d1|e]];
      cbn [fst snd] in *.
    2:{ split; [exact H1|]. split; [exact H2|]. split; [exact H3 | discriminate]. }
    destruct (H4 d1 eq_refl) as [Hi [Hlen [Hin Hacc]]].
    pose proof (IH d1 w1 H1) as [K1 [K2 [K3 K4]]].
    fold (candidates rest) in *.
    split; [exact K1|]. split; [now apply extends_trans with (graph w1)|].
    split; [exact K3|]. intros deps' Hr.
    destruct (K4 deps' Hr) as [Ki [Klen [Kin Kacc]]].
    rewrite Hin in *.
    assert (Hl2 : length (candidates rest) <= length (stdin w) - length os).
    { now rewrite length_skipn in Klen. }
    split; [now apply incl_tran with d1|]. split; [rewrite length_app; lia|].
    split; [rewrite Kin, skipn_skipn, length_app; f_equal; lia|].
    intros v Hv. rewrite accepted_app by exact Hlen.
    destruct (Kacc v Hv) as [H|[s [Hs Hp]]].
    + destruct (Hacc v H) as [H'|[s [Hs Hp]]]; [now left|].
      right. exists s. split; [apply in_or_app; now left|].
      now apply extends_path with (graph w1).
    + right. exists s. split; [apply in_or_app; now right | exact Hp].
Qed.

End Prompts.

(* ================================================================== *)
(** ** The phases of [resolve] *)

Section Phases.

Variable parse_metafile : string -> option (list (string * json)).
Variable set_iter : list json -> list json.
Variable view_iter : list string -> list string.
Variable cycle_rank : DiGraph -> list string -> nat.
Variable cycle_start : DiGraph -> list string -> nat.
Hypothesis view_iter_perm : forall l, Permutation (view_iter l) l.

Lemma ensure_root_spec (root : string) (w : world) :
  wf (graph w) ->
  wf (graph (fst (ensure_root parse_metafile set_iter root w)))
  /\ extends (graph w) (graph (fst (ensure_root parse_metafile set_iter root w)))
  /\ stdin (fst (ensure_root parse_metafile set_iter root w)) = stdin w
  /\ snd (ensure_root parse_metafile set_iter root w) <> Raise OutOfFuel.
Proof.
  intros Hwf. unfold ensure_root. destruct (has_node (graph w) root).
  - cbn [fst snd]. split; [exact Hwf|]. split; [apply extends_refl|].
    split; [reflexivity | discriminate].
  - pose proof (add_package_from_metafile_grows parse_metafile set_iter root w Hwf)
      as [H1 [H2 H3]].
    pose proof (add_package_from_metafile_no_fuel parse_metafile set_iter root w) as H4.
    destruct (add_package_from_metafile parse_metafile set_iter root w)
      as [w' [[name|]|e]]; cbn [fst snd] in *.
    + split; [exact H1|]. split; [exact H2|]. split; [exact H3 | discriminate].
    + split; [exact H1|]. split; [exact H2|]. split; [exact H3 | discriminate].
    + split; [exact H1|]. split; [exact H2|]. split; [exact H3|].
      intros H. inversion H; subst. now apply H4.
Qed.

Lemma collect_absent (G : DiGraph) (root : string) :
  has_node G root = false ->
  collect (walk_fuel G) G [root] [] [] [] = Raise NetworkXError.
Proof.
  intros H. unfold walk_fuel. cbn [collect mem existsb].
  destruct (lookup root G) as [d|] eqn:E; [|reflexivity].
  apply lookup_Some_key in E. apply has_node_In in E. congruence.
Qed.

Lemma gather_spec (resolve_optional : bool) (root : string) (prompt : bool)
  (w1 : world) :
  wf (graph w1) ->
  let out := gather parse_metafile set_iter resolve_optional root prompt w1 in
  wf (graph (fst out))
  /\ extends (graph w1) (graph (fst out))
  /\ snd out <> Raise OutOfFuel
  /\ forall deps, snd out = Ok deps ->
       In root (nodes (graph w1))
       /\ (forall v, reachable (graph w1) root v -> In v (set_add root deps))
       /\ (forall v, In v deps ->
             path (graph (fst out)) root v
             \/ exists s, In s (accepted_optional resolve_optional root prompt w1)
                          /\ path (graph (fst out)) s v)
       /\ (prompt = false -> fst out = w1).
Proof.
  intros Hwf out. subst out. unfold gather, accepted_optional.
  destruct (has_node (graph w1) root) eqn:Hr.
  2:{ rewrite (collect_absent _ _ Hr). cbn [fst snd]. split; [exact Hwf|].
      split; [apply extends_refl|]. split; discriminate. }
  apply has_node_In in Hr.
  destruct (collect_root (graph w1) root Hwf Hr) as [deps0 [ota [Hc [Hs Hcov]]]].
  rewrite Hc.
  destruct ((match ota with [] => false | _ => true end) && prompt && resolve_optional)
    eqn:Econd.
  - pose proof (ask_all_spec parse_metafile set_iter ota deps0 w1 Hwf)
      as [H1 [H2 [H3 H4]]].
    split; [exact H1|]. split; [exact H2|]. split; [exact H3|].
    intros deps Hd. destruct (H4 deps Hd) as [Hi [_ [_ Hacc]]].
    split; [exact Hr|]. split; [|split].
    + intros v Hv. apply Hcov in Hv. apply set_add_In in Hv as [->|Hv];
        apply set_add_In; [now left | right; now apply Hi].
    + intros v Hv. destruct (Hacc v Hv) as [H|H]; [|now right].
      left. apply extends_path with (graph w1); [exact H2 | now apply Hs].
    + intros ->. rewrite andb_false_r in Econd. discriminate.
  - cbn [fst snd]. split; [exact Hwf|]. split; [apply extends_refl|].
    split; [discriminate|]. intros deps [= <-].
    split; [exact Hr|]. split; [exact Hcov|]. split; [|reflexivity].
    intros v Hv. left. now apply Hs.
Qed.

Lemma order_or_cycles_acyclic (subg : DiGraph) (w : world) :
  wf subg -> acyclic subg ->
  exists topo,
    order_or_cycles cycle_rank cycle_start subg w = (w, Ok (rev topo, []))
    /\ Permutation topo (nodes subg)
    /\ forall a b, edge subg a b -> index a topo < index b topo.
Proof.
  intros Hwf Ha. unfold order_or_cycles.
  rewrite (acyclic_simple_cycles_nil cycle_rank cycle_start subg Hwf Ha).
  destruct (topological_sort_acyclic subg Hwf Ha) as [topo [Ht [Hp Ho]]].
  exists topo. now rewrite Ht.
Qed.

Lemma order_or_cycles_cyclic (subg : DiGraph) (w : world) :
  simple_cycles cycle_rank cycle_start subg <> [] ->
  order_or_cycles cycle_rank cycle_start subg w
  = (logger ERROR "Dependency cycles detected" w,
     Ok ([], map (join ",") (simple_cycles cycle_rank cycle_start subg))).
Proof.
  intros H. unfold order_or_cycles. destruct (simple_cycles cycle_rank cycle_start
      subg); [congruence|].
  reflexivity.
Qed.

Lemma order_or_cycles_cases (subg : DiGraph) (w : world) :
  wf subg ->
  (acyclic subg /\ simple_cycles cycle_rank cycle_start subg = [])
  \/ (simple_cycles cycle_rank cycle_start subg <> [] /\ exists v, path subg v v).
Proof.
  intros Hwf. destruct (simple_cycles cycle_rank cycle_start subg) as [|c l] eqn:E.
  - left. split; [now apply (simple_cycles_nil_acyclic cycle_rank cycle_start) | reflexivity].
  - right. split; [discriminate|].
    assert (Hs : simple_cycle subg c).
    { apply (simple_cycles_sound cycle_rank cycle_start); auto. rewrite E. now left. }
    apply simple_closed, closed_walk_path in Hs as [v [_ Hp]]. now exists v.
Qed.

Lemma wf_resolved_subgraph (root : string) (deps : list string) (w : world) :
  wf (graph w) -> wf (resolved_subgraph view_iter root deps w).
Proof. intros H. now apply wf_subgraph. Qed.

End Phases.

(* ================================================================== *)
(** ** Build order *)

Lemma resolve_unfold
  (parse_metafile : string -> option (list (string * json)))
  (set_iter : list json -> list json) (view_iter : list string -> list string)
  (cycle_rank cycle_start : DiGraph -> list string -> nat)
  (resolve_optional : bool) (root : string) (prompt : bool)
  (w w1 w2 : world) (deps : list string) :
  ensure_root parse_metafile set_iter root w = (w1, Ok true) ->
  gather parse_metafile set_iter resolve_optional root prompt w1 = (w2, Ok deps) ->
  resolve parse_metafile set_iter view_iter cycle_rank cycle_start
      resolve_optional root prompt w
  = order_or_cycles cycle_rank cycle_start (resolved_subgraph view_iter root deps w2) w2.
Proof. intros H1 H2. unfold resolve. now rewrite H1, H2. Qed.

(** C1: when no cycle of the graph runs among the root and its
    dependency set, that is, when the subgraph that [resolve] builds
    over them is acyclic, the build order holds every node of the graph
    among the root and its dependency set once, and for every edge
    [a -> b] of the graph between two of them [b] comes before [a].
    The order covers the root and everything the root reaches, and
    nothing else when no optional candidate is asked about. *)
Theorem resolve_build_order
  (parse_metafile : string -> option (list (string * json)))
  (set_iter : list json -> list json) (view_iter : list string -> list string)
  (cycle_rank cycle_start : DiGraph -> list string -> nat)
  (resolve_optional : bool) (root : string) (prompt : bool)
  (w w1 w2 : world) (deps : list string) :
  (forall l, Permutation (view_iter l) l) ->
  wf (graph w) ->
  ensure_root parse_metafile set_iter root w = (w1, Ok true) ->
  gather parse_metafile set_iter resolve_optional root prompt w1 = (w2, Ok deps) ->
  (forall v, ~ path_within (graph w2) (root :: deps) v v) ->
  exists order,
    resolve parse_metafile set_iter view_iter cycle_rank cycle_start
      resolve_optional root prompt w
    = (w2, Ok (order, []))
    /\ NoDup order
    /\ (forall v, In v order
                  <-> In v (nodes (graph w2)) /\ (v = root \/ In v deps))
    /\ (forall a b, In a order -> In b order -> edge (graph w2) a b ->
                    index b order < index a order)
    /\ (forall v, reachable (graph w1) root v -> In v order)
    /\ (prompt = false -> forall v, In v order -> reachable (graph w1) root v).
Proof.
  intros Hview Hwf He Hg Hno.
  pose proof (ensure_root_spec parse_metafile set_iter root w Hwf) as [Hwf1 _].
  rewrite He in Hwf1. cbn [fst] in Hwf1.
  pose proof (gather_spec parse_metafile set_iter resolve_optional root prompt w1 Hwf1)
    as [Hwf2 [Hext [_ Hd]]].
  rewrite Hg in Hwf2, Hext, Hd. cbn [fst snd] in Hwf2, Hext, Hd.
  destruct (Hd deps eq_refl) as [Hroot [Hcov [Hsound Hnp]]].
  set (subg := resolved_subgraph view_iter root deps w2) in *.
  assert (Hwfs : wf subg) by now apply wf_resolved_subgraph.
  assert (Hac : acyclic subg).
  { intros v Hv. apply (Hno v).
    apply (path_subgraph_within view_iter Hview (graph w2) (set_add root deps) Hwf2) in Hv.
    apply path_within_incl with (set_add root deps); [|exact Hv].
    intros x Hx. apply set_add_In in Hx as [->|Hx]; [now left | now right]. }
  destruct (order_or_cycles_acyclic cycle_rank cycle_start subg w2 Hwfs Hac)
    as [topo [Ho [Hp Hord]]].
  exists (rev topo).
  assert (Hnd : NoDup topo).
  { apply (Permutation_NoDup (Permutation_sym Hp)). apply Hwfs. }
  assert (Hmem : forall v, In v (rev topo) <-> In v (nodes subg)).
  { intros v. rewrite <- in_rev. split; intros H.
    - now apply (Permutation_in _ Hp).
    - now apply (Permutation_in _ (Permutation_sym Hp)). }
  assert (Hkeep : forall v, In v (rev topo)
                            <-> In v (nodes (graph w2)) /\ (v = root \/ In v deps)).
  { intros v. rewrite Hmem. unfold subg, resolved_subgraph.
    rewrite (In_nodes_subgraph view_iter Hview), set_add_In. tauto. }
  split; [|split; [|split; [|split; [|split]]]].
  - rewrite (resolve_unfold _ _ _ _ _ _ _ _ _ _ _ _ He Hg). exact Ho.
  - now apply NoDup_rev.
  - exact Hkeep.
  - intros a b Ha Hb Hab.
    assert (Hsub : edge subg a b).
    { apply (edge_subgraph view_iter Hview (graph w2) (set_add root deps) Hwf2).
      split; [exact Hab|]. rewrite !set_add_In.
      split; [now apply Hkeep in Ha | now apply Hkeep in Hb]. }
    specialize (Hord a b Hsub). apply in_rev in Ha, Hb.
    pose proof (index_rev a topo Hnd Ha). pose proof (index_rev b topo Hnd Hb). lia.
  - intros v Hv. apply Hkeep. split.
    + destruct Hext as [Hinc _]. apply Hinc. destruct Hv as [<-|Hv]; [exact Hroot|].
      now apply (path_target (graph w1) root v).
    + apply set_add_In. now apply Hcov.
  - intros Hp0 v Hv. specialize (Hnp Hp0). subst w2.
    apply Hkeep in Hv as [_ [->|Hv]]; [now left|].
    right. destruct (Hsound v Hv) as [H|[s [Hs _]]]; [exact H|].
    unfold accepted_optional in Hs. rewrite Hp0 in Hs.
    destruct (collect _ _ _ _ _ _) as [[d0 ota]|e]; [|destruct Hs].
    rewrite andb_false_r in Hs. destruct Hs.
Qed.

Lemma sample_world_wf : wf (graph sample_world).
Proof.
  apply built_cacheable. unfold sample_world. apply built_add, built_add.
  exact built_empty.
Qed.

Lemma sample_world_no_cycle (S : list string) (v : string) :
  ~ path_within (graph sample_world) S v v.
Proof.
  intros H. apply path_within_path in H. revert H.
  apply circuits_nil_acyclic. reflexivity.
Qed.

Lemma resolve_build_order_witness :
  let order := ["C"; "B"; "A"] in
  ensure_root sample_ports (fun l => l) "A" sample_world = (sample_world, Ok true)
  /\ gather sample_ports (fun l => l) false "A" false sample_world
     = (sample_world, Ok ["C"; "B"])
  /\ (forall v, ~ path_within (graph sample_world) ["A"; "C"; "B"] v v)
  /\ resolve sample_ports (fun l => l) (fun l => l) by_first_node by_first_node
       false "A" false sample_world
     = (sample_world, Ok (order, []))
  /\ NoDup order
  /\ (forall a b, In a order -> In b order -> edge (graph sample_world) a b ->
                  index b order < index a order)
  /\ (forall v, reachable (graph sample_world) "A" v -> In v order).
Proof.
  intros order.
  split; [reflexivity|]. split; [reflexivity|]. split; [apply sample_world_no_cycle|].
  destruct (resolve_build_order sample_ports (fun l => l) (fun l => l)
              by_first_node by_first_node false "A" false
              sample_world sample_world sample_world ["C"; "B"]
              (fun l => Permutation_refl l) sample_world_wf eq_refl eq_refl
              (sample_world_no_cycle ["A"; "C"; "B"]))
    as [order' [Hr [Hnd [_ [Hord [Hcov _]]]]]].
  assert (Heq : order' = order).
  { assert (Hc : resolve sample_ports (fun l => l) (fun l => l) by_first_node
                   by_first_node false "A" false sample_world
                 = (sample_world, Ok (order, []))) by reflexivity.
    rewrite Hc in Hr. now inversion Hr. }
  rewrite Heq in Hr, Hnd, Hord, Hcov.
  split; [exact Hr|]. split; [exact Hnd|]. split; [exact Hord | exact Hcov].
Defined.

(* ================================================================== *)
(** ** Cycles *)

Lemma resolve_never_both
  (parse_metafile : string -> option (list (string * json)))
  (set_iter : list json -> list json) (view_iter : list string -> list string)
  (cycle_rank cycle_start : DiGraph -> list string -> nat)
  (resolve_optional : bool) (root : string) (prompt : bool)
  (w wr : world) (order report : list string) :
  resolve parse_metafile set_iter view_iter cycle_rank cycle_start
      resolve_optional root prompt w
  = (wr, Ok (order, report)) ->
  order = [] \/ report = [].
Proof.
  unfold resolve.
  destruct (ensure_root parse_metafile set_iter root w) as [w1 [[|]|e]];
    [| intros [= _ <- <-]; now left | discriminate].
  destruct (gather parse_metafile set_iter resolve_optional root prompt w1)
    as [w2 [deps|e]]; [|discriminate].
  unfold order_or_cycles.
  destruct (simple_cycles _ _ _) as [|c l].
  - destruct (topological_sort _) as [topo|[]]; try discriminate;
      intros [= _ <- <-]; auto.
  - intros [= _ <- <-]. now left.
Qed.

(** C2: when a cycle of the graph runs among the root and its
    dependency set, that is, when the subgraph that [resolve] builds
    over them has a cycle, [resolve] returns an empty build order and a
    report that is not empty: one entry, the names joined by commas,
    for each simple cycle of the graph among the root and its
    dependency set, each cycle listed once, from one of its nodes.  The
    order of the entries and the node from which a cycle is listed are
    those of [nx.simple_cycles].  No call of [resolve] returns a build
    order and a report that are both non-empty. *)
Theorem resolve_cycle_report
  (parse_metafile : string -> option (list (string * json)))
  (set_iter : list json -> list json) (view_iter : list string -> list string)
  (cycle_rank cycle_start : DiGraph -> list string -> nat)
  (resolve_optional : bool) (root : string) (prompt : bool)
  (w w1 w2 : world) (deps : list string) :
  (forall l, Permutation (view_iter l) l) ->
  wf (graph w) ->
  ensure_root parse_metafile set_iter root w = (w1, Ok true) ->
  gather parse_metafile set_iter resolve_optional root prompt w1 = (w2, Ok deps) ->
  (exists v, path_within (graph w2) (root :: deps) v v) ->
  exists cycles,
    resolve parse_metafile set_iter view_iter cycle_rank cycle_start
      resolve_optional root prompt w
    = (logger ERROR "Dependency cycles detected" w2, Ok ([], map (join ",") cycles))
    /\ cycles <> []
    /\ (forall c, In c cycles -> simple_cycle (graph w2) c /\ incl c (root :: deps))
    /\ (forall c, simple_cycle (graph w2) c -> incl c (root :: deps) ->
                  exists c', rotation c c' /\ In c' cycles)
    /\ NoDup cycles
    /\ (forall c1 c2, In c1 cycles -> In c2 cycles -> rotation c1 c2 -> c1 = c2)
    /\ (forall pm si vi rank start ro r p wa wr order report,
          resolve pm si vi rank start ro r p wa = (wr, Ok (order, report)) ->
          order = [] \/ report = []).
Proof.
  intros Hview Hwf He Hg [v Hv].
  pose proof (ensure_root_spec parse_metafile set_iter root w Hwf) as [Hwf1 _].
  rewrite He in Hwf1. cbn [fst] in Hwf1.
  pose proof (gather_spec parse_metafile set_iter resolve_optional root prompt w1 Hwf1)
    as [Hwf2 _].
  rewrite Hg in Hwf2. cbn [fst] in Hwf2.
  set (subg := resolved_subgraph view_iter root deps w2).
  assert (Hwfs : wf subg) by now apply wf_resolved_subgraph.
  assert (Hsub : forall c, simple_cycle subg c
                           <-> simple_cycle (graph w2) c /\ incl c (root :: deps)).
  { intros c. unfold subg, resolved_subgraph.
    rewrite (simple_cycle_subgraph view_iter Hview (graph w2) (set_add root deps) Hwf2).
    split; intros [H1 H2]; (split; [exact H1|]); intros x Hx; apply H2 in Hx.
    - apply set_add_In in Hx as [->|Hx]; [now left | now right].
    - apply set_add_In. destruct Hx as [<-|Hx]; [now left | now right]. }
  assert (Hp : path subg v v).
  { apply (path_subgraph_within view_iter Hview (graph w2) (set_add root deps) Hwf2).
    apply path_within_incl with (root :: deps); [|exact Hv].
    intros x Hx. apply set_add_In. destruct Hx as [<-|Hx]; [now left | now right]. }
  assert (Hne : simple_cycles cycle_rank cycle_start subg <> []).
  { intros Hnil. now apply (simple_cycles_nil_acyclic cycle_rank cycle_start subg Hnil v). }
  exists (simple_cycles cycle_rank cycle_start subg).
  split; [|split; [|split; [|split; [|split; [|split]]]]].
  - rewrite (resolve_unfold _ _ _ _ _ _ _ _ _ _ _ _ He Hg).
    now apply order_or_cycles_cyclic.
  - exact Hne.
  - intros c Hc. apply Hsub. now apply simple_cycles_sound in Hc.
  - intros c Hc Hi. apply simple_cycles_complete. apply Hsub. now split.
  - now apply simple_cycles_once.
  - now apply simple_cycles_once.
  - intros pm si vi rank start ro r p wa wr order report. apply resolve_never_both.
Qed.

(* ================================================================== *)
(** ** A root that cannot be found *)

(** C5: for a root that is neither in the graph nor known to the
    Descriptor Source, [resolve] logs a warning and returns the pair of
    two empty lists; no call in which the root is found returns that
    pair, so the caller can tell the failure from every successful
    resolution (and from a cycle report). *)
Theorem resolve_not_found
  (parse_metafile : string -> option (list (string * json)))
  (set_iter : list json -> list json) (view_iter : list string -> list string)
  (cycle_rank cycle_start : DiGraph -> list string -> nat)
  (resolve_optional : bool) (root : string) (prompt : bool) (w : world) :
  (forall l, Permutation (view_iter l) l) ->
  has_node (graph w) root = false ->
  parse_metafile root = None ->
  resolve parse_metafile set_iter view_iter cycle_rank cycle_start
      resolve_optional root prompt w
  = (logger WARNING ("Package '" ++ root ++ "' not found in graph or ports tree.")%string w,
     Ok ([], []))
  /\ (forall pm ro r p wa w1 wr res,
        wf (graph wa) ->
        ensure_root pm set_iter r wa = (w1, Ok true) ->
        resolve pm set_iter view_iter cycle_rank cycle_start ro r p wa = (wr, Ok res) ->
        res <> ([], [])).
Proof.
  intros Hview Habs Hnone. split.
  - unfold resolve, ensure_root, add_package_from_metafile. now rewrite Habs, Hnone.
  - intros pm ro r p wa w1 wr res Hwf He Hres.
    pose proof (ensure_root_spec pm set_iter r wa Hwf) as [Hwf1 _].
    rewrite He in Hwf1. cbn [fst] in Hwf1.
    pose proof (gather_spec pm set_iter ro r p w1 Hwf1) as [Hwf2 [Hext [_ Hd]]].
    unfold resolve in Hres. rewrite He in Hres.
    destruct (gather pm set_iter ro r p w1) as [w2 [deps|e]]; [|discriminate].
    cbn [fst snd] in Hwf2, Hext, Hd.
    destruct (Hd deps eq_refl) as [Hroot _].
    set (subg := resolved_subgraph view_iter r deps w2) in *.
    assert (Hwfs : wf subg) by now apply wf_resolved_subgraph.
    assert (Hin : In r (nodes subg)).
    { apply In_nodes_subgraph; [exact Hview|]. split.
      - destruct Hext as [Hinc _]. now apply Hinc.
      - apply set_add_In. now left. }
    destruct (order_or_cycles_cases cycle_rank cycle_start
        subg w2 Hwfs) as [[Hac _]|[Hne _]].
    + destruct (order_or_cycles_acyclic cycle_rank cycle_start
        subg w2 Hwfs Hac) as [topo [Ho [Hp _]]].
      rewrite Ho in Hres. inversion Hres; subst. intros [= Hrev].
      apply (Permutation_in _ (Permutation_sym Hp)) in Hin.
      apply in_rev in Hin. rewrite Hrev in Hin. destruct Hin.
    + rewrite (order_or_cycles_cyclic cycle_rank cycle_start subg w2 Hne) in Hres.
      inversion Hres; subst. intros [= Hmap].
      destruct (simple_cycles cycle_rank cycle_start subg); [congruence | discriminate].
Qed.

Lemma resolve_not_found_witness :
  has_node (graph sample_world) "zlib" = false
  /\ sample_ports "zlib" = None
  /\ resolve sample_ports (fun l => l) (fun l => l) by_first_node by_first_node
      false "zlib" true sample_world
     = (logger WARNING "Package 'zlib' not found in graph or ports tree." sample_world,
        Ok ([], [])).
Proof.
  split; [reflexivity|]. split; [reflexivity|].
  refine (proj1 (resolve_not_found sample_ports (fun l => l) (fun l => l) by_first_node by_first_node
      false
                   "zlib" true sample_world _ eq_refl eq_refl)).
  intros l. apply Permutation_refl.
Defined.

Lemma cycle_graph_wf : wf cycle_graph.
Proof. unfold cycle_graph. repeat apply wf_add_edge. apply wf_empty. Qed.

Lemma resolve_cycle_report_witness :
  ensure_root no_ports (fun l => l) "A" (world_of cycle_graph)
  = (world_of cycle_graph, Ok true)
  /\ gather no_ports (fun l => l) false "A" true (world_of cycle_graph)
     = (world_of cycle_graph, Ok ["B"; "C"; "A"])
  /\ path_within cycle_graph ["A"; "B"; "C"; "A"] "A" "A"
  /\ resolve no_ports (fun l => l) (fun l => l) by_first_node from_second false "A" true
       (world_of cycle_graph)
     = (logger ERROR "Dependency cycles detected" (world_of cycle_graph),
        Ok ([], ["B,C,A"]))
  /\ exists c,
       simple_cycle cycle_graph c /\ rotation ["A"; "B"; "C"] c
       /\ join "," c = "B,C,A".
Proof.
  assert (Hp : path_within cycle_graph ["A"; "B"; "C"; "A"] "A" "A").
  { apply within_step with "B";
      [now left | eexists; split; [reflexivity | now left]|].
    apply within_step with "C";
      [right; now left | eexists; split; [reflexivity | now left]|].
    apply within_edge;
      [right; right; now left | now left | eexists; split; [reflexivity | now left]]. }
  assert (Hc : simple_cycle cycle_graph ["A"; "B"; "C"]).
  { split; [|split].
    - repeat constructor; simpl; intuition discriminate.
    - repeat split; eexists; (split; [reflexivity | now left]).
    - eexists; split; [reflexivity | now left]. }
  split; [reflexivity|]. split; [reflexivity|]. split; [exact Hp|].
  destruct (resolve_cycle_report no_ports (fun l => l) (fun l => l)
              by_first_node from_second false "A" true
              (world_of cycle_graph) (world_of cycle_graph) (world_of cycle_graph)
              ["B"; "C"; "A"] (fun l => Permutation_refl l) cycle_graph_wf
              eq_refl eq_refl (ex_intro _ "A" Hp))
    as [cycles [Hr [_ [Hsound [Hcompl _]]]]].
  assert (Hcy : cycles = [["B"; "C"; "A"]]).
  { assert (Hcomp : resolve no_ports (fun l => l) (fun l => l) by_first_node from_second
                      false "A" true (world_of cycle_graph)
                    = (logger ERROR "Dependency cycles detected" (world_of cycle_graph),
                       Ok ([], ["B,C,A"]))) by reflexivity.
    rewrite Hcomp in Hr.
    destruct (Hcompl ["A"; "B"; "C"] Hc) as [c' [Hrot Hin]].
    { intros x Hx. simpl in *. tauto. }
    destruct cycles as [|c0 [|c1 rest]]; [destruct Hin | | discriminate].
    destruct Hin as [->|[]]. f_equal.
    destruct Hrot as [l1 [l2 [H1 H2]]].
    destruct l1 as [|a [|b [|c [|d l1]]]]; cbn [app] in H1;
      inversion H1; subst; cbn [app] in *;
      try rewrite app_nil_r in *; cbn [map join] in Hr; try discriminate;
      reflexivity. }
  subst cycles. split; [exact Hr|].
  exists ["B"; "C"; "A"]. split; [apply Hsound; now left|].
  split; [now exists ["A"], ["B"; "C"] | reflexivity].
Defined.

(* ================================================================== *)
(** ** Optional candidates *)

Lemma accepted_one (c : string) (evs : list input_event) (s : string) :
  In s (accepted [JStr c] evs) -> s = c.
Proof.
  destruct evs as [|ev later]; [intros []|]. simpl.
  destruct (says_yes ev); simpl; [|intros []]. intros [H|[]]. now symmetry.
Qed.

(** C9, as amended: a yes to a candidate [c] merges into the dependency
    set only nodes that [c] reaches through at least one edge, so [c]
    itself only when it lies on a cycle; a node is in the returned
    build order only if the root reaches it or a candidate that was
    accepted reaches it through at least one edge. *)
Theorem resolve_optional_merge
  (parse_metafile : string -> option (list (string * json)))
  (set_iter : list json -> list json) (view_iter : list string -> list string)
  (cycle_rank cycle_start : DiGraph -> list string -> nat)
  (resolve_optional : bool) (root : string) (prompt : bool)
  (w w1 w2 wr : world) (deps order report : list string) :
  (forall l, Permutation (view_iter l) l) ->
  wf (graph w) ->
  ensure_root parse_metafile set_iter root w = (w1, Ok true) ->
  gather parse_metafile set_iter resolve_optional root prompt w1 = (w2, Ok deps) ->
  resolve parse_metafile set_iter view_iter cycle_rank cycle_start
      resolve_optional root prompt w
  = (wr, Ok (order, report)) ->
  (forall v, In v order ->
             reachable (graph w2) root v
             \/ exists s, In s (accepted_optional resolve_optional root prompt w1)
                          /\ path (graph w2) s v)
  /\ (forall c ds ds' wa wa',
        wf (graph wa) ->
        ask parse_metafile set_iter (JStr c) ds wa = (wa', Ok ds') ->
        forall v, In v ds' -> In v ds \/ path (graph wa') c v).
Proof.
  intros Hview Hwf He Hg Hres. split.
  - pose proof (ensure_root_spec parse_metafile set_iter root w Hwf) as [Hwf1 _].
    rewrite He in Hwf1. cbn [fst] in Hwf1.
    pose proof (gather_spec parse_metafile set_iter resolve_optional root prompt w1 Hwf1)
      as [Hwf2 [_ [_ Hd]]].
    rewrite Hg in Hwf2, Hd. cbn [fst snd] in Hwf2, Hd.
    destruct (Hd deps eq_refl) as [_ [_ [Hsound _]]].
    rewrite (resolve_unfold _ _ _ _ _ _ _ _ _ _ _ _ He Hg) in Hres.
    set (subg := resolved_subgraph view_iter root deps w2) in *.
    assert (Hwfs : wf subg) by now apply wf_resolved_subgraph.
    destruct (order_or_cycles_cases cycle_rank cycle_start
        subg w2 Hwfs) as [[Hac _]|[Hne _]].
    + destruct (order_or_cycles_acyclic cycle_rank cycle_start
        subg w2 Hwfs Hac) as [topo [Ho [Hp _]]].
      rewrite Ho in Hres. inversion Hres; subst. intros v Hv.
      apply in_rev in Hv. apply (Permutation_in _ Hp) in Hv.
      apply (In_nodes_subgraph view_iter Hview) in Hv as [_ Hv].
      apply set_add_In in Hv as [->|Hv]; [left; now left|].
      destruct (Hsound v Hv) as [H|H]; [left; now right | now right].
    + rewrite (order_or_cycles_cyclic cycle_rank cycle_start subg w2 Hne) in Hres.
      inversion Hres; subst. intros v [].
  - intros c ds ds' wa wa' Hwa Hask v Hv.
    pose proof (ask_spec parse_metafile set_iter (JStr c) ds wa Hwa) as [_ [_ [_ H]]].
    rewrite Hask in H. cbn [fst snd] in H.
    destruct (H ds' eq_refl) as [_ [_ [_ Hacc]]].
    destruct (Hacc v Hv) as [Hd|[s [Hs Hp]]]; [now left|].
    right. apply accepted_one in Hs. now subst s.
Qed.

Lemma optional_graph_wf : wf optional_graph.
Proof. unfold optional_graph. apply wf_add_node, wf_add_edge, wf_empty. Qed.

Lemma resolve_optional_merge_witness :
  ensure_root no_ports (fun l => l) "R" optional_world = (optional_world, Ok true)
  /\ gather no_ports (fun l => l) true "R" true optional_world
     = (set_stdin [] optional_world, Ok ["c"])
  /\ resolve no_ports (fun l => l) (fun l => l) by_first_node by_first_node
      true "R" true optional_world
     = (set_stdin [] optional_world, Ok (["R"; "c"], []))
  /\ forall v, In v ["R"; "c"] ->
               reachable optional_graph "R" v
               \/ exists s, In s ["c2"; "c"] /\ path optional_graph s v.
Proof.
  split; [reflexivity|]. split; [reflexivity|]. split; [reflexivity|].
  exact (proj1 (resolve_optional_merge no_ports (fun l => l) (fun l => l) by_first_node by_first_node
      true "R" true
                  optional_world optional_world (set_stdin [] optional_world)
                  (set_stdin [] optional_world) ["c"] ["R"; "c"] []
                  (fun l => Permutation_refl l) optional_graph_wf
                  eq_refl eq_refl eq_refl)).
Defined.

(** C9 as stated fails: with a yes to [c2] and a yes to [c], where [c2]
    depends on [c], the candidate [c] is in the build order though the
    root does not reach it: it came in as a dependency of [c2]. *)
Lemma accepted_candidate_in_order :
  let out := resolve no_ports (fun l => l) (fun l => l) by_first_node by_first_node
      true "R" true optional_world in
  snd out = Ok (["R"; "c"], [])
  /\ In "c" (accepted_optional true "R" true optional_world)
  /\ In "c" ["R"; "c"]
  /\ ~ reachable (graph (fst out)) "R" "c".
Proof.
  split; [reflexivity|]. split; [right; now left|]. split; [right; now left|].
  intros [H|H]; [discriminate|].
  assert (Hno : forall x, ~ edge (graph (fst (resolve no_ports (fun l => l) (fun l => l) by_first_node by_first_node
                                               true "R" true optional_world))) "R" x).
  { intros x [d [Hl Hx]]. vm_compute in Hl. inversion Hl; subst d. destruct Hx. }
  inversion H as [u v He|u v t He Hp]; subst; now apply Hno in He.
Qed.

(* ================================================================== *)
(** ** The loops end *)

(** [resolve] on a well-formed graph never runs out of fuel *)
Lemma resolve_ends
  (parse_metafile : string -> option (list (string * json)))
  (set_iter : list json -> list json) (view_iter : list string -> list string)
  (cycle_rank cycle_start : DiGraph -> list string -> nat)
  (resolve_optional : bool) (root : string) (prompt : bool) (w : world) :
  (forall l, Permutation (view_iter l) l) ->
  wf (graph w) ->
  snd (resolve parse_metafile set_iter view_iter cycle_rank cycle_start
      resolve_optional root prompt w)
  <> Raise OutOfFuel.
Proof.
  intros Hview Hwf. unfold resolve.
  pose proof (ensure_root_spec parse_metafile set_iter root w Hwf) as [Hwf1 [_ [_ Hf1]]].
  destruct (ensure_root parse_metafile set_iter root w) as [w1 [[|]|e]];
    cbn [fst snd] in *; [| discriminate | intros H; inversion H; subst; now apply Hf1].
  pose proof (gather_spec parse_metafile set_iter resolve_optional root prompt w1 Hwf1)
    as [Hwf2 [_ [Hf2 _]]].
  destruct (gather parse_metafile set_iter resolve_optional root prompt w1)
    as [w2 [deps|e]]; cbn [fst snd] in *;
    [| intros H; inversion H; subst; now apply Hf2].
  assert (Hwfs : wf (resolved_subgraph view_iter root deps w2))
    by now apply wf_resolved_subgraph.
  unfold order_or_cycles.
  destruct (simple_cycles _ _ _); [|discriminate].
  pose proof (topological_sort_correct _ Hwfs) as Ht.
  destruct (topological_sort _) as [topo|e]; [discriminate|].
  destruct Ht as [Ht _]. subst e. discriminate.
Qed.

Lemma expand_spec (G : DiGraph) (frontier : list string) :
  wf G ->
  forall seen, NoDup seen -> incl seen (nodes G) ->
               NoDup (seen ++ expand G frontier seen)
               /\ incl (seen ++ expand G frontier seen) (nodes G).
Proof.
  intros Hwf. induction frontier as [|u rest IH]; intros seen Hnd Hinc.
  - simpl. now rewrite app_nil_r.
  - cbn [expand].
    set (fresh := filter (fun v => negb (mem v seen)) (succ_of G u)).
    assert (Hsucc : NoDup (succ_of G u) /\ incl (succ_of G u) (nodes G)).
    { unfold succ_of. destruct (lookup u G) as [d|] eqn:E.
      - destruct (wf_lookup G u d Hwf E). now split.
      - split; [constructor | intros x []]. }
    destruct Hsucc as [Hs1 Hs2].
    assert (Hnd' : NoDup (seen ++ fresh)).
    { apply NoDup_app; auto.
      - now apply NoDup_filter.
      - intros x Hx Hf. apply filter_In in Hf as [_ Hf].
        apply negb_true_iff, mem_false in Hf. contradiction. }
    assert (Hinc' : incl (seen ++ fresh) (nodes G)).
    { intros x Hx. apply in_app_iff in Hx as [Hx|Hx]; [now apply Hinc|].
      apply filter_In in Hx as [Hx _]. now apply Hs2. }
    destruct (IH (seen ++ fresh) Hnd' Hinc') as [H1 H2].
    rewrite <- app_assoc in H1, H2. now split.
Qed.

Lemma bfs_ends (G : DiGraph) (target : string) (fuel : nat) :
  wf G ->
  forall frontier seen dist,
    NoDup seen -> incl seen (nodes G) ->
    length G < fuel + length seen ->
    bfs fuel G frontier seen target dist <> Raise OutOfFuel.
Proof.
  intros Hwf. induction fuel as [|fuel IH]; intros frontier seen dist Hnd Hinc Hf.
  - exfalso. pose proof (NoDup_incl_length Hnd Hinc) as Hl.
    unfold nodes in Hl. rewrite length_map in Hl. simpl in Hf. lia.
  - cbn [bfs]. destruct (mem target frontier); [discriminate|].
    destruct (expand_spec G frontier Hwf seen Hnd Hinc) as [H1 H2].
    destruct (expand G frontier seen) as [|x next] eqn:E; [discriminate|].
    apply IH; auto. rewrite length_app. simpl. simpl in Hf. lia.
Qed.

Lemma bfs_raise (G : DiGraph) (target : string) (fuel : nat) :
  forall frontier seen dist e,
    bfs fuel G frontier seen target dist = Raise e ->
    e = NetworkXNoPath \/ e = OutOfFuel.
Proof.
  induction fuel as [|fuel IH]; intros frontier seen dist e; cbn [bfs];
    destruct (mem target frontier); try discriminate.
  - intros [= <-]. now right.
  - destruct (expand G frontier seen) as [|x next]; [intros [= <-]; now left|].
    apply IH.
Qed.

Lemma has_path_total (G : DiGraph) (n pkg : string) :
  wf G -> In n (nodes G) -> In pkg (nodes G) ->
  exists b, has_path G n pkg = Ok b.
Proof.
  intros Hwf Hn Hp. unfold has_path, shortest_path_length.
  apply has_node_In in Hn, Hp. rewrite Hn, Hp. cbn [negb orb].
  apply has_node_In in Hn.
  pose proof (bfs_ends G pkg (length G) Hwf [n] [n] 0) as Hends.
  destruct (bfs (length G) G [n] [n] pkg 0) as [d|e] eqn:E; [now exists true|].
  destruct (bfs_raise G pkg _ _ _ _ _ E) as [He|He]; subst e; [now exists false|].
  exfalso. apply Hends; auto.
  - constructor; [intros [] | constructor].
  - intros x [<-|[]]. exact Hn.
  - simpl. lia.
Qed.

Lemma with_path_total (G : DiGraph) (pkg : string) (ns : list string) :
  wf G -> In pkg (nodes G) -> incl ns (nodes G) ->
  exists out, with_path G ns pkg = Ok out.
Proof.
  intros Hwf Hp. induction ns as [|n ns IH]; intros Hi; [now exists []|].
  destruct (has_path_total G n pkg Hwf (Hi n (or_introl eq_refl)) Hp) as [b Hb].
  destruct IH as [out Hout]; [intros x Hx; apply Hi; now right|].
  cbn [with_path]. rewrite Hb. cbn [bind]. rewrite Hout. cbn [bind]. eauto.
Qed.

(** [mark_for_rebuild] on a well-formed graph returns a list when
    [db_revdeps] does, and raises what [db_revdeps] raises *)
Lemma mark_for_rebuild_total
  (db_revdeps : string -> result (list string)) (set_iter : list json -> list json)
  (pkg : string) (w : world) :
  wf (graph w) ->
  match db_revdeps pkg with
  | Ok _ => exists out, mark_for_rebuild db_revdeps set_iter pkg w = Ok out
  | Raise e => mark_for_rebuild db_revdeps set_iter pkg w = Raise e
  end.
Proof.
  intros Hwf. unfold mark_for_rebuild.
  destruct (db_revdeps pkg) as [lines|e0]; cbn [bind]; [|reflexivity].
  destruct (has_node (graph w) pkg) eqn:E; [|cbn [bind]; eauto].
  apply has_node_In in E.
  destruct (with_path_total (graph w) pkg (nodes (graph w)) Hwf E (incl_refl _))
    as [out ->].
  cbn [bind]. eauto.
Qed.
(* ================================================================== *)
(** ** Resolving without prompts *)

Lemma path_last (G : DiGraph) (u v : string) :
  path G u v -> exists t, reachable G u t /\ edge G t v.
Proof.
  induction 1 as [a b He|a b t He Hp [x [Hr Hx]]].
  - exists a. split; [now left | exact He].
  - exists x. split; [|exact Hx]. right.
    destruct Hr as [<-|Hr]; [now apply path_edge | now apply path_step with b].
Qed.

Lemma reachable_step (G : DiGraph) (u v t : string) :
  reachable G u v -> edge G v t -> reachable G u t.
Proof.
  intros [<-|Hp] He; right; [now apply path_edge | now apply path_snoc with v].
Qed.

Lemma reachable_path (G : DiGraph) (u v t : string) :
  reachable G u v -> path G v t -> reachable G u t.
Proof.
  intros [<-|Hp] Ht; right; [exact Ht | now apply path_trans with v].
Qed.

Lemma step_reachable (G : DiGraph) (u v t : string) :
  edge G u v -> reachable G v t -> reachable G u t.
Proof.
  intros He [<-|Hp]; right; [now apply path_edge | now apply path_step with v].
Qed.

Section Plain.

Variable parse_metafile : string -> option (list (string * json)).
Variable set_iter : list json -> list json.
Variable view_iter : list string -> list string.
Variable cycle_rank : DiGraph -> list string -> nat.
Variable cycle_start : DiGraph -> list string -> nat.
Hypothesis view_iter_perm : forall l, Permutation (view_iter l) l.

Lemma gather_plain (ro : bool) (root : string) (w : world) :
  wf (graph w) -> In root (nodes (graph w)) ->
  exists deps,
    gather parse_metafile set_iter ro root false w = (w, Ok deps)
    /\ forall v, In v (set_add root deps) <-> reachable (graph w) root v.
Proof.
  intros Hwf Hr.
  destruct (collect_root (graph w) root Hwf Hr) as [deps [ota [Hc [Hs Hcov]]]].
  exists deps. split.
  - unfold gather. rewrite Hc, andb_false_r. reflexivity.
  - intros v. split; [|apply Hcov].
    intros H. apply set_add_In in H as [->|H]; [now left | right; now apply Hs].
Qed.

Lemma path_into_subgraph (G : DiGraph) (keep : list string) (u v : string) :
  wf G -> (forall x, reachable G u x -> In x keep) ->
  path G u v -> path (subgraph view_iter G keep) u v.
Proof.
  intros Hwf Hk Hp. induction Hp as [a b He|a b t He Hp IH].
  - apply path_edge. apply edge_subgraph; auto.
    split; [exact He|]. split; apply Hk; [now left | right; now apply path_edge].
  - apply path_step with b.
    + apply edge_subgraph; auto.
      split; [exact He|]. split; apply Hk; [now left | right; now apply path_edge].
    + apply IH. intros x Hx. apply Hk. now apply step_reachable with b.
Qed.

Lemma ensure_root_wf (root : string) (w w1 : world) (b : bool) :
  wf (graph w) -> ensure_root parse_metafile set_iter root w = (w1, Ok b) ->
  wf (graph w1).
Proof.
  intros Hwf He.
  pose proof (ensure_root_spec parse_metafile set_iter root w Hwf) as [H _].
  now rewrite He in H.
Qed.

(** without prompts [resolve] orders, or reports the cycles of, the
    part of the graph that the root reaches *)
Lemma resolve_plain (ro : bool) (root : string) (w w1 : world) :
  wf (graph w) ->
  ensure_root parse_metafile set_iter root w = (w1, Ok true) ->
  In root (nodes (graph w1)) ->
  exists deps,
    resolve parse_metafile set_iter view_iter cycle_rank cycle_start ro root false w
    = order_or_cycles cycle_rank cycle_start (resolved_subgraph view_iter root deps w1) w1
    /\ forall v, In v (set_add root deps) <-> reachable (graph w1) root v.
Proof.
  intros Hwf He Hr.
  pose proof (ensure_root_wf root w w1 true Hwf He) as Hwf1.
  destruct (gather_plain ro root w1 Hwf1 Hr) as [deps [Hg Hm]].
  exists deps. split; [|exact Hm].
  now apply resolve_unfold with w1.
Qed.

Lemma resolve_plain_acyclic (ro : bool) (root : string) (w w1 : world) :
  wf (graph w) ->
  ensure_root parse_metafile set_iter root w = (w1, Ok true) ->
  In root (nodes (graph w1)) ->
  (forall v, reachable (graph w1) root v -> ~ path (graph w1) v v) ->
  exists rest,
    resolve parse_metafile set_iter view_iter cycle_rank cycle_start ro root false w
    = (w1, Ok (rest ++ [root], []))
    /\ NoDup (rest ++ [root])
    /\ (forall v, In v rest <-> path (graph w1) root v)
    /\ (forall a b, reachable (graph w1) root a -> edge (graph w1) a b ->
                    index b (rest ++ [root]) < index a (rest ++ [root])).
Proof.
  intros Hwf He Hr Hacy.
  pose proof (ensure_root_wf root w w1 true Hwf He) as Hwf1.
  destruct (resolve_plain ro root w w1 Hwf He Hr) as [deps [Hres Hmem]].
  set (subg := resolved_subgraph view_iter root deps w1) in *.
  assert (Hwfs : wf subg) by now apply wf_resolved_subgraph.
  assert (Hnodes : forall v, In v (nodes subg) <-> reachable (graph w1) root v).
  { intros v. unfold subg, resolved_subgraph.
    rewrite (In_nodes_subgraph view_iter view_iter_perm), Hmem. split; [tauto|].
    intros H. split; [|exact H].
    destruct H as [<-|H]; [exact Hr | now apply path_target with root]. }
  assert (Hedge : forall a b, reachable (graph w1) root a -> edge (graph w1) a b ->
                              edge subg a b).
  { intros a b Ha Hab. apply edge_subgraph; auto.
    split; [exact Hab|]. split; apply Hmem; [exact Ha|].
    now apply reachable_step with a. }
  assert (Hac : acyclic subg).
  { intros v Hp. apply (Hacy v).
    - apply Hnodes. now apply path_source in Hp.
    - now apply path_subgraph in Hp. }
  destruct (order_or_cycles_acyclic cycle_rank cycle_start
      subg w1 Hwfs Hac) as [topo [Ho [Hp Hord]]].
  assert (Hnd : NoDup topo).
  { apply (Permutation_NoDup (Permutation_sym Hp)). apply Hwfs. }
  assert (Htopo : forall v, In v topo <-> reachable (graph w1) root v).
  { intros v. rewrite <- Hnodes. split; intros H.
    - now apply (Permutation_in _ Hp).
    - now apply (Permutation_in _ (Permutation_sym Hp)). }
  destruct topo as [|x t].
  { exfalso. apply (proj2 (Htopo root)). now left. }
  assert (Hx : x = root).
  { destruct (string_dec x root) as [Heq|Hne]; [exact Heq|]. exfalso.
    destruct (proj1 (Htopo x) (or_introl eq_refl)) as [Heq|Hpx]; [congruence|].
    destruct (path_last _ _ _ Hpx) as [u [Hu Hux]].
    specialize (Hord u x (Hedge u x Hu Hux)).
    simpl in Hord. rewrite String.eqb_refl in Hord. lia. }
  subst x. exists (rev t).
  change (rev t ++ [root]) with (rev (root :: t)).
  split; [now rewrite Hres, Ho|]. split; [now apply NoDup_rev|].
  inversion Hnd as [|? ? Hroot Hnt]; subst. split.
  - intros v. rewrite <- in_rev. split.
    + intros Hv. destruct (proj1 (Htopo v) (or_intror Hv)) as [<-|H]; [contradiction | exact H].
    + intros Hv. destruct (proj2 (Htopo v) (or_intror Hv)) as [<-|H]; [|exact H].
      exfalso. apply (Hacy root); [now left | exact Hv].
  - intros a b Ha Hab. specialize (Hord a b (Hedge a b Ha Hab)).
    assert (Hia : In a (root :: t)) by now apply Htopo.
    assert (Hib : In b (root :: t)).
    { apply Htopo. now apply reachable_step with a. }
    pose proof (index_rev a (root :: t) Hnd Hia).
    pose proof (index_rev b (root :: t) Hnd Hib). lia.
Qed.

Lemma resolve_plain_cyclic (ro : bool) (root : string) (w w1 : world) :
  wf (graph w) ->
  ensure_root parse_metafile set_iter root w = (w1, Ok true) ->
  In root (nodes (graph w1)) ->
  (exists v, reachable (graph w1) root v /\ path (graph w1) v v) ->
  exists c cs,
    resolve parse_metafile set_iter view_iter cycle_rank cycle_start ro root false w
    = (logger ERROR "Dependency cycles detected" w1, Ok ([], c :: cs)).
Proof.
  intros Hwf He Hr [v [Hv Hvv]].
  pose proof (ensure_root_wf root w w1 true Hwf He) as Hwf1.
  destruct (resolve_plain ro root w w1 Hwf He Hr) as [deps [Hres Hmem]].
  set (subg := resolved_subgraph view_iter root deps w1) in *.
  assert (Hp : path subg v v).
  { apply path_into_subgraph; auto. intros x Hx. apply Hmem.
    destruct Hx as [<-|Hx]; [exact Hv | now apply reachable_path with v]. }
  assert (Hne : simple_cycles cycle_rank cycle_start subg <> []).
  { intros Hnil. now apply (simple_cycles_nil_acyclic cycle_rank cycle_start subg Hnil v). }
  rewrite Hres, (order_or_cycles_cyclic cycle_rank cycle_start subg w1 Hne).
  destruct (simple_cycles cycle_rank cycle_start subg) as [|c cs]; [congruence|].
  exists (join "," c), (map (join ",") cs). reflexivity.
Qed.

End Plain.

(* ================================================================== *)
(** ** What is missing, and the order of installation *)

Section Installed.

Variable db_query : string -> db_query_reply.

Lemma call_db_query_graph (pkg : string) (w : world) :
  graph (fst (call_db_query db_query pkg w)) = graph w.
Proof.
  unfold call_db_query.
  destruct (db_query pkg) as [|e| | |[|s|[|x l]|o|js]]; reflexivity.
Qed.

Lemma call_db_query_raises (pkg : string) (w : world) (e : exn) :
  db_query pkg = QueryRaises e -> call_db_query db_query pkg w = (w, Raise e).
Proof. intros H. unfold call_db_query. now rewrite H. Qed.

Lemma counts_installed_raises (pkg : string) (e : exn) :
  db_query pkg = QueryRaises e -> counts_installed db_query pkg = false.
Proof. intros H. unfold counts_installed, call_db_query. now rewrite H. Qed.

(** what a query gives: the exception that [subprocess.run] lets
    through, or a record that does not depend on the resolver *)
Lemma call_db_query_outcome (pkg : string) (w : world) :
  match snd (call_db_query db_query pkg w) with
  | Ok record =>
      is_installed record = counts_installed db_query pkg
      /\ query_returns db_query pkg
  | Raise e => db_query pkg = QueryRaises e
  end.
Proof.
  unfold counts_installed, query_returns, call_db_query.
  destruct (db_query pkg) as [|e| | |[|s|[|x l]|o|js]]; cbn [snd];
    try reflexivity; split; try reflexivity; intros e'; discriminate.
Qed.

Lemma call_db_query_returns (pkg : string) (w : world) :
  query_returns db_query pkg ->
  exists record,
    snd (call_db_query db_query pkg w) = Ok record
    /\ is_installed record = counts_installed db_query pkg.
Proof.
  intros Hret. pose proof (call_db_query_outcome pkg w) as H.
  destruct (snd (call_db_query db_query pkg w)) as [record|e].
  - exists record. split; [reflexivity | apply H].
  - now destruct (Hret e).
Qed.

(** the loop of [missing_deps] leaves the graph alone; it returns the
    packages of the order, the root apart, that the database does not
    count as installed, unless a query raises: then it raises what the
    first such query raises *)
Lemma missing_of_outcome (root : string) (order : list string) :
  forall w,
    graph (fst (missing_of db_query root order w)) = graph w
    /\ match snd (missing_of db_query root order w) with
       | Ok missing =>
           missing
           = filter (fun p => negb (String.eqb p root)
                              && negb (counts_installed db_query p)) order
           /\ forall p, In p order -> p <> root -> query_returns db_query p
       | Raise e => exists p, In p order /\ p <> root /\ db_query p = QueryRaises e
       end.
Proof.
  induction order as [|p rest IH]; intros w.
  - split; [reflexivity|]. split; [reflexivity|]. intros p [].
  - cbn [missing_of filter]. destruct (String.eqb p root) eqn:Epr; cbn [negb andb].
    + apply String.eqb_eq in Epr. destruct (IH w) as [Hg Hr]. split; [exact Hg|].
      destruct (snd (missing_of db_query root rest w)) as [missing|e].
      * destruct Hr as [Hm Hq]. split; [exact Hm|].
        intros q [<-|Hq'] Hne; [contradiction | now apply Hq].
      * destruct Hr as [q [Hq1 [Hq2 Hq3]]]. exists q. split; [now right | now split].
    + apply String.eqb_neq in Epr.
      pose proof (call_db_query_outcome p w) as Hrec.
      pose proof (call_db_query_graph p w) as Hg.
      destruct (call_db_query db_query p w) as [w1 [inst|e]]; cbn [fst snd] in Hrec, Hg.
      * destruct (IH w1) as [Hg1 Hr].
        destruct (missing_of db_query root rest w1) as [w2 [missing|e]];
          cbn [fst snd] in *.
        -- split; [congruence|]. destruct Hr as [Hm Hq]. destruct Hrec as [Hi Hret].
           split.
           ++ rewrite <- Hi, <- Hm. now destruct (is_installed inst).
           ++ intros q [<-|Hq'] Hne; [exact Hret | now apply Hq].
        -- split; [congruence|]. destruct Hr as [q [Hq1 [Hq2 Hq3]]].
           exists q. split; [now right | now split].
      * split; [exact Hg|]. exists p. split; [now left | now split].
Qed.




Lemma install_of_all (root : string) (order : list string) :
  forall w, install_of db_query root false order w
            = (w, Ok (filter (fun p => negb (String.eqb p root)) order)).
Proof.
  induction order as [|p rest IH]; intros w; [reflexivity|].
  cbn [install_of filter]. destruct (String.eqb p root); cbn [negb]; [apply IH|].
  now rewrite IH.
Qed.

End Installed.

Lemma filter_all {A : Type} (f : A -> bool) (l : list A) :
  (forall x, In x l -> f x = true) -> filter f l = l.
Proof.
  induction l as [|x l IH]; intros H; [reflexivity|]. simpl.
  rewrite (H x (or_introl eq_refl)), IH; [reflexivity|].
  intros y Hy. apply H. now right.
Qed.

Lemma filter_none {A : Type} (f : A -> bool) (l : list A) :
  (forall x, In x l -> f x = false) -> filter f l = [].
Proof.
  induction l as [|x l IH]; intros H; [reflexivity|]. simpl.
  rewrite (H x (or_introl eq_refl)). apply IH. intros y Hy. apply H. now right.
Qed.

(** the build order without its last element, the root *)
Lemma filter_not_root (root : string) (rest : list string) :
  NoDup (rest ++ [root]) ->
  filter (fun p => negb (String.eqb p root)) (rest ++ [root]) = rest.
Proof.
  intros Hnd. rewrite filter_app. simpl. rewrite String.eqb_refl. simpl.
  rewrite app_nil_r. apply filter_all. intros x Hx.
  apply negb_true_iff, String.eqb_neq. intros ->.
  apply NoDup_remove_2 in Hnd. rewrite app_nil_r in Hnd. contradiction.
Qed.


Lemma filter_without_root (g : string -> bool) (root : string) (rest : list string) :
  NoDup (rest ++ [root]) ->
  filter (fun p => negb (String.eqb p root) && g p) (rest ++ [root]) = filter g rest.
Proof.
  intros Hnd. rewrite filter_app. simpl. rewrite String.eqb_refl. simpl.
  rewrite app_nil_r. apply filter_ext_in. intros x Hx.
  assert (Hne : x <> root).
  { intros ->. apply NoDup_remove_2 in Hnd. rewrite app_nil_r in Hnd. contradiction. }
  apply String.eqb_neq in Hne. now rewrite Hne.
Qed.


Lemma sample_world_acyclic (v : string) : ~ path (graph sample_world) v v.
Proof. apply circuits_nil_acyclic. reflexivity. Qed.



(** X2: when something that the root reaches lies on a cycle,
    [missing_deps] logs an error and returns the empty list, the answer
    it also gives when nothing is missing, and [install_order] raises
    [RuntimeError]. *)
Theorem callers_on_cycle
  (parse_metafile : string -> option (list (string * json)))
  (set_iter : list json -> list json) (view_iter : list string -> list string)
  (cycle_rank cycle_start : DiGraph -> list string -> nat)
  (db_query : string -> db_query_reply) (resolve_optional skip_installed : bool)
  (root : string) (w w1 : world) :
  (forall l, Permutation (view_iter l) l) ->
  wf (graph w) ->
  ensure_root parse_metafile set_iter root w = (w1, Ok true) ->
  In root (nodes (graph w1)) ->
  (exists v, reachable (graph w1) root v /\ path (graph w1) v v) ->
  missing_deps parse_metafile set_iter view_iter cycle_rank cycle_start
      db_query resolve_optional root w
  = (logger ERROR "Cannot compute missing deps due to cycles."
       (logger ERROR "Dependency cycles detected" w1),
     Ok [])
  /\ install_order parse_metafile set_iter view_iter cycle_rank cycle_start
      db_query resolve_optional
       root skip_installed w
     = (logger ERROR "Dependency cycles detected" w1, Raise RuntimeError).
Proof.
  intros Hview Hwf He Hr Hcyc.
  destruct (resolve_plain_cyclic parse_metafile set_iter view_iter cycle_rank cycle_start
      Hview
              resolve_optional root w w1 Hwf He Hr Hcyc) as [c [cs Hres]].
  unfold missing_deps, install_order. now rewrite Hres.
Qed.

Lemma callers_on_cycle_witness :
  ensure_root no_ports (fun l => l) "A" (world_of cycle_graph)
  = (world_of cycle_graph, Ok true)
  /\ In "A" (nodes cycle_graph)
  /\ path cycle_graph "B" "B"
  /\ snd (missing_deps no_ports (fun l => l) (fun l => l) by_first_node by_first_node
      sample_db false "A"
            (world_of cycle_graph)) = Ok []
  /\ snd (install_order no_ports (fun l => l) (fun l => l) by_first_node by_first_node
      sample_db false "A" true
            (world_of cycle_graph)) = Raise RuntimeError.
Proof.
  assert (Hp : path cycle_graph "B" "B").
  { apply path_step with "C"; [eexists; split; [reflexivity | now left]|].
    apply path_step with "A"; [eexists; split; [reflexivity | now left]|].
    apply path_edge. eexists; split; [reflexivity | now left]. }
  assert (Hr : reachable cycle_graph "A" "B").
  { right. apply path_edge. eexists; split; [reflexivity | now left]. }
  split; [reflexivity|]. split; [now left|]. split; [exact Hp|].
  destruct (callers_on_cycle no_ports (fun l => l) (fun l => l) by_first_node by_first_node
      sample_db false true "A"
              (world_of cycle_graph) (world_of cycle_graph)
              (fun l => Permutation_refl l) cycle_graph_wf eq_refl (or_introl eq_refl)
              (ex_intro _ "B" (conj Hr Hp))) as [H1 H2].
  split; [now rewrite H1 | now rewrite H2].
Defined.

(** X3: when nothing that the root reaches lies on a cycle,
    [install_order] without [skip_installed] returns the build order of
    [resolve] as it is: the root comes last, before it come exactly the
    packages that the root reaches, a dependency before the packages
    that depend on it. *)
Theorem install_order_build_order
  (parse_metafile : string -> option (list (string * json)))
  (set_iter : list json -> list json) (view_iter : list string -> list string)
  (cycle_rank cycle_start : DiGraph -> list string -> nat)
  (db_query : string -> db_query_reply) (resolve_optional : bool)
  (root : string) (w w1 : world) :
  (forall l, Permutation (view_iter l) l) ->
  wf (graph w) ->
  ensure_root parse_metafile set_iter root w = (w1, Ok true) ->
  In root (nodes (graph w1)) ->
  (forall v, reachable (graph w1) root v -> ~ path (graph w1) v v) ->
  exists rest,
    resolve parse_metafile set_iter view_iter cycle_rank cycle_start
        resolve_optional root false w
    = (w1, Ok (rest ++ [root], []))
    /\ install_order parse_metafile set_iter view_iter cycle_rank cycle_start
        db_query resolve_optional
         root false w
       = (w1, Ok (rest ++ [root]))
    /\ ~ In root rest
    /\ (forall v, In v rest <-> path (graph w1) root v)
    /\ (forall a b, reachable (graph w1) root a -> edge (graph w1) a b ->
                    index b (rest ++ [root]) < index a (rest ++ [root])).
Proof.
  intros Hview Hwf He Hr Hacy.
  destruct (resolve_plain_acyclic parse_metafile set_iter view_iter cycle_rank cycle_start
      Hview
              resolve_optional root w w1 Hwf He Hr Hacy)
    as [rest [Hres [Hnd [Hmem Hord]]]].
  exists rest. split; [exact Hres|]. split; [|split; [|split; [exact Hmem | exact Hord]]].
  - unfold install_order. rewrite Hres, install_of_all.
    now rewrite (filter_not_root root rest Hnd).
  - intros H. apply NoDup_remove_2 in Hnd. rewrite app_nil_r in Hnd. contradiction.
Qed.

Lemma install_order_build_order_witness :
  ensure_root sample_ports (fun l => l) "A" sample_world = (sample_world, Ok true)
  /\ In "A" (nodes (graph sample_world))
  /\ exists rest,
       resolve sample_ports (fun l => l) (fun l => l) by_first_node by_first_node
           false "A" false sample_world
       = (sample_world, Ok (rest ++ ["A"], []))
       /\ install_order sample_ports (fun l => l) (fun l => l) by_first_node by_first_node
           sample_db false "A" false
            sample_world
          = (sample_world, Ok (rest ++ ["A"])).
Proof.
  split; [reflexivity|]. split; [apply has_node_In; vm_compute; reflexivity|].
  destruct (install_order_build_order sample_ports (fun l => l) (fun l => l) by_first_node by_first_node
      sample_db
              false "A" sample_world sample_world (fun l => Permutation_refl l)
              sample_world_wf eq_refl (or_introl eq_refl)
              (fun v _ => sample_world_acyclic v))
    as [rest [H1 [H2 _]]].
  exists rest. split; [exact H1 | exact H2].
Defined.





(** X6: when the descriptor found for the root describes a package of
    another name, and the root is still not a node once that package is
    added, [resolve] raises [NetworkXError] at the first
    [self.graph.successors(cur)]. *)
Theorem resolve_renamed_descriptor
  (parse_metafile : string -> option (list (string * json)))
  (set_iter : list json -> list json) (view_iter : list string -> list string)
  (cycle_rank cycle_start : DiGraph -> list string -> nat)
  (resolve_optional : bool) (root : string) (prompt : bool) (w w1 : world) :
  ensure_root parse_metafile set_iter root w = (w1, Ok true) ->
  has_node (graph w1) root = false ->
  resolve parse_metafile set_iter view_iter cycle_rank cycle_start
      resolve_optional root prompt w
  = (w1, Raise NetworkXError).
Proof.
  intros He Habs. unfold resolve. rewrite He. unfold gather.
  now rewrite (collect_absent (graph w1) root Habs).
Qed.

Lemma resolve_renamed_descriptor_witness :
  let w1 := set_graph (add_node "bar" [("version", JNull); ("origin", JStr EmptyString);
                                       ("provides", JList []); ("optional", JList [])]
                         NX.empty) (init NoFile []) in
  ensure_root renamed_ports (fun l => l) "foo" (init NoFile []) = (w1, Ok true)
  /\ has_node (graph w1) "foo" = false
  /\ resolve renamed_ports (fun l => l) (fun l => l) by_first_node by_first_node
      false "foo" true (init NoFile [])
     = (w1, Raise NetworkXError).
Proof.
  intros w1. split; [reflexivity|]. split; [reflexivity|].
  exact (resolve_renamed_descriptor renamed_ports (fun l => l) (fun l => l) by_first_node by_first_node
      false "foo"
           true (init NoFile []) w1 eq_refl eq_refl).
Defined.

(* ================================================================== *)
(** ** What [add_node] and [add_edge] change *)

Lemma lookup_app_last {A : Type} (k n : string) (x : A) (d : list (string * A)) :
  k <> n -> lookup k (d ++ [(n, x)]) = lookup k d.
Proof.
  intros Hne. destruct (lookup k d) as [v|] eqn:E.
  - now apply lookup_app_Some.
  - rewrite (lookup_app_None k d _ E). simpl.
    destruct (String.eqb n k) eqn:En; [|reflexivity].
    apply String.eqb_eq in En. congruence.
Qed.

Lemma data_of_eta (d : node_data) : mk_node (attrs d) (succ d) = d.
Proof. now destruct d. Qed.

Lemma data_of_lookup (G : DiGraph) (n : string) (d : node_data) :
  lookup n G = Some d -> data_of G n = d.
Proof. unfold data_of. now intros ->. Qed.

Lemma In_nodes_lookup (G : DiGraph) (n : string) :
  In n (nodes G) <-> exists d, lookup n G = Some d.
Proof. rewrite <- has_node_In. apply has_node_lookup. Qed.

Lemma edge_data_of (G : DiGraph) (u v : string) :
  edge G u v <-> In u (nodes G) /\ In v (succ (data_of G u)).
Proof.
  unfold edge, data_of. split.
  - intros [d [Hl Hv]]. rewrite Hl. split; [|exact Hv]. now apply lookup_Some_key in Hl.
  - intros [Hu Hv]. apply In_nodes_lookup in Hu as [d Hd]. rewrite Hd in Hv. now exists d.
Qed.

Lemma lookup_add_node_eq (n : string) (a : attr_dict) (G : DiGraph) :
  lookup n (add_node n a G)
  = Some (mk_node (dict_update (attrs (data_of G n)) a) (succ (data_of G n))).
Proof.
  unfold add_node, data_of. destruct (lookup n G) as [d|] eqn:E.
  - apply lookup_dict_set_eq.
  - rewrite (lookup_app_None n G _ E). simpl. now rewrite String.eqb_refl.
Qed.

Lemma lookup_add_node_neq (n m : string) (a : attr_dict) (G : DiGraph) :
  m <> n -> lookup m (add_node n a G) = lookup m G.
Proof.
  intros Hne. unfold add_node. destruct (lookup n G) as [d|] eqn:E.
  - apply lookup_dict_set_neq. congruence.
  - now apply lookup_app_last.
Qed.

Lemma lookup_ensure (n m : string) (G : DiGraph) :
  lookup m (if has_node G n then G else G ++ [(n, mk_node [] [])])
  = if String.eqb m n then Some (data_of G n) else lookup m G.
Proof.
  destruct (String.eqb m n) eqn:Em.
  - apply String.eqb_eq in Em. subst m. unfold data_of.
    destruct (has_node G n) eqn:Hn.
    + apply has_node_lookup in Hn as [d Hd]. now rewrite Hd.
    + assert (Hl : lookup n G = None).
      { apply lookup_None. intros H. apply has_node_In in H. congruence. }
      rewrite (lookup_app_None n G _ Hl), Hl. simpl. now rewrite String.eqb_refl.
  - apply String.eqb_neq in Em. destruct (has_node G n); [reflexivity|].
    now apply lookup_app_last.
Qed.

Lemma lookup_add_edge_eq (u v : string) (G : DiGraph) :
  lookup u (add_edge u v G)
  = Some (mk_node (attrs (data_of G u)) (set_add v (succ (data_of G u)))).
Proof.
  unfold add_edge.
  set (G1 := if has_node G u then G else G ++ [(u, mk_node [] [])]).
  set (G2 := if has_node G1 v then G1 else G1 ++ [(v, mk_node [] [])]).
  assert (H1 : lookup u G1 = Some (data_of G u)).
  { unfold G1. now rewrite lookup_ensure, String.eqb_refl. }
  assert (H2 : lookup u G2 = Some (data_of G u)).
  { unfold G2. rewrite lookup_ensure. destruct (String.eqb u v) eqn:E; [|exact H1].
    apply String.eqb_eq in E. subst v. now rewrite (data_of_lookup G1 u _ H1). }
  rewrite H2. apply lookup_dict_set_eq.
Qed.

Lemma lookup_add_edge_neq (u v m : string) (G : DiGraph) :
  m <> u ->
  lookup m (add_edge u v G) = if String.eqb m v then Some (data_of G v) else lookup m G.
Proof.
  intros Hne. unfold add_edge.
  set (G1 := if has_node G u then G else G ++ [(u, mk_node [] [])]).
  set (G2 := if has_node G1 v then G1 else G1 ++ [(v, mk_node [] [])]).
  assert (H1 : forall k, k <> u -> lookup k G1 = lookup k G).
  { intros k Hk. unfold G1. rewrite lookup_ensure.
    apply String.eqb_neq in Hk. now rewrite Hk. }
  assert (H2 : lookup m G2 = if String.eqb m v then Some (data_of G v) else lookup m G).
  { unfold G2. rewrite lookup_ensure. destruct (String.eqb m v) eqn:E.
    - apply String.eqb_eq in E. subst v. unfold data_of. now rewrite (H1 m Hne).
    - now apply H1. }
  destruct (lookup u G2) as [d|]; [|exact H2].
  rewrite lookup_dict_set_neq; [exact H2 | congruence].
Qed.

Lemma In_nodes_add_node (n m : string) (a : attr_dict) (G : DiGraph) :
  In m (nodes (add_node n a G)) <-> m = n \/ In m (nodes G).
Proof.
  rewrite !In_nodes_lookup. destruct (string_dec m n) as [->|Hne].
  - rewrite lookup_add_node_eq. split; eauto.
  - rewrite (lookup_add_node_neq n m a G Hne). tauto.
Qed.

Lemma In_nodes_add_edge (u v m : string) (G : DiGraph) :
  In m (nodes (add_edge u v G)) <-> m = u \/ m = v \/ In m (nodes G).
Proof.
  rewrite !In_nodes_lookup. destruct (string_dec m u) as [->|Hne].
  - rewrite lookup_add_edge_eq. split; eauto.
  - rewrite (lookup_add_edge_neq u v m G Hne). destruct (String.eqb m v) eqn:E.
    + apply String.eqb_eq in E. split; eauto.
    + apply String.eqb_neq in E. tauto.
Qed.

Lemma data_of_add_node_eq (n : string) (a : attr_dict) (G : DiGraph) :
  data_of (add_node n a G) n
  = mk_node (dict_update (attrs (data_of G n)) a) (succ (data_of G n)).
Proof. unfold data_of at 1. now rewrite lookup_add_node_eq. Qed.

Lemma data_of_add_node_neq (n m : string) (a : attr_dict) (G : DiGraph) :
  m <> n -> data_of (add_node n a G) m = data_of G m.
Proof. intros H. unfold data_of. now rewrite lookup_add_node_neq. Qed.

Lemma data_of_add_edge_eq (u v : string) (G : DiGraph) :
  data_of (add_edge u v G) u
  = mk_node (attrs (data_of G u)) (set_add v (succ (data_of G u))).
Proof. unfold data_of at 1. now rewrite lookup_add_edge_eq. Qed.

Lemma data_of_add_edge_neq (u v m : string) (G : DiGraph) :
  m <> u -> data_of (add_edge u v G) m = data_of G m.
Proof.
  intros H. unfold data_of at 1. rewrite lookup_add_edge_neq by exact H.
  destruct (String.eqb m v) eqn:E; [|reflexivity].
  apply String.eqb_eq in E. now subst.
Qed.

Lemma edge_add_node (n : string) (a : attr_dict) (G : DiGraph) (x y : string) :
  edge (add_node n a G) x y <-> edge G x y.
Proof.
  rewrite !edge_data_of, In_nodes_add_node. destruct (string_dec x n) as [->|Hne].
  - rewrite data_of_add_node_eq. cbn [succ]. split; [|tauto].
    intros [_ H]. split; [|exact H].
    unfold data_of in H. destruct (lookup n G) as [d|] eqn:E; [|destruct H].
    now apply lookup_Some_key in E.
  - rewrite (data_of_add_node_neq n x a G Hne). tauto.
Qed.

Lemma edge_add_edge (u v : string) (G : DiGraph) (x y : string) :
  edge (add_edge u v G) x y <-> edge G x y \/ (x = u /\ y = v).
Proof.
  rewrite !edge_data_of, In_nodes_add_edge. destruct (string_dec x u) as [->|Hne].
  - rewrite data_of_add_edge_eq. cbn [succ]. rewrite set_add_In. split.
    + intros [_ [->|H]]; [now right|]. left. split; [|exact H].
      unfold data_of in H. destruct (lookup u G) as [d|] eqn:E; [|destruct H].
      now apply lookup_Some_key in E.
    + intros [[_ H]|[_ ->]]; auto.
  - rewrite (data_of_add_edge_neq u v x G Hne). split.
    + intros [[H|[H|H]] Hy]; try congruence.
      * subst x. left. split; [|exact Hy].
        unfold data_of in Hy. destruct (lookup v G) as [d|] eqn:E; [|destruct Hy].
        now apply lookup_Some_key in E.
      * left. now split.
    + intros [[H1 H2]|[H _]]; [auto | congruence].
Qed.

Lemma lookup_set_node_attr (n k : string) (v : json) (G G' : DiGraph) :
  set_node_attr n k v G = Ok G' ->
  In n (nodes G)
  /\ lookup n G' = Some (mk_node (dict_set k v (attrs (data_of G n))) (succ (data_of G n)))
  /\ forall m, m <> n -> lookup m G' = lookup m G.
Proof.
  unfold set_node_attr, data_of. destruct (lookup n G) as [d|] eqn:E; [|discriminate].
  intros [= <-]. split; [now apply lookup_Some_key in E|]. split.
  - apply lookup_dict_set_eq.
  - intros m Hm. apply lookup_dict_set_neq. congruence.
Qed.

Lemma set_node_attr_present (n k : string) (v : json) (G : DiGraph) :
  In n (nodes G) -> exists G', set_node_attr n k v G = Ok G'.
Proof.
  intros H. apply In_nodes_lookup in H as [d Hd]. unfold set_node_attr. rewrite Hd. eauto.
Qed.

Lemma In_nodes_set_node_attr (n k : string) (v : json) (G G' : DiGraph) (m : string) :
  set_node_attr n k v G = Ok G' -> In m (nodes G') <-> In m (nodes G).
Proof.
  intros H. destruct (lookup_set_node_attr n k v G G' H) as [Hn [H1 H2]].
  rewrite !In_nodes_lookup. destruct (string_dec m n) as [->|Hne].
  - rewrite H1. apply In_nodes_lookup in Hn. split; eauto.
  - now rewrite (H2 m Hne).
Qed.

Lemma data_of_set_node_attr (n k : string) (v : json) (G G' : DiGraph) :
  set_node_attr n k v G = Ok G' ->
  data_of G' n = mk_node (dict_set k v (attrs (data_of G n))) (succ (data_of G n))
  /\ forall m, m <> n -> data_of G' m = data_of G m.
Proof.
  intros H. destruct (lookup_set_node_attr n k v G G' H) as [Hn [H1 H2]]. split.
  - unfold data_of at 1. now rewrite H1.
  - intros m Hm. unfold data_of. now rewrite (H2 m Hm).
Qed.

Lemma edge_set_node_attr (n k : string) (v : json) (G G' : DiGraph) (x y : string) :
  set_node_attr n k v G = Ok G' -> edge G' x y <-> edge G x y.
Proof.
  intros H. destruct (data_of_set_node_attr n k v G G' H) as [H1 H2].
  rewrite !edge_data_of, (In_nodes_set_node_attr n k v G G' x H).
  destruct (string_dec x n) as [->|Hne].
  - rewrite H1. cbn [succ]. tauto.
  - rewrite (H2 x Hne). tauto.
Qed.

(** *** What a successful [add_package_from_metafile] adds *)

Lemma add_deps_effect (name : string) (ds : list json) :
  forall G G',
    add_deps name ds G = (G', Ok tt) ->
    In name (nodes G) ->
    (forall m, In m (nodes G') <-> In m (nodes G) \/ (m <> name /\ In (JStr m) ds))
    /\ (forall x y, edge G' x y
                    <-> edge G x y \/ (x = name /\ y <> name /\ In (JStr y) ds))
    /\ (forall m, attrs (data_of G' m) = attrs (data_of G m)).
Proof.
  induction ds as [|d ds IH]; intros G G' Hadd Hname.
  - simpl in Hadd. inversion Hadd; subst G'. simpl. repeat split; tauto.
  - destruct d as [|s|l|o|js]; simpl in Hadd; try discriminate.
    destruct (String.eqb s name) eqn:Es.
    + apply String.eqb_eq in Es. subst s.
      destruct (IH G G' Hadd Hname) as [H1 [H2 H3]]. split; [|split; [|exact H3]].
      * intros m. rewrite H1. simpl. split; [tauto|].
        intros [H|[Hne [H|H]]]; [tauto | congruence | tauto].
      * intros x y. rewrite H2. simpl. split; [tauto|].
        intros [H|[Hx [Hne [H|H]]]]; [tauto | congruence | tauto].
    + apply String.eqb_neq in Es.
      assert (Hname1 : In name (nodes (add_edge name s (add_node s [] G)))).
      { apply In_nodes_add_edge. now left. }
      destruct (IH _ G' Hadd Hname1) as [H1 [H2 H3]]. split; [|split].
      * intros m. rewrite H1, In_nodes_add_edge, In_nodes_add_node. simpl. split.
        -- intros [[H|[H|[H|H]]]|[Hne H]]; subst; auto.
        -- intros [H|[Hne [H|H]]]; [tauto | | tauto].
           inversion H; subst. left. right. now left.
      * intros x y. rewrite H2, edge_add_edge, edge_add_node. simpl. split.
        -- intros [[H|[Hx Hy]]|[Hx [Hne H]]]; subst; auto.
        -- intros [H|[Hx [Hne [H|H]]]]; [tauto | | tauto].
           inversion H; subst. left. right. now split.
      * intros m. rewrite H3. destruct (string_dec m name) as [->|Hm].
        -- rewrite data_of_add_edge_eq. cbn [attrs].
           now rewrite data_of_add_node_neq by congruence.
        -- rewrite data_of_add_edge_neq by exact Hm.
           destruct (string_dec m s) as [->|Hms].
           ++ now rewrite data_of_add_node_eq.
           ++ now rewrite data_of_add_node_neq.
Qed.

Lemma distinct_incl (l : list json) :
  forall seen x, In x (distinct l seen) -> In x l.
Proof.
  induction l as [|y l IH]; intros seen x; simpl; [tauto|].
  destruct (existsb (key_eqb y) seen).
  - intros H. right. now apply IH in H.
  - intros [H|H]; [now left | right; now apply IH in H].
Qed.

Lemma In_set_of (set_iter : list json -> list json) (l : list json) (s : string) :
  (forall l, Permutation (set_iter l) l) ->
  In (JStr s) (set_iter (distinct l [])) <-> In (JStr s) l.
Proof.
  intros Hperm. split; intros H.
  - apply (Permutation_in _ (Hperm _)) in H. now apply distinct_incl in H.
  - apply (Permutation_in _ (Permutation_sym (Hperm _))). now apply distinct_In.
Qed.

Lemma dict_set_same {A : Type} (k : string) (v : A) (d : list (string * A)) :
  lookup k d = Some v -> dict_set k v d = d.
Proof.
  induction d as [|[k' v'] d IH]; simpl; [discriminate|].
  destruct (String.eqb k' k) eqn:E.
  - apply String.eqb_eq in E. now intros [= ->]; subst.
  - intros H. now rewrite IH.
Qed.

Lemma dict_set_idem {A : Type} (k : string) (v : A) (d : list (string * A)) :
  dict_set k v (dict_set k v d) = dict_set k v d.
Proof. apply dict_set_same, lookup_dict_set_eq. Qed.

Lemma add_package_effect (set_iter : list json -> list json)
  (meta : list (string * json)) (w w' : world) (name : string) :
  add_package set_iter meta w = (w', Ok (Some name)) ->
  let ds := set_iter (distinct (normalized_deps meta) []) in
  name_of meta = JStr name
  /\ (forall m, In m (nodes (graph w'))
                <-> In m (nodes (graph w)) \/ m = name \/ (m <> name /\ In (JStr m) ds))
  /\ (forall x y, edge (graph w') x y
                  <-> edge (graph w) x y \/ (x = name /\ y <> name /\ In (JStr y) ds))
  /\ attrs (data_of (graph w') name)
     = dict_update (attrs (data_of (graph w) name)) (declared_attrs meta)
  /\ (forall m, m <> name -> attrs (data_of (graph w') m) = attrs (data_of (graph w) m))
  /\ w' = set_graph (graph w') w.
Proof.
  unfold add_package, normalized_deps, declared_attrs, normalized_optional.
  destruct (truthy (name_of meta)); cbn [negb]; [|discriminate].
  destruct (norm_list (build_deps_of meta)) as [bd|]; [|discriminate].
  destruct (norm_list (run_deps_of meta)) as [rd|]; [|discriminate].
  destruct (norm_list (optional_of meta)) as [op|]; [|discriminate].
  destruct (name_of meta) as [|nm|l|o|js]; try discriminate.
  set (A := [("version", get "version" meta); ("origin", get_or "origin" meta (JStr ""));
             ("provides", por (get "provides" meta) (JList [])); ("optional", JList op)]).
  set (G1 := add_node nm A (graph w)).
  destruct (forallb hashable (bd ++ rd)); cbn [negb]; [|discriminate].
  destruct (add_deps nm (set_iter (distinct (bd ++ rd) [])) G1) as [G2 [[]|e]] eqn:Hadd;
    [|discriminate].
  assert (Hn1 : In nm (nodes G1)) by (apply In_nodes_add_node; now left).
  destruct (add_deps_effect nm _ G1 G2 Hadd Hn1) as [HN [HE HA]].
  assert (HN' : forall m, In m (nodes G2)
                          <-> In m (nodes (graph w)) \/ m = nm
                              \/ (m <> nm
                                  /\ In (JStr m) (set_iter (distinct (bd ++ rd) [])))).
  { intros m. rewrite HN. unfold G1. rewrite In_nodes_add_node. tauto. }
  assert (HE' : forall x y, edge G2 x y
                            <-> edge (graph w) x y
                                \/ (x = nm /\ y <> nm
                                    /\ In (JStr y) (set_iter (distinct (bd ++ rd) [])))).
  { intros x y. rewrite HE. unfold G1. now rewrite edge_add_node. }
  assert (HA1 : attrs (data_of G2 nm) = dict_update (attrs (data_of (graph w) nm)) A).
  { rewrite HA. unfold G1. now rewrite data_of_add_node_eq. }
  assert (HA2 : forall m, m <> nm -> attrs (data_of G2 m) = attrs (data_of (graph w) m)).
  { intros m Hm. rewrite HA. unfold G1. now rewrite data_of_add_node_neq. }
  destruct (truthy (JList op)).
  - destruct (set_node_attr nm "optional" (JList op) G2) as [G3|e] eqn:Hset; [|discriminate].
    intros [= <- <-]. cbn [graph set_graph].
    destruct (data_of_set_node_attr _ _ _ _ _ Hset) as [D1 D2].
    split; [reflexivity|]. split; [|split; [|split; [|split; [|reflexivity]]]].
    + intros m. now rewrite (In_nodes_set_node_attr _ _ _ _ _ m Hset).
    + intros x y. now rewrite (edge_set_node_attr _ _ _ _ _ x y Hset).
    + rewrite D1. cbn [attrs]. rewrite HA1. unfold A, dict_update. cbn [fold_left fst snd].
      apply dict_set_idem.
    + intros m Hm. now rewrite (D2 m Hm), HA2.
  - intros [= <- <-]. cbn [graph set_graph].
    split; [reflexivity|]. split; [exact HN'|]. split; [exact HE'|].
    split; [exact HA1|]. split; [exact HA2 | reflexivity].
Qed.

(** *** Adding the same descriptor again *)

Lemma dict_update_absorb {A : Type} (a y : list (string * A)) :
  (forall k v, In (k, v) a -> lookup k y = Some v) -> dict_update y a = y.
Proof.
  unfold dict_update. induction a as [|[k v] a IH]; intros H; [reflexivity|].
  cbn [fold_left fst snd]. rewrite (dict_set_same k v y).
  - apply IH. intros k' v' Hin. apply H. now right.
  - apply H. now left.
Qed.

Lemma lookup_dict_update_other {A : Type} (k : string) (a : list (string * A)) :
  forall d, ~ In k (map fst a) -> lookup k (dict_update d a) = lookup k d.
Proof.
  unfold dict_update. induction a as [|[k' v'] a IH]; intros d Hk; [reflexivity|].
  cbn [fold_left fst snd]. simpl in Hk. rewrite IH by tauto.
  apply lookup_dict_set_neq. tauto.
Qed.

Lemma lookup_dict_update_In {A : Type} (k : string) (v : A) (a : list (string * A)) :
  forall d, NoDup (map fst a) -> In (k, v) a -> lookup k (dict_update d a) = Some v.
Proof.
  unfold dict_update. induction a as [|[k' v'] a IH]; intros d Hnd Hin; [destruct Hin|].
  cbn [fold_left fst snd]. simpl in Hnd. inversion Hnd as [|? ? Hk Hnd']; subst.
  destruct Hin as [Heq|Hin].
  - inversion Heq; subst.
    pose proof (lookup_dict_update_other k a (dict_set k v d) Hk) as H.
    unfold dict_update in H. rewrite H. apply lookup_dict_set_eq.
  - now apply IH.
Qed.

Lemma dict_update_idem {A : Type} (a d : list (string * A)) :
  NoDup (map fst a) -> dict_update (dict_update d a) a = dict_update d a.
Proof.
  intros Hnd. apply dict_update_absorb. intros k v Hin.
  now apply lookup_dict_update_In.
Qed.

Lemma add_node_noop (n : string) (a : attr_dict) (G : DiGraph) :
  In n (nodes G) -> dict_update (attrs (data_of G n)) a = attrs (data_of G n) ->
  add_node n a G = G.
Proof.
  intros Hn Ha. apply In_nodes_lookup in Hn as [d Hd]. unfold add_node. rewrite Hd.
  rewrite (data_of_lookup _ _ _ Hd) in Ha. rewrite Ha, data_of_eta.
  now apply dict_set_same.
Qed.

Lemma add_edge_noop (u v : string) (G : DiGraph) :
  edge G u v -> In v (nodes G) -> add_edge u v G = G.
Proof.
  intros [d [Hd Hv]] Hn. unfold add_edge.
  assert (Hu : has_node G u = true).
  { apply has_node_In. now apply lookup_Some_key in Hd. }
  apply has_node_In in Hn. rewrite Hu, Hn, Hd.
  unfold set_add. apply mem_In in Hv. rewrite Hv, data_of_eta.
  now apply dict_set_same.
Qed.

Lemma set_node_attr_noop (n k : string) (v : json) (G : DiGraph) :
  In n (nodes G) -> lookup k (attrs (data_of G n)) = Some v ->
  set_node_attr n k v G = Ok G.
Proof.
  intros Hn Hk. apply In_nodes_lookup in Hn as [d Hd]. unfold set_node_attr. rewrite Hd.
  rewrite (data_of_lookup _ _ _ Hd) in Hk. rewrite (dict_set_same k v _ Hk), data_of_eta.
  now rewrite (dict_set_same n d G Hd).
Qed.

Lemma add_deps_outcome (name : string) (ds : list json) :
  forall G H, snd (add_deps name ds G) = snd (add_deps name ds H).
Proof.
  induction ds as [|d ds IH]; intros G H; [reflexivity|].
  destruct d as [|s|l|o|js]; simpl; try reflexivity.
  destruct (String.eqb s name); apply IH.
Qed.

Lemma add_deps_nodes (name : string) (ds : list json) (G : DiGraph) (n : string) :
  In n (nodes G) -> In n (nodes (fst (add_deps name ds G))).
Proof. intros H. now apply (extends_add_deps ds name G). Qed.

Lemma add_deps_attrs (name : string) (ds : list json) :
  forall G m, attrs (data_of (fst (add_deps name ds G)) m) = attrs (data_of G m).
Proof.
  induction ds as [|d ds IH]; intros G m; [reflexivity|].
  destruct d as [|s|l|o|js]; simpl; try reflexivity.
  destruct (String.eqb s name) eqn:Es; [apply IH|].
  apply String.eqb_neq in Es. rewrite IH.
  destruct (string_dec m name) as [->|Hm].
  - rewrite data_of_add_edge_eq. cbn [attrs]. now rewrite data_of_add_node_neq by congruence.
  - rewrite data_of_add_edge_neq by exact Hm.
    destruct (string_dec m s) as [->|Hms].
    + now rewrite data_of_add_node_eq.
    + now rewrite data_of_add_node_neq.
Qed.

Lemma add_deps_processed (name : string) (ds : list json) :
  forall G s, In s (processed ds) -> s <> name ->
              edge (fst (add_deps name ds G)) name s
              /\ In s (nodes (fst (add_deps name ds G))).
Proof.
  induction ds as [|d ds IH]; intros G s Hs Hne; [destruct Hs|].
  destruct d as [|s0|l|o|js]; simpl in Hs; try destruct Hs.
  - subst s0. simpl. apply String.eqb_neq in Hne. rewrite Hne.
    set (G1 := add_edge name s (add_node s [] G)).
    destruct (extends_add_deps ds name G1) as [Hn He]. split.
    + apply He. apply edge_add_edge. now right.
    + apply Hn. apply In_nodes_add_edge. right. now left.
  - simpl. destruct (String.eqb s0 name); now apply IH.
Qed.

Lemma add_deps_noop (name : string) (ds : list json) (H : DiGraph) :
  (forall s, In s (processed ds) -> s <> name -> edge H name s /\ In s (nodes H)) ->
  fst (add_deps name ds H) = H.
Proof.
  induction ds as [|d ds IH]; intros Hp; [reflexivity|].
  destruct d as [|s|l|o|js]; simpl; try reflexivity.
  assert (Hrest : forall s', In s' (processed ds) -> s' <> name ->
                             edge H name s' /\ In s' (nodes H)).
  { intros s' Hs'. apply Hp. simpl. now right. }
  destruct (String.eqb s name) eqn:Es; [now apply IH|].
  apply String.eqb_neq in Es.
  destruct (Hp s (or_introl eq_refl) Es) as [He Hn].
  rewrite (add_node_noop s [] H Hn eq_refl), (add_edge_noop name s H He Hn).
  now apply IH.
Qed.

Lemma add_package_fixed (name : string) (A : attr_dict) (ds : list json)
  (v : json) (G0 : DiGraph) :
  NoDup (map fst A) -> In ("optional", v) A ->
  let G1 := add_node name A G0 in
  let G2 := fst (add_deps name ds G1) in
  add_node name A G1 = G1
  /\ add_node name A G2 = G2
  /\ add_deps name ds G2 = (G2, snd (add_deps name ds G1))
  /\ set_node_attr name "optional" v G2 = Ok G2.
Proof.
  intros Hnd Hopt G1 G2.
  assert (Hn1 : In name (nodes G1)) by (apply In_nodes_add_node; now left).
  assert (Hn2 : In name (nodes G2)) by now apply add_deps_nodes.
  assert (Ha1 : attrs (data_of G1 name) = dict_update (attrs (data_of G0 name)) A).
  { unfold G1. now rewrite data_of_add_node_eq. }
  assert (Ha2 : attrs (data_of G2 name) = dict_update (attrs (data_of G0 name)) A).
  { unfold G2. now rewrite add_deps_attrs. }
  split; [|split; [|split]].
  - apply add_node_noop; [exact Hn1|]. rewrite Ha1. now apply dict_update_idem.
  - apply add_node_noop; [exact Hn2|]. rewrite Ha2. now apply dict_update_idem.
  - rewrite (surjective_pairing (add_deps name ds G2)). f_equal.
    + apply add_deps_noop. intros s Hs Hne. now apply add_deps_processed.
    + apply add_deps_outcome.
  - apply set_node_attr_noop; [exact Hn2|]. rewrite Ha2.
    now apply lookup_dict_update_In.
Qed.

Lemma add_package_again (set_iter : list json -> list json)
  (meta : list (string * json)) (w : world) :
  graph (fst (add_package set_iter meta (fst (add_package set_iter meta w))))
  = graph (fst (add_package set_iter meta w))
  /\ snd (add_package set_iter meta (fst (add_package set_iter meta w)))
     = snd (add_package set_iter meta w).
Proof.
  unfold add_package.
  destruct (truthy (name_of meta)); cbn [negb]; [|now split].
  destruct (norm_list (build_deps_of meta)) as [bd|]; [|now split].
  destruct (norm_list (run_deps_of meta)) as [rd|]; [|now split].
  destruct (norm_list (optional_of meta)) as [op|]; [|now split].
  destruct (name_of meta) as [|nm|l|o|js]; try now split.
  set (A := [("version", get "version" meta); ("origin", get_or "origin" meta (JStr ""));
             ("provides", por (get "provides" meta) (JList [])); ("optional", JList op)]).
  set (ds := set_iter (distinct (bd ++ rd) [])).
  assert (HA : NoDup (map fst A)).
  { simpl. repeat constructor; simpl; intuition discriminate. }
  assert (Hopt : In ("optional", JList op) A) by (simpl; tauto).
  destruct (add_package_fixed nm A ds (JList op) (graph w) HA Hopt) as [F1 [F2 [F3 F4]]].
  set (G1 := add_node nm A (graph w)) in *.
  destruct (forallb hashable (bd ++ rd)); cbn [negb].
  - destruct (add_deps nm ds G1) as [G2 r] eqn:Hadd. cbn [fst snd] in F2, F3, F4.
    assert (Hsecond : forall w2 : world, graph w2 = G2 ->
              add_deps nm ds (add_node nm A (graph w2)) = (G2, r)).
    { intros w2 ->. now rewrite F2. }
    destruct r as [[]|e].
    + destruct (truthy (JList op)).
      * rewrite F4. cbn [fst snd graph set_graph]. rewrite F2, F3, F4. now split.
      * cbn [fst snd graph set_graph]. rewrite F2, F3. now split.
    + cbn [fst snd graph set_graph]. rewrite F2, F3. now split.
  - cbn [fst snd graph set_graph]. rewrite F1. now split.
Qed.

Lemma add_package_from_metafile_some
  (parse_metafile : string -> option (list (string * json)))
  (set_iter : list json -> list json) (path_or_name : string)
  (meta : list (string * json)) (w : world) :
  parse_metafile path_or_name = Some meta ->
  truthy (name_of meta) = true ->
  add_package_from_metafile parse_metafile set_iter path_or_name w
  = add_package set_iter meta w.
Proof.
  intros Hp Hn. unfold add_package_from_metafile. rewrite Hp.
  destruct meta; [now rewrite name_of_empty in Hn | reflexivity].
Qed.

Lemma add_package_from_metafile_named
  (parse_metafile : string -> option (list (string * json)))
  (set_iter : list json -> list json) (path_or_name : string)
  (meta : list (string * json)) (w w' : world) (name : string) :
  parse_metafile path_or_name = Some meta ->
  add_package_from_metafile parse_metafile set_iter path_or_name w
  = (w', Ok (Some name)) ->
  add_package set_iter meta w = (w', Ok (Some name)).
Proof.
  intros Hp. unfold add_package_from_metafile. rewrite Hp.
  destruct meta; [discriminate | auto].
Qed.

Lemma node_attrs_data_of (G : DiGraph) (n : string) :
  In n (nodes G) -> node_attrs G n = Ok (attrs (data_of G n)).
Proof.
  intros H. apply In_nodes_lookup in H as [d Hd]. unfold node_attrs, data_of.
  now rewrite Hd.
Qed.

Lemma lookup_dict_update {A : Type} (k : string) (a d : list (string * A)) :
  NoDup (map fst a) ->
  lookup k (dict_update d a)
  = match lookup k a with
    | Some v => Some v
    | None => lookup k d
    end.
Proof.
  intros Hnd. destruct (lookup k a) as [v|] eqn:E.
  - apply lookup_dict_update_In; [exact Hnd | now apply lookup_In].
  - apply lookup_dict_update_other. now apply lookup_None.
Qed.

(** X7: a successful [add_package_from_metafile] adds to the graph the
    node of the package, a node for every normalised build or runtime
    dependency, and an edge from the package to each of these
    dependencies, and nothing else: no other node, no other edge, and
    never an edge from the package to itself. *)
Theorem add_package_adds_exactly
  (parse_metafile : string -> option (list (string * json)))
  (set_iter : list json -> list json) (path_or_name : string)
  (meta : list (string * json)) (w w' : world) (name : string) :
  (forall l, Permutation (set_iter l) l) ->
  parse_metafile path_or_name = Some meta ->
  add_package_from_metafile parse_metafile set_iter path_or_name w
  = (w', Ok (Some name)) ->
  name_of meta = JStr name
  /\ (forall m, In m (nodes (graph w'))
                <-> In m (nodes (graph w)) \/ m = name
                    \/ (m <> name /\ In (JStr m) (normalized_deps meta)))
  /\ (forall x y, edge (graph w') x y
                  <-> edge (graph w) x y
                      \/ (x = name /\ y <> name /\ In (JStr y) (normalized_deps meta)))
  /\ (edge (graph w') name name -> edge (graph w) name name).
Proof.
  intros Hperm Hp Hadd.
  apply (add_package_from_metafile_named _ _ _ _ _ _ _ Hp) in Hadd.
  destruct (add_package_effect set_iter meta w w' name Hadd) as [H1 [H2 [H3 _]]].
  split; [exact H1|]. split; [|split].
  - intros m. rewrite H2, (In_set_of set_iter _ m Hperm). tauto.
  - intros x y. rewrite H3, (In_set_of set_iter _ y Hperm). tauto.
  - intros H. apply H3 in H as [H|[_ [H _]]]; [exact H | congruence].
Qed.

Lemma add_package_adds_exactly_witness :
  let meta := [("name", JStr "A"); ("version", JStr "1.0");
               ("runtime", JObj [("depends", JList [JStr "B>=2"])]);
               ("build", JObj [("depends", JList [JObj [("name", JStr "C")]]);
                               ("optional", JList [JStr "D"])])] in
  let w' := fst (add_package_from_metafile sample_ports (fun l => l) "A" (init NoFile [])) in
  sample_ports "A" = Some meta
  /\ add_package_from_metafile sample_ports (fun l => l) "A" (init NoFile [])
     = (w', Ok (Some "A"))
  /\ normalized_deps meta = [JStr "C"; JStr "B"]
  /\ forall x y, edge (graph w') x y
                 <-> edge NX.empty x y
                     \/ (x = "A" /\ y <> "A" /\ In (JStr y) (normalized_deps meta)).
Proof.
  intros meta w'. split; [reflexivity|]. split; [reflexivity|]. split; [reflexivity|].
  exact (proj1 (proj2 (proj2 (add_package_adds_exactly sample_ports (fun l => l) "A" meta
                                (init NoFile []) w' "A" (fun l => Permutation_refl l)
                                eq_refl eq_refl)))).
Defined.

(** X8: a successful [add_package_from_metafile] merges the four
    attributes of the descriptor ([version], [origin], [provides],
    [optional]) into the attributes that the node of the package
    already has: these four are overwritten, every other attribute is
    kept.  The attributes of every other node are left as they are, and
    a node created for a dependency has none. *)
Theorem add_package_merges_attributes
  (parse_metafile : string -> option (list (string * json)))
  (set_iter : list json -> list json) (path_or_name : string)
  (meta : list (string * json)) (w w' : world) (name : string) :
  parse_metafile path_or_name = Some meta ->
  add_package_from_metafile parse_metafile set_iter path_or_name w
  = (w', Ok (Some name)) ->
  node_attrs (graph w') name
  = Ok (dict_update (attrs (data_of (graph w) name)) (declared_attrs meta))
  /\ (forall k, lookup k (attrs (data_of (graph w') name))
                = match lookup k (declared_attrs meta) with
                  | Some v => Some v
                  | None => lookup k (attrs (data_of (graph w) name))
                  end)
  /\ (forall m, m <> name -> In m (nodes (graph w)) ->
                node_attrs (graph w') m = node_attrs (graph w) m)
  /\ (forall m, m <> name -> ~ In m (nodes (graph w)) -> In m (nodes (graph w')) ->
                node_attrs (graph w') m = Ok []).
Proof.
  intros Hp Hadd.
  apply (add_package_from_metafile_named _ _ _ _ _ _ _ Hp) in Hadd.
  destruct (add_package_effect set_iter meta w w' name Hadd) as [_ [HN [_ [HA1 [HA2 _]]]]].
  assert (Hname : In name (nodes (graph w'))) by (apply HN; tauto).
  split; [|split; [|split]].
  - now rewrite (node_attrs_data_of _ _ Hname), HA1.
  - intros k. rewrite HA1. apply lookup_dict_update.
    simpl. repeat constructor; simpl; intuition discriminate.
  - intros m Hm Hin. rewrite (node_attrs_data_of _ _ Hin).
    rewrite node_attrs_data_of by (apply HN; tauto). now rewrite HA2.
  - intros m Hm Hout Hin. rewrite (node_attrs_data_of _ _ Hin), (HA2 m Hm).
    unfold data_of. apply lookup_None in Hout. now rewrite Hout.
Qed.

Lemma add_package_merges_attributes_witness :
  let meta := [("name", JStr "B"); ("runtime", JObj [("depends", JList [JStr "C"])])] in
  let w := fst (add_package_from_metafile sample_ports (fun l => l) "A" (init NoFile [])) in
  sample_ports "B" = Some meta
  /\ add_package_from_metafile sample_ports (fun l => l) "B" w = (sample_world, Ok (Some "B"))
  /\ node_attrs (graph w) "B" = Ok []
  /\ node_attrs (graph sample_world) "B"
     = Ok (dict_update (attrs (data_of (graph w) "B")) (declared_attrs meta))
  /\ forall m, m <> "B" -> In m (nodes (graph w)) ->
               node_attrs (graph sample_world) m = node_attrs (graph w) m.
Proof.
  intros meta w. split; [reflexivity|]. split; [reflexivity|]. split; [reflexivity|].
  destruct (add_package_merges_attributes sample_ports (fun l => l) "B" meta w
              sample_world "B" eq_refl eq_refl) as [H1 [_ [H2 _]]].
  split; [exact H1 | exact H2].
Defined.

(** X9: adding the same descriptor a second time changes nothing: the
    graph after the second call is the graph after the first, and the
    second call ends as the first did, whether with the name of the
    package, with [None] or with an exception. *)
Theorem add_package_idempotent
  (parse_metafile : string -> option (list (string * json)))
  (set_iter : list json -> list json) (path_or_name : string) (w : world) :
  let once := add_package_from_metafile parse_metafile set_iter path_or_name w in
  let twice := add_package_from_metafile parse_metafile set_iter path_or_name (fst once) in
  graph (fst twice) = graph (fst once) /\ snd twice = snd once.
Proof.
  unfold add_package_from_metafile.
  destruct (parse_metafile path_or_name) as [[|kv meta]|]; try now split.
  apply add_package_again.
Qed.

(* ================================================================== *)
(** ** The full rescan *)

Lemma add_package_outcome (set_iter : list json -> list json)
  (meta : list (string * json)) (w w0 : world) :
  snd (add_package set_iter meta w) = snd (add_package set_iter meta w0).
Proof.
  unfold add_package.
  destruct (truthy (name_of meta)); cbn [negb]; [|reflexivity].
  destruct (norm_list (build_deps_of meta)) as [bd|]; [|reflexivity].
  destruct (norm_list (run_deps_of meta)) as [rd|]; [|reflexivity].
  destruct (norm_list (optional_of meta)) as [op|]; [|reflexivity].
  destruct (name_of meta) as [|nm|l|o|js]; try reflexivity.
  set (A := [("version", get "version" meta); ("origin", get_or "origin" meta (JStr ""));
             ("provides", por (get "provides" meta) (JList [])); ("optional", JList op)]).
  set (ds := set_iter (distinct (bd ++ rd) [])).
  destruct (forallb hashable (bd ++ rd)); cbn [negb]; [|reflexivity].
  pose proof (add_deps_outcome nm ds (add_node nm A (graph w)) (add_node nm A (graph w0)))
    as Ho.
  assert (Hn : forall G, In nm (nodes (fst (add_deps nm ds (add_node nm A G))))).
  { intros G. apply add_deps_nodes, In_nodes_add_node. now left. }
  pose proof (Hn (graph w)) as Hn1. pose proof (Hn (graph w0)) as Hn2.
  destruct (add_deps nm ds (add_node nm A (graph w))) as [G2 r].
  destruct (add_deps nm ds (add_node nm A (graph w0))) as [G2' r'].
  cbn [fst snd] in *. subst r'. destruct r as [[]|e]; [|reflexivity].
  destruct (truthy (JList op)); [|reflexivity].
  destruct (set_node_attr_present nm "optional" (JList op) G2 Hn1) as [G3 ->].
  destruct (set_node_attr_present nm "optional" (JList op) G2' Hn2) as [G3' ->].
  reflexivity.
Qed.

Lemma add_package_frame (set_iter : list json -> list json)
  (meta : list (string * json)) (w : world) :
  cache (fst (add_package set_iter meta w)) = cache w
  /\ loaded_from_cache (fst (add_package set_iter meta w)) = loaded_from_cache w.
Proof.
  unfold add_package.
  destruct (truthy (name_of meta)); cbn [negb]; [|now split].
  destruct (norm_list (build_deps_of meta)) as [bd|]; [|now split].
  destruct (norm_list (run_deps_of meta)) as [rd|]; [|now split].
  destruct (norm_list (optional_of meta)) as [op|]; [|now split].
  destruct (name_of meta) as [|nm|l|o|js]; try now split.
  destruct (forallb hashable (bd ++ rd)); cbn [negb]; [|now split].
  destruct (add_deps _ _ _) as [G2 [[]|e]]; [|now split].
  destruct (truthy (JList op)); [|now split].
  destruct (set_node_attr _ _ _ _); now split.
Qed.

Lemma add_package_from_metafile_frame
  (parse_metafile : string -> option (list (string * json)))
  (set_iter : list json -> list json) (path_or_name : string) (w : world) :
  cache (fst (add_package_from_metafile parse_metafile set_iter path_or_name w))
  = cache w
  /\ loaded_from_cache
       (fst (add_package_from_metafile parse_metafile set_iter path_or_name w))
     = loaded_from_cache w.
Proof.
  unfold add_package_from_metafile.
  destruct (parse_metafile path_or_name) as [[|kv meta]|]; try now split.
  apply add_package_frame.
Qed.

Section Rescan.

Variable parse_metafile : string -> option (list (string * json)).
Variable set_iter : list json -> list json.

Lemma scan_ports_app (files1 files2 : list string) :
  forall count w,
    scan_ports parse_metafile set_iter (files1 ++ files2) count w
    = scan_ports parse_metafile set_iter files2
        (snd (scan_ports parse_metafile set_iter files1 count w))
        (fst (scan_ports parse_metafile set_iter files1 count w)).
Proof.
  induction files1 as [|f files1 IH]; intros count w; [reflexivity|].
  cbn [app scan_ports]. destruct (parse_metafile f) as [doc|]; [|apply IH].
  destruct (truthy (name_of doc)); [|apply IH].
  destruct (add_package_from_metafile parse_metafile set_iter f w) as [w' [r|e]];
    apply IH.
Qed.


Lemma scan_ports_frame (files : list string) :
  forall count w,
    cache (fst (scan_ports parse_metafile set_iter files count w)) = cache w
    /\ loaded_from_cache (fst (scan_ports parse_metafile set_iter files count w))
       = loaded_from_cache w.
Proof.
  induction files as [|f files IH]; intros count w; [now split|].
  cbn [scan_ports]. destruct (parse_metafile f) as [doc|]; [|apply IH].
  destruct (truthy (name_of doc)); [|apply IH].
  pose proof (add_package_from_metafile_frame parse_metafile set_iter f w) as [H1 H2].
  destruct (add_package_from_metafile parse_metafile set_iter f w) as [w' [r|e]];
    cbn [fst] in H1, H2; rewrite <- H1, <- H2; apply IH.
Qed.

Lemma scan_ports_extends (files : list string) :
  forall count w,
    wf (graph w) ->
    wf (graph (fst (scan_ports parse_metafile set_iter files count w)))
    /\ extends (graph w) (graph (fst (scan_ports parse_metafile set_iter files count w))).
Proof.
  induction files as [|f files IH]; intros count w Hwf;
    [split; [exact Hwf | apply extends_refl]|].
  cbn [scan_ports]. destruct (parse_metafile f) as [doc|]; [|now apply IH].
  destruct (truthy (name_of doc)); [|now apply IH].
  pose proof (add_package_from_metafile_grows parse_metafile set_iter f w Hwf)
    as [Hwf' [Hext _]].
  destruct (add_package_from_metafile parse_metafile set_iter f w) as [w' [r|e]];
    cbn [fst] in Hwf', Hext.
  - destruct (IH (S count) w' Hwf') as [H1 H2].
    split; [exact H1 | now apply extends_trans with (graph w')].
  - destruct (IH count w' Hwf') as [H1 H2].
    split; [exact H1 | now apply extends_trans with (graph w')].
Qed.

Lemma graph_persist_cache (writable : bool) (w : world) :
  graph (persist_cache writable w) = graph w.
Proof.
  unfold persist_cache.
  now destruct (writable && dumpable (serialize (graph w))).
Qed.

Lemma cache_persist_cache_off (w : world) :
  cache (persist_cache false w) = cache w.
Proof. reflexivity. Qed.


Lemma graph_build_graph_from_ports (cache_graph writable : bool)
  (files : list string) (w : world) :
  graph (build_graph_from_ports parse_metafile set_iter cache_graph writable files w)
  = graph (fst (scan_ports parse_metafile set_iter files 0
                  (logger INFO "Scanning ports tree to build dependency graph..." w))).
Proof.
  unfold build_graph_from_ports.
  destruct (scan_ports parse_metafile set_iter files 0 _) as [w1 count].
  destruct cache_graph; [rewrite graph_persist_cache|]; reflexivity.
Qed.

Lemma graph_sync_from_ports (cache_graph writable : bool)
  (files : list string) (w : world) :
  graph (sync_from_ports parse_metafile set_iter cache_graph writable files w)
  = graph (fst (scan_ports parse_metafile set_iter files 0
                  (logger INFO "Scanning ports tree to build dependency graph..."
                     (set_graph NX.empty w)))).
Proof.
  unfold sync_from_ports.
  destruct cache_graph; [rewrite graph_persist_cache|];
    apply graph_build_graph_from_ports.
Qed.


End Rescan.





Lemma add_package_blank
  (parse_metafile : string -> option (list (string * json)))
  (set_iter : list json -> list json)
  (path_or_name : string) (meta : list (string * json))
  (l : list json) (s : string) (w : world) :
  parse_metafile path_or_name = Some meta ->
  truthy (name_of meta) = true ->
  build_deps_of meta = JList l \/ run_deps_of meta = JList l ->
  In (JStr s) l ->
  lstrip s = "" ->
  add_package_from_metafile parse_metafile set_iter path_or_name w
  = (w, Raise IndexError).
Proof.
  intros Hp Hname Hdeps Hin Hs.
  rewrite (add_package_from_metafile_some _ _ _ _ _ Hp Hname).
  unfold add_package. rewrite Hname. cbn [negb].
  destruct Hdeps as [Hb|Hr].
  - now rewrite Hb, (norm_list_blank l s Hin Hs).
  - destruct (norm_list (build_deps_of meta)) eqn:Hb.
    + now rewrite Hr, (norm_list_blank l s Hin Hs).
    + now rewrite (norm_list_raise _ _ Hb).
Qed.

(** X11: a ports file whose descriptor has a blank build or runtime
    dependency entry does not stop the rescan and leaves no trace in
    it: [sync_from_ports] ends in the same state, with the same graph,
    the same count and the same cache file, as if that file were not
    in the ports tree. *)
Theorem sync_skips_blank_dependency
  (parse_metafile : string -> option (list (string * json)))
  (set_iter : list json -> list json) (cache_graph writable : bool)
  (before after : list string) (full : string) (meta : list (string * json))
  (l : list json) (s : string) (w : world) :
  parse_metafile full = Some meta ->
  truthy (name_of meta) = true ->
  build_deps_of meta = JList l \/ run_deps_of meta = JList l ->
  In (JStr s) l ->
  lstrip s = "" ->
  sync_from_ports parse_metafile set_iter cache_graph writable (before ++ full :: after) w
  = sync_from_ports parse_metafile set_iter cache_graph writable (before ++ after) w.
Proof.
  intros Hp Hname Hdeps Hin Hs.
  unfold sync_from_ports, build_graph_from_ports.
  rewrite !scan_ports_app. cbn [scan_ports]. rewrite Hp, Hname.
  now rewrite (add_package_blank parse_metafile set_iter full meta l s _
                 Hp Hname Hdeps Hin Hs).
Qed.

Lemma sync_skips_blank_dependency_witness :
  let meta := [("name", JStr "app");
               ("runtime", JObj [("depends", JList [JStr "libfoo"; JStr "  "])])] in
  let ports := fun p => if String.eqb p "app.yaml" then Some meta else sample_ports p in
  ports "app.yaml" = Some meta
  /\ truthy (name_of meta) = true
  /\ run_deps_of meta = JList [JStr "libfoo"; JStr "  "]
  /\ lstrip "  " = ""
  /\ sync_from_ports ports (fun l => l) true true ["A"; "app.yaml"; "B"] (init NoFile [])
     = sync_from_ports ports (fun l => l) true true ["A"; "B"] (init NoFile []).
Proof.
  intros meta ports. split; [reflexivity|]. split; [reflexivity|]. split; [reflexivity|].
  split; [reflexivity|].
  refine (sync_skips_blank_dependency ports (fun l => l) true true ["A"] ["B"] "app.yaml"
            meta [JStr "libfoo"; JStr "  "] "  " (init NoFile []) eq_refl eq_refl _ _ eq_refl).
  - right. reflexivity.
  - right. now left.
Defined.

Lemma scan_ports_adds
  (parse_metafile : string -> option (list (string * json)))
  (set_iter : list json -> list json) (full : string) (meta : list (string * json))
  (name : string) (w0 : world) (files : list string) :
  parse_metafile full = Some meta ->
  snd (add_package set_iter meta w0) = Ok (Some name) ->
  In full files ->
  forall count w,
    wf (graph w) ->
    let G := graph (fst (scan_ports parse_metafile set_iter files count w)) in
    In name (nodes G)
    /\ forall d, In (JStr d) (set_iter (distinct (normalized_deps meta) [])) ->
                 d <> name -> edge G name d.
Proof.
  intros Hp Hok. induction files as [|f files IH]; intros Hin count w Hwf; [destruct Hin|].
  assert (Hstep : forall c w1, wf (graph w1) ->
            (f = full \/ In full files) ->
            (f = full ->
             In name (nodes (graph w1))
             /\ forall d, In (JStr d) (set_iter (distinct (normalized_deps meta) [])) ->
                          d <> name -> edge (graph w1) name d) ->
            let G := graph (fst (scan_ports parse_metafile set_iter files c w1)) in
            In name (nodes G)
            /\ forall d, In (JStr d) (set_iter (distinct (normalized_deps meta) [])) ->
                         d <> name -> edge G name d).
  { intros c w1 Hwf1 [Heq|Hrest] Hhead.
    - destruct (Hhead Heq) as [H1 H2].
      destruct (scan_ports_extends parse_metafile set_iter files c w1 Hwf1) as [_ [Hn He]].
      split; [now apply Hn | intros d Hd Hne; apply He; now apply H2].
    - now apply IH. }
  cbn [scan_ports].
  assert (Htruthy : f = full -> truthy (name_of meta) = true).
  { intros _. unfold add_package in Hok.
    destruct (truthy (name_of meta)); [reflexivity | discriminate]. }
  destruct (parse_metafile f) as [doc|] eqn:Ef.
  2:{ apply Hstep; auto. intros ->. congruence. }
  destruct (truthy (name_of doc)) eqn:Et.
  2:{ apply Hstep; auto. intros ->. rewrite Hp in Ef. inversion Ef; subst doc.
      rewrite (Htruthy eq_refl) in Et. discriminate. }
  pose proof (add_package_from_metafile_grows parse_metafile set_iter f w Hwf)
    as [Hwf' _].
  assert (Hhead : f = full ->
            In name (nodes (graph (fst (add_package_from_metafile parse_metafile
                                          set_iter f w))))
            /\ forall d, In (JStr d) (set_iter (distinct (normalized_deps meta) [])) ->
                         d <> name ->
                         edge (graph (fst (add_package_from_metafile parse_metafile
                                             set_iter f w))) name d).
  { intros ->. rewrite (add_package_from_metafile_some _ _ _ _ _ Hp (Htruthy eq_refl)).
    pose proof (add_package_outcome set_iter meta w w0) as Ho. rewrite Hok in Ho.
    destruct (add_package set_iter meta w) as [w' r] eqn:Ea. cbn [fst snd] in *. subst r.
    destruct (add_package_effect set_iter meta w w' name Ea) as [_ [HN [HE _]]].
    split; [apply HN; tauto | intros d Hd Hne; apply HE; tauto]. }
  destruct (add_package_from_metafile parse_metafile set_iter f w) as [w' [r|e]];
    cbn [fst] in *; now apply Hstep.
Qed.

(** X12: after [sync_from_ports], every package whose descriptor is in
    the ports tree and loads without an exception is a node of the
    graph, with an edge to each of its normalised build and runtime
    dependencies, whatever the other files of the ports tree hold. *)
Theorem sync_adds_every_package
  (parse_metafile : string -> option (list (string * json)))
  (set_iter : list json -> list json) (cache_graph writable : bool)
  (files : list string) (full : string) (meta : list (string * json))
  (name : string) (w : world) :
  (forall l, Permutation (set_iter l) l) ->
  In full files ->
  parse_metafile full = Some meta ->
  snd (add_package set_iter meta (init NoFile [])) = Ok (Some name) ->
  let G := graph (sync_from_ports parse_metafile set_iter cache_graph writable files w) in
  In name (nodes G)
  /\ forall d, In (JStr d) (normalized_deps meta) -> d <> name -> edge G name d.
Proof.
  intros Hperm Hin Hp Hok G. unfold G. rewrite graph_sync_from_ports.
  destruct (scan_ports_adds parse_metafile set_iter full meta name (init NoFile []) files
              Hp Hok Hin 0
              (logger INFO "Scanning ports tree to build dependency graph..."
                 (set_graph NX.empty w)) wf_empty) as [H1 H2].
  split; [exact H1|]. intros d Hd Hne. apply H2; [|exact Hne].
  now apply (In_set_of set_iter _ d Hperm).
Qed.

Lemma sync_adds_every_package_witness :
  let meta := [("name", JStr "B"); ("runtime", JObj [("depends", JList [JStr "C"])])] in
  let G := graph (sync_from_ports sample_ports (fun l => l) true true ["A"; "B"]
                    (init NoFile [])) in
  sample_ports "B" = Some meta
  /\ snd (add_package (fun l => l) meta (init NoFile [])) = Ok (Some "B")
  /\ In "B" (nodes G)
  /\ forall d, In (JStr d) (normalized_deps meta) -> d <> "B" -> edge G "B" d.
Proof.
  intros meta G. split; [reflexivity|]. split; [reflexivity|].
  refine (sync_adds_every_package sample_ports (fun l => l) true true ["A"; "B"] "B" meta
            "B" (init NoFile []) (fun l => Permutation_refl l) _ eq_refl eq_refl).
  right. now left.
Defined.

(* ================================================================== *)
(** ** The prompts for optional dependencies *)

Lemma iter_truthy (v : json) :
  truthy v = true -> exists o os, iter v = Ok (o :: os).
Proof.
  destruct v as [|s|l|d|js]; simpl; try discriminate.
  - destruct s as [|c s]; [discriminate|]. intros _. unfold chars. simpl. eauto.
  - destruct l as [|x l]; [discriminate|]. eauto.
  - destruct d as [|kv d]; [discriminate|]. simpl. eauto.
  - destruct js as [|x l]; [discriminate|]. eauto.
Qed.

Lemma collect_truthy (G : DiGraph) (fuel : nat) :
  forall stack visited deps ota deps' ota',
    collect fuel G stack visited deps ota = Ok (deps', ota') ->
    (forall k o, In (k, o) ota -> truthy o = true) ->
    forall k o, In (k, o) ota' -> truthy o = true.
Proof.
  induction fuel as [|fuel IH]; intros stack visited deps ota deps' ota' Hc Hota.
  - destruct stack; [|discriminate]. simpl in Hc. inversion Hc; subst. exact Hota.
  - destruct stack as [|cur stack]; [simpl in Hc; inversion Hc; subst; exact Hota|].
    cbn [collect] in Hc. destruct (mem cur visited); [now apply (IH _ _ _ _ _ _ Hc)|].
    destruct (lookup cur G) as [d|]; [|discriminate].
    apply (IH _ _ _ _ _ _ Hc).
    destruct (truthy (por (get "optional" (attrs d)) (JList []))) eqn:Et; [|exact Hota].
    intros k o Hin. apply In_dict_set in Hin as [[_ ->]|Hin]; [exact Et | eauto].
Qed.

Lemma collect_first (G : DiGraph) (fuel : nat) (k : string) (o : json) :
  forall stack visited deps rest deps' ota',
    collect fuel G stack visited deps ((k, o) :: rest) = Ok (deps', ota') ->
    In k visited ->
    exists rest', ota' = (k, o) :: rest'.
Proof.
  induction fuel as [|fuel IH]; intros stack visited deps rest deps' ota' Hc Hk.
  - destruct stack; [|discriminate]. simpl in Hc. inversion Hc; subst. eauto.
  - destruct stack as [|cur stack]; [simpl in Hc; inversion Hc; subst; eauto|].
    cbn [collect] in Hc. destruct (mem cur visited) eqn:Ev;
      [now apply (IH _ _ _ _ _ _ Hc)|].
    destruct (lookup cur G) as [d|]; [|discriminate].
    assert (Hne : String.eqb k cur = false).
    { apply String.eqb_neq. intros ->. apply mem_false in Ev. contradiction. }
    destruct (truthy (por (get "optional" (attrs d)) (JList []))).
    + cbn [dict_set] in Hc. rewrite Hne in Hc.
      apply (IH _ _ _ _ _ _ Hc). apply in_or_app. now left.
    + apply (IH _ _ _ _ _ _ Hc). apply in_or_app. now left.
Qed.

(** the walk from a root that offers options asks about them first *)
Lemma collect_root_optional (G : DiGraph) (root : string) (d : node_data) :
  wf G -> lookup root G = Some d -> truthy (get "optional" (attrs d)) = true ->
  exists deps rest,
    collect (walk_fuel G) G [root] [] [] []
    = Ok (deps, (root, get "optional" (attrs d)) :: rest).
Proof.
  intros Hwf Hl Ht.
  assert (Hr : In root (nodes G)) by now apply lookup_Some_key in Hl.
  destruct (collect_root G root Hwf Hr) as [deps [ota [Hc _]]].
  exists deps. rewrite Hc. unfold walk_fuel in Hc. cbn [collect mem existsb] in Hc.
  assert (Hpor : por (get "optional" (attrs d)) (JList []) = get "optional" (attrs d)).
  { unfold por. now rewrite Ht. }
  rewrite Hl, Hpor, Ht in Hc. cbn [dict_set] in Hc.
  destruct (collect_first G _ root _ _ _ _ _ _ _ Hc) as [rest ->]; [now left|].
  now exists rest.
Qed.

Section Answers.

Variable parse_metafile : string -> option (list (string * json)).
Variable set_iter : list json -> list json.

Lemma ask_declined (o : json) (deps : list string) (w : world) :
  Forall (fun ev => says_yes ev = false) (stdin w) ->
  let out := ask parse_metafile set_iter o deps w in
  graph (fst out) = graph w
  /\ Forall (fun ev => says_yes ev = false) (stdin (fst out))
  /\ (snd out = Ok deps \/ snd out = Raise EOFError).
Proof.
  intros Hno. unfold ask. destruct (stdin w) as [|ev later] eqn:Es.
  - cbn [fst snd]. rewrite Es. split; [reflexivity|]. split; [constructor | now right].
  - inversion Hno as [|? ? Hev Hlater]; subst. rewrite Hev. cbn [fst snd set_stdin graph stdin].
    split; [reflexivity|]. split; [exact Hlater | now left].
Qed.

Lemma ask_each_declined (os : list json) :
  forall deps w,
    Forall (fun ev => says_yes ev = false) (stdin w) ->
    let out := ask_each parse_metafile set_iter os deps w in
    graph (fst out) = graph w
    /\ Forall (fun ev => says_yes ev = false) (stdin (fst out))
    /\ (snd out = Ok deps \/ snd out = Raise EOFError).
Proof.
  induction os as [|o os IH]; intros deps w Hno.
  - cbn [ask_each fst snd]. split; [reflexivity|]. split; [exact Hno | now left].
  - cbn [ask_each]. destruct (ask_declined o deps w Hno) as [H1 [H2 H3]].
    destruct (ask parse_metafile set_iter o deps w) as [w' [deps'|e]]; cbn [fst snd] in *.
    + destruct H3 as [H3|H3]; [|discriminate]. inversion H3; subst deps'.
      destruct (IH deps w' H2) as [H4 [H5 H6]]. rewrite <- H1. now split.
    + destruct H3 as [H3|H3]; [discriminate|]. split; [exact H1|]. split; [exact H2|].
      now right.
Qed.

Lemma ask_all_declined (ota : list (string * json)) :
  forall deps w,
    (forall k o, In (k, o) ota -> truthy o = true) ->
    Forall (fun ev => says_yes ev = false) (stdin w) ->
    let out := ask_all parse_metafile set_iter ota deps w in
    graph (fst out) = graph w
    /\ (snd out = Ok deps \/ snd out = Raise EOFError).
Proof.
  induction ota as [|[parent opts] ota IH]; intros deps w Ht Hno.
  - cbn [ask_all fst snd]. split; [reflexivity | now left].
  - cbn [ask_all].
    destruct (iter_truthy opts (Ht parent opts (or_introl eq_refl))) as [o [os ->]].
    destruct (ask_each_declined (o :: os) deps w Hno) as [H1 [H2 H3]].
    destruct (ask_each parse_metafile set_iter (o :: os) deps w) as [w' [deps'|e]];
      cbn [fst snd] in *.
    + destruct H3 as [H3|H3]; [|discriminate]. inversion H3; subst deps'.
      destruct (IH deps w') as [H4 H5]; auto.
      * intros k v Hin. apply (Ht k v). now right.
      * rewrite <- H1. now split.
    + destruct H3 as [H3|H3]; [discriminate|]. split; [exact H1 | now right].
Qed.

Lemma add_package_stdin (meta : list (string * json)) (w : world) :
  stdin (fst (add_package set_iter meta w)) = stdin w.
Proof.
  unfold add_package.
  destruct (truthy (name_of meta)); cbn [negb]; [|reflexivity].
  destruct (norm_list (build_deps_of meta)) as [bd|]; [|reflexivity].
  destruct (norm_list (run_deps_of meta)) as [rd|]; [|reflexivity].
  destruct (norm_list (optional_of meta)) as [op|]; [|reflexivity].
  destruct (name_of meta) as [|nm|l|o|js]; try reflexivity.
  destruct (forallb hashable (bd ++ rd)); cbn [negb]; [|reflexivity].
  destruct (add_deps _ _ _) as [G2 [[]|e]]; [|reflexivity].
  destruct (truthy (JList op)); [|reflexivity].
  destruct (set_node_attr _ _ _ _); reflexivity.
Qed.

Lemma ensure_root_stdin (root : string) (w : world) :
  stdin (fst (ensure_root parse_metafile set_iter root w)) = stdin w.
Proof.
  unfold ensure_root. destruct (has_node (graph w) root); [reflexivity|].
  assert (H : stdin (fst (add_package_from_metafile parse_metafile set_iter root w))
              = stdin w).
  { unfold add_package_from_metafile.
    destruct (parse_metafile root) as [[|kv meta]|]; try reflexivity.
    apply add_package_stdin. }
  destruct (add_package_from_metafile parse_metafile set_iter root w) as [w' [[n|]|e]];
    exact H.
Qed.

End Answers.

Lemma order_or_cycles_graph (cycle_rank cycle_start : DiGraph -> list string -> nat)
  (subg : DiGraph) (w w' : world) :
  graph (fst (order_or_cycles cycle_rank cycle_start subg w)) = graph w
  /\ snd (order_or_cycles cycle_rank cycle_start subg w)
     = snd (order_or_cycles cycle_rank cycle_start subg w').
Proof.
  unfold order_or_cycles. destruct (simple_cycles cycle_rank cycle_start
      subg); [|now split].
  destruct (topological_sort subg) as [topo|[]]; now split.
Qed.

(** X13: when every pending answer of the terminal is something other
    than a yes, [resolve] with prompts leaves the graph as [resolve]
    without prompts leaves it, and either returns what [resolve]
    without prompts returns or raises [EOFError] because the answers
    ran out. *)
Theorem resolve_all_declined
  (parse_metafile : string -> option (list (string * json)))
  (set_iter : list json -> list json) (view_iter : list string -> list string)
  (cycle_rank cycle_start : DiGraph -> list string -> nat)
  (resolve_optional : bool) (root : string) (w : world) :
  Forall (fun ev => says_yes ev = false) (stdin w) ->
  let out := resolve parse_metafile set_iter view_iter cycle_rank cycle_start
      resolve_optional root true w in
  let plain := resolve parse_metafile set_iter view_iter cycle_rank cycle_start
      resolve_optional root false w in
  graph (fst out) = graph (fst plain)
  /\ (snd out = snd plain \/ snd out = Raise EOFError).
Proof.
  intros Hno. unfold resolve.
  pose proof (ensure_root_stdin parse_metafile set_iter root w) as Hs.
  destruct (ensure_root parse_metafile set_iter root w) as [w1 [[|]|e]];
    cbn [fst] in Hs; try (split; [reflexivity | now left]).
  rewrite <- Hs in Hno. unfold gather.
  destruct (collect (walk_fuel (graph w1)) (graph w1) [root] [] [] [])
    as [[deps ota]|e] eqn:Hc; [|split; [reflexivity | now left]].
  rewrite andb_false_r. cbn [andb].
  destruct ((match ota with [] => false | _ => true end) && true && resolve_optional);
    [|split; [reflexivity | now left]].
  assert (Ht : forall k o, In (k, o) ota -> truthy o = true).
  { apply (collect_truthy _ _ _ _ _ _ _ _ Hc). intros k o []. }
  destruct (ask_all_declined parse_metafile set_iter ota deps w1 Ht Hno) as [H1 H2].
  destruct (ask_all parse_metafile set_iter ota deps w1) as [w2 [deps'|e]];
    cbn [fst snd] in *.
  - destruct H2 as [H2|H2]; [|discriminate]. inversion H2; subst deps'.
    unfold resolved_subgraph. rewrite H1.
    destruct (order_or_cycles_graph cycle_rank cycle_start
        (subgraph view_iter (graph w1) (set_add root deps))
                w2 w1) as [H3 H4].
    destruct (order_or_cycles_graph cycle_rank cycle_start
        (subgraph view_iter (graph w1) (set_add root deps))
                w1 w1) as [H5 _].
    split; [congruence | now left].
  - destruct H2 as [H2|H2]; [discriminate|]. inversion H2; subst e.
    destruct (order_or_cycles_graph cycle_rank cycle_start
        (resolved_subgraph view_iter root deps w1) w1 w1)
      as [H5 _].
    split; [congruence | now right].
Qed.

Lemma resolve_all_declined_witness :
  Forall (fun ev => says_yes ev = false) (stdin declining_world)
  /\ snd (resolve no_ports (fun l => l) (fun l => l) by_first_node by_first_node
      true "R" true declining_world)
     = Ok (["R"], [])
  /\ (snd (resolve no_ports (fun l => l) (fun l => l) by_first_node by_first_node
      true "R" true declining_world)
      = snd (resolve no_ports (fun l => l) (fun l => l) by_first_node by_first_node
          true "R" false declining_world)
      \/ snd (resolve no_ports (fun l => l) (fun l => l) by_first_node by_first_node
          true "R" true declining_world)
         = Raise EOFError).
Proof.
  assert (Hno : Forall (fun ev => says_yes ev = false) (stdin declining_world)).
  { repeat constructor. }
  split; [exact Hno|]. split; [reflexivity|].
  exact (proj2 (resolve_all_declined no_ports (fun l => l) (fun l => l) by_first_node by_first_node
      true "R"
                  declining_world Hno)).
Defined.

(** X14: when the root is in the graph and offers optional
    dependencies, [resolve_optional] is set, prompts are not disabled
    and the terminal has no input left, [resolve] raises [EOFError] at
    the first prompt and returns no build order. *)
Theorem resolve_end_of_input
  (parse_metafile : string -> option (list (string * json)))
  (set_iter : list json -> list json) (view_iter : list string -> list string)
  (cycle_rank cycle_start : DiGraph -> list string -> nat)
  (root : string) (d : node_data) (w : world) :
  wf (graph w) ->
  lookup root (graph w) = Some d ->
  truthy (get "optional" (attrs d)) = true ->
  stdin w = [] ->
  resolve parse_metafile set_iter view_iter cycle_rank cycle_start
      true root true w = (w, Raise EOFError).
Proof.
  intros Hwf Hl Ht Hs.
  assert (Hr : has_node (graph w) root = true).
  { apply has_node_In. now apply lookup_Some_key in Hl. }
  destruct (collect_root_optional (graph w) root d Hwf Hl Ht) as [deps [rest Hc]].
  unfold resolve, ensure_root. rewrite Hr. unfold gather. rewrite Hc. cbn [andb ask_all].
  destruct (iter_truthy _ Ht) as [o [os ->]]. cbn [ask_each]. unfold ask. now rewrite Hs.
Qed.

Lemma resolve_end_of_input_witness :
  lookup "R" (graph (world_of optional_graph))
  = Some (mk_node [("optional", JList [JStr "c2"; JStr "c"])] [])
  /\ stdin (world_of optional_graph) = []
  /\ resolve no_ports (fun l => l) (fun l => l) by_first_node by_first_node
      true "R" true (world_of optional_graph)
     = (world_of optional_graph, Raise EOFError).
Proof.
  split; [reflexivity|]. split; [reflexivity|].
  exact (resolve_end_of_input no_ports (fun l => l) (fun l => l) by_first_node by_first_node
      "R"
           (mk_node [("optional", JList [JStr "c2"; JStr "c"])] [])
           (world_of optional_graph) optional_graph_wf eq_refl eq_refl eq_refl).
Defined.

(** X15: a yes to an optional candidate that is neither a node of the
    graph nor known to the Descriptor Source makes [resolve] raise
    [NetworkXError]: the candidate is not added, and the walk over its
    dependencies asks the graph for the successors of a node that is
    not there. *)
Theorem resolve_unknown_candidate
  (parse_metafile : string -> option (list (string * json)))
  (set_iter : list json -> list json) (view_iter : list string -> list string)
  (cycle_rank cycle_start : DiGraph -> list string -> nat)
  (root : string) (d : node_data) (c : string) (os : list json)
  (ev : input_event) (later : list input_event) (w : world) :
  wf (graph w) ->
  lookup root (graph w) = Some d ->
  get "optional" (attrs d) = JList (JStr c :: os) ->
  stdin w = ev :: later ->
  says_yes ev = true ->
  has_node (graph w) c = false ->
  parse_metafile c = None ->
  resolve parse_metafile set_iter view_iter cycle_rank cycle_start true root true w
  = (set_stdin later w, Raise NetworkXError).
Proof.
  intros Hwf Hl Ho Hs Hy Hc Hp.
  assert (Hr : has_node (graph w) root = true).
  { apply has_node_In. now apply lookup_Some_key in Hl. }
  assert (Ht : truthy (get "optional" (attrs d)) = true) by now rewrite Ho.
  destruct (collect_root_optional (graph w) root d Hwf Hl Ht) as [deps [rest Hcol]].
  unfold resolve, ensure_root. rewrite Hr. unfold gather. rewrite Hcol, Ho.
  cbn [andb ask_all iter ask_each]. unfold ask. rewrite Hs, Hy.
  cbn [set_stdin graph]. rewrite Hc. unfold add_package_from_metafile. rewrite Hp.
  unfold walk_fuel. cbn [merge_optional]. unfold successors.
  assert (Hn : lookup c (graph w) = None).
  { apply lookup_None. intros H. apply has_node_In in H. congruence. }
  cbn [set_stdin graph]. now rewrite Hn.
Qed.

Lemma resolve_unknown_candidate_witness :
  lookup "R" (graph ghost_world) = Some (mk_node [("optional", JList [JStr "ghost"])] [])
  /\ says_yes (Line "yes") = true
  /\ has_node (graph ghost_world) "ghost" = false
  /\ resolve no_ports (fun l => l) (fun l => l) by_first_node by_first_node
      true "R" true ghost_world
     = (set_stdin [] ghost_world, Raise NetworkXError).
Proof.
  split; [reflexivity|]. split; [reflexivity|]. split; [reflexivity|].
  refine (resolve_unknown_candidate no_ports (fun l => l) (fun l => l) by_first_node by_first_node
      "R"
            (mk_node [("optional", JList [JStr "ghost"])] []) "ghost" [] (Line "yes") []
            ghost_world _ eq_refl eq_refl eq_refl eq_refl eq_refl eq_refl).
  apply wf_add_node, wf_empty.
Defined.

(* ================================================================== *)
(** ** Breadth-first search finds the shortest walks *)

Lemma walk_snoc (G : DiGraph) (n : nat) (u v t : string) :
  walk G n u v -> edge G v t -> walk G (S n) u t.
Proof.
  induction 1 as [u|n u x v He Hw IH]; intros Ht.
  - apply walk_step with t; [exact Ht | constructor].
  - apply walk_step with x; auto.
Qed.

Lemma walk_last (G : DiGraph) (n : nat) (u t : string) :
  walk G (S n) u t -> exists v, walk G n u v /\ edge G v t.
Proof.
  revert u. induction n as [|n IH]; intros u Hw.
  - inversion Hw as [|? ? v ? He Hw']; subst. inversion Hw'; subst.
    exists u. split; [constructor | exact He].
  - inversion Hw as [|? ? x ? He Hw']; subst.
    destruct (IH x Hw') as [v [Hv Hvt]]. exists v. split; [|exact Hvt].
    now apply walk_step with x.
Qed.

Lemma walk_path (G : DiGraph) (n : nat) (u v : string) :
  walk G (S n) u v -> path G u v.
Proof.
  revert u. induction n as [|n IH]; intros u Hw;
    inversion Hw as [|? ? x ? He Hw']; subst.
  - inversion Hw'; subst. now apply path_edge.
  - apply path_step with x; auto.
Qed.

Lemma path_walk (G : DiGraph) (u v : string) :
  path G u v -> exists n, walk G (S n) u v.
Proof.
  induction 1 as [a b He|a b t He _ [n IH]].
  - exists 0. apply walk_step with b; [exact He | constructor].
  - exists (S n). now apply walk_step with b.
Qed.

Lemma reachable_walk (G : DiGraph) (u v : string) :
  reachable G u v <-> exists n, walk G n u v.
Proof.
  split.
  - intros [<-|Hp]; [exists 0; constructor|].
    destruct (path_walk G u v Hp) as [n Hn]. now exists (S n).
  - intros [[|n] Hw]; [inversion Hw; now left | right; now apply walk_path with n].
Qed.

Lemma expand_In (G : DiGraph) (frontier : list string) :
  forall seen y,
    In y (expand G frontier seen)
    <-> ~ In y seen /\ exists u, In u frontier /\ edge G u y.
Proof.
  induction frontier as [|u rest IH]; intros seen y.
  - simpl. split; [tauto|]. intros [_ [x [[] _]]].
  - cbn [expand]. rewrite in_app_iff, IH, filter_In, negb_true_iff, mem_false, succ_of_edge.
    rewrite in_app_iff, filter_In, negb_true_iff, mem_false, succ_of_edge. split.
    + intros [[He Hs]|[Hn [x [Hx Hxy]]]].
      * split; [exact Hs|]. exists u. split; [now left | exact He].
      * split; [tauto|]. exists x. split; [now right | exact Hxy].
    + intros [Hs [x [[<-|Hx] Hxy]]]; [now left|].
      destruct (in_dec string_dec y (succ_of G u)) as [Hy|Hy].
      * left. split; [now apply succ_of_edge | exact Hs].
      * right. split.
        -- intros [H|[H _]]; [contradiction|]. apply Hy. now apply succ_of_edge.
        -- now exists x.
Qed.

(** what [bfs] keeps true from one level to the next: [frontier] holds
    the nodes whose shortest walk from [s] has [dist] edges, [seen]
    those within [dist] edges, and the seen nodes behind the frontier
    have all their successors seen *)
Lemma bfs_level (G : DiGraph) (s target : string) (fuel : nat) :
  forall frontier seen dist r,
    (forall x, In x frontier <-> shortest G dist s x) ->
    (forall x, In x seen <-> exists m, m <= dist /\ walk G m s x) ->
    (forall u y, In u seen -> ~ In u frontier -> edge G u y -> In y seen) ->
    (In target seen -> In target frontier) ->
    bfs fuel G frontier seen target dist = r ->
    match r with
    | Ok n => shortest G n s target
    | Raise NetworkXNoPath => forall m, ~ walk G m s target
    | Raise _ => True
    end.
Proof.
  induction fuel as [|fuel IH]; intros frontier seen dist r HF HS HC HT Hr;
    cbn [bfs] in Hr; destruct (mem target frontier) eqn:Em.
  - subst r. apply HF. now apply mem_In.
  - now subst r.
  - subst r. apply HF. now apply mem_In.
  - apply mem_false in Em.
    assert (Hclosed : expand G frontier seen = [] ->
                      forall u y, In u seen -> edge G u y -> In y seen).
    { intros Hnil u y Hu Huy.
      destruct (in_dec string_dec u frontier) as [Hf|Hf]; [|now apply (HC u y)].
      destruct (in_dec string_dec y seen) as [Hy|Hy]; [exact Hy|]. exfalso.
      assert (Hin : In y (expand G frontier seen)).
      { apply expand_In. split; [exact Hy|]. now exists u. }
      now rewrite Hnil in Hin. }
    destruct (expand G frontier seen) as [|z next] eqn:Ex.
    + subst r. intros m Hw.
      assert (Hall : forall k x, walk G k s x -> In x seen).
      { intros k. induction k as [|k IHk]; intros x Hx.
        - inversion Hx; subst. apply HS. exists 0. split; [lia | constructor].
        - destruct (walk_last G k s x Hx) as [v [Hv Hvx]].
          apply (Hclosed eq_refl v x); auto. }
      apply Em, HT. now apply (Hall m).
    + rewrite <- Ex in *. clear z next Ex Hclosed.
      set (next := expand G frontier seen) in *.
      apply (IH next (seen ++ next) (S dist) r); auto.
      * intros x. unfold next. rewrite expand_In. split.
        -- intros [Hs [u [Hu Hux]]]. split.
           ++ apply walk_snoc with u; [now apply HF | exact Hux].
           ++ intros m Hm Hw. apply Hs, HS. exists m. split; [lia | exact Hw].
        -- intros [Hw Hmin].
           assert (Hs : ~ In x seen).
           { intros H. apply HS in H as [m [Hm Hwm]]. apply (Hmin m); [lia | exact Hwm]. }
           split; [exact Hs|].
           destruct (walk_last G dist s x Hw) as [u [Hu Hux]]. exists u.
           split; [|exact Hux].
           destruct (in_dec string_dec u frontier) as [Hf|Hf]; [exact Hf|]. exfalso.
           apply Hs. apply (HC u x); auto. apply HS. exists dist. split; [lia | exact Hu].
      * intros x. rewrite in_app_iff. split.
        -- intros [H|H].
           ++ apply HS in H as [m [Hm Hw]]. exists m. split; [lia | exact Hw].
           ++ unfold next in H. apply expand_In in H as [_ [u [Hu Hux]]].
              exists (S dist). split; [lia|].
              apply walk_snoc with u; [now apply HF | exact Hux].
        -- intros [m [Hm Hw]].
           destruct (le_lt_eq_dec m (S dist) Hm) as [Hlt|Heq].
           ++ left. apply HS. exists m. split; [lia | exact Hw].
           ++ subst m. destruct (in_dec string_dec x seen) as [Hx|Hx]; [now left|]. right.
              destruct (walk_last G dist s x Hw) as [u [Hu Hux]].
              assert (Hus : In u seen).
              { apply HS. exists dist. split; [lia | exact Hu]. }
              unfold next. apply expand_In. split; [exact Hx|]. exists u.
              split; [|exact Hux].
              destruct (in_dec string_dec u frontier) as [Hf|Hf]; [exact Hf|]. exfalso.
              apply Hx. now apply (HC u x).
      * intros u y Hu Hn Huy. apply in_app_iff in Hu as [Hu|Hu]; [|contradiction].
        apply in_app_iff.
        destruct (in_dec string_dec y seen) as [Hy|Hy]; [now left|].
        destruct (in_dec string_dec u frontier) as [Hf|Hf].
        -- right. unfold next. apply expand_In. split; [exact Hy|]. now exists u.
        -- left. now apply (HC u y).
      * intros Ht. apply in_app_iff in Ht as [Ht|Ht]; [|exact Ht].
        exfalso. apply Em. now apply HT.
Qed.

(** [shortest_path_length] is the number of edges of a shortest walk,
    and raises [NetworkXNoPath] when there is no walk *)
Lemma shortest_path_length_spec (G : DiGraph) (s t : string) :
  wf G -> In s (nodes G) -> In t (nodes G) ->
  (exists n, shortest_path_length G s t = Ok n /\ shortest G n s t)
  \/ (shortest_path_length G s t = Raise NetworkXNoPath /\ forall m, ~ walk G m s t).
Proof.
  intros Hwf Hs Ht. unfold shortest_path_length.
  apply has_node_In in Hs, Ht. rewrite Hs, Ht. cbn [negb orb].
  apply has_node_In in Hs.
  pose proof (bfs_ends G t (length G) Hwf [s] [s] 0) as Hends.
  pose proof (bfs_level G s t (length G) [s] [s] 0
                (bfs (length G) G [s] [s] t 0)) as Hlevel.
  assert (H : match bfs (length G) G [s] [s] t 0 with
              | Ok n => shortest G n s t
              | Raise NetworkXNoPath => forall m, ~ walk G m s t
              | Raise _ => True
              end).
  { apply Hlevel; auto.
    - intros x. split.
      + intros [<-|[]]. split; [constructor | intros m Hm; lia].
      + intros [Hw _]. inversion Hw; subst. now left.
    - intros x. split.
      + intros [<-|[]]. exists 0. split; [lia | constructor].
      + intros [m [Hm Hw]]. assert (m = 0) by lia. subst m. inversion Hw; subst. now left.
    - intros u y Hu Hn. contradiction. }
  destruct (bfs (length G) G [s] [s] t 0) as [n|e] eqn:E.
  - left. now exists n.
  - destruct (bfs_raise G t _ _ _ _ _ E) as [He|He]; subst e.
    + right. now split.
    + exfalso. apply Hends; auto.
      * constructor; [intros [] | constructor].
      * intros x [<-|[]]. exact Hs.
      * simpl. lia.
Qed.

Lemma has_path_reachable (G : DiGraph) (s t : string) :
  wf G -> In s (nodes G) -> In t (nodes G) ->
  (has_path G s t = Ok true /\ reachable G s t)
  \/ (has_path G s t = Ok false /\ ~ reachable G s t).
Proof.
  intros Hwf Hs Ht. unfold has_path.
  destruct (shortest_path_length_spec G s t Hwf Hs Ht) as [[n [-> [Hw _]]]|[-> Hno]].
  - left. split; [reflexivity|]. apply reachable_walk. now exists n.
  - right. split; [reflexivity|]. intros H. apply reachable_walk in H as [m Hm].
    now apply (Hno m).
Qed.


(* ================================================================== *)
(** ** The packages to rebuild *)



Lemma insert_desc_sorted (key : string -> nat) (x : string) (l : list string) :
  StronglySorted (fun a b => key b <= key a) l ->
  StronglySorted (fun a b => key b <= key a) (insert_desc key x l).
Proof.
  induction 1 as [|y l Hs IH Hy]; simpl.
  - constructor; constructor.
  - destruct (key y <=? key x) eqn:E.
    + apply Nat.leb_le in E. constructor; [now constructor|].
      constructor; [exact E|]. apply Forall_forall. intros z Hz.
      rewrite Forall_forall in Hy. specialize (Hy z Hz). lia.
    + apply Nat.leb_gt in E. constructor; [exact IH|].
      apply Forall_forall. intros z Hz. apply insert_desc_In in Hz as [->|Hz]; [lia|].
      rewrite Forall_forall in Hy. now apply Hy.
Qed.

Lemma sorted_desc_sorted (key : string -> nat) (l : list string) :
  StronglySorted (fun a b => key b <= key a) (sorted_desc key l).
Proof.
  induction l as [|x l IH]; simpl; [constructor | now apply insert_desc_sorted].
Qed.






Lemma chain_graph_wf : wf chain_graph.
Proof. unfold chain_graph. repeat apply wf_add_edge. apply wf_empty. Qed.


(** X17: the list that [mark_for_rebuild] returns is in order of
    distance to the package, largest first, where the distance of a
    node that reaches the package is the number of edges of a shortest
    walk to it, and the distance of any other name is zero. *)
Theorem mark_for_rebuild_order
  (db_revdeps : string -> result (list string)) (set_iter : list json -> list json)
  (pkg : string) (w : world) (out : list string) :
  wf (graph w) ->
  mark_for_rebuild db_revdeps set_iter pkg w = Ok out ->
  StronglySorted (fun a b => distance (graph w) pkg b <= distance (graph w) pkg a) out
  /\ (forall v, In pkg (nodes (graph w)) -> In v (nodes (graph w)) ->
                reachable (graph w) v pkg ->
                shortest (graph w) (distance (graph w) pkg v) v pkg)
  /\ (forall v, ~ (In pkg (nodes (graph w)) /\ In v (nodes (graph w))
                   /\ reachable (graph w) v pkg) ->
                distance (graph w) pkg v = 0).
Proof.
  intros Hwf Hm. split; [|split].
  - unfold mark_for_rebuild in Hm.
    destruct (db_revdeps pkg) as [lines|e0]; cbn [bind] in Hm; [|discriminate].
    destruct (if has_node (graph w) pkg then with_path (graph w) (nodes (graph w)) pkg
              else Ok []) as [fg|e]; cbn [bind] in Hm; [|discriminate].
    inversion Hm; subst out. apply sorted_desc_sorted.
  - intros v Hp Hv Hr. unfold distance.
    destruct (shortest_path_length_spec (graph w) v pkg Hwf Hv Hp) as [[n [-> Hn]]|[_ Hno]];
      [exact Hn|].
    exfalso. apply reachable_walk in Hr as [m Hw]. now apply (Hno m).
  - intros v Hnot. unfold distance.
    destruct (shortest_path_length (graph w) v pkg) as [n|e] eqn:E; [|reflexivity].
    exfalso. apply Hnot. unfold shortest_path_length in E.
    destruct (has_node (graph w) v) eqn:Hv; [|discriminate].
    destruct (has_node (graph w) pkg) eqn:Hp; [|discriminate].
    apply has_node_In in Hv, Hp.
    destruct (has_path_reachable (graph w) v pkg Hwf Hv Hp) as [[_ Hr]|[He _]]; [tauto|].
    unfold has_path, shortest_path_length in He.
    apply has_node_In in Hv, Hp. rewrite Hv, Hp in He. cbn [negb orb] in He, E.
    rewrite E in He. discriminate.
Qed.

Lemma mark_for_rebuild_order_witness :
  mark_for_rebuild no_revdeps (fun l => l) "C" (world_of chain_graph) = Ok ["A"; "B"; "C"]
  /\ StronglySorted (fun a b => distance chain_graph "C" b <= distance chain_graph "C" a)
       ["A"; "B"; "C"].
Proof.
  split; [reflexivity|].
  exact (proj1 (mark_for_rebuild_order no_revdeps (fun l => l) "C" (world_of chain_graph)
                  ["A"; "B"; "C"] chain_graph_wf eq_refl)).
Defined.

(* ================================================================== *)
(** ** What a cache file that loads puts into the graph *)

Lemma load_nodes_effect (items : list (string * json)) :
  forall G G',
    load_nodes items G = (G', Ok tt) ->
    (forall m, In m (nodes G') <-> In m (nodes G) \/ In m (map fst items))
    /\ (forall x y, edge G' x y <-> edge G x y)
    /\ (NoDup (map fst items) ->
        (forall k, In k (map fst items) -> ~ In k (nodes G)) ->
        forall k meta, In (k, meta) items ->
                       attrs (data_of G' k) = dict_update [] (entry_attrs meta))
    /\ (forall m, ~ In m (map fst items) -> attrs (data_of G' m) = attrs (data_of G m)).
Proof.
  induction items as [|[node meta] items IH]; intros G G' Hl.
  - simpl in Hl. inversion Hl; subst. split; [simpl; tauto|]. split; [tauto|].
    split; [intros _ _ k meta []| reflexivity].
  - cbn [load_nodes] in Hl. destruct meta as [| | |m|js]; try discriminate.
    destruct (get_or "attrs" m (JObj [])) as [| | |a|js] eqn:Ea; try discriminate.
    destruct (mem "self" (map fst a) || mem "node_for_adding" (map fst a));
      [discriminate|].
    destruct (IH _ _ Hl) as [H1 [H2 [H3 H4]]]. split; [|split; [|split]].
    + intros x. rewrite H1, In_nodes_add_node. simpl. split; [intuition|].
      intros [H|[H|H]]; auto.
    + intros x y. now rewrite H2, edge_add_node.
    + intros Hnd Hfresh k meta' Hin. cbn [map fst] in Hnd.
      inversion Hnd as [|? ? Hnode Hnd']; subst.
      destruct Hin as [Heq|Hin].
      * inversion Heq; subst k meta'. rewrite (H4 node Hnode), data_of_add_node_eq.
        cbn [attrs entry_attrs]. rewrite Ea.
        assert (Hno : lookup node G = None).
        { apply lookup_None. apply Hfresh. now left. }
        unfold data_of. now rewrite Hno.
      * apply H3; auto. intros k' Hk' Hin'. apply In_nodes_add_node in Hin' as [->|Hin'].
        -- contradiction.
        -- apply (Hfresh k'); [now right | exact Hin'].
    + intros x Hx. rewrite H4 by (intros H; apply Hx; now right).
      rewrite data_of_add_node_neq; [reflexivity|]. intros ->. apply Hx. now left.
Qed.

Lemma load_deps_effect (node : string) (deps : list json) :
  forall G G',
    load_deps node deps G = (G', Ok tt) ->
    In node (nodes G) ->
    (forall m, In m (nodes G') <-> In m (nodes G) \/ In (JStr m) deps)
    /\ (forall x y, edge G' x y <-> edge G x y \/ (x = node /\ In (JStr y) deps))
    /\ (forall m, attrs (data_of G' m) = attrs (data_of G m)).
Proof.
  induction deps as [|d deps IH]; intros G G' Hl Hn.
  - simpl in Hl. inversion Hl; subst. simpl. repeat split; tauto.
  - cbn [load_deps] in Hl. destruct d as [|s|l|o|js]; try discriminate.
    assert (Hn' : In node (nodes (add_edge node s G))).
    { apply In_nodes_add_edge. now left. }
    destruct (IH _ _ Hl Hn') as [H1 [H2 H3]]. split; [|split].
    + intros x. rewrite H1, In_nodes_add_edge. simpl. split.
      * intros [[->|[->|H]]|H]; auto.
      * intros [H|[H|H]]; auto. inversion H; subst. auto.
    + intros x y. rewrite H2, edge_add_edge. simpl. split.
      * intros [[H|[-> ->]]|[-> H]]; auto.
      * intros [H|[-> [H|H]]]; auto. inversion H; subst. auto.
    + intros x. rewrite H3. destruct (string_dec x node) as [->|Hne].
      * now rewrite data_of_add_edge_eq.
      * now rewrite data_of_add_edge_neq.
Qed.

Lemma load_edges_effect (items : list (string * json)) :
  forall G G',
    load_edges items G = (G', Ok tt) ->
    incl (map fst items) (nodes G) ->
    (forall m, In m (nodes G')
               <-> In m (nodes G)
                   \/ exists u meta, In (u, meta) items /\ In (JStr m) (entry_deps meta))
    /\ (forall x y, edge G' x y
                    <-> edge G x y
                        \/ exists meta, In (x, meta) items /\ In (JStr y) (entry_deps meta))
    /\ (forall m, attrs (data_of G' m) = attrs (data_of G m)).
Proof.
  induction items as [|[node meta] items IH]; intros G G' Hl Hinc.
  - simpl in Hl. inversion Hl; subst. split; [|split; [|reflexivity]].
    + intros m. split; [tauto|]. intros [H|[u [meta [[] _]]]]. exact H.
    + intros x y. split; [tauto|]. intros [H|[meta [[] _]]]. exact H.
  - cbn [load_edges] in Hl. destruct meta as [| | |m|js]; try discriminate.
    destruct (iter (get_or "deps" m (JList []))) as [deps|e] eqn:Ei; [|discriminate].
    destruct (load_deps node deps G) as [G1 [[]|e]] eqn:Hd; [|discriminate].
    assert (Hnode : In node (nodes G)) by (apply Hinc; now left).
    destruct (load_deps_effect node deps G G1 Hd Hnode) as [D1 [D2 D3]].
    assert (Hinc' : incl (map fst items) (nodes G1)).
    { intros x Hx. apply D1. left. apply Hinc. now right. }
    destruct (IH _ _ Hl Hinc') as [H1 [H2 H3]].
    assert (Hdeps : entry_deps (JObj m) = deps) by (cbn [entry_deps]; now rewrite Ei).
    split; [|split].
    + intros x. rewrite H1, D1. split.
      * intros [[H|H]|[u [meta [Hin Hx]]]]; auto.
        -- right. exists node, (JObj m). split; [now left | now rewrite Hdeps].
        -- right. exists u, meta. split; [now right | exact Hx].
      * intros [H|[u [meta [[Heq|Hin] Hx]]]]; auto.
        -- inversion Heq; subst u meta. rewrite Hdeps in Hx. auto.
        -- right. now exists u, meta.
    + intros x y. rewrite H2, D2. split.
      * intros [[H|[-> H]]|[meta [Hin Hy]]]; auto.
        -- right. exists (JObj m). split; [now left | now rewrite Hdeps].
        -- right. exists meta. split; [now right | exact Hy].
      * intros [H|[meta [[Heq|Hin] Hy]]]; auto.
        -- inversion Heq; subst x meta. rewrite Hdeps in Hy. auto.
        -- right. now exists meta.
    + intros x. now rewrite H3, D3.
Qed.

(** X18: when [_try_load_cache] accepts a cache file, the graph it
    leaves is the graph that the file describes and nothing of the
    graph before: its nodes are the keys of the file and the names
    listed as dependencies, its edges are exactly the listed
    dependencies, a key has the attributes of its entry, and a name
    that occurs only as a dependency has none. *)
Theorem try_load_cache_decodes (items : list (string * json)) (w : world) :
  cache w = Content (JObj items) ->
  loaded_from_cache (_try_load_cache w) = true ->
  let G := graph (_try_load_cache w) in
  (forall m, In m (nodes G)
             <-> In m (map fst items)
                 \/ exists u meta, In (u, meta) items /\ In (JStr m) (entry_deps meta))
  /\ (forall x y, edge G x y
                  <-> exists meta, In (x, meta) items /\ In (JStr y) (entry_deps meta))
  /\ (NoDup (map fst items) ->
      forall k meta, In (k, meta) items ->
                     node_attrs G k = Ok (dict_update [] (entry_attrs meta)))
  /\ (forall m, In m (nodes G) -> ~ In m (map fst items) -> node_attrs G m = Ok []).
Proof.
  intros Hc Hl. unfold _try_load_cache in *. rewrite Hc in *.
  unfold rebuild_graph in *.
  destruct (load_nodes items NX.empty) as [G1 [[]|e]] eqn:Hn; [|discriminate].
  destruct (load_edges items G1) as [G2 [[]|e]] eqn:He; [|discriminate].
  cbn [graph set_loaded logger set_graph].
  destruct (load_nodes_effect items NX.empty G1 Hn) as [N1 [N2 [N3 N4]]].
  assert (Hinc : incl (map fst items) (nodes G1)).
  { intros x Hx. apply N1. now right. }
  destruct (load_edges_effect items G1 G2 He Hinc) as [E1 [E2 E3]].
  assert (Hnone : forall x y, ~ edge NX.empty x y).
  { intros x y [d [H _]]. discriminate. }
  split; [|split; [|split]].
  - intros m. rewrite E1, N1. simpl. tauto.
  - intros x y. rewrite E2, N2. split; [|tauto].
    intros [H|H]; [now apply Hnone in H | exact H].
  - intros Hnd k meta Hin.
    assert (Hk : In k (nodes G2)).
    { apply E1. left. apply Hinc. apply in_map_iff. now exists (k, meta). }
    rewrite (node_attrs_data_of G2 k Hk), E3. f_equal.
    apply N3; auto.
  - intros m Hm Hout. rewrite (node_attrs_data_of G2 m Hm), E3, (N4 m Hout).
    reflexivity.
Qed.

Lemma try_load_cache_decodes_witness :
  let w := init (Content (JObj hand_cache)) [] in
  loaded_from_cache (_try_load_cache w) = true
  /\ (forall x y, edge (graph (_try_load_cache w)) x y
                  <-> exists meta, In (x, meta) hand_cache
                                   /\ In (JStr y) (entry_deps meta))
  /\ forall m, In m (nodes (graph (_try_load_cache w))) -> ~ In m (map fst hand_cache) ->
               node_attrs (graph (_try_load_cache w)) m = Ok [].
Proof.
  intros w. split; [reflexivity|].
  destruct (try_load_cache_decodes hand_cache w eq_refl eq_refl) as [_ [H1 [_ H2]]].
  split; [exact H1 | exact H2].
Defined.

(* ================================================================== *)
(** ** Export and the command line *)

Lemma load_nodes_wf (items : list (string * json)) :
  forall G, wf G -> wf (fst (load_nodes items G)).
Proof.
  induction items as [|[node meta] items IH]; intros G Hwf; [exact Hwf|].
  cbn [load_nodes]. destruct meta as [| | |m|js]; try exact Hwf.
  destruct (get_or "attrs" m (JObj [])) as [| | |a|js]; try exact Hwf.
  destruct (mem "self" (map fst a) || mem "node_for_adding" (map fst a)); [exact Hwf|].
  apply IH. now apply wf_add_node.
Qed.

Lemma load_deps_wf (node : string) (deps : list json) :
  forall G, wf G -> wf (fst (load_deps node deps G)).
Proof.
  induction deps as [|d deps IH]; intros G Hwf; [exact Hwf|].
  cbn [load_deps]. destruct d as [|s|l|o|js]; try exact Hwf.
  apply IH. now apply wf_add_edge.
Qed.

Lemma load_edges_wf (items : list (string * json)) :
  forall G, wf G -> wf (fst (load_edges items G)).
Proof.
  induction items as [|[node meta] items IH]; intros G Hwf; [exact Hwf|].
  cbn [load_edges]. destruct meta as [| | |m|js]; try exact Hwf.
  destruct (iter (get_or "deps" m (JList []))) as [deps|e]; [|exact Hwf].
  pose proof (load_deps_wf node deps G Hwf) as H.
  destruct (load_deps node deps G) as [G' [u|e]]; cbn [fst] in *; [now apply IH | exact H].
Qed.

Lemma try_load_cache_wf (w : world) : wf (graph w) -> wf (graph (_try_load_cache w)).
Proof.
  intros Hwf. unfold _try_load_cache. destruct (cache w) as [| | |data]; try exact Hwf.
  assert (H : wf (fst (rebuild_graph data))).
  { unfold rebuild_graph. destruct data as [| | |items|js]; try apply wf_empty.
    pose proof (load_nodes_wf items NX.empty wf_empty) as H1.
    destruct (load_nodes items NX.empty) as [G [u|e]]; cbn [fst] in *; [|exact H1].
    now apply load_edges_wf. }
  destruct (rebuild_graph data) as [G [u|e]]; exact H.
Qed.

Lemma new_resolver_wf (cache_graph aggressive_cache : bool) (c : cache_file)
  (i : list input_event) : wf (graph (new_resolver cache_graph aggressive_cache c i)).
Proof.
  unfold new_resolver. destruct (aggressive_cache && cache_graph).
  - apply try_load_cache_wf. apply wf_empty.
  - apply wf_empty.
Qed.



(** X20: when something that the root reaches lies on a cycle, the
    four commands that resolve a package end in four ways: [resolve]
    prints the cycles and exits with status 2, [order] prints nothing
    and exits with status 1, and [missing] and [check] exit with status
    0 after printing that nothing is missing and that all dependencies
    are present. *)
Theorem cli_on_cycle
  (parse_metafile : string -> option (list (string * json)))
  (db_revdeps : string -> result (list string))
  (set_iter : list json -> list json) (view_iter : list string -> list string)
  (cycle_rank cycle_start : DiGraph -> list string -> nat)
  (db_query : string -> db_query_reply) (db_list : db_list_reply)
  (ports_files : list string) (cache_writable out_writable : bool) (dot : dot_writer)
  (resolve_optional cache_graph prefer_cached_graph : bool)
  (root : string) (skip_installed : bool) (c : cache_file) (i : list input_event)
  (w1 : world) :
  let run := main_cli parse_metafile db_revdeps set_iter view_iter cycle_rank cycle_start
      db_query db_list
               ports_files cache_writable out_writable dot
               resolve_optional cache_graph prefer_cached_graph in
  (forall l, Permutation (view_iter l) l) ->
  ensure_root parse_metafile set_iter root
    (new_resolver cache_graph prefer_cached_graph c i) = (w1, Ok true) ->
  In root (nodes (graph w1)) ->
  (exists v, reachable (graph w1) root v /\ path (graph w1) v v) ->
  exit_status (run (CmdResolve root true) c i) = 2
  /\ (exists cycle cycles,
        stdout (run (CmdResolve root true) c i) = [PrintCycles (cycle :: cycles)])
  /\ exit_status (run (CmdOrder root skip_installed) c i) = 1
  /\ stdout (run (CmdOrder root skip_installed) c i) = []
  /\ exit_status (run (CmdMissing root) c i) = 0
  /\ stdout (run (CmdMissing root) c i)
     = [Print "No missing dependencies (or failed to resolve)."]
  /\ exit_status (run (CmdCheck root) c i) = 0
  /\ stdout (run (CmdCheck root) c i) = [Print "All dependencies present."].
Proof.
  intros run view_iter_perm He Hr Hcyc. unfold run, main_cli.
  set (w0 := new_resolver cache_graph prefer_cached_graph c i) in *.
  assert (Hwf : wf (graph w0)) by apply new_resolver_wf.
  destruct (resolve_plain_cyclic parse_metafile set_iter view_iter cycle_rank cycle_start
      view_iter_perm
              resolve_optional root w0 w1 Hwf He Hr Hcyc) as [cy [cs Hres]].
  unfold missing_deps, install_order. cbn [negb]. rewrite Hres. cbn [exit_status stdout].
  split; [reflexivity|]. split; [now exists cy, cs|]. repeat split.
Qed.

Lemma cli_on_cycle_witness :
  let w1 := new_resolver true true cycle_cache [] in
  let run := main_cli no_ports no_revdeps (fun l => l) (fun l => l) by_first_node by_first_node
      sample_db ListFailed
               [] true true DotMissing false true true in
  ensure_root no_ports (fun l => l) "A" w1 = (w1, Ok true)
  /\ In "A" (nodes (graph w1))
  /\ path (graph w1) "B" "B"
  /\ exit_status (run (CmdResolve "A" true) cycle_cache []) = 2
  /\ exit_status (run (CmdCheck "A") cycle_cache []) = 0.
Proof.
  intros w1 run.
  assert (Hg : graph w1 = cycle_graph) by reflexivity.
  assert (Hp : path (graph w1) "B" "B").
  { rewrite Hg.
    apply path_step with "C"; [eexists; split; [reflexivity | now left]|].
    apply path_step with "A"; [eexists; split; [reflexivity | now left]|].
    apply path_edge. eexists; split; [reflexivity | now left]. }
  assert (Hr : reachable (graph w1) "A" "B").
  { rewrite Hg. right. apply path_edge. eexists; split; [reflexivity | now left]. }
  assert (Hin : In "A" (nodes (graph w1))) by (rewrite Hg; now left).
  split; [reflexivity|]. split; [exact Hin|]. split; [exact Hp|].
  destruct (cli_on_cycle no_ports no_revdeps (fun l => l) (fun l => l) by_first_node by_first_node
      sample_db ListFailed
              [] true true DotMissing false true true "A" true cycle_cache [] w1
              (fun l => Permutation_refl l) eq_refl Hin (ex_intro _ "B" (conj Hr Hp)))
    as [H1 [_ [_ [_ [_ [_ [H2 _]]]]]]].
  split; [exact H1 | exact H2].
Defined.

(** X21: for a package that is neither in the graph nor known to the
    Descriptor Source every command that resolves it exits with status
    0: [resolve] prints its header and no package, [order] prints the
    name of the package alone, [missing] prints that nothing is
    missing, and [check] prints that all dependencies are present. *)
Theorem cli_unknown_package
  (parse_metafile : string -> option (list (string * json)))
  (db_revdeps : string -> result (list string))
  (set_iter : list json -> list json) (view_iter : list string -> list string)
  (cycle_rank cycle_start : DiGraph -> list string -> nat)
  (db_query : string -> db_query_reply) (db_list : db_list_reply)
  (ports_files : list string) (cache_writable out_writable : bool) (dot : dot_writer)
  (resolve_optional cache_graph prefer_cached_graph : bool)
  (root : string) (no_prompt : bool) (c : cache_file) (i : list input_event) :
  let run := main_cli parse_metafile db_revdeps set_iter view_iter cycle_rank cycle_start
      db_query db_list
               ports_files cache_writable out_writable dot
               resolve_optional cache_graph prefer_cached_graph in
  has_node (graph (new_resolver cache_graph prefer_cached_graph c i)) root = false ->
  parse_metafile root = None ->
  exit_status (run (CmdResolve root no_prompt) c i) = 0
  /\ stdout (run (CmdResolve root no_prompt) c i)
     = [Print "Resolved order (dependencies first):"]
  /\ exit_status (run (CmdOrder root false) c i) = 0
  /\ stdout (run (CmdOrder root false) c i) = [Print root]
  /\ exit_status (run (CmdMissing root) c i) = 0
  /\ stdout (run (CmdMissing root) c i)
     = [Print "No missing dependencies (or failed to resolve)."]
  /\ exit_status (run (CmdCheck root) c i) = 0
  /\ stdout (run (CmdCheck root) c i) = [Print "All dependencies present."].
Proof.
  intros run Habs Hnone. unfold run, main_cli.
  set (w0 := new_resolver cache_graph prefer_cached_graph c i) in *.
  assert (Hres : forall prompt,
             resolve parse_metafile set_iter view_iter cycle_rank cycle_start
                 resolve_optional root prompt w0
             = (logger WARNING
                  ("Package '" ++ root ++ "' not found in graph or ports tree.")%string w0,
                Ok ([], []))).
  { intros prompt. unfold resolve, ensure_root, add_package_from_metafile.
    now rewrite Habs, Hnone. }
  unfold missing_deps, install_order. rewrite !Hres.
  cbn [missing_of install_of app exit_status stdout map join]. repeat split.
Qed.

Lemma cli_unknown_package_witness :
  let run := main_cli no_ports no_revdeps (fun l => l) (fun l => l) by_first_node by_first_node
      sample_db ListFailed
               [] true true DotMissing false true true in
  has_node (graph (new_resolver true true NoFile [])) "zlib" = false
  /\ no_ports "zlib" = None
  /\ exit_status (run (CmdResolve "zlib" false) NoFile []) = 0
  /\ stdout (run (CmdOrder "zlib" false) NoFile []) = [Print "zlib"].
Proof.
  intros run. split; [reflexivity|]. split; [reflexivity|].
  destruct (cli_unknown_package no_ports no_revdeps (fun l => l) (fun l => l) by_first_node by_first_node
      sample_db
              ListFailed [] true true DotMissing false true true "zlib" false NoFile []
              eq_refl eq_refl) as [H1 [_ [_ [H2 _]]]].
  split; [exact H1 | exact H2].
Defined.

(** X22: when nothing that the root reaches lies on a cycle, [check]
    exits with status 1 if the root reaches a package that the
    database does not count as installed, and otherwise prints that
    all dependencies are present and exits with status 0; whether the
    root itself is installed does not matter. *)
Theorem cli_check_status
  (parse_metafile : string -> option (list (string * json)))
  (db_revdeps : string -> result (list string))
  (set_iter : list json -> list json) (view_iter : list string -> list string)
  (cycle_rank cycle_start : DiGraph -> list string -> nat)
  (db_query : string -> db_query_reply) (db_list : db_list_reply)
  (ports_files : list string) (cache_writable out_writable : bool) (dot : dot_writer)
  (resolve_optional cache_graph prefer_cached_graph : bool)
  (root : string) (c : cache_file) (i : list input_event) (w1 : world) :
  let run := main_cli parse_metafile db_revdeps set_iter view_iter cycle_rank cycle_start
      db_query db_list
               ports_files cache_writable out_writable dot
               resolve_optional cache_graph prefer_cached_graph in
  (forall l, Permutation (view_iter l) l) ->
  ensure_root parse_metafile set_iter root
    (new_resolver cache_graph prefer_cached_graph c i) = (w1, Ok true) ->
  In root (nodes (graph w1)) ->
  (forall v, reachable (graph w1) root v -> ~ path (graph w1) v v) ->
  (exit_status (run (CmdCheck root) c i) = 1
   <-> exists v, path (graph w1) root v /\ counts_installed db_query v = false)
  /\ (exit_status (run (CmdCheck root) c i) = 0
      <-> forall v, path (graph w1) root v -> counts_installed db_query v = true)
  /\ (exit_status (run (CmdCheck root) c i) = 0 ->
      stdout (run (CmdCheck root) c i) = [Print "All dependencies present."]).
Proof.
  intros run view_iter_perm He Hr Hacy. unfold run, main_cli.
  set (w0 := new_resolver cache_graph prefer_cached_graph c i) in *.
  assert (Hwf : wf (graph w0)) by apply new_resolver_wf.
  destruct (resolve_plain_acyclic parse_metafile set_iter view_iter cycle_rank cycle_start
      view_iter_perm
              resolve_optional root w0 w1 Hwf He Hr Hacy)
    as [rest [Hres [Hnd [Hmem _]]]].
  unfold missing_deps. rewrite Hres.
  destruct (missing_of_outcome db_query root (rest ++ [root]) w1) as [_ Hout].
  destruct (missing_of db_query root (rest ++ [root]) w1) as [w' [missing|e]];
    cbn [fst snd] in Hout.
  2:{ destruct Hout as [p [Hp1 [Hp2 Hp3]]]. cbn [exit_status stdout].
      assert (Hpp : path (graph w1) root p).
      { apply in_app_or in Hp1 as [Hp1|[Hp1|[]]]; [now apply Hmem | congruence]. }
      pose proof (counts_installed_raises db_query p e Hp3) as Hc.
      split; [|split; [|discriminate]].
      - split; [|reflexivity]. intros _. exists p. now split.
      - split; [discriminate|]. intros Hall. rewrite (Hall p Hpp) in Hc. discriminate. }
  destruct Hout as [Hm _].
  rewrite (filter_without_root (fun p => negb (counts_installed db_query p)) root rest Hnd)
    in Hm.
  assert (Hin : forall v, In v missing
                          <-> path (graph w1) root v /\ counts_installed db_query v = false).
  { intros v. rewrite Hm, filter_In, Hmem, negb_true_iff. tauto. }
  destruct missing as [|m ms]; cbn [exit_status stdout].
  - split; [|split; [|reflexivity]].
    + split; [discriminate|]. intros [v Hv]. apply Hin in Hv. destruct Hv.
    + split; [|reflexivity]. intros _ v Hv.
      destruct (counts_installed db_query v) eqn:E; [reflexivity|].
      exfalso. apply (proj2 (Hin v)). now split.
  - split; [|split; [|discriminate]].
    + split; [|reflexivity]. intros _. exists m. apply Hin. now left.
    + split; [discriminate|]. intros Hall.
      destruct (proj1 (Hin m) (or_introl eq_refl)) as [Hp Hc].
      rewrite (Hall m Hp) in Hc. discriminate.
Qed.

Lemma cli_check_status_witness :
  let w1 := new_resolver true true sample_cache [] in
  let run := main_cli sample_ports no_revdeps (fun l => l) (fun l => l) by_first_node by_first_node
      sample_db
               ListFailed [] true true DotMissing false true true in
  ensure_root sample_ports (fun l => l) "A" w1 = (w1, Ok true)
  /\ In "A" (nodes (graph w1))
  /\ (exit_status (run (CmdCheck "A") sample_cache []) = 1
      <-> exists v, path (graph w1) "A" v /\ counts_installed sample_db v = false).
Proof.
  intros w1 run.
  assert (Hg : graph w1 = graph sample_world) by reflexivity.
  assert (Hin : In "A" (nodes (graph w1))).
  { apply has_node_In. vm_compute. reflexivity. }
  split; [reflexivity|]. split; [exact Hin|].
  refine (proj1 (cli_check_status sample_ports no_revdeps (fun l => l) (fun l => l)
                   by_first_node by_first_node
                       sample_db ListFailed [] true true DotMissing false true true "A"
                   sample_cache [] w1 (fun l => Permutation_refl l) eq_refl Hin _)).
  intros v _. rewrite Hg. apply sample_world_acyclic.
Defined.

(* ================================================================== *)
(** ** What [resolve] leaves of the graph *)

(** X23: [resolve] never takes anything out of the graph: every node
    and every edge that the graph has before the call it has after it,
    whatever the answers to the prompts and however the call ends; and
    a call without prompts for a root that is already a node leaves
    the graph as it is. *)
Theorem resolve_only_grows
  (parse_metafile : string -> option (list (string * json)))
  (set_iter : list json -> list json) (view_iter : list string -> list string)
  (cycle_rank cycle_start : DiGraph -> list string -> nat)
  (resolve_optional : bool) (root : string) (prompt : bool) (w : world) :
  wf (graph w) ->
  let out := resolve parse_metafile set_iter view_iter cycle_rank cycle_start
      resolve_optional root prompt w in
  incl (nodes (graph w)) (nodes (graph (fst out)))
  /\ (forall u v, edge (graph w) u v -> edge (graph (fst out)) u v)
  /\ (prompt = false -> has_node (graph w) root = true -> graph (fst out) = graph w).
Proof.
  intros Hwf out. unfold out, resolve.
  pose proof (ensure_root_spec parse_metafile set_iter root w Hwf) as [Hwf1 [Hext1 _]].
  assert (Hkeep : has_node (graph w) root = true ->
                  ensure_root parse_metafile set_iter root w = (w, Ok true)).
  { intros H. unfold ensure_root. now rewrite H. }
  destruct (ensure_root parse_metafile set_iter root w) as [w1 [[|]|e]] eqn:He;
    cbn [fst] in *.
  2:{ split; [apply Hext1|]. split; [apply Hext1|]. intros _ H.
      specialize (Hkeep H). congruence. }
  2:{ split; [apply Hext1|]. split; [apply Hext1|]. intros _ H.
      specialize (Hkeep H). congruence. }
  pose proof (gather_spec parse_metafile set_iter resolve_optional root prompt w1 Hwf1)
    as [_ [Hext2 [_ Hplain]]].
  assert (Hgp : prompt = false ->
                fst (gather parse_metafile set_iter resolve_optional root prompt w1) = w1).
  { intros ->. unfold gather.
    destruct (collect _ _ _ _ _ _) as [[deps ota]|e]; [|reflexivity].
    now rewrite andb_false_r. }
  destruct (gather parse_metafile set_iter resolve_optional root prompt w1)
    as [w2 [deps|e]]; cbn [fst snd] in *.
  - destruct (order_or_cycles_graph cycle_rank cycle_start
      (resolved_subgraph view_iter root deps w2) w2 w2)
      as [Hg _].
    rewrite Hg. pose proof (extends_trans _ _ _ Hext1 Hext2) as [H1 H2].
    split; [exact H1|]. split; [exact H2|]. intros Hp Hr.
    specialize (Hkeep Hr). rewrite (Hgp Hp). congruence.
  - pose proof (extends_trans _ _ _ Hext1 Hext2) as [H1 H2].
    split; [exact H1|]. split; [exact H2|]. intros Hp Hr.
    specialize (Hkeep Hr). rewrite (Hgp Hp). congruence.
Qed.

Lemma resolve_only_grows_witness :
  wf (graph optional_world)
  /\ forall u v, edge (graph optional_world) u v ->
                 edge (graph (fst (resolve no_ports (fun l => l) (fun l => l) by_first_node by_first_node
                     true "R" true
                                     optional_world))) u v.
Proof.
  split; [exact optional_graph_wf|].
  exact (proj1 (proj2 (resolve_only_grows no_ports (fun l => l) (fun l => l) by_first_node by_first_node
      true "R" true
                         optional_world optional_graph_wf))).
Defined.

(* ================================================================== *)
(** ** A dependency field that is not a list of names *)

Lemma before_one (sep : string) (c : ascii) :
  prefix sep (String c EmptyString) = false ->
  before sep (String c EmptyString) = String c EmptyString.
Proof.
  intros H. cbn [before]. rewrite H. cbn [before]. now destruct (prefix sep "").
Qed.

Lemma norm_token_letter (c : ascii) :
  is_space c = false -> c <> ">"%char -> c <> "<"%char ->
  norm_token (String c EmptyString) = Ok (String c EmptyString).
Proof.
  intros Hs Hgt Hlt. unfold norm_token, split_ws. cbn [split_ws_aux]. rewrite Hs.
  cbn [split_ws_aux flush rev app string_of_list_ascii].
  assert (H2 : forall a b, prefix (String a (String b EmptyString)) (String c EmptyString)
                           = false).
  { intros a b. rewrite prefix_cons. cbn [prefix]. apply andb_false_r. }
  assert (H1 : forall a, a <> c -> prefix (String a EmptyString) (String c EmptyString)
                                   = false).
  { intros a Ha. rewrite prefix_cons. apply Ascii.eqb_neq in Ha. now rewrite Ha. }
  rewrite (before_one ">=" c (H2 _ _)), (before_one "<=" c (H2 _ _)),
    (before_one "==" c (H2 _ _)).
  rewrite (before_one ">" c) by (apply H1; congruence).
  rewrite (before_one "<" c) by (apply H1; congruence).
  reflexivity.
Qed.

Lemma norm_items_letters (l : list ascii) :
  Forall (fun c => is_space c = false /\ c <> ">"%char /\ c <> "<"%char) l ->
  norm_items (map (fun c => JStr (String c EmptyString)) l)
  = Ok (map (fun c => JStr (String c EmptyString)) l).
Proof.
  induction 1 as [|c l [Hs [Hgt Hlt]] _ IH]; [reflexivity|].
  cbn [map norm_items]. rewrite (norm_token_letter c Hs Hgt Hlt). cbn [bind].
  now rewrite IH.
Qed.

(** X24: a string given where a list of dependencies is expected is
    read letter by letter: when it holds no whitespace and no [<] or
    [>], [norm_list] makes every character a dependency name of its
    own. *)
Theorem norm_list_scalar (s : string) :
  s <> "" ->
  Forall (fun c => is_space c = false /\ c <> ">"%char /\ c <> "<"%char)
    (list_ascii_of_string s) ->
  norm_list (JStr s)
  = Ok (map (fun c => JStr (String c EmptyString)) (list_ascii_of_string s)).
Proof.
  intros Hne Hall. unfold norm_list.
  destruct s as [|c s]; [congruence|]. cbn [truthy negb iter bind]. unfold chars.
  now apply norm_items_letters.
Qed.

Lemma norm_list_scalar_witness :
  norm_list (JStr "zlib") = Ok [JStr "z"; JStr "l"; JStr "i"; JStr "b"].
Proof.
  refine (norm_list_scalar "zlib" _ _); [discriminate|].
  repeat constructor; discriminate.
Defined.

Lemma add_deps_raises (name : string) (ds : list json) (v : json) :
  In v ds -> (forall s, v <> JStr s) ->
  forall G, snd (add_deps name ds G) = Raise ValueError
            \/ snd (add_deps name ds G) = Raise TypeError.
Proof.
  intros Hin Hv. induction ds as [|d ds IH]; intros G; [destruct Hin|].
  destruct d as [|s|l|o|js]; simpl; auto.
  destruct Hin as [Heq|Hin]; [symmetry in Heq; now apply Hv in Heq|].
  destruct (String.eqb s name); now apply IH.
Qed.

(** X25: when an entry of the normalised build or runtime dependencies
    is not a string (the [name] of a structured entry is null, a list,
    a mapping or a set), [add_package_from_metafile] raises [TypeError] or
    [ValueError] after it has added the node of the package: the node
    is in the graph with the attributes of the descriptor merged in,
    and nothing that was in the graph is lost. *)
Theorem add_package_half_added
  (parse_metafile : string -> option (list (string * json)))
  (set_iter : list json -> list json) (path_or_name : string)
  (meta : list (string * json)) (name : string)
  (build_deps run_deps optional : list json) (v : json) (w : world) :
  (forall l, Permutation (set_iter l) l) ->
  parse_metafile path_or_name = Some meta ->
  name_of meta = JStr name ->
  name <> "" ->
  norm_list (build_deps_of meta) = Ok build_deps ->
  norm_list (run_deps_of meta) = Ok run_deps ->
  norm_list (optional_of meta) = Ok optional ->
  In v (build_deps ++ run_deps) ->
  (forall s, v <> JStr s) ->
  let out := add_package_from_metafile parse_metafile set_iter path_or_name w in
  (snd out = Raise TypeError \/ snd out = Raise ValueError)
  /\ node_attrs (graph (fst out)) name
     = Ok (dict_update (attrs (data_of (graph w) name)) (declared_attrs meta))
  /\ incl (nodes (graph w)) (nodes (graph (fst out)))
  /\ (forall x y, edge (graph w) x y -> edge (graph (fst out)) x y).
Proof.
  intros Hperm Hp Hname Hne Hb Hr Ho Hin Hv out. unfold out.
  assert (Ht : truthy (name_of meta) = true).
  { rewrite Hname. destruct name; [congruence | reflexivity]. }
  rewrite (add_package_from_metafile_some _ _ _ _ _ Hp Ht).
  unfold add_package, declared_attrs, normalized_optional.
  rewrite Ht, Hb, Hr, Ho, Hname. cbn [negb].
  set (A := [("version", get "version" meta); ("origin", get_or "origin" meta (JStr ""));
             ("provides", por (get "provides" meta) (JList []));
             ("optional", JList optional)]).
  set (G1 := add_node name A (graph w)).
  assert (Hn1 : In name (nodes G1)) by (apply In_nodes_add_node; now left).
  assert (Ha1 : attrs (data_of G1 name) = dict_update (attrs (data_of (graph w) name)) A).
  { unfold G1. now rewrite data_of_add_node_eq. }
  assert (He1 : extends (graph w) G1) by apply extends_add_node.
  destruct (forallb hashable (build_deps ++ run_deps)) eqn:Hh; cbn [negb].
  - set (ds := set_iter (distinct (build_deps ++ run_deps) [])).
    assert (Hds : In v ds).
    { apply (Permutation_in _ (Permutation_sym (Hperm _))).
      apply distinct_In; auto. rewrite forallb_forall in Hh. now apply Hh. }
    pose proof (add_deps_raises name ds v Hds Hv G1) as Hraise.
    pose proof (add_deps_nodes name ds G1 name Hn1) as Hn2.
    pose proof (add_deps_attrs name ds G1 name) as Ha2.
    pose proof (extends_add_deps ds name G1) as He2.
    destruct (add_deps name ds G1) as [G2 r]. cbn [fst snd] in *.
    destruct Hraise as [-> | ->]; cbn [fst snd graph set_graph].
    + split; [now right|]. split.
      * now rewrite (node_attrs_data_of G2 name Hn2), Ha2, Ha1.
      * apply (extends_trans _ _ _ He1 He2).
    + split; [now left|]. split.
      * now rewrite (node_attrs_data_of G2 name Hn2), Ha2, Ha1.
      * apply (extends_trans _ _ _ He1 He2).
  - cbn [fst snd graph set_graph]. split; [now left|]. split.
    + now rewrite (node_attrs_data_of G1 name Hn1), Ha1.
    + exact He1.
Qed.

Lemma add_package_half_added_witness :
  let meta := [("name", JStr "app");
               ("runtime", JObj [("depends", JList [JStr "libfoo";
                                                    JObj [("name", JNull)]])])] in
  let out := add_package_from_metafile (fun _ => Some meta) (fun l => l) "app"
               (init NoFile []) in
  norm_list (run_deps_of meta) = Ok [JStr "libfoo"; JNull]
  /\ snd out = Raise ValueError
  /\ node_attrs (graph (fst out)) "app" = Ok (dict_update [] (declared_attrs meta)).
Proof.
  intros meta out. split; [reflexivity|]. split; [reflexivity|].
  refine (proj1 (proj2 (add_package_half_added (fun _ => Some meta) (fun l => l) "app" meta
                          "app" [] [JStr "libfoo"; JNull] [] JNull (init NoFile [])
                          (fun l => Permutation_refl l) eq_refl eq_refl _ eq_refl eq_refl
                          eq_refl _ _))).
  - discriminate.
  - right. now left.
  - discriminate.
Defined.

Lemma cache_try_load_cache (w : world) : cache (_try_load_cache w) = cache w.
Proof.
  unfold _try_load_cache. destruct (cache w) as [| | |data] eqn:E; try now rewrite ?E.
  destruct (rebuild_graph data) as [G [u|e]]; exact E.
Qed.

Lemma cache_new_resolver (cache_graph aggressive_cache : bool) (c : cache_file)
  (i : list input_event) : cache (new_resolver cache_graph aggressive_cache c i) = c.
Proof.
  unfold new_resolver. destruct (aggressive_cache && cache_graph); [|reflexivity].
  now rewrite cache_try_load_cache.
Qed.

(** X26: two commands report success when the work was not done.
    [sync] prints that the graph was rebuilt and cached and exits with
    status 0 also when the cache file cannot be written or
    [cache_graph] is off, and then the cache file is as it was before;
    [clean] prints that there are no orphans and exits with status 0
    when the database cannot be queried. *)
Theorem cli_reports_success
  (parse_metafile : string -> option (list (string * json)))
  (db_revdeps : string -> result (list string))
  (set_iter : list json -> list json) (view_iter : list string -> list string)
  (cycle_rank cycle_start : DiGraph -> list string -> nat)
  (db_query : string -> db_query_reply) (db_list : db_list_reply)
  (ports_files : list string) (cache_writable out_writable : bool) (dot : dot_writer)
  (resolve_optional cache_graph prefer_cached_graph : bool)
  (c : cache_file) (i : list input_event) :
  let run := main_cli parse_metafile db_revdeps set_iter view_iter cycle_rank cycle_start
      db_query db_list
               ports_files cache_writable out_writable dot
               resolve_optional cache_graph prefer_cached_graph in
  stdout (run CmdSync c i) = [Print "Graph rebuilt and cached."]
  /\ exit_status (run CmdSync c i) = 0
  /\ (cache_writable && cache_graph = false -> cache (after (run CmdSync c i)) = c)
  /\ (db_list = ListFailed \/ db_list = ListRaised ->
      stdout (run CmdClean c i) = [Print "No orphans detected."]
      /\ exit_status (run CmdClean c i) = 0).
Proof.
  intros run. unfold run, main_cli. cbn [stdout exit_status after].
  split; [reflexivity|]. split; [reflexivity|]. split.
  - intros Hoff. unfold sync_from_ports, build_graph_from_ports.
    set (w0 := new_resolver cache_graph prefer_cached_graph c i).
    pose proof (scan_ports_frame parse_metafile set_iter ports_files 0
                  (logger INFO "Scanning ports tree to build dependency graph..."
                     (set_graph NX.empty w0))) as [H _].
    destruct (scan_ports parse_metafile set_iter ports_files 0 _) as [w1 count].
    cbn [fst logger set_graph cache] in H. unfold w0 in H.
    rewrite (cache_new_resolver cache_graph prefer_cached_graph c i) in H.
    destruct cache_graph; [|exact H].
    rewrite andb_true_r in Hoff. subst cache_writable. exact H.
  - intros [-> | ->]; now split.
Qed.

Lemma cli_reports_success_witness :
  let run := main_cli sample_ports no_revdeps (fun l => l) (fun l => l) by_first_node by_first_node
      sample_db
               ListFailed ["A"; "B"] false true DotMissing false true true in
  stdout (run CmdSync NoFile []) = [Print "Graph rebuilt and cached."]
  /\ cache (after (run CmdSync NoFile [])) = NoFile
  /\ stdout (run CmdClean NoFile []) = [Print "No orphans detected."].
Proof.
  intros run.
  destruct (cli_reports_success sample_ports no_revdeps (fun l => l) (fun l => l) by_first_node by_first_node
      sample_db
              ListFailed ["A"; "B"] false true DotMissing false true true NoFile [])
    as [H1 [_ [H2 H3]]].
  split; [exact H1|]. split; [exact (H2 eq_refl)|].
  exact (proj1 (H3 (or_introl eq_refl))).
Defined.
